(** * srsENB control plane: PUCCH resource grids, security selection,
      RRC transaction ids, uplink MAC PDU handling and measurement deltas.

    Shallow embedding of
      - srsenb/src/stack/rrc/rrc.cc   (rrc::ue::sr_allocate, sr_free,
        cqi_allocate, cqi_free, select_security_algorithms, the senders of
        RRC messages and parse_ul_dcch),
      - srsenb/src/stack/mac/ue.cc    (ue::get_rx_softbuffer,
        get_tx_softbuffer, process_pdu, process_ce, allocate_cc_buffers),
    and of the measurement-configuration delta described for
    var_meas_cfg_t::compute_diff_meas_cfg. *)

From Stdlib Require Import ZArith Lia List Bool.
From stdpp Require Import base tactics option list numbers sorting gmap fin_maps.
From Equations Require Import Equations.

Local Open Scope Z_scope.

(** ** Fixed-width unsigned integers *)

(** A [w]-bit unsigned value is a [Z]; every store into a [uintw_t] object
    reduces modulo [2^w]. *)
Definition wrap (w x : Z) : Z := x mod 2 ^ w.
Definition u8 (x : Z) : Z := wrap 8 x.
Definition u16 (x : Z) : Z := wrap 16 x.
Definition u32 (x : Z) : Z := wrap 32 x.

Definition UINT32_MAX : Z := 2 ^ 32 - 1.

(** [(int)x] for a 32-bit unsigned [x]. *)
Definition int32_of_u32 (x : Z) : Z :=
  if x <? 2 ^ 31 then x else x - 2 ^ 32.

(** * PUCCH resource grids (rrc.cc, sr_allocate .. cqi_allocate) *)

Module Pucch.

Inductive srslte_cp_t := SRSLTE_CP_NORM | SRSLTE_CP_EXT.

Definition SRSLTE_CP_ISNORM (cp : srslte_cp_t) : bool :=
  match cp with SRSLTE_CP_NORM => true | SRSLTE_CP_EXT => false end.

(** [pucch_cfg_common.delta_pucch_shift], an enumerated ASN.1 field. *)
Inductive delta_pucch_shift_e := ds1 | ds2 | ds3.

Definition to_number (d : delta_pucch_shift_e) : Z :=
  match d with ds1 => 1 | ds2 => 2 | ds3 => 3 end.

(** The part of [parent->cfg.cell] and [parent->sib2] the allocators read. *)
Record cell_cfg_t := {
  cp : srslte_cp_t;
  delta_pucch_shift : delta_pucch_shift_e;
  ncs_an : Z
}.

(** [parent->cfg.sr_cfg] and [parent->cfg.cqi_cfg]: loop bounds and the
    subframe table [sf_mapping], an array read by index. *)
Record res_cfg_t := {
  nof_prb : nat;
  nof_subframes : nat;
  sf_mapping : nat -> Z
}.

(** [sr_sched.nof_users] / [cqi_sched.nof_users]: a two-dimensional array
    of 32-bit counters, read as a map from (prb, subframe) indices. *)
Definition grid := nat -> nat -> Z.

Definition grid_set (g : grid) (i j : nat) (v : Z) : grid :=
  fun i' j' => if decide (i' = i /\ j' = j) then v else g i' j'.

(** The per-user handle: [sr_allocated], [sr_sched_prb_idx],
    [sr_sched_sf_idx], [sr_I], [sr_N_pucch] (and the [cqi_] twins). *)
Record handle_t := {
  allocated : bool;
  sched_prb_idx : nat;
  sched_sf_idx : nat;
  res_idx : Z;
  res_pucch : Z
}.

Definition no_handle : handle_t :=
  {| allocated := false; sched_prb_idx := 0; sched_sf_idx := 0;
     res_idx := 0; res_pucch := 0 |}.

Inductive pucch_log_t :=
| err_not_enough_pucch
| err_invalid_period (period : Z)
| err_invalid_sf_idx (sf period : Z)
| warn_no_users (prb sf : nat)
| info_deallocated (prb sf : nat)
| info_allocated (prb sf : nat) (n_pucch idx : Z).

(** Outcome of an allocator call: return value 0 with the two output
    parameters written, or return value -1. *)
Inductive alloc_ret :=
| ret_ok (idx n_pucch : Z)
| ret_error.

(** [max_users = 12 * c / delta_pucch_shift] *)
Definition max_users (cell : cell_cfg_t) : Z :=
  let c := if SRSLTE_CP_ISNORM (cp cell) then 3 else 2 in
  u32 (u32 (12 * c) / to_number (delta_pucch_shift cell)).

(** One comparison of the inner loop body. *)
Definition least_step (g : grid) (acc : nat * nat * Z) (i j : nat)
  : nat * nat * Z :=
  let '(i_min, j_min, min_users) := acc in
  if g i j <? min_users then (i, j, g i j) else acc.

(** [for (j = 0; j < nof_subframes; j++)] *)
Definition least_row (g : grid) (nsf : nat) (acc : nat * nat * Z) (i : nat)
  : nat * nat * Z :=
  fold_left (fun a j => least_step g a i j) (seq 0 nsf) acc.

(** [for (i = 0; i < nof_prb; i++)] around it, from
    [i_min = 0, j_min = 0, min_users = UINT32_MAX]. *)
Definition find_least_users (g : grid) (cfg : res_cfg_t) : nat * nat * Z :=
  fold_left (least_row g (nof_subframes cfg)) (seq 0 (nof_prb cfg))
            (0%nat, 0%nat, UINT32_MAX).

Definition least_slot (g : grid) (cfg : res_cfg_t) : nat * nat :=
  fst (find_least_users g cfg).

Definition sr_period_invalid (period : Z) : bool :=
  negb ((period =? 5) || (period =? 10) || (period =? 20) ||
        (period =? 40) || (period =? 80)).

(** [n_pucch = i_min * max_users + nof_users[i_min][j_min]], stored into a
    16-bit output, then [+= ncs_an] when [ncs_an] is non-zero. *)
Definition n_pucch_of (cell : cell_cfg_t) (g : grid) (i_min j_min : nat) : Z :=
  let n := u16 (u32 (Z.of_nat i_min * max_users cell + g i_min j_min)) in
  if ncs_an cell =? 0 then n else u16 (n + ncs_an cell).

(** rrc::ue::sr_allocate *)
Definition sr_allocate (cell : cell_cfg_t) (cfg : res_cfg_t)
    (g : grid) (u : handle_t) (period : Z)
  : alloc_ret * grid * handle_t * list pucch_log_t :=
  let '(i_min, j_min, _) := find_least_users g cfg in
  if max_users cell <? g i_min j_min then
    (ret_error, g, u, [err_not_enough_pucch])
  else if sr_period_invalid period then
    (ret_error, g, u, [err_invalid_period period])
  else if sf_mapping cfg j_min <? period then
    let I_sr := u8 (u32 (period - 5 + sf_mapping cfg j_min)) in
    let N_pucch_sr := n_pucch_of cell g i_min j_min in
    let g' := grid_set g i_min j_min (u32 (g i_min j_min + 1)) in
    let u' := {| allocated := true; sched_prb_idx := i_min;
                 sched_sf_idx := j_min;
                 res_idx := I_sr; res_pucch := N_pucch_sr |} in
    (ret_ok I_sr N_pucch_sr, g', u',
     [info_allocated i_min j_min N_pucch_sr I_sr])
  else
    (ret_error, g, u, [err_invalid_sf_idx (sf_mapping cfg j_min) period]).

(** rrc::ue::sr_free and rrc::ue::cqi_free have one body, over their own
    grid and handle. *)
Definition res_free (g : grid) (u : handle_t) : grid * list pucch_log_t :=
  if allocated u then
    let i := sched_prb_idx u in
    let j := sched_sf_idx u in
    if 0 <? g i j then
      (grid_set g i j (u32 (g i j - 1)), [info_deallocated i j])
    else
      (g, [warn_no_users i j; info_deallocated i j])
  else (g, []).

Definition sr_free := res_free.
Definition cqi_free := res_free.

Definition cqi_period_invalid (period : Z) : bool :=
  negb ((period =? 2) || (period =? 5) || (period =? 10) || (period =? 20) ||
        (period =? 40) || (period =? 80) || (period =? 160) ||
        (period =? 32) || (period =? 64) || (period =? 128)).

(** The [pmi_idx] bands of cqi_allocate. *)
Definition pmi_idx_of (period sf : Z) : Z :=
  if negb ((period =? 32) || (period =? 64) || (period =? 128)) then
    if 2 <? period then u16 (u32 (period - 3 + sf)) else u16 sf
  else if period =? 32 then u16 (u32 (318 + sf))
  else if period =? 64 then u16 (u32 (350 + sf))
  else u16 (u32 (414 + sf)).

(** rrc::ue::cqi_allocate *)
Definition cqi_allocate (cell : cell_cfg_t) (cfg : res_cfg_t)
    (g : grid) (u : handle_t) (period : Z)
  : alloc_ret * grid * handle_t * list pucch_log_t :=
  let '(i_min, j_min, _) := find_least_users g cfg in
  if max_users cell <? g i_min j_min then
    (ret_error, g, u, [err_not_enough_pucch])
  else if cqi_period_invalid period then
    (ret_error, g, u, [err_invalid_period period])
  else if sf_mapping cfg j_min <? period then
    let pmi_idx := pmi_idx_of period (sf_mapping cfg j_min) in
    let n_pucch := n_pucch_of cell g i_min j_min in
    let g' := grid_set g i_min j_min (u32 (g i_min j_min + 1)) in
    let u' := {| allocated := true; sched_prb_idx := i_min;
                 sched_sf_idx := j_min;
                 res_idx := pmi_idx; res_pucch := n_pucch |} in
    (ret_ok pmi_idx n_pucch, g', u',
     [info_allocated i_min j_min n_pucch pmi_idx])
  else
    (ret_error, g, u, [err_invalid_sf_idx (sf_mapping cfg j_min) period]).

(** Slots visited when the outer loop is at row [i] and the inner loop at
    column [m]. *)
Definition seen (nsf i m : nat) (i' j' : nat) : Prop :=
  (i' < i /\ j' < nsf)%nat \/ (i' = i /\ j' < m)%nat.

(** Row-major order of the two loops. *)
Definition before (i' j' i j : nat) : Prop :=
  (i' < i)%nat \/ (i' = i /\ j' < j)%nat.

(** What the search has established when it stands at row [i], column
    [m]: its minimum bounds every visited counter, and either nothing was
    selected yet or the selected slot is the first visited one holding
    that minimum. *)
Definition least_inv (g : grid) (nsf i m : nat) (acc : nat * nat * Z) : Prop :=
  let '(i_min, j_min, mu) := acc in
  (forall i' j', seen nsf i m i' j' -> mu <= g i' j') /\
  ((i_min, j_min, mu) = (0%nat, 0%nat, UINT32_MAX) \/
   (mu = g i_min j_min /\ seen nsf i m i_min j_min /\
    forall i' j', before i' j' i_min j_min -> seen nsf i m i' j' ->
                  mu < g i' j')).

(** Reading of "no slot has free capacity": every slot of the configured
    grid already holds [max_users] users. *)
Definition no_free_capacity (cell : cell_cfg_t) (cfg : res_cfg_t) (g : grid)
  : Prop :=
  forall i j, (i < nof_prb cfg)%nat -> (j < nof_subframes cfg)%nat ->
              max_users cell <= g i j.

(** The Scheduling-Request allocator as first described: the least-loaded
    slot is chosen, the call fails, leaving the grid alone, exactly when no
    slot has free capacity, and a successful call returns
    [I_sr = period - 5 + sf_mapping[sf_slot]] and
    [n_pucch = prb_slot * max_users + users[slot] + ncs_an] and counts the
    user in the chosen slot. *)
Definition sr_described (cell : cell_cfg_t) (cfg : res_cfg_t)
    (g : grid) (u : handle_t) (period : Z) : Prop :=
  let i := fst (least_slot g cfg) in
  let j := snd (least_slot g cfg) in
  let '(r, g', _, _) := sr_allocate cell cfg g u period in
  (forall i' j', (i' < nof_prb cfg)%nat -> (j' < nof_subframes cfg)%nat ->
                 g i j <= g i' j') /\
  (r = ret_error <-> no_free_capacity cell cfg g) /\
  (r = ret_error -> g' = g) /\
  (r <> ret_error ->
   r = ret_ok (period - 5 + sf_mapping cfg j)
              (Z.of_nat i * max_users cell + g i j + ncs_an cell) /\
   g' = grid_set g i j (g i j + 1)).

(** ** The station-wide view: both grids and the table of users *)

Record rrc_cfg_t := {
  cell : cell_cfg_t;
  sr_cfg : res_cfg_t;
  cqi_cfg : res_cfg_t
}.

(** The resource handles of one rrc::ue object. *)
Record rrc_ue_t := {
  sr : handle_t;
  cqi : handle_t
}.

Record rrc_t := {
  sr_sched : grid;
  cqi_sched : grid;
  users : gmap Z rrc_ue_t
}.

Inductive op_t :=
| op_add_user (rnti : Z)
| op_sr_allocate (rnti period : Z)
| op_cqi_allocate (rnti period : Z)
| op_sr_free (rnti : Z)
| op_cqi_free (rnti : Z)
| op_rem_user (rnti : Z).

(** rrc::add_user, the four handle operations called on the user found
    under [rnti], and rrc::rem_user, which frees both handles and erases
    the user. *)
Definition step (cfg : rrc_cfg_t) (st : rrc_t) (op : op_t) : rrc_t :=
  match op with
  | op_add_user rnti =>
      match users st !! rnti with
      | None =>
          {| sr_sched := sr_sched st; cqi_sched := cqi_sched st;
             users := <[rnti := {| sr := no_handle; cqi := no_handle |}]>
                        (users st) |}
      | Some _ => st
      end
  | op_sr_allocate rnti period =>
      match users st !! rnti with
      | Some ue =>
          let '(_, g', h', _) :=
            sr_allocate (cell cfg) (sr_cfg cfg) (sr_sched st) (sr ue) period in
          {| sr_sched := g'; cqi_sched := cqi_sched st;
             users := <[rnti := {| sr := h'; cqi := cqi ue |}]> (users st) |}
      | None => st
      end
  | op_cqi_allocate rnti period =>
      match users st !! rnti with
      | Some ue =>
          let '(_, g', h', _) :=
            cqi_allocate (cell cfg) (cqi_cfg cfg) (cqi_sched st) (cqi ue)
                         period in
          {| sr_sched := sr_sched st; cqi_sched := g';
             users := <[rnti := {| sr := sr ue; cqi := h' |}]> (users st) |}
      | None => st
      end
  | op_sr_free rnti =>
      match users st !! rnti with
      | Some ue =>
          {| sr_sched := fst (sr_free (sr_sched st) (sr ue));
             cqi_sched := cqi_sched st; users := users st |}
      | None => st
      end
  | op_cqi_free rnti =>
      match users st !! rnti with
      | Some ue =>
          {| sr_sched := sr_sched st;
             cqi_sched := fst (cqi_free (cqi_sched st) (cqi ue));
             users := users st |}
      | None => st
      end
  | op_rem_user rnti =>
      match users st !! rnti with
      | Some ue =>
          {| sr_sched := fst (sr_free (sr_sched st) (sr ue));
             cqi_sched := fst (cqi_free (cqi_sched st) (cqi ue));
             users := delete rnti (users st) |}
      | None => st
      end
  end.

Definition run (cfg : rrc_cfg_t) (st : rrc_t) (ops : list op_t) : rrc_t :=
  fold_left (step cfg) ops st.

Definition rrc_init : rrc_t :=
  {| sr_sched := fun _ _ => 0; cqi_sched := fun _ _ => 0; users := ∅ |}.

(** Every counter of a grid is a non-negative 32-bit value. *)
Definition grid_valid (g : grid) : Prop :=
  forall i j, 0 <= g i j <= UINT32_MAX.

Definition counters_valid (st : rrc_t) : Prop :=
  grid_valid (sr_sched st) /\ grid_valid (cqi_sched st).

(** The counter of the slot a handle points to. *)
Definition slot_users (g : grid) (u : handle_t) : Z :=
  g (sched_prb_idx u) (sched_sf_idx u).

(** [n] calls of the free function in a row. *)
Definition free_n (n : nat) (g : grid) (u : handle_t) : grid :=
  Nat.iter n (fun g0 => fst (res_free g0 u)) g.

(** The guard of the free functions read as an idempotence guard: a second
    call finds nothing left to do. *)
Definition free_idempotent (g : grid) (u : handle_t) : Prop :=
  slot_users (free_n 2 g u) u = slot_users (free_n 1 g u) u.

(** ** Sample configurations *)

(** Normal cyclic prefix, delta-shift 1, no cyclic-shift offset. *)
Definition cell_norm : cell_cfg_t :=
  {| cp := SRSLTE_CP_NORM; delta_pucch_shift := ds1; ncs_an := 0 |}.

(** A grid of one PRB slot and one subframe slot with offset [sf]. *)
Definition cfg_1x1 (sf : Z) : res_cfg_t :=
  {| nof_prb := 1; nof_subframes := 1; sf_mapping := fun _ => sf |}.

(** No user anywhere. *)
Definition empty_grid : grid := fun _ _ => 0.

(** Two users admitted one after the other on a grid of a single slot; the
    grid after both allocations and the handle of the first user. *)
Definition two_users_one_slot : grid * handle_t :=
  let '(_, g1, uA, _) :=
    sr_allocate cell_norm (cfg_1x1 0) empty_grid no_handle 20 in
  let '(_, g2, _, _) := sr_allocate cell_norm (cfg_1x1 0) g1 no_handle 20 in
  (g2, uA).

(** One slot for scheduling requests and one for CQI reports. *)
Definition cfg_small : rrc_cfg_t :=
  {| cell := cell_norm; sr_cfg := cfg_1x1 0; cqi_cfg := cfg_1x1 0 |}.

(** A slot that already holds 36 users, the capacity for normal cyclic
    prefix and delta-shift 1. *)
Definition full_grid : grid := fun _ _ => 36.


(** ** Further readings of the grids *)

(** The counters of the configured grid differ by at most one. *)
Definition balanced (cfg : res_cfg_t) (g : grid) : Prop :=
  forall i j i' j',
    (i < nof_prb cfg)%nat -> (j < nof_subframes cfg)%nat ->
    (i' < nof_prb cfg)%nat -> (j' < nof_subframes cfg)%nat ->
    g i j <= g i' j' + 1.

(** Operations that admit users and allocate, without any release. *)
Definition admits_only (op : op_t) : bool :=
  match op with
  | op_add_user _ | op_sr_allocate _ _ | op_cqi_allocate _ _ => true
  | _ => false
  end.

(** What an allocator call leaves behind: nothing changed, or one more
    user in the least-loaded slot, which held at most [max_users], and a
    handle that points to that slot. *)
Definition alloc_outcome (cell : cell_cfg_t) (cfg : res_cfg_t) (g : grid)
    (u : handle_t) (r : alloc_ret * grid * handle_t * list pucch_log_t)
  : Prop :=
  (r.1.1.1 = ret_error /\ r.1.1.2 = g /\ r.1.2 = u) \/
  (r.1.1.1 <> ret_error /\
   g (least_slot g cfg).1 (least_slot g cfg).2 <= max_users cell /\
   r.1.1.2 = grid_set g (least_slot g cfg).1 (least_slot g cfg).2
               (u32 (g (least_slot g cfg).1 (least_slot g cfg).2 + 1)) /\
   allocated r.1.2 = true /\
   sched_prb_idx r.1.2 = (least_slot g cfg).1 /\
   sched_sf_idx r.1.2 = (least_slot g cfg).2).

(** The life of one user: admission, both allocations, removal. *)
Definition user_life (rnti sr_period cqi_period : Z) : list op_t :=
  [op_add_user rnti; op_sr_allocate rnti sr_period;
   op_cqi_allocate rnti cqi_period; op_rem_user rnti].

(** Two PRB slots and two subframe slots with offsets 1 and 6. *)
Definition cfg_2x2 : res_cfg_t :=
  {| nof_prb := 2; nof_subframes := 2;
     sf_mapping := fun j => match j with O => 1 | _ => 6 end |}.

Definition cfg_two_grids : rrc_cfg_t :=
  {| cell := cell_norm; sr_cfg := cfg_2x2; cqi_cfg := cfg_2x2 |}.

End Pucch.

(** * Security algorithm selection (rrc.cc, select_security_algorithms) *)

Module Security.

Inductive CIPHERING_ALGORITHM_ID_ENUM :=
| CIPHERING_ALGORITHM_ID_EEA0
| CIPHERING_ALGORITHM_ID_128_EEA1
| CIPHERING_ALGORITHM_ID_128_EEA2
| CIPHERING_ALGORITHM_ID_128_EEA3
| CIPHERING_ALGORITHM_ID_N_ITEMS.

Inductive INTEGRITY_ALGORITHM_ID_ENUM :=
| INTEGRITY_ALGORITHM_ID_EIA0
| INTEGRITY_ALGORITHM_ID_128_EIA1
| INTEGRITY_ALGORITHM_ID_128_EIA2
| INTEGRITY_ALGORITHM_ID_128_EIA3
| INTEGRITY_ALGORITHM_ID_N_ITEMS.

Definition cipher_id (c : CIPHERING_ALGORITHM_ID_ENUM) : Z :=
  match c with
  | CIPHERING_ALGORITHM_ID_EEA0 => 0
  | CIPHERING_ALGORITHM_ID_128_EEA1 => 1
  | CIPHERING_ALGORITHM_ID_128_EEA2 => 2
  | CIPHERING_ALGORITHM_ID_128_EEA3 => 3
  | CIPHERING_ALGORITHM_ID_N_ITEMS => 4
  end.

Definition integ_id (c : INTEGRITY_ALGORITHM_ID_ENUM) : Z :=
  match c with
  | INTEGRITY_ALGORITHM_ID_EIA0 => 0
  | INTEGRITY_ALGORITHM_ID_128_EIA1 => 1
  | INTEGRITY_ALGORITHM_ID_128_EIA2 => 2
  | INTEGRITY_ALGORITHM_ID_128_EIA3 => 3
  | INTEGRITY_ALGORITHM_ID_N_ITEMS => 4
  end.

(** An ASN.1 bit string: its bits as a number and its length; [get v i]
    reads bit [i]. *)
Record bitstring := {
  bits : Z;
  length : Z
}.

Definition get (v : bitstring) (idx : Z) : bool := Z.testbit (bits v) idx.

Record security_capabilities_t := {
  encryption_algorithms : bitstring;
  integrity_protection_algorithms : bitstring
}.

Record security_cfg_t := {
  eea_preference_list : list CIPHERING_ALGORITHM_ID_ENUM;
  eia_preference_list : list INTEGRITY_ALGORITHM_ID_ENUM
}.

Inductive security_log_t :=
| info_selected_eea (c : CIPHERING_ALGORITHM_ID_ENUM)
| info_unsupported_eea (c : CIPHERING_ALGORITHM_ID_ENUM)
| info_skipping_eia0
| info_selected_eia (c : INTEGRITY_ALGORITHM_ID_ENUM)
| info_unsupported_eia (c : INTEGRITY_ALGORITHM_ID_ENUM)
| err_no_matching_algorithm.

(** The [switch (cipher_item)] of one iteration: the new [cipher_algo],
    [enc_algo_found] and what is logged. *)
Definition cipher_case (v : bitstring)
    (cipher_item cipher_algo : CIPHERING_ALGORITHM_ID_ENUM)
  : CIPHERING_ALGORITHM_ID_ENUM * bool * list security_log_t :=
  match cipher_item with
  | CIPHERING_ALGORITHM_ID_EEA0 =>
      (CIPHERING_ALGORITHM_ID_EEA0, true, [info_selected_eea cipher_item])
  | CIPHERING_ALGORITHM_ID_128_EEA1
  | CIPHERING_ALGORITHM_ID_128_EEA2
  | CIPHERING_ALGORITHM_ID_128_EEA3 =>
      if get v (length v - cipher_id cipher_item) then
        (cipher_item, true, [info_selected_eea cipher_item])
      else
        (cipher_algo, false, [info_unsupported_eea cipher_item])
  | CIPHERING_ALGORITHM_ID_N_ITEMS => (cipher_algo, false, [])
  end.

(** [for (auto& cipher_item : eea_preference_list)] with its
    [if (enc_algo_found) break;]. *)
Fixpoint cipher_loop (v : bitstring)
    (items : list CIPHERING_ALGORITHM_ID_ENUM)
    (cipher_algo : CIPHERING_ALGORITHM_ID_ENUM)
  : CIPHERING_ALGORITHM_ID_ENUM * bool * list security_log_t :=
  match items with
  | [] => (cipher_algo, false, [])
  | cipher_item :: rest =>
      let '(algo, found, log) := cipher_case v cipher_item cipher_algo in
      if found then (algo, true, log)
      else
        let '(algo', found', log') := cipher_loop v rest algo in
        (algo', found', log ++ log')
  end.

(** The [switch (eia_enum)] of one iteration. *)
Definition integ_case (v : bitstring)
    (eia_enum integ_algo : INTEGRITY_ALGORITHM_ID_ENUM)
  : INTEGRITY_ALGORITHM_ID_ENUM * bool * list security_log_t :=
  match eia_enum with
  | INTEGRITY_ALGORITHM_ID_EIA0 => (integ_algo, false, [info_skipping_eia0])
  | INTEGRITY_ALGORITHM_ID_128_EIA1
  | INTEGRITY_ALGORITHM_ID_128_EIA2
  | INTEGRITY_ALGORITHM_ID_128_EIA3 =>
      if get v (length v - integ_id eia_enum) then
        (eia_enum, true, [info_selected_eia eia_enum])
      else
        (integ_algo, false, [info_unsupported_eia eia_enum])
  | INTEGRITY_ALGORITHM_ID_N_ITEMS => (integ_algo, false, [])
  end.

Fixpoint integ_loop (v : bitstring)
    (items : list INTEGRITY_ALGORITHM_ID_ENUM)
    (integ_algo : INTEGRITY_ALGORITHM_ID_ENUM)
  : INTEGRITY_ALGORITHM_ID_ENUM * bool * list security_log_t :=
  match items with
  | [] => (integ_algo, false, [])
  | eia_enum :: rest =>
      let '(algo, found, log) := integ_case v eia_enum integ_algo in
      if found then (algo, true, log)
      else
        let '(algo', found', log') := integ_loop v rest algo in
        (algo', found', log ++ log')
  end.

(** The members of rrc::ue the function writes. *)
Record security_ue_t := {
  cipher_algo : CIPHERING_ALGORITHM_ID_ENUM;
  integ_algo : INTEGRITY_ALGORITHM_ID_ENUM
}.

(** rrc::ue::select_security_algorithms *)
Definition select_security_algorithms (cfg : security_cfg_t)
    (security_capabilities : security_capabilities_t) (u : security_ue_t)
  : bool * security_ue_t * list security_log_t :=
  let '(c, enc_algo_found, log1) :=
    cipher_loop (encryption_algorithms security_capabilities)
                (eea_preference_list cfg) (cipher_algo u) in
  let '(i, integ_algo_found, log2) :=
    integ_loop (integrity_protection_algorithms security_capabilities)
               (eia_preference_list cfg) (integ_algo u) in
  let u' := {| cipher_algo := c; integ_algo := i |} in
  if negb integ_algo_found || negb enc_algo_found then
    (false, u', log1 ++ log2 ++ [err_no_matching_algorithm])
  else (true, u', log1 ++ log2).

(** The selection rule in words: a ciphering algorithm is acceptable when
    it is EEA0 or its bit (counted from the most significant end of the
    bit string) is set; an integrity algorithm is acceptable when it is
    not EIA0 and its bit is set. *)
Definition eea_acceptable (v : bitstring) (c : CIPHERING_ALGORITHM_ID_ENUM)
  : bool :=
  match c with
  | CIPHERING_ALGORITHM_ID_EEA0 => true
  | CIPHERING_ALGORITHM_ID_N_ITEMS => false
  | _ => Z.testbit (bits v) (length v - cipher_id c)
  end.

Definition eia_acceptable (v : bitstring) (c : INTEGRITY_ALGORITHM_ID_ENUM)
  : bool :=
  match c with
  | INTEGRITY_ALGORITHM_ID_EIA0 => false
  | INTEGRITY_ALGORITHM_ID_N_ITEMS => false
  | _ => Z.testbit (bits v) (length v - integ_id c)
  end.

End Security.

(** * RRC transaction identifiers (rrc.cc, the send_ functions and
      parse_ul_dcch) *)

Module TransactionId.

(** The outgoing messages that carry [rrc_transaction_id]. *)
Inductive msg_t :=
| rrc_conn_setup
| rrc_conn_reest
| rrc_conn_release
| rrc_conn_recfg
| security_mode_cmd
| ue_cap_enquiry.

(** How a run of a sender ends.  Every sender writes the id first; after
    that send_connection_setup returns when the SR or the CQI allocation
    fails, send_connection_reconf and send_connection_reconf_new_bearer
    return when get_drbid_config fails, and send_dl_ccch and send_dl_dcch
    send nothing when there is no buffer, send_dl_dcch also when the
    message cannot be encoded. *)
Inductive sender_end_t :=
| handed_over
| no_sr_resource
| no_cqi_resource
| no_drb_config
| no_buffer
| encode_failed.

Definition goes_out (e : sender_end_t) : bool :=
  match e with handed_over => true | _ => false end.

(** What happens to one user: one of the senders runs, or an UL-DCCH
    message arrives and parse_ul_dcch unpacks it (or fails to). *)
Inductive rrc_event_t :=
| ev_send (m : msg_t) (e : sender_end_t)
| ev_parse_ul_dcch (unpacked : bool).

Section Width.

(** Width in bits of the member [transaction_id]. *)
Variable w : Z.

(** [(uint8_t)((transaction_id++) % 4)]: the value written into the
    message and the member afterwards. *)
Definition next_transaction_id (transaction_id : Z) : Z * Z :=
  (u8 (transaction_id mod 4), wrap w (transaction_id + 1)).

(** Each sender (send_connection_setup for setup and reestablishment,
    send_connection_release, the three reconfiguration senders,
    send_security_mode_command, send_ue_cap_enquiry) writes the id once,
    at its start; the message goes out only if the sender gets to the
    end. *)
Definition send (m : msg_t) (e : sender_end_t) (transaction_id : Z)
  : option (msg_t * Z) * Z :=
  let '(id, tid') := next_transaction_id transaction_id in
  (if goes_out e then Some (m, id) else None, tid').

(** parse_ul_dcch: [transaction_id = 0] once the message is unpacked. *)
Definition parse_ul_dcch (unpacked : bool) (transaction_id : Z) : Z :=
  if unpacked then 0 else transaction_id.

(** The messages sent over a sequence of events, and the member at the
    end. *)
Fixpoint run (evs : list rrc_event_t) (transaction_id : Z)
  : list (msg_t * Z) * Z :=
  match evs with
  | [] => ([], transaction_id)
  | ev_send m e :: rest =>
      let '(out, tid') := send m e transaction_id in
      let '(outs, tid'') := run rest tid' in
      (match out with Some o => o :: outs | None => outs end, tid'')
  | ev_parse_ul_dcch unpacked :: rest =>
      run rest (parse_ul_dcch unpacked transaction_id)
  end.

Definition sent_ids (evs : list rrc_event_t) (transaction_id : Z) : list Z :=
  map snd (fst (run evs transaction_id)).

(** Runs of senders, one after the other. *)
Definition sender_runs (runs : list (msg_t * sender_end_t))
  : list rrc_event_t :=
  map (fun r => ev_send (fst r) (snd r)) runs.

(** Consecutive ids modulo 4 along a list of sent ids. *)
Fixpoint consecutive_mod4 (ids : list Z) : Prop :=
  match ids with
  | a :: ((b :: _) as rest) => b = (a + 1) mod 4 /\ consecutive_mod4 rest
  | _ => True
  end.

(** The ids [first, first+1, ...] modulo 4, [n] of them. *)
Definition ids_from (first : Z) (n : nat) : list Z :=
  map (fun k => (first + Z.of_nat k) mod 4) (seq 0 n).

(** Which of a sequence of sender runs, counted from 0, sent their
    message; and the ids [first + k] modulo 4 of those runs. *)
Definition sent_positions (runs : list (msg_t * sender_end_t)) : list nat :=
  List.filter
    (fun k => match nth_error runs k with
              | Some r => goes_out (snd r)
              | None => false
              end)
    (seq 0 (List.length runs)).

Definition ids_at (first : Z) (ks : list nat) : list Z :=
  map (fun k => (first + Z.of_nat k) mod 4) ks.

End Width.

End TransactionId.

(** * The MAC user (mac/ue.cc) *)

Module MacUe.

(** Control-element types told apart by [switch (subh->ul_sch_ce_type())]. *)
Inductive ul_sch_lcid :=
| PHR_REPORT
| CRNTI
| TRUNC_BSR
| SHORT_BSR
| LONG_BSR
| PADDING
| OTHER_CE (lcid : Z).

(** What the accessors of a control element return: [get_phr()] (an
    integral value), [get_c_rnti()], and for [get_bsr] its return value and
    the four entries it writes into [buff_size_bytes]. *)
Record ce_t := {
  ul_sch_ce_type : ul_sch_lcid;
  get_phr : Z;
  get_c_rnti : Z;
  get_bsr : Z;
  buff_size_bytes : list Z
}.

(** A subheader of the unpacked UL-SCH PDU: an SDU with [get_sdu_lcid()]
    and the bytes at [get_sdu_ptr()], or a control element. *)
Inductive sch_subh :=
| subh_sdu (get_sdu_lcid : Z) (payload : list Byte.byte)
| subh_ce (ce : ce_t).

Definition is_sdu (s : sch_subh) : bool :=
  match s with subh_sdu _ _ => true | subh_ce _ => false end.

Inductive mac_log_t :=
| dbg_all_zero_pdu
| dbg_ul_activity (rnti nof_bytes : Z)
| err_ccch_invalid_size (size : Z)
| err_crnti_released (old_rnti : Z)
| err_invalid_lcg
| err_invalid_ce (lcid : Z)
| dbg_bsr_not_received
| dbg_pdu_processed
| err_cc_out_of_range (ue_cc_idx : Z) (size : nat)
| err_harq_out_of_range (n : Z) (size : nat).

(** Calls on the collaborators (RLC, RRC, scheduler) and log lines, in the
    order they are made. *)
Inductive event_t :=
| rlc_write_pdu (rnti lcid : Z) (payload : list Byte.byte)
| rrc_set_activity_user (rnti : Z)
| rrc_upd_user (rnti old_rnti : Z)
| sched_ul_phr (rnti phr : Z)
| sched_ul_bsr (rnti lcg bytes : Z)
| sched_ul_buffer_add (rnti lcid bytes : Z)
| log (l : mac_log_t).

(** A soft buffer, initialised for [nof_prb] resource blocks. *)
Record softbuffer_t := { sb_nof_prb : Z }.

(** The members of mac ue that the functions below read or write.
    [conres_id] is held as the bytes of its object, lowest address first;
    [phr_samples] are the reports averaged into [ue_metrics.phr]. *)
Record ue_t := {
  rnti : Z;
  nof_prb : Z;
  conres_id : list Byte.byte;
  phr_samples : list Z;
  nof_rx_harq_proc : Z;
  nof_tx_harq_proc : Z;
  softbuffer_rx : list (list softbuffer_t);
  softbuffer_tx : list (list softbuffer_t)
}.

Definition set_rnti (u : ue_t) (r : Z) : ue_t :=
  {| rnti := r; nof_prb := nof_prb u; conres_id := conres_id u;
     phr_samples := phr_samples u;
     nof_rx_harq_proc := nof_rx_harq_proc u;
     nof_tx_harq_proc := nof_tx_harq_proc u;
     softbuffer_rx := softbuffer_rx u; softbuffer_tx := softbuffer_tx u |}.

Definition set_conres_id (u : ue_t) (c : list Byte.byte) : ue_t :=
  {| rnti := rnti u; nof_prb := nof_prb u; conres_id := c;
     phr_samples := phr_samples u;
     nof_rx_harq_proc := nof_rx_harq_proc u;
     nof_tx_harq_proc := nof_tx_harq_proc u;
     softbuffer_rx := softbuffer_rx u; softbuffer_tx := softbuffer_tx u |}.

(** ue::metrics_phr *)
Definition metrics_phr (u : ue_t) (phr : Z) : ue_t :=
  {| rnti := rnti u; nof_prb := nof_prb u; conres_id := conres_id u;
     phr_samples := phr_samples u ++ [phr];
     nof_rx_harq_proc := nof_rx_harq_proc u;
     nof_tx_harq_proc := nof_tx_harq_proc u;
     softbuffer_rx := softbuffer_rx u; softbuffer_tx := softbuffer_tx u |}.

Definition set_softbuffers (u : ue_t) (rx tx : list (list softbuffer_t))
  : ue_t :=
  {| rnti := rnti u; nof_prb := nof_prb u; conres_id := conres_id u;
     phr_samples := phr_samples u;
     nof_rx_harq_proc := nof_rx_harq_proc u;
     nof_tx_harq_proc := nof_tx_harq_proc u;
     softbuffer_rx := rx; softbuffer_tx := tx |}.

(** ** Soft buffers *)

(** ue::allocate_cc_buffers: one more row of [nof_rx_harq_proc] (resp.
    [nof_tx_harq_proc]) initialised buffers per added carrier. *)
Fixpoint allocate_cc_buffers (u : ue_t) (num_cc : nat) : ue_t :=
  match num_cc with
  | O => u
  | S n =>
      let rx := softbuffer_rx u ++
                [replicate (Z.to_nat (nof_rx_harq_proc u))
                           {| sb_nof_prb := nof_prb u |}] in
      let tx := softbuffer_tx u ++
                [replicate (Z.to_nat (nof_tx_harq_proc u))
                           {| sb_nof_prb := nof_prb u |}] in
      allocate_cc_buffers (set_softbuffers u rx tx) n
  end.

(** The part of the constructor that sets these members: no carrier
    buffers yet, then [allocate_cc_buffers()] for the primary cell. *)
Definition ue_new (rnti_ nof_prb_ nof_rx_harq_proc_ nof_tx_harq_proc_ : Z)
  : ue_t :=
  allocate_cc_buffers
    {| rnti := rnti_; nof_prb := nof_prb_;
       conres_id := replicate 8 Byte.x00; phr_samples := [];
       nof_rx_harq_proc := nof_rx_harq_proc_;
       nof_tx_harq_proc := nof_tx_harq_proc_;
       softbuffer_rx := []; softbuffer_tx := [] |} 1.

(** How a call ends: it returns, [std::vector::at] throws, or the
    remainder by zero is undefined. *)
Inductive outcome (A : Type) :=
| returns (a : A)
| throws_out_of_range
| undefined_rem_by_zero.
Arguments returns {A} a.
Arguments throws_out_of_range {A}.
Arguments undefined_rem_by_zero {A}.

(** A pointer to a soft buffer: null, or the carrier row and the position
    in the row of the buffer it points to. *)
Definition softbuffer_ptr := option (nat * nat).

(** The body shared by the two getters once the index is computed. *)
Definition get_softbuffer (buffers : list (list softbuffer_t))
    (nof_harq_proc : Z) (ue_cc_idx : Z) (index : Z)
  : outcome softbuffer_ptr * list mac_log_t :=
  if Z.of_nat (List.length buffers) <=? ue_cc_idx then
    (returns None,
     [err_cc_out_of_range ue_cc_idx (List.length buffers)])
  else
    match buffers !! Z.to_nat ue_cc_idx with
    | None => (throws_out_of_range, [])
    | Some row =>
        if Z.of_nat (List.length row) <? nof_harq_proc then
          (returns None,
           [err_harq_out_of_range nof_harq_proc (List.length row)])
        else if nof_harq_proc =? 0 then (undefined_rem_by_zero, [])
        else
          let k := Z.to_nat (index mod nof_harq_proc) in
          match row !! k with
          | None => (throws_out_of_range, [])
          | Some _ => (returns (Some (Z.to_nat ue_cc_idx, k)), [])
          end
    end.

(** ue::get_rx_softbuffer *)
Definition get_rx_softbuffer (u : ue_t) (ue_cc_idx tti : Z)
  : outcome softbuffer_ptr * list mac_log_t :=
  get_softbuffer (softbuffer_rx u) (nof_rx_harq_proc u) ue_cc_idx tti.

(** ue::get_tx_softbuffer; [SRSLTE_MAX_TB] is passed in. *)
Definition get_tx_softbuffer (SRSLTE_MAX_TB : Z) (u : ue_t)
    (ue_cc_idx harq_process tb_idx : Z)
  : outcome softbuffer_ptr * list mac_log_t :=
  get_softbuffer (softbuffer_tx u) (nof_tx_harq_proc u) ue_cc_idx
                 (u32 (harq_process * SRSLTE_MAX_TB + tb_idx)).

(** The buffer a pointer refers to, if any. *)
Definition deref (buffers : list (list softbuffer_t)) (p : nat * nat)
  : option softbuffer_t :=
  row ← buffers !! fst p; row !! snd p.

(** Every carrier row holds as many buffers as there are HARQ processes. *)
Definition buffers_allocated (u : ue_t) : Prop :=
  Forall (fun row => Z.of_nat (List.length row) = Z.max 0 (nof_rx_harq_proc u))
         (softbuffer_rx u) /\
  Forall (fun row => Z.of_nat (List.length row) = Z.max 0 (nof_tx_harq_proc u))
         (softbuffer_tx u).

(** ** Uplink PDUs *)

Section WithScheduler.

(** [sched->ue_exists(rnti)]: the scheduler's answer, which may depend on
    the calls made so far. *)
Variable ue_exists : list event_t -> Z -> bool.

Definition MAX_LC_GROUP : nat := 4.

(** ue::process_ce: the return value, the user and the extended trace. *)
Definition process_ce (u : ue_t) (tr : list event_t) (subh : ce_t)
  : bool * ue_t * list event_t :=
  match ul_sch_ce_type subh with
  | PHR_REPORT =>
      let phr := get_phr subh in
      (false, metrics_phr u phr, tr ++ [sched_ul_phr (rnti u) phr])
  | CRNTI =>
      let old_rnti := get_c_rnti subh in
      if ue_exists tr old_rnti then
        (false, set_rnti u old_rnti, tr ++ [rrc_upd_user (rnti u) old_rnti])
      else
        (false, u, tr ++ [log (err_crnti_released old_rnti)])
  | TRUNC_BSR | SHORT_BSR =>
      let idx := get_bsr subh in
      if idx =? -1 then (false, u, tr ++ [log err_invalid_lcg])
      else
        (true, u,
         tr ++ [sched_ul_bsr (rnti u) idx
                  (nth (Z.to_nat idx) (buff_size_bytes subh) 0)])
  | LONG_BSR =>
      (true, u,
       tr ++ map (fun idx => sched_ul_bsr (rnti u) (Z.of_nat idx)
                               (nth idx (buff_size_bytes subh) 0))
                 (seq 0 MAX_LC_GROUP))
  | PADDING => (false, u, tr)
  | OTHER_CE lcid => (false, u, tr ++ [log (err_invalid_ce lcid)])
  end.

(** [for (i = 0; i < get_payload_size(); i++) sum += x[i];] *)
Definition checksum (x : list Byte.byte) : Z :=
  fold_left (fun sum b => u32 (sum + Z.of_N (Byte.to_N b))) x 0.

Definition MAC_CE_CONTRES_LEN : Z := 6.

(** [for (i = 0; i < nbytes; i++) ue_cri_ptr[nbytes - i - 1] = pkt_ptr[i];] *)
Definition copy_conres (conres : list Byte.byte) (pkt : list Byte.byte)
  : list Byte.byte :=
  fold_left
    (fun c i =>
       <[Z.to_nat (MAC_CE_CONTRES_LEN - Z.of_nat i - 1) :=
           nth i pkt Byte.x00]> c)
    (seq 0 (Z.to_nat MAC_CE_CONTRES_LEN)) conres.

(** The locals of process_pdu carried through its first loop. *)
Record sdu_loop_t := {
  lcid_most_data : Z;
  most_data : Z;
  loop_ue : ue_t;
  loop_trace : list event_t
}.

(** The body of the first loop for one subheader. *)
Definition sdu_step (nof_bytes : Z) (st : sdu_loop_t) (subh : sch_subh)
  : sdu_loop_t :=
  match subh with
  | subh_ce _ => st
  | subh_sdu lcid x =>
      let u := loop_ue st in
      let size := u32 (Z.of_nat (List.length x)) in
      let all_zero := (lcid =? 0) && (checksum x =? 0) in
      let route_pdu := negb all_zero in
      let tr1 := loop_trace st ++
                 (if all_zero then [log dbg_all_zero_pdu] else []) in
      let tr2 := tr1 ++
                 (if route_pdu then [rlc_write_pdu (rnti u) lcid x] else []) in
      let tr3 := tr2 ++
                 (if 64 <? size
                  then [rrc_set_activity_user (rnti u);
                        log (dbg_ul_activity (rnti u) nof_bytes)]
                  else []) in
      let more := most_data st <? int32_of_u32 size in
      let most_data' := if more then int32_of_u32 size else most_data st in
      let lcid_most_data' := if more then lcid else lcid_most_data st in
      if (lcid =? 0) && route_pdu then
        if MAC_CE_CONTRES_LEN <=? size then
          {| lcid_most_data := lcid_most_data'; most_data := most_data';
             loop_ue := set_conres_id u (copy_conres (conres_id u) x);
             loop_trace := tr3 |}
        else
          {| lcid_most_data := lcid_most_data'; most_data := most_data';
             loop_ue := u;
             loop_trace := tr3 ++ [log (err_ccch_invalid_size size)] |}
      else
        {| lcid_most_data := lcid_most_data'; most_data := most_data';
           loop_ue := u; loop_trace := tr3 |}
  end.

(** The body of the second loop: [bsr_received |= process_ce(...)]. *)
Definition ce_step (st : bool * ue_t * list event_t) (subh : sch_subh)
  : bool * ue_t * list event_t :=
  match subh with
  | subh_sdu _ _ => st
  | subh_ce ce =>
      let '(bsr_received, u, tr) := st in
      let '(is_bsr, u', tr') := process_ce u tr ce in
      (bsr_received || is_bsr, u', tr')
  end.

(** ue::process_pdu on the unpacked subheaders of a PDU of [nof_bytes]. *)
Definition process_pdu (u : ue_t) (tr : list event_t)
    (mac_msg_ul : list sch_subh) (nof_bytes : Z) : ue_t * list event_t :=
  let st :=
    fold_left (sdu_step nof_bytes) mac_msg_ul
      {| lcid_most_data := 0; most_data := -99;
         loop_ue := u; loop_trace := tr |} in
  let '(bsr_received, u', tr') :=
    fold_left ce_step mac_msg_ul (false, loop_ue st, loop_trace st) in
  if negb bsr_received && (2 <? lcid_most_data st) then
    (u', tr' ++ [sched_ul_buffer_add (rnti u') (lcid_most_data st) 256;
                 log dbg_bsr_not_received; log dbg_pdu_processed])
  else (u', tr' ++ [log dbg_pdu_processed]).

End WithScheduler.

(** ** Readings of the PDU used to state what process_pdu does *)

Definition sdus (pdu : list sch_subh) : list (Z * list Byte.byte) :=
  omap (fun s => match s with
                 | subh_sdu lcid x => Some (lcid, x)
                 | subh_ce _ => None
                 end) pdu.

Definition ces (pdu : list sch_subh) : list ce_t :=
  omap (fun s => match s with
                 | subh_sdu _ _ => None
                 | subh_ce ce => Some ce
                 end) pdu.

Definition all_zero (x : list Byte.byte) : bool :=
  forallb (fun b => Z.of_N (Byte.to_N b) =? 0) x.

(** An SDU is handed to RLC unless it is on LCID 0 with only zero bytes. *)
Definition delivered (sdu : Z * list Byte.byte) : bool :=
  negb ((fst sdu =? 0) && all_zero (snd sdu)).

(** A delivered LCID-0 SDU of at least 6 bytes. *)
Definition carries_conres (sdu : Z * list Byte.byte) : bool :=
  delivered sdu && (fst sdu =? 0) && (6 <=? Z.of_nat (List.length (snd sdu))).

(** A control element that is a buffer status report. *)
Definition is_bsr_ce (ce : ce_t) : bool :=
  match ul_sch_ce_type ce with
  | TRUNC_BSR | SHORT_BSR | LONG_BSR => true
  | _ => false
  end.

(** A buffer status report that process_ce takes into account. *)
Definition accepted_bsr (ce : ce_t) : bool :=
  match ul_sch_ce_type ce with
  | TRUNC_BSR | SHORT_BSR => negb (get_bsr ce =? -1)
  | LONG_BSR => true
  | _ => false
  end.

Definition buffer_adds (tr : list event_t) : list (Z * Z * Z) :=
  omap (fun e => match e with
                 | sched_ul_buffer_add r l b => Some (r, l, b)
                 | _ => None
                 end) tr.

Definition rlc_writes (tr : list event_t) : list (Z * Z * list Byte.byte) :=
  omap (fun e => match e with
                 | rlc_write_pdu r l x => Some (r, l, x)
                 | _ => None
                 end) tr.

Definition upd_users (tr : list event_t) : list (Z * Z) :=
  omap (fun e => match e with
                 | rrc_upd_user r o => Some (r, o)
                 | _ => None
                 end) tr.

(** The SDU sizes of a PDU stay below [bound]. *)
Definition sdu_sizes_below (bound : Z) (pdu : list sch_subh) : Prop :=
  forall lcid x, In (lcid, x) (sdus pdu) -> Z.of_nat (List.length x) < bound.

(** The synthetic BSR as first described: 256 bytes are added for an LCID
    exactly when the PDU has no BSR control element and that LCID, above
    the signalling bearers 0..2, carried an SDU of more than 64 bytes. *)
Definition synthetic_bsr_described (ue_exists : list event_t -> Z -> bool)
    (u : ue_t) (pdu : list sch_subh) (nof_bytes : Z) : Prop :=
  let '(u', tr) := process_pdu ue_exists u [] pdu nof_bytes in
  forall lcid,
    In (rnti u', lcid, 256) (buffer_adds tr) <->
    (existsb is_bsr_ce (ces pdu) = false /\
     2 < lcid /\
     exists x, In (lcid, x) (sdus pdu) /\ 64 < Z.of_nat (List.length x)).

(** ** Sample inputs *)

(** A scheduler that knows no other rnti. *)
Definition sched_knows_none : list event_t -> Z -> bool := fun _ _ => false.

Definition ue_70 : ue_t := ue_new 70 25 8 16.

(** One SDU of a single byte on LCID 3 and nothing else. *)
Definition pdu_one_byte_drb : list sch_subh :=
  [subh_sdu 3 [Byte.x01]].

(** An all-zero CCCH SDU, a CCCH SDU of seven bytes, a power headroom
    report and one byte on LCID 3. *)
Definition pdu_msg3 : list sch_subh :=
  [subh_sdu 0 [Byte.x00; Byte.x00];
   subh_sdu 0 [Byte.x11; Byte.x22; Byte.x33; Byte.x44; Byte.x55; Byte.x66;
               Byte.x77];
   subh_ce {| ul_sch_ce_type := PHR_REPORT; get_phr := 10; get_c_rnti := 0;
              get_bsr := 0; buff_size_bytes := [] |};
   subh_sdu 3 [Byte.x01]].


(** ** Further readings of a trace *)

Definition activities (tr : list event_t) : list Z :=
  omap (fun e => match e with
                 | rrc_set_activity_user r => Some r
                 | _ => None
                 end) tr.

Definition bsr_reports (tr : list event_t) : list (Z * Z * Z) :=
  omap (fun e => match e with
                 | sched_ul_bsr r lcg b => Some (r, lcg, b)
                 | _ => None
                 end) tr.

Definition phr_reports (tr : list event_t) : list (Z * Z) :=
  omap (fun e => match e with
                 | sched_ul_phr r p => Some (r, p)
                 | _ => None
                 end) tr.

(** Calls on the scheduler and RRC that come from control elements or from
    the synthetic BSR. *)
Definition control_calls (tr : list event_t) : list event_t :=
  List.filter (fun e => match e with
                        | sched_ul_phr _ _ | sched_ul_bsr _ _ _
                        | sched_ul_buffer_add _ _ _ | rrc_upd_user _ _ => true
                        | _ => false
                        end) tr.

(** The buffer status a control element reports, per logical channel
    group: one entry for a short or truncated BSR with a valid group, four
    for a long BSR. *)
Definition bsr_reports_of (rnti : Z) (ce : ce_t) : list (Z * Z * Z) :=
  match ul_sch_ce_type ce with
  | TRUNC_BSR | SHORT_BSR =>
      if get_bsr ce =? -1 then []
      else [(rnti, get_bsr ce,
             nth (Z.to_nat (get_bsr ce)) (buff_size_bytes ce) 0)]
  | LONG_BSR =>
      map (fun idx => (rnti, Z.of_nat idx, nth idx (buff_size_bytes ce) 0))
          [0; 1; 2; 3]%nat
  | _ => []
  end.

Definition is_phr_ce (ce : ce_t) : bool :=
  match ul_sch_ce_type ce with PHR_REPORT => true | _ => false end.

(** No C-RNTI control element of the PDU names an rnti the scheduler
    knows, whenever it is asked. *)
Definition crnti_unknown (ue_exists : list event_t -> Z -> bool)
    (pdu : list sch_subh) : Prop :=
  forall ce, In ce (ces pdu) -> ul_sch_ce_type ce = CRNTI ->
             forall tr, ue_exists tr (get_c_rnti ce) = false.

(** A long BSR, a PHR, and 100 bytes on LCID 3. *)
Definition pdu_bsr_phr : list sch_subh :=
  [subh_ce {| ul_sch_ce_type := LONG_BSR; get_phr := 0; get_c_rnti := 0;
              get_bsr := 0; buff_size_bytes := [10; 0; 300; 0] |};
   subh_sdu 3 (replicate 100 Byte.x2a);
   subh_ce {| ul_sch_ce_type := PHR_REPORT; get_phr := 17; get_c_rnti := 0;
              get_bsr := 0; buff_size_bytes := [] |}].


(** A C-RNTI control element that makes the user take over an rnti, for a
    scheduler whose answer does not change while the PDU is processed. *)
Definition switches_rnti (known : Z -> bool) (ce : ce_t) : bool :=
  match ul_sch_ce_type ce with
  | CRNTI => known (get_c_rnti ce)
  | _ => false
  end.

(** A known C-RNTI, then a short BSR. *)
Definition pdu_crnti_bsr : list sch_subh :=
  [subh_sdu 1 (replicate 8 Byte.x2a);
   subh_ce {| ul_sch_ce_type := CRNTI; get_phr := 0; get_c_rnti := 0x46;
              get_bsr := 0; buff_size_bytes := [] |};
   subh_ce {| ul_sch_ce_type := SHORT_BSR; get_phr := 0; get_c_rnti := 0;
              get_bsr := 2; buff_size_bytes := [0; 0; 500; 0] |}].

End MacUe.

(** * Measurement configuration deltas (var_meas_cfg_t) *)

Module MeasCfg.

(** Modelled from the spec: a neighbour cell of a measurement object, kept
    under its cell index (the lower octet of the ECI) with its PCI and
    offset.  The class var_meas_cfg_t lives in rrc_mobility.h/.cc, of which
    only the test rrc_mobility_test.cc is among the sources. *)
Record cell_t := {
  pci : Z;
  q_offset : Z
}.

#[global] Instance cell_eq_dec : EqDecision cell_t.
Proof. solve_decision. Defined.

(** Modelled from the spec: a measurement object, kept under its object
    id: an EARFCN and the neighbour cells keyed by cell index. *)
Record meas_obj_t := {
  earfcn : Z;
  cells : gmap Z cell_t
}.

#[global] Instance meas_obj_eq_dec : EqDecision meas_obj_t.
Proof. solve_decision. Defined.

(** Modelled from the spec: the trigger type of a report configuration,
    one of the events A1 to A6 (report_cfg_eutra_s is declared outside the
    sources at hand). *)
Inductive event_id_t := event_a1 | event_a2 | event_a3 | event_a4 | event_a5
                      | event_a6.

#[global] Instance event_id_eq_dec : EqDecision event_id_t.
Proof. solve_decision. Defined.

(** Modelled from the spec: the trigger quantity the test sets on its
    report configurations. *)
Inductive trigger_quant_t := rsrp | rsrq.

#[global] Instance trigger_quant_eq_dec : EqDecision trigger_quant_t.
Proof. solve_decision. Defined.

(** Modelled from the spec: the report quantity the test sets on its
    report configurations. *)
Inductive report_quant_t := same_as_trigger_quant | both.

#[global] Instance report_quant_eq_dec : EqDecision report_quant_t.
Proof. solve_decision. Defined.

(** Modelled from the spec: a report configuration, kept under its report
    id. *)
Record report_cfg_t := {
  trigger_type : event_id_t;
  trigger_quant : trigger_quant_t;
  report_quant : report_quant_t;
  threshold : Z;
  hysteresis : Z;
  time_to_trigger : Z;
  max_report_cells : Z;
  report_amount : Z;
  report_interv : Z
}.

#[global] Instance report_cfg_eq_dec : EqDecision report_cfg_t.
Proof. solve_decision. Defined.

(** Modelled from the spec: a measurement id maps to an object id and a
    report id. *)
Record meas_id_t := {
  meas_obj_id : Z;
  report_cfg_id : Z
}.

#[global] Instance meas_id_eq_dec : EqDecision meas_id_t.
Proof. solve_decision. Defined.

(** Modelled from the spec: var-meas-cfg, three sets keyed by id. *)
Record var_meas_cfg_t := {
  meas_objs : gmap Z meas_obj_t;
  report_cfgs : gmap Z report_cfg_t;
  meas_ids : gmap Z meas_id_t
}.

(** Modelled from the spec: the lists of a delta are ordered by id, as
    the sets they come from. *)
Definition key_le {A} (a b : Z * A) : Prop := fst a <= fst b.

#[global] Instance key_le_dec {A} (a b : Z * A) : Decision (key_le a b).
Proof. unfold key_le. apply _. Defined.

Section Keyed.

Context {V D : Type}.

(** [changed s t]: what to send for an entry present on both sides, if
    anything; [fresh t]: what to send for an entry only the target has;
    [patch d old]: the entry a receiver ends up with. *)
Variable changed : V -> V -> option D.
Variable fresh : V -> D.
Variable patch : D -> option V -> V.

(** Modelled from the spec: what the add-or-modify list holds for one id,
    given the entries of source and target under that id. *)
Definition add_mod_of (os ot : option V) : option D :=
  match ot with
  | None => None
  | Some t => match os with None => Some (fresh t) | Some s => changed s t end
  end.

(** Modelled from the spec: whether the remove list holds an id, given
    the entries of source and target under that id. *)
Definition rem_of (os ot : option V) : option unit :=
  match os, ot with
  | Some _, None => Some tt
  | _, _ => None
  end.

(** Modelled from the spec: the entries to add or modify are those of the
    target that the source lacks or holds with a different value, listed
    by increasing id. *)
Definition to_add_mod (src tgt : gmap Z V) : list (Z * D) :=
  merge_sort key_le (map_to_list (merge add_mod_of src tgt)).

(** Modelled from the spec: the ids to remove are those present in the
    source and absent in the target, listed by increasing id. *)
Definition to_rem (src tgt : gmap Z V) : list Z :=
  merge_sort Z.le ((map_to_list (merge rem_of src tgt)).*1).

(** Modelled from the spec: a receiver of a delta removes the listed
    ids. *)
Definition apply_rem (rem : list Z) (m : gmap Z V) : gmap Z V :=
  foldl (fun m0 k => delete k m0) m rem.

(** Modelled from the spec: a receiver of a delta adds or replaces the
    listed entries, one after the other. *)
Definition apply_add_mod (l : list (Z * D)) (m : gmap Z V) : gmap Z V :=
  foldl (fun m0 kd => <[fst kd := patch (snd kd) (m0 !! fst kd)]> m0) m l.

(** Modelled from the spec: removals first, then additions and
    modifications (the delta semantics of TS 36.331). *)
Definition apply_lists (add_mod : list (Z * D)) (rem : list Z)
    (m : gmap Z V) : gmap Z V :=
  apply_add_mod add_mod (apply_rem rem m).

End Keyed.

(** Modelled from the spec: cells, report configurations and meas ids are
    sent whole when they differ. *)
Definition replaced {V} `{EqDecision V} (s t : V) : option V :=
  if decide (s = t) then None else Some t.

(** Modelled from the spec: a new entry of these kinds is sent as it
    is. *)
Definition whole {V} (t : V) : V := t.

(** Modelled from the spec: a received entry of these kinds replaces the
    old one. *)
Definition overwrite {V} (d : V) (old : option V) : V := d.

(** Modelled from the spec: the entry of [meas_obj_to_add_mod_list]: the
    object's EARFCN, the neighbour cells to add or modify and the cell
    indices to remove, each list with its presence flag. *)
Record meas_obj_to_add_mod_s := {
  carrier_freq : Z;
  cells_to_add_mod_list : list (Z * cell_t);
  cells_to_add_mod_list_present : bool;
  cells_to_rem_list : list Z;
  cells_to_rem_list_present : bool
}.

(** Modelled from the spec: a presence flag is set when its list has an
    entry. *)
Definition present {A} (l : list A) : bool :=
  match l with [] => false | _ => true end.

(** Modelled from the spec: the add-or-modify entry for a measurement
    object, from the cells of the source and of the target. *)
Definition meas_obj_delta (s t : gmap Z cell_t) (freq : Z)
  : meas_obj_to_add_mod_s :=
  let add := to_add_mod replaced whole s t in
  let rem := to_rem s t in
  {| carrier_freq := freq;
     cells_to_add_mod_list := add;
     cells_to_add_mod_list_present := present add;
     cells_to_rem_list := rem;
     cells_to_rem_list_present := present rem |}.

(** Modelled from the spec: a measurement object is sent when its EARFCN
    or its neighbour set differs; within it, the cells that differ and the
    cell indices that went away. *)
Definition meas_obj_changed (s t : meas_obj_t) : option meas_obj_to_add_mod_s :=
  if decide (s = t) then None
  else Some (meas_obj_delta (cells s) (cells t) (earfcn t)).

(** Modelled from the spec: a measurement object absent from the source
    is sent with all its cells. *)
Definition meas_obj_fresh (t : meas_obj_t) : meas_obj_to_add_mod_s :=
  meas_obj_delta ∅ (cells t) (earfcn t).

(** Modelled from the spec: a receiver takes the EARFCN of the entry and
    applies its two cell lists to the cells it holds for that object. *)
Definition meas_obj_patch (d : meas_obj_to_add_mod_s) (old : option meas_obj_t)
  : meas_obj_t :=
  {| earfcn := carrier_freq d;
     cells := apply_lists overwrite (cells_to_add_mod_list d)
                (cells_to_rem_list d)
                (match old with Some o => cells o | None => ∅ end) |}.

(** Modelled from the spec: the delta a diff emits (meas_cfg_s). *)
Record meas_cfg_s := {
  meas_obj_to_add_mod_list : list (Z * meas_obj_to_add_mod_s);
  meas_obj_to_add_mod_list_present : bool;
  meas_obj_to_rem_list : list Z;
  meas_obj_to_rem_list_present : bool;
  report_cfg_to_add_mod_list : list (Z * report_cfg_t);
  report_cfg_to_add_mod_list_present : bool;
  report_cfg_to_rem_list : list Z;
  report_cfg_to_rem_list_present : bool;
  meas_id_to_add_mod_list : list (Z * meas_id_t);
  meas_id_to_add_mod_list_present : bool;
  meas_id_to_rem_list : list Z;
  meas_id_to_rem_list_present : bool
}.

(** Modelled from the spec: var_meas_cfg_t::compute_diff_meas_cfg, called
    on the source with the target as argument. *)
Definition compute_diff_meas_cfg (src target_cfg : var_meas_cfg_t)
  : meas_cfg_s :=
  let obj_add := to_add_mod meas_obj_changed meas_obj_fresh
                   (meas_objs src) (meas_objs target_cfg) in
  let obj_rem := to_rem (meas_objs src) (meas_objs target_cfg) in
  let rep_add := to_add_mod replaced whole
                   (report_cfgs src) (report_cfgs target_cfg) in
  let rep_rem := to_rem (report_cfgs src) (report_cfgs target_cfg) in
  let id_add := to_add_mod replaced whole
                  (meas_ids src) (meas_ids target_cfg) in
  let id_rem := to_rem (meas_ids src) (meas_ids target_cfg) in
  {| meas_obj_to_add_mod_list := obj_add;
     meas_obj_to_add_mod_list_present := present obj_add;
     meas_obj_to_rem_list := obj_rem;
     meas_obj_to_rem_list_present := present obj_rem;
     report_cfg_to_add_mod_list := rep_add;
     report_cfg_to_add_mod_list_present := present rep_add;
     report_cfg_to_rem_list := rep_rem;
     report_cfg_to_rem_list_present := present rep_rem;
     meas_id_to_add_mod_list := id_add;
     meas_id_to_add_mod_list_present := present id_add;
     meas_id_to_rem_list := id_rem;
     meas_id_to_rem_list_present := present id_rem |}.

(** Modelled from the spec: applying a delta to a configuration, list by
    list. *)
Definition apply_meas_cfg (d : meas_cfg_s) (cfg : var_meas_cfg_t)
  : var_meas_cfg_t :=
  {| meas_objs := apply_lists meas_obj_patch (meas_obj_to_add_mod_list d)
                    (meas_obj_to_rem_list d) (meas_objs cfg);
     report_cfgs := apply_lists overwrite (report_cfg_to_add_mod_list d)
                      (report_cfg_to_rem_list d) (report_cfgs cfg);
     meas_ids := apply_lists overwrite (meas_id_to_add_mod_list d)
                   (meas_id_to_rem_list d) (meas_ids cfg) |}.

(** Modelled from the spec: an empty delta has no entry in any list and
    no presence flag set. *)
Definition empty_delta (d : meas_cfg_s) : Prop :=
  meas_obj_to_add_mod_list d = [] /\
  meas_obj_to_add_mod_list_present d = false /\
  meas_obj_to_rem_list d = [] /\
  meas_obj_to_rem_list_present d = false /\
  report_cfg_to_add_mod_list d = [] /\
  report_cfg_to_add_mod_list_present d = false /\
  report_cfg_to_rem_list d = [] /\
  report_cfg_to_rem_list_present d = false /\
  meas_id_to_add_mod_list d = [] /\
  meas_id_to_add_mod_list_present d = false /\
  meas_id_to_rem_list d = [] /\
  meas_id_to_rem_list_present d = false.

(** ** The configurations of test_correct_meascfg_calculation *)

Definition cell1 : cell_t := {| pci := 1; q_offset := 0 |}.
Definition cell2 : cell_t := {| pci := 2; q_offset := 0 |}.
Definition cell1_pci3 : cell_t := {| pci := 3; q_offset := 0 |}.

Definition rep1 : report_cfg_t :=
  {| trigger_type := event_a3; trigger_quant := rsrp; report_quant := both;
     threshold := 5; hysteresis := 0; time_to_trigger := 100;
     max_report_cells := 2; report_amount := 16; report_interv := 240 |}.

Definition rep2 : report_cfg_t :=
  {| trigger_type := event_a3; trigger_quant := rsrq; report_quant := both;
     threshold := 5; hysteresis := 0; time_to_trigger := 100;
     max_report_cells := 2; report_amount := 16; report_interv := 240 |}.

Definition rep3 : report_cfg_t :=
  {| trigger_type := event_a3; trigger_quant := rsrq;
     report_quant := same_as_trigger_quant;
     threshold := 5; hysteresis := 0; time_to_trigger := 100;
     max_report_cells := 2; report_amount := 16; report_interv := 240 |}.

Definition var_empty : var_meas_cfg_t :=
  {| meas_objs := ∅; report_cfgs := ∅; meas_ids := ∅ |}.

(** Two cells on EARFCN 3400, two report configurations, two meas ids. *)
Definition var_test1 : var_meas_cfg_t :=
  {| meas_objs :=
       {[ 1 := {| earfcn := 3400;
                  cells := <[2 := cell2]> {[ 1 := cell1 ]} |} ]};
     report_cfgs := <[2 := rep2]> {[ 1 := rep1 ]};
     meas_ids := <[2 := {| meas_obj_id := 1; report_cfg_id := 2 |}]>
                   {[ 1 := {| meas_obj_id := 1; report_cfg_id := 1 |} ]} |}.

(** The same after the PCI of the first cell became 3. *)
Definition var_test3 : var_meas_cfg_t :=
  {| meas_objs :=
       {[ 1 := {| earfcn := 3400;
                  cells := <[2 := cell2]> {[ 1 := cell1_pci3 ]} |} ]};
     report_cfgs := report_cfgs var_test1;
     meas_ids := meas_ids var_test1 |}.

(** Only the second cell, the first report configuration and a new second
    one. *)
Definition var_test4 : var_meas_cfg_t :=
  {| meas_objs :=
       {[ 1 := {| earfcn := 3400; cells := {[ 2 := cell2 ]} |} ]};
     report_cfgs := <[2 := rep3]> {[ 1 := rep1 ]};
     meas_ids := ∅ |}.

End MeasCfg.

(** * Timing advance commands (mac/ue.cc, ue::set_ta) *)

Module TimingAdvance.

(** The macros [SRSLTE_MAX(a,b)] and [SRSLTE_MIN(a,b)]. *)
Definition SRSLTE_MAX (a b : Z) : Z := if b <? a then a else b.
Definition SRSLTE_MIN (a b : Z) : Z := if a <? b then a else b.

(** [ta_value = SRSLTE_MAX(-31, SRSLTE_MIN(32, ta))] *)
Definition ta_value_of (ta : Z) : Z := SRSLTE_MAX (-31) (SRSLTE_MIN 32 ta).

(** The do-while loop of set_ta: the commands handed to
    [pending_ta_commands.try_push], in order.  The loop goes round again
    while [ta_value <= -31 || ta_value >= 32], with [ta -= ta_value]. *)
Equations? set_ta_loop (ta : Z) : list Z by wf (Z.abs_nat ta) lt :=
  set_ta_loop ta with decide (ta_value_of ta <= -31 \/ 32 <= ta_value_of ta) => {
    | left _ := u32 (ta_value_of ta + 31) :: set_ta_loop (ta - ta_value_of ta);
    | right _ := [u32 (ta_value_of ta + 31)] }.
Proof.
  unfold ta_value_of, SRSLTE_MAX, SRSLTE_MIN in *.
  repeat case_match; lia.
Qed.

(** ue::set_ta: the value returned ([nof_cmd], a 32-bit count of the
    passes) and the commands pushed. *)
Definition set_ta (ta_ : Z) : Z * list Z :=
  let cmds := set_ta_loop ta_ in
  (u32 (Z.of_nat (List.length cmds)), cmds).

(** The advance a command stands for. *)
Definition ta_of_cmd (ta_cmd : Z) : Z := ta_cmd - 31.

Definition sum_ta (cmds : list Z) : Z :=
  fold_right (fun c acc => ta_of_cmd c + acc) 0 cmds.

End TimingAdvance.

(** * Paging (rrc.cc, rrc::add_paging_id and rrc::is_paging_opportunity) *)

Module Paging.

(** [asn1::s1ap::ue_paging_id_c], as the code reads it: an IMSI, or an
    S-TMSI with the octets of its MMEC and of its M-TMSI. *)
Inductive ue_paging_id_c :=
| imsi (octets : list Z)
| s_tmsi (mmec : list Z) (m_tmsi : list Z).

Inductive paging_ue_id :=
| rec_imsi (octets : list Z)
| rec_s_tmsi (mmec_number m_tmsi_number : Z).

Inductive cn_domain_e := ps | cs.

Record paging_record_s := {
  ue_id : paging_ue_id;
  cn_domain : cn_domain_e
}.

Inductive paging_log_t :=
| warn_paging_not_yet_transmitted (ueid : Z)
| err_sf_pattern_na (Ns i_s ueid : Z)
| console_imsi_not_tested
| info_assembled_paging (ueid tti : Z)
| info_assembling_pcch (nof_records : nat).

(** [sf_pattern[4][4]] *)
Definition sf_pattern : list (list Z) :=
  [[9; 4; -1; 0]; [-1; 9; -1; 4]; [-1; -1; -1; 5]; [-1; -1; -1; 9]].

Definition sf_pattern_at (i j : Z) : Z :=
  nth (Z.to_nat j) (nth (Z.to_nat i) sf_pattern []) 0.

(** [m_tmsi |= m_tmsi[i] << (8u * (nof_octets - i - 1u))] for the octets
    from position [i] on.  The octet is promoted to int; shifting an int
    by 32 bits or more is undefined ([None]). *)
Fixpoint m_tmsi_loop (nof_octets : Z) (i : Z) (octets : list Z) (m_tmsi : Z)
  : option Z :=
  match octets with
  | [] => Some m_tmsi
  | b :: rest =>
      let sh := u32 (8 * u32 (u32 (nof_octets - i) - 1)) in
      if 32 <=? sh then None
      else m_tmsi_loop nof_octets (i + 1) rest
                       (Z.lor m_tmsi (u32 (Z.shiftl b sh)))
  end.

(** The paging record assembled for one pending identity, with what is
    printed on the console; [None] where the code's behaviour is
    undefined ([mmec[0]] of an empty string, or the shift above). *)
Definition paging_elem_of (u : ue_paging_id_c)
  : option (paging_record_s * list paging_log_t) :=
  match u with
  | imsi octets =>
      Some ({| ue_id := rec_imsi octets; cn_domain := ps |},
            [console_imsi_not_tested])
  | s_tmsi mmec octets =>
      mmec0 ← mmec !! 0%nat;
      m_tmsi ← m_tmsi_loop (Z.of_nat (List.length octets)) 0 octets 0;
      Some ({| ue_id := rec_s_tmsi mmec0 m_tmsi; cn_domain := ps |}, [])
  end.

(** [N = T < Nb ? T : Nb] and [Ns = Nb / T > 1 ? Nb / T : 1] *)
Definition N_of (T Nb : Z) : Z := if T <? Nb then T else Nb.
Definition Ns_of (T Nb : Z) : Z := if 1 <? Nb / T then Nb / T else 1.

(** [ueid = item.first % 1024] and [i_s = (ueid / N) % Ns] *)
Definition ueid_of (key : Z) : Z := u32 key mod 1024.
Definition i_s_of (T Nb ueid : Z) : Z := (ueid / N_of T Nb) mod Ns_of T Nb.

(** [(sfn % T) != (T / N) * (ueid % N)] does not hold: the frame of [tti]
    is a paging frame of [ueid]. *)
Definition in_paging_frame (T Nb ueid tti : Z) : bool :=
  (tti / 10) mod T =? u32 ((T / N_of T Nb) * (ueid mod N_of T Nb)).

(** [sf_idx = sf_pattern[i_s % 4][(Ns - 1) % 4]] *)
Definition sf_idx_of (T Nb ueid : Z) : Z :=
  sf_pattern_at (i_s_of T Nb ueid mod 4) ((Ns_of T Nb - 1) mod 4).

(** The tests that lead to a paging record for [ueid] at [tti]. *)
Definition is_due (T Nb tti ueid : Z) : bool :=
  in_paging_frame T Nb ueid tti &&
  negb (sf_idx_of T Nb ueid <? 0) &&
  (sf_idx_of T Nb ueid =? tti mod 10).

(** The locals of is_paging_opportunity that its loop changes. *)
Record page_loop_t := {
  n : Z;
  paging_record_list : list paging_record_s;
  ue_to_remove : list Z;
  page_log : list paging_log_t
}.

Section WithContainer.

(** [ASN1_RRC_MAX_PAGE_REC], and the order in which a range-for visits the
    entries of [pending_paging]: both are fixed outside rrc.cc. *)
Variable MAX_PAGE_REC : Z.
Variable items_of : gmap Z ue_paging_id_c -> list (Z * ue_paging_id_c).

(** rrc::add_paging_id *)
Definition add_paging_id (pending_paging : gmap Z ue_paging_id_c)
    (ueid : Z) (UEPagingID : ue_paging_id_c)
  : gmap Z ue_paging_id_c * list paging_log_t :=
  match pending_paging !! ueid with
  | None => (<[ueid := UEPagingID]> pending_paging, [])
  | Some _ => (pending_paging, [warn_paging_not_yet_transmitted ueid])
  end.

(** The loop over the pending identities, from the entries still to
    visit.  [T] and [Nb] are the paging cycle and [T * nb] read from
    SIB2; dividing by [N = 0] is undefined. *)
Fixpoint page_loop (T Nb tti : Z) (items : list (Z * ue_paging_id_c))
    (st : page_loop_t) : option page_loop_t :=
  match items with
  | [] => Some st
  | (key, u) :: rest =>
      if MAX_PAGE_REC <=? n st then Some st
      else
        let ueid := ueid_of key in
        if N_of T Nb =? 0 then None
        else if negb (in_paging_frame T Nb ueid tti) then
          page_loop T Nb tti rest st
        else
          let sf_idx := sf_idx_of T Nb ueid in
          if sf_idx <? 0 then
            page_loop T Nb tti rest
              {| n := n st; paging_record_list := paging_record_list st;
                 ue_to_remove := ue_to_remove st;
                 page_log := page_log st ++
                   [err_sf_pattern_na (Ns_of T Nb) (i_s_of T Nb ueid) ueid] |}
          else if sf_idx =? tti mod 10 then
            match paging_elem_of u with
            | None => None
            | Some (paging_elem, printed) =>
                page_loop T Nb tti rest
                  {| n := n st + 1;
                     paging_record_list :=
                       paging_record_list st ++ [paging_elem];
                     ue_to_remove := ue_to_remove st ++ [ueid];
                     page_log := page_log st ++ printed ++
                                 [info_assembled_paging ueid tti] |}
            end
          else page_loop T Nb tti rest st
  end.

(** What a call of is_paging_opportunity leaves behind. *)
Record paging_result := {
  ret : bool;
  pending_after : gmap Z ue_paging_id_c;
  pcch_records : list paging_record_s;
  result_log : list paging_log_t
}.

(** rrc::is_paging_opportunity, up to the packing of the PCCH message:
    the value returned, [pending_paging] afterwards, the records of the
    message and the log.  [None] where the behaviour is undefined
    (a division by [T = 0] or [N = 0], or a record as above). *)
Definition is_paging_opportunity (T Nb : Z)
    (pending_paging : gmap Z ue_paging_id_c) (tti : Z)
  : option paging_result :=
  if decide (pending_paging = ∅) then
    Some {| ret := false; pending_after := pending_paging;
            pcch_records := []; result_log := [] |}
  else if T =? 0 then None
  else
    st ← page_loop T Nb tti (items_of pending_paging)
         {| n := 0; paging_record_list := [];
            ue_to_remove := []; page_log := [] |};
    let pending' :=
      fold_left (fun m i => delete i m) (ue_to_remove st) pending_paging in
    if (0 <? List.length (paging_record_list st))%nat then
      Some {| ret := true; pending_after := pending';
              pcch_records := paging_record_list st;
              result_log := page_log st ++
                [info_assembling_pcch (List.length (paging_record_list st))] |}
    else
      Some {| ret := false; pending_after := pending';
              pcch_records := []; result_log := page_log st |}.

End WithContainer.

(** ** Readings used to state what paging does *)

(** The paging cycles and [nB] values of SIB2: [T] is 32, 64, 128 or 256
    frames, and [Nb] is [T] times 4, 2, 1, 1/2, 1/4, 1/8, 1/16 or 1/32. *)
Definition pcch_cfg_valid (T Nb : Z) : Prop :=
  In T [32; 64; 128; 256] /\
  In Nb [4 * T; 2 * T; T; T / 2; T / 4; T / 8; T / 16; T / 32].

(** An identity whose record is defined: an MMEC of at least one octet
    and an M-TMSI of at most four. *)
Definition id_well_formed (u : ue_paging_id_c) : Prop :=
  match u with
  | imsi _ => True
  | s_tmsi mmec octets =>
      (1 <= List.length mmec)%nat /\ (List.length octets <= 4)%nat
  end.

(** The number a string of octets stands for, first octet most
    significant. *)
Definition big_endian (octets : list Z) : Z :=
  fold_left (fun acc b => 256 * acc + b) octets 0.

(** The record alone. *)
Definition record_of (u : ue_paging_id_c) : option paging_record_s :=
  fst <$> paging_elem_of u.

Definition is_sf_error (l : paging_log_t) : bool :=
  match l with err_sf_pattern_na _ _ _ => true | _ => false end.

(** The keys are UE identity index values, below 1024. *)
Definition keys_small (pending_paging : gmap Z ue_paging_id_c) : Prop :=
  forall k u, pending_paging !! k = Some u -> 0 <= k < 1024.

Definition ids_well_formed (pending_paging : gmap Z ue_paging_id_c) : Prop :=
  forall k u, pending_paging !! k = Some u -> id_well_formed u.

(** The entries the loop pages when none of its tests is undefined: the
    first [MAX_PAGE_REC] entries, in the order visited, that are due. *)
Definition paged_items (MAX_PAGE_REC T Nb tti : Z)
    (items : list (Z * ue_paging_id_c)) : list (Z * ue_paging_id_c) :=
  take (Z.to_nat MAX_PAGE_REC)
       (List.filter (fun it => is_due T Nb tti (ueid_of (fst it))) items).

(** The subframe, counted from the start of a paging cycle of [T] frames,
    in which [ueid] is paged. *)
Definition paging_occasion (T Nb ueid : Z) : Z :=
  10 * ((T / N_of T Nb) * (ueid mod N_of T Nb)) + sf_idx_of T Nb ueid.

(** ** Sample inputs *)

Definition pending_two : gmap Z ue_paging_id_c :=
  <[5 := s_tmsi [0x1a] [0x12; 0x34; 0x56; 0x78]]>
    (<[37 := imsi [0; 1; 0; 1]]> ∅).

End Paging.

(** * The RRC user: bearers, timers and messages (rrc.cc, rrc::ue) *)

Module RrcUe.

(** The states rrc.cc names. *)
Inductive rrc_state_t :=
| RRC_STATE_IDLE
| RRC_STATE_WAIT_FOR_CON_SETUP_COMPLETE
| RRC_STATE_WAIT_FOR_CON_RECONF_COMPLETE
| RRC_STATE_REGISTERED
| RRC_STATE_RELEASE_REQUEST.

Definition rrc_state_eqb (a b : rrc_state_t) : bool :=
  match a, b with
  | RRC_STATE_IDLE, RRC_STATE_IDLE
  | RRC_STATE_WAIT_FOR_CON_SETUP_COMPLETE, RRC_STATE_WAIT_FOR_CON_SETUP_COMPLETE
  | RRC_STATE_WAIT_FOR_CON_RECONF_COMPLETE, RRC_STATE_WAIT_FOR_CON_RECONF_COMPLETE
  | RRC_STATE_REGISTERED, RRC_STATE_REGISTERED
  | RRC_STATE_RELEASE_REQUEST, RRC_STATE_RELEASE_REQUEST => true
  | _, _ => false
  end.

Inductive activity_timeout_type_t :=
| MSG3_RX_TIMEOUT
| UE_RESPONSE_RX_TIMEOUT
| UE_INACTIVITY_TIMEOUT
| timeout_nulltype.

(** What rrc.cc reads of [cfg.qci_cfg[qci]]: whether it is configured,
    the logical channel group of its [lc_cfg], and whether its [pdcp_cfg]
    asks for 7-bit sequence numbers on RLC UM. *)
Record qci_cfg_t := {
  configured : bool;
  lc_ch_group : Z;
  pdcp_sn_len7 : bool
}.

Record ue_cfg_t := {
  inactivity_timeout_ms : Z;
  max_harq_msg3_tx : Z;
  qci_cfg : Z -> qci_cfg_t;
  security_cfg : Security.security_cfg_t
}.

(** An entry of [erabs]. *)
Record erab_t := {
  erab_id : Z;
  erab_qci : Z;
  erab_address : Z * Z;
  erab_teid_out : Z
}.

(** What the code reads of an item of an E-RAB setup list: the id, the
    QCI of its QoS parameters, the length and the number of the transport
    layer address, the TEID and the NAS PDU. *)
Record erab_to_be_setup_item := {
  item_ext : bool;
  item_ie_exts_present : bool;
  item_erab_id : Z;
  item_qci : Z;
  item_address_length : Z;
  item_address_number : Z;
  item_gtp_teid : Z;
  item_nas_pdu_present : bool;
  item_nas_pdu : list Z
}.

Record drb_to_add_mod_s := {
  drb_id : Z;
  lc_ch_id : Z;
  eps_bearer_id : Z;
  drb_qci : Z
}.

(** The DL-CCCH messages; a setup or reestablishment carries the SR
    configuration index and PUCCH resource and, with periodic CQI, the
    CQI configuration index and PUCCH resource. *)
Inductive dl_ccch_msg_s :=
| rrc_conn_reject_msg
| rrc_conn_reest_reject_msg
| rrc_conn_setup_msg (rrc_transaction_id : Z)
    (sr_cfg_idx sr_pucch_res_idx : Z) (cqi_periodic : option (Z * Z))
| rrc_conn_reest_msg (rrc_transaction_id : Z)
    (sr_cfg_idx sr_pucch_res_idx : Z) (cqi_periodic : option (Z * Z)).

(** The DL-DCCH messages, with the fields the senders below fill in. *)
Inductive dl_dcch_msg_s :=
| rrc_conn_release_msg (rrc_transaction_id : Z) (redirected_geran : bool)
| rrc_conn_recfg_msg (rrc_transaction_id : Z) (srb_to_add_mod_list : list Z)
    (drb_to_add_mod_list : list drb_to_add_mod_s)
    (ded_info_nas_list : list (list Z))
| security_mode_cmd_msg (rrc_transaction_id : Z)
    (ciphering_algorithm integrity_prot_algorithm : Z)
| ue_cap_enquiry_msg (rrc_transaction_id : Z).

Definition transaction_id_of (m : dl_dcch_msg_s) : Z :=
  match m with
  | rrc_conn_release_msg id _ | rrc_conn_recfg_msg id _ _ _
  | security_mode_cmd_msg id _ _ | ue_cap_enquiry_msg id => id
  end.

(** The UL-DCCH messages as parse_ul_dcch tells them apart.  For a UE
    capability information: whether each container is for E-UTRA, and
    whether the first container unpacks. *)
Inductive ul_dcch_msg_s :=
| ul_unpack_failed
| ul_rrc_conn_setup_complete (ded_info_nas : list Z)
| ul_info_transfer (ded_info_nas : list Z)
| ul_rrc_conn_recfg_complete
| ul_security_mode_complete
| ul_security_mode_fail
| ul_ue_cap_info (rat_is_eutra : list bool) (first_unpacks : bool)
| ul_meas_report
| ul_other.

Inductive ue_log_t :=
| err_unknown_timeout_type
| dbg_setting_timer (type : activity_timeout_type_t) (deadline : Z)
| dbg_activity_registered (timeout_value : Z)
| warn_activity_timer_expired
| err_failed_to_unpack_ul_dcch
| err_msg_not_supported
| log_rx_message (m : ul_dcch_msg_s)
| console_user_connected
| warn_not_handling_rat
| err_unpack_eutra_capabilities
| info_ue_category
| info_transaction_id
| warn_not_handling_extensions
| err_ipv6_not_supported
| err_address_too_long
| info_setup_erab_nas
| err_invalid_qci (qci erab drb : Z)
| err_qci_not_configured (qci : Z)
| err_getting_drb1
| console_qci_invalid (qci : Z)
| err_getting_drb
| info_nas_added
| dbg_no_nas
| log_tx_ccch (m : dl_ccch_msg_s)
| log_tx_dcch (lcid : Z) (m : dl_dcch_msg_s)
| err_encode_dl_dcch
| err_allocating_pdu
| info_key_enb
| info_derived_keys
| err_mme_not_connected
| err_allocating_sr
| err_allocating_cqi
| log_pucch (l : Pucch.pucch_log_t)
| info_selected_algorithms (eea eia : Z)
| log_security (l : Security.security_log_t)
| info_rl_failure_detected
| info_removing_rnti
| warn_no_s1ap_context_removing
| info_nth_rl_failure (n_rfl : Z)
| err_rl_failure_unknown_rnti.

(** The calls made on the other layers and on the timer. *)
Inductive ue_event_t :=
| rlc_write_sdu (rnti lcid : Z) (m : dl_ccch_msg_s)
| pdcp_write_sdu (rnti lcid : Z) (m : dl_dcch_msg_s)
| rlc_add_bearer (rnti lcid : Z)
| pdcp_add_bearer (rnti lcid bearer_id : Z) (sn_len7 : bool)
| pdcp_add_bearer_drb (rnti lcid bearer_id qci : Z)
| pdcp_config_security (rnti lcid eea eia : Z)
| pdcp_enable_integrity (rnti lcid : Z)
| pdcp_enable_encryption (rnti lcid : Z)
| mac_bearer_ue_cfg (rnti lcid : Z)
| mac_ue_cfg (rnti : Z) (I_sr n_pucch_sr pmi_idx n_pucch : Z)
| mac_phy_config_enabled (rnti : Z) (enabled : bool)
| mac_set_dl_ant_info (rnti : Z)
| phy_set_config_dedicated (rnti : Z)
| gtpu_add_bearer (rnti lcid addr teid_out : Z)
| s1ap_initial_ue (rnti : Z) (nas : list Z) (tmsi : option (Z * Z))
| s1ap_write_pdu (rnti : Z) (nas : list Z)
| s1ap_ue_ctxt_setup_complete (rnti : Z) (erab_ids : gmap Z erab_t)
| s1ap_ue_erab_setup_complete (rnti : Z) (erab_ids : list Z)
| s1ap_user_release (rnti : Z)
| rem_user_thread (rnti : Z)
| mobility_handle_meas_report (rnti : Z)
| mobility_fill_conn_recfg (rnti : Z)
| timer_set (deadline : Z)
| timer_run
| ue_log (l : ue_log_t).

(** The members of rrc::ue the functions below read or write, but for
    the PUCCH resources. *)
Record ue_t := {
  rnti : Z;
  state : rrc_state_t;
  transaction_id : Z;
  rlf_cnt : Z;
  activity_timer_duration : Z;
  erabs : gmap Z erab_t;
  nas_pending : bool;
  erab_info : list Z;
  is_csfb : bool;
  has_tmsi : bool;
  m_tmsi : Z;
  mmec : Z;
  k_enb : list Z;
  cipher_algo : Security.CIPHERING_ALGORITHM_ID_ENUM;
  integ_algo : Security.INTEGRITY_ALGORITHM_ID_ENUM;
  security_capabilities : Security.security_capabilities_t;
  eutra_capabilities_unpacked : bool
}.

Definition set_state (u : ue_t) (s : rrc_state_t) : ue_t :=
  {| rnti := rnti u; state := s; transaction_id := transaction_id u;
     rlf_cnt := rlf_cnt u;
     activity_timer_duration := activity_timer_duration u;
     erabs := erabs u; nas_pending := nas_pending u;
     erab_info := erab_info u; is_csfb := is_csfb u;
     has_tmsi := has_tmsi u; m_tmsi := m_tmsi u; mmec := mmec u;
     k_enb := k_enb u; cipher_algo := cipher_algo u;
     integ_algo := integ_algo u;
     security_capabilities := security_capabilities u;
     eutra_capabilities_unpacked := eutra_capabilities_unpacked u |}.

Definition set_transaction_id (u : ue_t) (t : Z) : ue_t :=
  {| rnti := rnti u; state := state u; transaction_id := t;
     rlf_cnt := rlf_cnt u;
     activity_timer_duration := activity_timer_duration u;
     erabs := erabs u; nas_pending := nas_pending u;
     erab_info := erab_info u; is_csfb := is_csfb u;
     has_tmsi := has_tmsi u; m_tmsi := m_tmsi u; mmec := mmec u;
     k_enb := k_enb u; cipher_algo := cipher_algo u;
     integ_algo := integ_algo u;
     security_capabilities := security_capabilities u;
     eutra_capabilities_unpacked := eutra_capabilities_unpacked u |}.

Definition set_rlf_cnt (u : ue_t) (c : Z) : ue_t :=
  {| rnti := rnti u; state := state u; transaction_id := transaction_id u;
     rlf_cnt := c;
     activity_timer_duration := activity_timer_duration u;
     erabs := erabs u; nas_pending := nas_pending u;
     erab_info := erab_info u; is_csfb := is_csfb u;
     has_tmsi := has_tmsi u; m_tmsi := m_tmsi u; mmec := mmec u;
     k_enb := k_enb u; cipher_algo := cipher_algo u;
     integ_algo := integ_algo u;
     security_capabilities := security_capabilities u;
     eutra_capabilities_unpacked := eutra_capabilities_unpacked u |}.

Definition set_timer_duration (u : ue_t) (d : Z) : ue_t :=
  {| rnti := rnti u; state := state u; transaction_id := transaction_id u;
     rlf_cnt := rlf_cnt u;
     activity_timer_duration := d;
     erabs := erabs u; nas_pending := nas_pending u;
     erab_info := erab_info u; is_csfb := is_csfb u;
     has_tmsi := has_tmsi u; m_tmsi := m_tmsi u; mmec := mmec u;
     k_enb := k_enb u; cipher_algo := cipher_algo u;
     integ_algo := integ_algo u;
     security_capabilities := security_capabilities u;
     eutra_capabilities_unpacked := eutra_capabilities_unpacked u |}.

Definition set_erabs (u : ue_t) (e : gmap Z erab_t) : ue_t :=
  {| rnti := rnti u; state := state u; transaction_id := transaction_id u;
     rlf_cnt := rlf_cnt u;
     activity_timer_duration := activity_timer_duration u;
     erabs := e; nas_pending := nas_pending u;
     erab_info := erab_info u; is_csfb := is_csfb u;
     has_tmsi := has_tmsi u; m_tmsi := m_tmsi u; mmec := mmec u;
     k_enb := k_enb u; cipher_algo := cipher_algo u;
     integ_algo := integ_algo u;
     security_capabilities := security_capabilities u;
     eutra_capabilities_unpacked := eutra_capabilities_unpacked u |}.

Definition set_nas (u : ue_t) (pending : bool) (info : list Z) : ue_t :=
  {| rnti := rnti u; state := state u; transaction_id := transaction_id u;
     rlf_cnt := rlf_cnt u;
     activity_timer_duration := activity_timer_duration u;
     erabs := erabs u; nas_pending := pending;
     erab_info := info; is_csfb := is_csfb u;
     has_tmsi := has_tmsi u; m_tmsi := m_tmsi u; mmec := mmec u;
     k_enb := k_enb u; cipher_algo := cipher_algo u;
     integ_algo := integ_algo u;
     security_capabilities := security_capabilities u;
     eutra_capabilities_unpacked := eutra_capabilities_unpacked u |}.

Definition set_security (u : ue_t) (key : list Z)
    (c : Security.CIPHERING_ALGORITHM_ID_ENUM)
    (i : Security.INTEGRITY_ALGORITHM_ID_ENUM) : ue_t :=
  {| rnti := rnti u; state := state u; transaction_id := transaction_id u;
     rlf_cnt := rlf_cnt u;
     activity_timer_duration := activity_timer_duration u;
     erabs := erabs u; nas_pending := nas_pending u;
     erab_info := erab_info u; is_csfb := is_csfb u;
     has_tmsi := has_tmsi u; m_tmsi := m_tmsi u; mmec := mmec u;
     k_enb := key; cipher_algo := c; integ_algo := i;
     security_capabilities := security_capabilities u;
     eutra_capabilities_unpacked := eutra_capabilities_unpacked u |}.

Definition set_security_capabilities (u : ue_t)
    (caps : Security.security_capabilities_t) : ue_t :=
  {| rnti := rnti u; state := state u; transaction_id := transaction_id u;
     rlf_cnt := rlf_cnt u;
     activity_timer_duration := activity_timer_duration u;
     erabs := erabs u; nas_pending := nas_pending u;
     erab_info := erab_info u; is_csfb := is_csfb u;
     has_tmsi := has_tmsi u; m_tmsi := m_tmsi u; mmec := mmec u;
     k_enb := k_enb u; cipher_algo := cipher_algo u;
     integ_algo := integ_algo u;
     security_capabilities := caps;
     eutra_capabilities_unpacked := eutra_capabilities_unpacked u |}.

Definition set_tmsi (u : ue_t) (mmec_ m_tmsi_ : Z) : ue_t :=
  {| rnti := rnti u; state := state u; transaction_id := transaction_id u;
     rlf_cnt := rlf_cnt u;
     activity_timer_duration := activity_timer_duration u;
     erabs := erabs u; nas_pending := nas_pending u;
     erab_info := erab_info u; is_csfb := is_csfb u;
     has_tmsi := true; m_tmsi := m_tmsi_; mmec := mmec_;
     k_enb := k_enb u; cipher_algo := cipher_algo u;
     integ_algo := integ_algo u;
     security_capabilities := security_capabilities u;
     eutra_capabilities_unpacked := eutra_capabilities_unpacked u |}.

Definition set_eutra_capabilities_unpacked (u : ue_t) : ue_t :=
  {| rnti := rnti u; state := state u; transaction_id := transaction_id u;
     rlf_cnt := rlf_cnt u;
     activity_timer_duration := activity_timer_duration u;
     erabs := erabs u; nas_pending := nas_pending u;
     erab_info := erab_info u; is_csfb := is_csfb u;
     has_tmsi := has_tmsi u; m_tmsi := m_tmsi u; mmec := mmec u;
     k_enb := k_enb u; cipher_algo := cipher_algo u;
     integ_algo := integ_algo u;
     security_capabilities := security_capabilities u;
     eutra_capabilities_unpacked := true |}.

(** A user with its SR and CQI resources, and the two grids of the
    parent that the allocators work on. *)
Record conn_t := {
  conn_ue : ue_t;
  conn_sr : Pucch.handle_t;
  conn_cqi : Pucch.handle_t;
  conn_sr_sched : Pucch.grid;
  conn_cqi_sched : Pucch.grid
}.

Definition SRSLTE_MRNTI : Z := 0xFFFD.
Definition RB_ID_SRB0 : Z := 0.
Definition RB_ID_SRB1 : Z := 1.
Definition RB_ID_SRB2 : Z := 2.

Section WithParent.

(** Fixed outside rrc.cc: the width in bits of [transaction_id], the key
    type of [erabs] (as the conversion of a 32-bit value to it), the entry
    [erabs[k]] creates for a new key, and [MAX_NOF_QCI]. *)
Variable w : Z.
Variable erab_key : Z -> Z.
Variable default_erab : erab_t.
Variable MAX_NOF_QCI : Z.

(** The answers of the other layers, which may depend on the calls made
    so far: whether the buffer pool is exhausted, whether packing a
    message fails, [rlc->has_bearer], [s1ap->user_exists]. *)
Variable pool_empty : list ue_event_t -> bool.
Variable pack_fails : dl_dcch_msg_s -> bool.
Variable has_bearer : list ue_event_t -> Z -> Z -> bool.
Variable s1ap_user_exists : list ue_event_t -> Z -> bool.

Variable cfg : ue_cfg_t.

(** ** Activity timer *)

(** rrc::ue::set_activity *)
Definition set_activity (u : ue_t) (tr : list ue_event_t) : list ue_event_t :=
  tr ++ [timer_run;
         ue_log (dbg_activity_registered (activity_timer_duration u))].

(** rrc::ue::set_activity_timeout.  [deadline_s * 1e3 + deadline_ms] is
    computed in double precision, exactly for these values. *)
Definition set_activity_timeout (u : ue_t) (tr : list ue_event_t)
    (type : activity_timeout_type_t) : ue_t * list ue_event_t :=
  let '(deadline_s, deadline_ms, tr1) :=
    match type with
    | MSG3_RX_TIMEOUT => (0, u32 ((max_harq_msg3_tx cfg + 1) * 16), tr)
    | UE_RESPONSE_RX_TIMEOUT => (1, 0, tr)
    | UE_INACTIVITY_TIMEOUT =>
        (inactivity_timeout_ms cfg / 1000,
         inactivity_timeout_ms cfg mod 1000, tr)
    | timeout_nulltype => (0, 0, tr ++ [ue_log err_unknown_timeout_type])
    end in
  let deadline := deadline_s * 1000 + deadline_ms in
  let u' := set_timer_duration u deadline in
  (u', set_activity u'
         (tr1 ++ [timer_set deadline;
                  ue_log (dbg_setting_timer type deadline)])).

(** The constructor: the timeout for Msg3, EIA0 and EEA0. *)
Definition ue_ctor (rnti_ : Z) (caps : Security.security_capabilities_t)
  : ue_t * list ue_event_t :=
  set_activity_timeout
    {| rnti := rnti_; state := RRC_STATE_IDLE; transaction_id := 0;
       rlf_cnt := 0; activity_timer_duration := 0;
       erabs := ∅; nas_pending := false; erab_info := [];
       is_csfb := false; has_tmsi := false; m_tmsi := 0; mmec := 0;
       k_enb := replicate 32 0;
       cipher_algo := Security.CIPHERING_ALGORITHM_ID_EEA0;
       integ_algo := Security.INTEGRITY_ALGORITHM_ID_EIA0;
       security_capabilities := caps;
       eutra_capabilities_unpacked := false |}
    [] MSG3_RX_TIMEOUT.

(** rrc::ue::rl_failure *)
Definition rl_failure (u : ue_t) : Z * ue_t :=
  let c := u32 (rlf_cnt u + 1) in (c, set_rlf_cnt u c).

(** rrc::ue::activity_timer_expired *)
Definition activity_timer_expired (u : ue_t) (tr : list ue_event_t)
  : ue_t * list ue_event_t :=
  let tr1 := tr ++ [ue_log warn_activity_timer_expired] in
  let tr2 :=
    if s1ap_user_exists tr1 (rnti u) then tr1 ++ [s1ap_user_release (rnti u)]
    else if negb (rnti u =? SRSLTE_MRNTI)
         then tr1 ++ [rem_user_thread (rnti u)]
         else tr1 in
  (set_state u RRC_STATE_RELEASE_REQUEST, tr2).

(** What [s1ap->user_release] returns. *)
Variable s1ap_user_release_ok : list ue_event_t -> Z -> bool.

(** rrc::process_rl_failure; [found] is what [users.find(rnti)] finds. *)
Definition process_rl_failure (rnti_ : Z) (found : option ue_t)
    (tr : list ue_event_t) : option ue_t * list ue_event_t :=
  match found with
  | Some u =>
      let '(n_rfl, u') := rl_failure u in
      if n_rfl =? 1 then
        let tr1 := tr ++ [ue_log info_rl_failure_detected] in
        if s1ap_user_exists tr1 rnti_ then
          let tr2 := tr1 ++ [s1ap_user_release rnti_] in
          (Some u',
           if negb (s1ap_user_release_ok tr1 rnti_)
           then tr2 ++ [ue_log info_removing_rnti] else tr2)
        else
          (Some u', tr1 ++ [ue_log warn_no_s1ap_context_removing;
                            rem_user_thread rnti_])
      else (Some u', tr ++ [ue_log (info_nth_rl_failure n_rfl)])
  | None => (None, tr ++ [ue_log err_rl_failure_unknown_rnti])
  end.

(** The radio link failures of one rnti, one after the other. *)
Fixpoint process_rl_failures (n : nat) (rnti_ : Z) (found : option ue_t)
    (tr : list ue_event_t) : option ue_t * list ue_event_t :=
  match n with
  | O => (found, tr)
  | S k =>
      let '(found', tr') := process_rl_failure rnti_ found tr in
      process_rl_failures k rnti_ found' tr'
  end.

(** ** Sending *)

(** rrc::ue::send_dl_ccch *)
Definition send_dl_ccch (u : ue_t) (tr : list ue_event_t)
    (m : dl_ccch_msg_s) : list ue_event_t :=
  if pool_empty tr then tr ++ [ue_log err_allocating_pdu]
  else tr ++ [ue_log (log_tx_ccch m); rlc_write_sdu (rnti u) RB_ID_SRB0 m].

(** rrc::ue::send_dl_dcch; [pdu] tells whether the caller hands over a
    buffer. *)
Definition send_dl_dcch (u : ue_t) (tr : list ue_event_t)
    (m : dl_dcch_msg_s) (pdu : bool) : list ue_event_t :=
  if pdu || negb (pool_empty tr) then
    if pack_fails m then tr ++ [ue_log err_encode_dl_dcch]
    else
      let lcid :=
        if has_bearer tr (rnti u) RB_ID_SRB2 &&
           rrc_state_eqb (state u) RRC_STATE_REGISTERED
        then RB_ID_SRB2 else RB_ID_SRB1 in
      tr ++ [ue_log (log_tx_dcch lcid m); pdcp_write_sdu (rnti u) lcid m]
  else tr ++ [ue_log err_allocating_pdu].

(** rrc::ue::send_connection_reject *)
Definition send_connection_reject (u : ue_t) (tr : list ue_event_t)
  : list ue_event_t :=
  send_dl_ccch u tr rrc_conn_reject_msg.

(** rrc::ue::send_connection_release *)
Definition send_connection_release (u : ue_t) (tr : list ue_event_t)
  : ue_t * list ue_event_t :=
  let '(id, tid) := TransactionId.next_transaction_id w (transaction_id u) in
  let u' := set_transaction_id u tid in
  (u', send_dl_dcch u' tr (rrc_conn_release_msg id (is_csfb u)) false).

(** rrc::ue::send_security_mode_command *)
Definition send_security_mode_command (u : ue_t) (tr : list ue_event_t)
  : ue_t * list ue_event_t :=
  let '(id, tid) := TransactionId.next_transaction_id w (transaction_id u) in
  let u' := set_transaction_id u tid in
  (u', send_dl_dcch u' tr
         (security_mode_cmd_msg id (Security.cipher_id (cipher_algo u))
                                (Security.integ_id (integ_algo u)))
         false).

(** rrc::ue::send_ue_cap_enquiry *)
Definition send_ue_cap_enquiry (u : ue_t) (tr : list ue_event_t)
  : ue_t * list ue_event_t :=
  let '(id, tid) := TransactionId.next_transaction_id w (transaction_id u) in
  let u' := set_transaction_id u tid in
  (u', send_dl_dcch u' tr (ue_cap_enquiry_msg id) false).

(** ** Security key *)

(** [for (i = 0; i < nof_octets; ++i) k_enb[i] = key[nof_octets - 1 - i];] *)
Definition reverse_key (k_enb : list Z) (key : list Z) : list Z :=
  fold_left
    (fun k i => <[i := nth (List.length key - 1 - i) key 0]> k)
    (seq 0 (List.length key)) k_enb.

(** rrc::ue::set_security_key: the value select_security_algorithms
    returns is not looked at. *)
Definition set_security_key (u : ue_t) (tr : list ue_event_t) (key : list Z)
  : ue_t * list ue_event_t :=
  let '(_, sec, slog) :=
    Security.select_security_algorithms (security_cfg cfg)
      (security_capabilities u)
      {| Security.cipher_algo := cipher_algo u;
         Security.integ_algo := integ_algo u |} in
  let u' := set_security u (reverse_key (k_enb u) key)
                         (Security.cipher_algo sec)
                         (Security.integ_algo sec) in
  let eea := Security.cipher_id (cipher_algo u') in
  let eia := Security.integ_id (integ_algo u') in
  (u', tr ++ [ue_log info_key_enb] ++ map (fun l => ue_log (log_security l)) slog ++
       [ue_log (info_selected_algorithms eea eia);
        pdcp_config_security (rnti u) RB_ID_SRB1 eea eia;
        pdcp_enable_integrity (rnti u) RB_ID_SRB1;
        ue_log info_derived_keys]).

(** ** E-RABs *)

(** [erabs[k]]: the entry, created if there is none. *)
Definition erabs_at (es : gmap Z erab_t) (k : Z) : erab_t * gmap Z erab_t :=
  match es !! erab_key k with
  | Some e => (e, es)
  | None => (default_erab, <[erab_key k := default_erab]> es)
  end.

(** rrc::ue::setup_erab *)
Definition setup_erab (u : ue_t) (tr : list ue_event_t)
    (id qci addr_length addr_number teid_out : Z) (nas_pdu : option (list Z))
  : ue_t * list ue_event_t :=
  let id := u8 id in
  let u1 := set_erabs u
    (<[erab_key id := {| erab_id := id; erab_qci := qci;
                         erab_address := (addr_length, addr_number);
                         erab_teid_out := teid_out |}]> (erabs u)) in
  if 32 <? addr_length then (u1, tr ++ [ue_log err_address_too_long])
  else
    let lcid := u8 (id - 2) in
    let tr1 := tr ++ [gtpu_add_bearer (rnti u) lcid (u32 addr_number) teid_out] in
    match nas_pdu with
    | Some nas => (set_nas u1 true nas, tr1 ++ [ue_log info_setup_erab_nas])
    | None => (set_nas u1 false (erab_info u1), tr1)
    end.

(** rrc::ue::get_drbid_config: the DRB item on success. *)
Definition get_drbid_config (u : ue_t) (tr : list ue_event_t) (drb_id_ : Z)
  : option drb_to_add_mod_s * ue_t * list ue_event_t :=
  let lc_id := u32 (drb_id_ + 2) in
  let erab_id_ := u32 (lc_id + 2) in
  let '(e, es) := erabs_at (erabs u) erab_id_ in
  let u' := set_erabs u es in
  let qci := u32 (erab_qci e) in
  if MAX_NOF_QCI <=? qci then
    (None, u', tr ++ [ue_log (err_invalid_qci qci erab_id_ drb_id_)])
  else if negb (configured (qci_cfg cfg qci)) then
    (None, u', tr ++ [ue_log (err_qci_not_configured qci)])
  else
    (Some {| drb_id := u8 drb_id_; lc_ch_id := u8 lc_id;
             eps_bearer_id := u8 erab_id_; drb_qci := qci |}, u', tr).

(** rrc::ue::notify_s1ap_ue_erab_setup_response: the ids reported, in the
    order of the request; reading [erabs[id].teid_in] creates the entry
    if there is none. *)
Definition notify_s1ap_ue_erab_setup_response (u : ue_t)
    (tr : list ue_event_t) (e : list erab_to_be_setup_item)
  : ue_t * list ue_event_t :=
  (set_erabs u
     (fold_left (fun es it => snd (erabs_at es (u8 (item_erab_id it))))
                e (erabs u)),
   tr ++ [s1ap_ue_erab_setup_complete (rnti u)
            (map (fun it => u8 (item_erab_id it)) e)]).

(** The locals of send_connection_reconf_new_bearer that its loop
    changes. *)
Record bearer_loop_t := {
  loop_ue : ue_t;
  loop_trace : list ue_event_t;
  loop_drbs : list drb_to_add_mod_s;
  loop_nas : list (list Z)
}.

(** The loop over the items; [None] when it returns from the function. *)
Fixpoint new_bearer_loop (e : list erab_to_be_setup_item) (st : bearer_loop_t)
  : option bearer_loop_t * ue_t * list ue_event_t :=
  match e with
  | [] => (Some st, loop_ue st, loop_trace st)
  | item :: rest =>
      let id := u8 (item_erab_id item) in
      let lcid := u8 (id - 2) in
      let u := loop_ue st in
      match get_drbid_config u (loop_trace st) (lcid - 2) with
      | (None, u1, tr1) =>
          let '(e_id, es) := erabs_at (erabs u1) id in
          (None, set_erabs u1 es,
           tr1 ++ [ue_log err_getting_drb;
                   ue_log (console_qci_invalid (erab_qci e_id))])
      | (Some drb_item, u1, tr1) =>
          let tr2 := tr1 ++
            [mac_bearer_ue_cfg (rnti u) lcid;
             rlc_add_bearer (rnti u) lcid;
             pdcp_add_bearer_drb (rnti u) lcid (drb_id drb_item - 1)
                                 (drb_qci drb_item)] in
          new_bearer_loop rest
            {| loop_ue := u1;
               loop_trace :=
                 if nas_pending u1 then tr2 ++ [ue_log info_nas_added]
                 else tr2;
               loop_drbs := loop_drbs st ++ [drb_item];
               loop_nas :=
                 if nas_pending u1 then loop_nas st ++ [erab_info u1]
                 else loop_nas st |}
      end
  end.

(** rrc::ue::send_connection_reconf_new_bearer *)
Definition send_connection_reconf_new_bearer (u : ue_t)
    (tr : list ue_event_t) (e : list erab_to_be_setup_item)
  : ue_t * list ue_event_t :=
  let pdu := negb (pool_empty tr) in
  let '(id, tid) := TransactionId.next_transaction_id w (transaction_id u) in
  let u0 := set_transaction_id u tid in
  match new_bearer_loop e {| loop_ue := u0; loop_trace := tr;
                             loop_drbs := []; loop_nas := [] |} with
  | (None, u1, tr1) => (u1, tr1)
  | (Some st, u1, tr1) =>
      (u1, send_dl_dcch u1 tr1
             (rrc_conn_recfg_msg id [] (loop_drbs st) (loop_nas st)) pdu)
  end.

(** The loop shared by the two rrc::ue::setup_erabs; [false] when it
    returns false from the function.  The bearer setup request always
    hands over the NAS PDU, the context setup request only when it is
    present. *)
Fixpoint setup_erabs_loop (e : list erab_to_be_setup_item) (u : ue_t)
    (tr : list ue_event_t) (always_nas : bool)
  : bool * ue_t * list ue_event_t :=
  match e with
  | [] => (true, u, tr)
  | erab :: rest =>
      let tr0 :=
        tr ++ (if item_ext erab
               then [ue_log warn_not_handling_extensions] else [])
           ++ (if item_ie_exts_present erab
               then [ue_log warn_not_handling_extensions] else []) in
      if 32 <? item_address_length erab then
        (false, u, tr0 ++ [ue_log err_ipv6_not_supported])
      else
        let nas := if always_nas || item_nas_pdu_present erab
                   then Some (item_nas_pdu erab) else None in
        let '(u1, tr1) :=
          setup_erab u tr0 (item_erab_id erab) (item_qci erab)
                     (item_address_length erab) (item_address_number erab)
                     (item_gtp_teid erab) nas in
        setup_erabs_loop rest u1 tr1 always_nas
  end.

(** rrc::ue::setup_erabs for an initial context setup request *)
Definition setup_erabs_ctxt (u : ue_t) (tr : list ue_event_t)
    (e : list erab_to_be_setup_item) : bool * ue_t * list ue_event_t :=
  setup_erabs_loop e u tr false.

(** rrc::ue::setup_erabs for a bearer setup request *)
Definition setup_erabs_bearer (u : ue_t) (tr : list ue_event_t)
    (e : list erab_to_be_setup_item) : bool * ue_t * list ue_event_t :=
  match setup_erabs_loop e u tr true with
  | (false, u1, tr1) => (false, u1, tr1)
  | (true, u1, tr1) =>
      let '(u2, tr2) := notify_s1ap_ue_erab_setup_response u1 tr1 e in
      let '(u3, tr3) := send_connection_reconf_new_bearer u2 tr2 e in
      (true, u3, tr3)
  end.

(** rrc::ue::notify_s1ap_ue_ctxt_setup_complete *)
Definition notify_s1ap_ue_ctxt_setup_complete (u : ue_t)
    (tr : list ue_event_t) : list ue_event_t :=
  tr ++ [s1ap_ue_ctxt_setup_complete (rnti u) (erabs u)].

(** rrc::ue::send_connection_reconf, called with the buffer of the
    message just received. *)
Definition send_connection_reconf (u : ue_t) (tr : list ue_event_t)
  : ue_t * list ue_event_t :=
  let '(id, tid) := TransactionId.next_transaction_id w (transaction_id u) in
  let u0 := set_transaction_id u tid in
  let r := rnti u in
  let tr0 := tr ++ [phy_set_config_dedicated r; mac_set_dl_ant_info r;
                    mac_phy_config_enabled r false] in
  match get_drbid_config u0 tr0 1 with
  | (None, u1, tr1) =>
      let '(e5, es) := erabs_at (erabs u1) 5 in
      (set_erabs u1 es,
       tr1 ++ [ue_log err_getting_drb1;
               ue_log (console_qci_invalid (erab_qci e5))])
  | (Some drb, u1, tr1) =>
      let eea := Security.cipher_id (cipher_algo u1) in
      let eia := Security.integ_id (integ_algo u1) in
      let tr2 := tr1 ++
        [mac_bearer_ue_cfg r 2; mac_bearer_ue_cfg r 3;
         rlc_add_bearer r 2;
         pdcp_add_bearer r 2 2 false;
         pdcp_config_security r 2 eea eia;
         pdcp_enable_integrity r 2; pdcp_enable_encryption r 2;
         rlc_add_bearer r 3;
         pdcp_add_bearer r 3 1 (pdcp_sn_len7 (qci_cfg cfg (drb_qci drb)));
         pdcp_config_security r 3 eea eia;
         pdcp_enable_integrity r 3; pdcp_enable_encryption r 3;
         ue_log (if nas_pending u1 then info_nas_added else dbg_no_nas);
         mobility_fill_conn_recfg r] in
      let m := rrc_conn_recfg_msg id [2] [drb]
                 (if nas_pending u1 then [erab_info u1] else []) in
      (set_state u1 RRC_STATE_WAIT_FOR_CON_RECONF_COMPLETE,
       send_dl_dcch u1 tr2 m true)
  end.

(** ** Received messages *)

(** rrc::ue::handle_ue_cap_info: the loop over the containers, which
    unpacks the first container for every E-UTRA entry. *)
Fixpoint handle_ue_cap_info_loop (rats : list bool) (first_unpacks : bool)
    (u : ue_t) (tr : list ue_event_t) : bool * ue_t * list ue_event_t :=
  match rats with
  | [] => (true, u, tr)
  | is_eutra :: rest =>
      if negb is_eutra then
        handle_ue_cap_info_loop rest first_unpacks u
          (tr ++ [ue_log warn_not_handling_rat])
      else if negb first_unpacks then
        (false, u, tr ++ [ue_log err_unpack_eutra_capabilities])
      else
        handle_ue_cap_info_loop rest first_unpacks
          (set_eutra_capabilities_unpacked u)
          (tr ++ [ue_log info_ue_category])
  end.

Definition handle_ue_cap_info (u : ue_t) (tr : list ue_event_t)
    (rats : list bool) (first_unpacks : bool)
  : bool * ue_t * list ue_event_t :=
  handle_ue_cap_info_loop rats first_unpacks u
    (tr ++ [ue_log info_transaction_id]).

(** rrc::ue::handle_rrc_con_setup_complete *)
Definition handle_rrc_con_setup_complete (u : ue_t) (tr : list ue_event_t)
    (nas : list Z) : ue_t * list ue_event_t :=
  (set_state u RRC_STATE_WAIT_FOR_CON_RECONF_COMPLETE,
   tr ++ [ue_log info_transaction_id;
          mac_phy_config_enabled (rnti u) true;
          s1ap_initial_ue (rnti u) nas
            (if has_tmsi u then Some (m_tmsi u, mmec u) else None)]).

(** rrc::ue::parse_ul_dcch on a message of the user. *)
Definition parse_ul_dcch (u : ue_t) (tr : list ue_event_t)
    (m : ul_dcch_msg_s) : ue_t * list ue_event_t :=
  let tr0 := set_activity u tr in
  match m with
  | ul_unpack_failed => (u, tr0 ++ [ue_log err_failed_to_unpack_ul_dcch])
  | _ =>
      let tr1 := tr0 ++ [ue_log (log_rx_message m)] in
      let u0 := set_transaction_id u 0 in
      match m with
      | ul_unpack_failed => (u0, tr1)
      | ul_rrc_conn_setup_complete nas =>
          handle_rrc_con_setup_complete u0 tr1 nas
      | ul_info_transfer nas => (u0, tr1 ++ [s1ap_write_pdu (rnti u) nas])
      | ul_rrc_conn_recfg_complete =>
          set_activity_timeout
            (set_state u0 RRC_STATE_REGISTERED)
            (tr1 ++ [ue_log info_transaction_id;
                     mac_phy_config_enabled (rnti u) true;
                     ue_log console_user_connected])
            UE_INACTIVITY_TIMEOUT
      | ul_security_mode_complete =>
          let tr2 := tr1 ++ [ue_log info_transaction_id;
                             pdcp_enable_encryption (rnti u) RB_ID_SRB1] in
          let tr3 := notify_s1ap_ue_ctxt_setup_complete u0 tr2 in
          let '(u1, tr4) := send_connection_reconf u0 tr3 in
          (set_state u1 RRC_STATE_WAIT_FOR_CON_RECONF_COMPLETE, tr4)
      | ul_security_mode_fail => (u0, tr1 ++ [ue_log info_transaction_id])
      | ul_ue_cap_info rats first_unpacks =>
          match handle_ue_cap_info u0 tr1 rats first_unpacks with
          | (true, u1, tr2) =>
              let '(u2, tr3) := send_connection_reconf u1 tr2 in
              (set_state u2 RRC_STATE_WAIT_FOR_CON_RECONF_COMPLETE, tr3)
          | (false, u1, tr2) =>
              (set_state u1 RRC_STATE_IDLE, send_connection_reject u1 tr2)
          end
      | ul_meas_report => (u0, tr1 ++ [mobility_handle_meas_report (rnti u)])
      | ul_other => (u0, tr1 ++ [ue_log err_msg_not_supported])
      end
  end.

(** What rrc calls on a user. *)
Inductive ue_op_t :=
| op_handle_rrc_con_req (s_tmsi : option (Z * Z))
| op_parse_ul_dcch (m : ul_dcch_msg_s)
| op_set_activity
| op_activity_timer_expired
| op_rl_failure
| op_set_security_key (key : list Z)
| op_send_security_mode_command
| op_setup_erabs_ctxt (e : list erab_to_be_setup_item)
| op_setup_erabs_bearer (e : list erab_to_be_setup_item)
| op_send_connection_release.

(** ** Connection setup *)

(** Of the parent's configuration: the PUCCH grids, the SR and CQI
    periods and the CQI mode; and [s1ap->is_mme_connected]. *)
Variable pucch_cfg : Pucch.rrc_cfg_t.
Variable sr_period cqi_period : Z.
Variable cqi_mode_aperiodic : bool.
Variable is_mme_connected : list ue_event_t -> bool.

Definition pucch_logs (l : list Pucch.pucch_log_t) : list ue_event_t :=
  map (fun x => ue_log (log_pucch x)) l.

(** What follows the allocations in send_connection_setup: the scheduler
    and the layers are configured and the message goes out on SRB0. *)
Definition connection_setup_tail (c : conn_t) (tr : list ue_event_t)
    (m : dl_ccch_msg_s) : list ue_event_t :=
  let r := rnti (conn_ue c) in
  send_dl_ccch (conn_ue c)
    (tr ++ [mac_ue_cfg r (Pucch.res_idx (conn_sr c))
                       (Pucch.res_pucch (conn_sr c))
                       (Pucch.res_idx (conn_cqi c))
                       (Pucch.res_pucch (conn_cqi c));
            rlc_add_bearer r 1;
            pdcp_add_bearer r 1 1 false;
            phy_set_config_dedicated r;
            mac_set_dl_ant_info r;
            mac_phy_config_enabled r false]) m.

(** rrc::ue::send_connection_setup *)
Definition send_connection_setup (c : conn_t) (tr : list ue_event_t)
    (is_setup : bool) : conn_t * list ue_event_t :=
  let u := conn_ue c in
  let '(id, tid) := TransactionId.next_transaction_id w (transaction_id u) in
  let u0 := set_transaction_id u tid in
  if is_setup then
    match Pucch.sr_allocate (Pucch.cell pucch_cfg) (Pucch.sr_cfg pucch_cfg)
                            (conn_sr_sched c) (conn_sr c) sr_period with
    | (Pucch.ret_error, g, h, l) =>
        ({| conn_ue := u0; conn_sr := h; conn_cqi := conn_cqi c;
            conn_sr_sched := g; conn_cqi_sched := conn_cqi_sched c |},
         tr ++ pucch_logs l ++ [ue_log err_allocating_sr])
    | (Pucch.ret_ok I_sr N_pucch_sr, g, h, l) =>
        let c1 := {| conn_ue := u0; conn_sr := h; conn_cqi := conn_cqi c;
                     conn_sr_sched := g;
                     conn_cqi_sched := conn_cqi_sched c |} in
        let tr1 := tr ++ pucch_logs l in
        if cqi_mode_aperiodic then
          (c1, connection_setup_tail c1 tr1
                 (rrc_conn_setup_msg id I_sr N_pucch_sr None))
        else
          match Pucch.cqi_allocate (Pucch.cell pucch_cfg)
                  (Pucch.cqi_cfg pucch_cfg) (conn_cqi_sched c) (conn_cqi c)
                  cqi_period with
          | (Pucch.ret_error, g2, h2, l2) =>
              ({| conn_ue := u0; conn_sr := h; conn_cqi := h2;
                  conn_sr_sched := g; conn_cqi_sched := g2 |},
               tr1 ++ pucch_logs l2 ++ [ue_log err_allocating_cqi])
          | (Pucch.ret_ok pmi_idx n_pucch, g2, h2, l2) =>
              let c2 := {| conn_ue := u0; conn_sr := h; conn_cqi := h2;
                           conn_sr_sched := g; conn_cqi_sched := g2 |} in
              (c2, connection_setup_tail c2 (tr1 ++ pucch_logs l2)
                     (rrc_conn_setup_msg id I_sr N_pucch_sr
                                         (Some (pmi_idx, n_pucch))))
          end
    end
  else
    let c1 := {| conn_ue := u0; conn_sr := conn_sr c; conn_cqi := conn_cqi c;
                 conn_sr_sched := conn_sr_sched c;
                 conn_cqi_sched := conn_cqi_sched c |} in
    (c1, connection_setup_tail c1 tr
           (rrc_conn_reest_msg id
              (u8 (Pucch.res_idx (conn_sr c)))
              (u16 (Pucch.res_pucch (conn_sr c)))
              (if cqi_mode_aperiodic then None
               else Some (u16 (Pucch.res_idx (conn_cqi c)),
                          u16 (Pucch.res_pucch (conn_cqi c)))))).

(** rrc::ue::handle_rrc_con_req; [s_tmsi] is the identity of the request
    when it is an S-TMSI, as MMEC and M-TMSI. *)
Definition handle_rrc_con_req (c : conn_t) (tr : list ue_event_t)
    (s_tmsi : option (Z * Z)) : conn_t * list ue_event_t :=
  let tr1 :=
    if is_mme_connected tr then tr
    else send_connection_reject (conn_ue c)
           (tr ++ [ue_log err_mme_not_connected]) in
  let u1 :=
    match s_tmsi with
    | Some (mmec_, m_tmsi_) => set_tmsi (conn_ue c) (u8 mmec_) (u32 m_tmsi_)
    | None => conn_ue c
    end in
  let '(c2, tr2) :=
    send_connection_setup
      {| conn_ue := u1; conn_sr := conn_sr c; conn_cqi := conn_cqi c;
         conn_sr_sched := conn_sr_sched c;
         conn_cqi_sched := conn_cqi_sched c |} tr1 true in
  let '(u3, tr3) :=
    set_activity_timeout
      (set_state (conn_ue c2) RRC_STATE_WAIT_FOR_CON_SETUP_COMPLETE)
      tr2 UE_RESPONSE_RX_TIMEOUT in
  ({| conn_ue := u3; conn_sr := conn_sr c2; conn_cqi := conn_cqi c2;
      conn_sr_sched := conn_sr_sched c2;
      conn_cqi_sched := conn_cqi_sched c2 |}, tr3).

(** ** Sequences of calls *)

Definition with_ue (c : conn_t) (u : ue_t) : conn_t :=
  {| conn_ue := u; conn_sr := conn_sr c; conn_cqi := conn_cqi c;
     conn_sr_sched := conn_sr_sched c;
     conn_cqi_sched := conn_cqi_sched c |}.

Definition ue_step (st : conn_t * list ue_event_t) (op : ue_op_t)
  : conn_t * list ue_event_t :=
  let '(c, tr) := st in
  let u := conn_ue c in
  match op with
  | op_handle_rrc_con_req s_tmsi => handle_rrc_con_req c tr s_tmsi
  | op_parse_ul_dcch m =>
      let '(u', tr') := parse_ul_dcch u tr m in (with_ue c u', tr')
  | op_set_activity => (c, set_activity u tr)
  | op_activity_timer_expired =>
      let '(u', tr') := activity_timer_expired u tr in (with_ue c u', tr')
  | op_rl_failure => (with_ue c (snd (rl_failure u)), tr)
  | op_set_security_key key =>
      let '(u', tr') := set_security_key u tr key in (with_ue c u', tr')
  | op_send_security_mode_command =>
      let '(u', tr') := send_security_mode_command u tr in (with_ue c u', tr')
  | op_setup_erabs_ctxt e =>
      let '(_, u', tr') := setup_erabs_ctxt u tr e in (with_ue c u', tr')
  | op_setup_erabs_bearer e =>
      let '(_, u', tr') := setup_erabs_bearer u tr e in (with_ue c u', tr')
  | op_send_connection_release =>
      let '(u', tr') := send_connection_release u tr in (with_ue c u', tr')
  end.

Definition ue_run (st : conn_t * list ue_event_t) (ops : list ue_op_t)
  : conn_t * list ue_event_t :=
  fold_left ue_step ops st.

(** A user as rrc::add_user makes it: constructed, with no PUCCH
    resource yet. *)
Definition new_conn (rnti_ : Z) (caps : Security.security_capabilities_t)
    (sr_sched cqi_sched : Pucch.grid) : conn_t * list ue_event_t :=
  let '(u, tr) := ue_ctor rnti_ caps in
  ({| conn_ue := u; conn_sr := Pucch.no_handle; conn_cqi := Pucch.no_handle;
      conn_sr_sched := sr_sched; conn_cqi_sched := cqi_sched |}, tr).

(** ** The senders of messages with a transaction id *)

Inductive sender_t :=
| sender_connection_setup
| sender_connection_reest
| sender_connection_release
| sender_connection_reconf
| sender_connection_reconf_new_bearer (e : list erab_to_be_setup_item)
| sender_security_mode_command
| sender_ue_cap_enquiry.

Definition msg_of_sender (s : sender_t) : TransactionId.msg_t :=
  match s with
  | sender_connection_setup => TransactionId.rrc_conn_setup
  | sender_connection_reest => TransactionId.rrc_conn_reest
  | sender_connection_release => TransactionId.rrc_conn_release
  | sender_connection_reconf | sender_connection_reconf_new_bearer _ =>
      TransactionId.rrc_conn_recfg
  | sender_security_mode_command => TransactionId.security_mode_cmd
  | sender_ue_cap_enquiry => TransactionId.ue_cap_enquiry
  end.

Definition run_sender (s : sender_t) (c : conn_t) (tr : list ue_event_t)
  : conn_t * list ue_event_t :=
  let u := conn_ue c in
  match s with
  | sender_connection_setup => send_connection_setup c tr true
  | sender_connection_reest => send_connection_setup c tr false
  | sender_connection_release =>
      let '(u', tr') := send_connection_release u tr in (with_ue c u', tr')
  | sender_connection_reconf =>
      let '(u', tr') := send_connection_reconf u tr in (with_ue c u', tr')
  | sender_connection_reconf_new_bearer e =>
      let '(u', tr') := send_connection_reconf_new_bearer u tr e in
      (with_ue c u', tr')
  | sender_security_mode_command =>
      let '(u', tr') := send_security_mode_command u tr in (with_ue c u', tr')
  | sender_ue_cap_enquiry =>
      let '(u', tr') := send_ue_cap_enquiry u tr in (with_ue c u', tr')
  end.

End WithParent.

(** ** Readings of a trace *)

(** The transaction ids of the messages handed to RLC and PDCP. *)
Definition sent_transaction_ids (tr : list ue_event_t) : list Z :=
  omap (fun e => match e with
                 | pdcp_write_sdu _ _ m => Some (transaction_id_of m)
                 | rlc_write_sdu _ _ (rrc_conn_setup_msg id _ _ _)
                 | rlc_write_sdu _ _ (rrc_conn_reest_msg id _ _ _) => Some id
                 | _ => None
                 end) tr.

Definition sent_dcch (tr : list ue_event_t) : list (Z * Z * dl_dcch_msg_s) :=
  omap (fun e => match e with
                 | pdcp_write_sdu r l m => Some (r, l, m)
                 | _ => None
                 end) tr.

Definition sent_ccch (tr : list ue_event_t) : list (Z * Z * dl_ccch_msg_s) :=
  omap (fun e => match e with
                 | rlc_write_sdu r l m => Some (r, l, m)
                 | _ => None
                 end) tr.

Definition gtpu_bearers (tr : list ue_event_t) : list (Z * Z * Z * Z) :=
  omap (fun e => match e with
                 | gtpu_add_bearer r l a t => Some (r, l, a, t)
                 | _ => None
                 end) tr.

Definition erab_setup_responses (tr : list ue_event_t) : list (Z * list Z) :=
  omap (fun e => match e with
                 | s1ap_ue_erab_setup_complete r ids => Some (r, ids)
                 | _ => None
                 end) tr.

(** The bearers configured in MAC, RLC and PDCP. *)
Definition radio_bearers (tr : list ue_event_t) : list ue_event_t :=
  List.filter (fun e => match e with
                        | mac_bearer_ue_cfg _ _ | rlc_add_bearer _ _
                        | pdcp_add_bearer _ _ _ _
                        | pdcp_add_bearer_drb _ _ _ _ => true
                        | _ => false
                        end) tr.

Definition security_configs (tr : list ue_event_t) : list (Z * Z * Z * Z) :=
  omap (fun e => match e with
                 | pdcp_config_security r l eea eia => Some (r, l, eea, eia)
                 | _ => None
                 end) tr.

Definition integrity_enabled (tr : list ue_event_t) : list (Z * Z) :=
  omap (fun e => match e with
                 | pdcp_enable_integrity r l => Some (r, l)
                 | _ => None
                 end) tr.

Definition timer_sets (tr : list ue_event_t) : list Z :=
  omap (fun e => match e with timer_set d => Some d | _ => None end) tr.

(** The activity timer runs with the duration that belongs to the state:
    one second while a connection setup is awaited, the configured
    inactivity time once registered. *)
Definition timer_matches_state (cfg : ue_cfg_t) (u : ue_t) : Prop :=
  (state u = RRC_STATE_WAIT_FOR_CON_SETUP_COMPLETE ->
   activity_timer_duration u = 1000) /\
  (state u = RRC_STATE_REGISTERED ->
   activity_timer_duration u = inactivity_timeout_ms cfg) /\
  (activity_timer_duration u = u32 ((max_harq_msg3_tx cfg + 1) * 16) \/
   activity_timer_duration u = 1000 \/
   activity_timer_duration u = inactivity_timeout_ms cfg).

(** The requests to release or to remove a user. *)
Definition release_requests (tr : list ue_event_t) : list ue_event_t :=
  List.filter (fun e => match e with
                        | s1ap_user_release _ | rem_user_thread _ => true
                        | _ => false
                        end) tr.

(** The state and the timer duration are as before, or the state is one
    the timer is not tied to. *)
Definition timer_kept (u u' : ue_t) : Prop :=
  activity_timer_duration u' = activity_timer_duration u /\
  (state u' = state u \/
   (state u' <> RRC_STATE_WAIT_FOR_CON_SETUP_COMPLETE /\
    state u' <> RRC_STATE_REGISTERED)).

(** An item setup_erabs accepts: an id from 2 up and an address of at
    most 32 bits. *)
Definition item_accepted (it : erab_to_be_setup_item) : Prop :=
  2 <= item_erab_id it < 256 /\ item_address_length it <= 32.

(** The QCI of an item is one get_drbid_config accepts. *)
Definition qci_usable (MAX_NOF_QCI : Z) (cfg : ue_cfg_t)
    (it : erab_to_be_setup_item) : bool :=
  (item_qci it <? MAX_NOF_QCI) && configured (qci_cfg cfg (item_qci it)).

(** An item the bearer setup handles to the end. *)
Definition item_ok (MAX_NOF_QCI : Z) (cfg : ue_cfg_t)
    (it : erab_to_be_setup_item) : Prop :=
  item_accepted it /\ 0 <= item_qci it < 2 ^ 32 /\
  qci_usable MAX_NOF_QCI cfg it = true.

(** The DRB item, the GTPU bearer and the radio bearers that belong to an
    E-RAB item: logical channel [id - 2], DRB identity [id - 4]. *)
Definition drb_of_item (it : erab_to_be_setup_item) : drb_to_add_mod_s :=
  {| drb_id := u8 (item_erab_id it - 4);
     lc_ch_id := item_erab_id it - 2;
     eps_bearer_id := item_erab_id it;
     drb_qci := item_qci it |}.

Definition gtpu_bearer_of_item (rnti : Z) (it : erab_to_be_setup_item)
  : Z * Z * Z * Z :=
  (rnti, item_erab_id it - 2, u32 (item_address_number it), item_gtp_teid it).

Definition radio_bearers_of_item (rnti : Z) (it : erab_to_be_setup_item)
  : list ue_event_t :=
  [mac_bearer_ue_cfg rnti (item_erab_id it - 2);
   rlc_add_bearer rnti (item_erab_id it - 2);
   pdcp_add_bearer_drb rnti (item_erab_id it - 2)
                       (u8 (item_erab_id it - 4) - 1) (item_qci it)].

(** The entry of [erabs] that setup_erab writes for an item. *)
Definition erab_of_item (it : erab_to_be_setup_item) : erab_t :=
  {| erab_id := item_erab_id it; erab_qci := item_qci it;
     erab_address := (item_address_length it, item_address_number it);
     erab_teid_out := item_gtp_teid it |}.

(** ** Sample inputs *)

Definition qci_cfg_9 (qci : Z) : qci_cfg_t :=
  {| configured := (qci =? 7) || (qci =? 9);
     lc_ch_group := if qci =? 7 then 2 else 3;
     pdcp_sn_len7 := false |}.

Definition ue_cfg_sample : ue_cfg_t :=
  {| inactivity_timeout_ms := 30000; max_harq_msg3_tx := 4;
     qci_cfg := qci_cfg_9;
     security_cfg :=
       {| Security.eea_preference_list :=
            [Security.CIPHERING_ALGORITHM_ID_EEA0;
             Security.CIPHERING_ALGORITHM_ID_128_EEA2];
          Security.eia_preference_list :=
            [Security.INTEGRITY_ALGORITHM_ID_128_EIA2;
             Security.INTEGRITY_ALGORITHM_ID_128_EIA1] |} |}.

Definition default_erab_0 : erab_t :=
  {| erab_id := 0; erab_qci := 0; erab_address := (0, 0);
     erab_teid_out := 0 |}.

Definition no_capabilities : Security.security_capabilities_t :=
  {| Security.encryption_algorithms :=
       {| Security.bits := 0; Security.length := 16 |};
     Security.integrity_protection_algorithms :=
       {| Security.bits := 0; Security.length := 16 |} |}.

(** A user just constructed, with rnti 70; with it an empty SR grid and
    a CQI grid whose slots hold 37 users, one more than fit. *)
Definition rrc_ue_70 : ue_t :=
  fst (ue_ctor ue_cfg_sample 70 no_capabilities).

Definition conn_70 : conn_t :=
  {| conn_ue := rrc_ue_70; conn_sr := Pucch.no_handle;
     conn_cqi := Pucch.no_handle;
     conn_sr_sched := Pucch.empty_grid;
     conn_cqi_sched := fun _ _ => 37 |}.

Definition erab_item (id qci : Z) (nas : list Z) : erab_to_be_setup_item :=
  {| item_ext := false; item_ie_exts_present := false;
     item_erab_id := id; item_qci := qci;
     item_address_length := 32; item_address_number := 0x7f000001;
     item_gtp_teid := 100 + id;
     item_nas_pdu_present := true; item_nas_pdu := nas |}.

(** An item with an IPv6 transport layer address. *)
Definition erab_item_ipv6 (id qci : Z) (nas : list Z)
  : erab_to_be_setup_item :=
  {| item_ext := false; item_ie_exts_present := false;
     item_erab_id := id; item_qci := qci;
     item_address_length := 128; item_address_number := 1;
     item_gtp_teid := 100 + id;
     item_nas_pdu_present := true; item_nas_pdu := nas |}.

End RrcUe.

(** * The PDCP of the eNodeB: one entity per user (upper/pdcp.cc) *)

Module Pdcp.

(** The calls made on a user's [srslte::pdcp] entity. *)
Inductive entity_call_t :=
| entity_add_bearer (lcid cfg : Z)
| entity_add_bearer_mrb (lcid cfg : Z)
| entity_del_bearer (lcid : Z)
| entity_reset
| entity_config_security (lcid sec_cfg : Z)
| entity_enable_integrity (lcid : Z)
| entity_enable_encryption (lcid : Z)
| entity_get_bearer_state (lcid : Z)
| entity_set_bearer_state (lcid state : Z)
| entity_reestablish
| entity_write_pdu (lcid : Z) (sdu : list Z)
| entity_notify_delivery (lcid : Z) (pdcp_sns : list Z)
| entity_write_sdu (lcid : Z) (sdu : list Z)
| entity_write_sdu_mch (lcid : Z) (sdu : list Z)
| entity_get_buffered_pdus (lcid : Z).

(** What happens to the entities: [new], [stop()], [delete], and a call
    through [users[rnti].pdcp]. *)
Inductive pdcp_event_t :=
| entity_new (rnti : Z)
| entity_stop (rnti : Z)
| entity_delete (rnti : Z)
| entity_call (rnti : Z) (c : entity_call_t).

(** [user_interface]: the rnti its three interfaces carry, and whether
    [pdcp] points to an entity. *)
Record user_interface := {
  rlc_itf_rnti : Z;
  gtpu_itf_rnti : Z;
  rrc_itf_rnti : Z;
  has_entity : bool
}.

(** The public functions of srsenb::pdcp. *)
Inductive pdcp_op_t :=
| pdcp_stop
| pdcp_add_user (rnti : Z)
| pdcp_rem_user (rnti : Z)
| pdcp_add_bearer (rnti lcid cfg : Z)
| pdcp_del_bearer (rnti lcid : Z)
| pdcp_reset (rnti : Z)
| pdcp_config_security (rnti lcid sec_cfg : Z)
| pdcp_enable_integrity (rnti lcid : Z)
| pdcp_enable_encryption (rnti lcid : Z)
| pdcp_get_bearer_state (rnti lcid : Z)
| pdcp_set_bearer_state (rnti lcid state : Z)
| pdcp_reestablish (rnti : Z)
| pdcp_write_pdu (rnti lcid : Z) (sdu : list Z)
| pdcp_notify_delivery (rnti lcid : Z) (pdcp_sns : list Z)
| pdcp_write_sdu (rnti lcid : Z) (sdu : list Z)
| pdcp_get_buffered_pdus (rnti lcid : Z).

(** What a function returns. *)
Inductive pdcp_ret_t :=
| ret_void
| ret_bool (b : bool)
| ret_pdus (pdus : list (Z * list Z)).

Record pdcp_t := {
  users : gmap Z user_interface;
  calls : list pdcp_event_t
}.

Section WithEntities.

(** What an entity answers, which may depend on the calls made so far. *)
Variable bearer_state_answer : list pdcp_event_t -> Z -> Z -> bool.
Variable buffered_pdus_answer : list pdcp_event_t -> Z -> Z -> list (Z * list Z).

(** [users.begin() .. users.end()] of the [std::map]: ascending rnti. *)
Definition users_in_order (us : gmap Z user_interface) : list Z :=
  merge_sort Z.le (map fst (map_to_list us)).

(** pdcp::clear_user *)
Definition clear_user (rnti : Z) : list pdcp_event_t :=
  [entity_stop rnti; entity_delete rnti].

(** A call through [users[rnti].pdcp] when [rnti] is in the table. *)
Definition call_user (p : pdcp_t) (rnti : Z) (c : entity_call_t) : pdcp_t :=
  {| users := users p; calls := calls p ++ [entity_call rnti c] |}.

(** One public function.  enable_integrity and enable_encryption do not
    test [users.count(rnti)]: for an rnti without entry, [users[rnti]]
    creates one, to which no entity was ever assigned, and the call goes
    through its pointer; that is [None]. *)
Definition pdcp_step (p : pdcp_t) (op : pdcp_op_t)
  : option (pdcp_t * pdcp_ret_t) :=
  let known r := bool_decide (is_Some (users p !! r)) in
  let guarded r c :=
    Some (if known r then call_user p r c else p, ret_void) in
  match op with
  | pdcp_stop =>
      Some ({| users := ∅;
               calls := calls p ++
                        flat_map clear_user (users_in_order (users p)) |},
            ret_void)
  | pdcp_add_user r =>
      if known r then Some (p, ret_void)
      else Some ({| users := <[r := {| rlc_itf_rnti := r; gtpu_itf_rnti := r;
                                       rrc_itf_rnti := r;
                                       has_entity := true |}]> (users p);
                    calls := calls p ++ [entity_new r] |}, ret_void)
  | pdcp_rem_user r =>
      if known r then
        Some ({| users := delete r (users p);
                 calls := calls p ++ clear_user r |}, ret_void)
      else Some (p, ret_void)
  | pdcp_add_bearer r lcid cfg =>
      guarded r (if negb (r =? RrcUe.SRSLTE_MRNTI) then entity_add_bearer lcid cfg
                 else entity_add_bearer_mrb lcid cfg)
  | pdcp_del_bearer r lcid => guarded r (entity_del_bearer lcid)
  | pdcp_reset r => guarded r entity_reset
  | pdcp_config_security r lcid sec =>
      guarded r (entity_config_security lcid sec)
  | pdcp_enable_integrity r lcid =>
      if known r then
        Some (call_user p r (entity_enable_integrity lcid), ret_void)
      else None
  | pdcp_enable_encryption r lcid =>
      if known r then
        Some (call_user p r (entity_enable_encryption lcid), ret_void)
      else None
  | pdcp_get_bearer_state r lcid =>
      if known r then
        Some (call_user p r (entity_get_bearer_state lcid),
              ret_bool (bearer_state_answer (calls p) r lcid))
      else Some (p, ret_bool false)
  | pdcp_set_bearer_state r lcid st =>
      if known r then
        Some (call_user p r (entity_set_bearer_state lcid st),
              ret_bool (bearer_state_answer (calls p) r lcid))
      else Some (p, ret_bool false)
  | pdcp_reestablish r => guarded r entity_reestablish
  | pdcp_write_pdu r lcid sdu => guarded r (entity_write_pdu lcid sdu)
  | pdcp_notify_delivery r lcid sns =>
      guarded r (entity_notify_delivery lcid sns)
  | pdcp_write_sdu r lcid sdu =>
      guarded r (if negb (r =? RrcUe.SRSLTE_MRNTI) then entity_write_sdu lcid sdu
                 else entity_write_sdu_mch lcid sdu)
  | pdcp_get_buffered_pdus r lcid =>
      if known r then
        Some (call_user p r (entity_get_buffered_pdus lcid),
              ret_pdus (buffered_pdus_answer (calls p) r lcid))
      else Some (p, ret_pdus [])
  end.

(** A sequence of calls, as long as it is defined. *)
Fixpoint pdcp_run (p : pdcp_t) (ops : list pdcp_op_t) : option pdcp_t :=
  match ops with
  | [] => Some p
  | op :: rest =>
      match pdcp_step p op with
      | None => None
      | Some (p', _) => pdcp_run p' rest
      end
  end.

End WithEntities.

(** pdcp::pdcp: no user. *)
Definition pdcp_new : pdcp_t := {| users := ∅; calls := [] |}.

(** ** Readings used to state what the dispatcher guarantees *)

(** The entities alive after a sequence of events that respects their
    lifetimes: an entity is created only for an rnti that has none, and
    stopped, deleted or called only while it is alive.  [None] when an
    event does not respect them. *)
Fixpoint lifetimes (tr : list pdcp_event_t) (live : gset Z)
  : option (gset Z) :=
  match tr with
  | [] => Some live
  | entity_new r :: rest =>
      if decide (r ∈ live) then None else lifetimes rest ({[r]} ∪ live)
  | entity_stop r :: rest
  | entity_call r _ :: rest =>
      if decide (r ∈ live) then lifetimes rest live else None
  | entity_delete r :: rest =>
      if decide (r ∈ live) then lifetimes rest (live ∖ {[r]}) else None
  end.

(** The rntis with an entity after a sequence of calls, and whether each
    enable_integrity and enable_encryption of the sequence names an rnti
    that has one at that point. *)
Fixpoint enables_known (ops : list pdcp_op_t) (live : gset Z) : bool :=
  match ops with
  | [] => true
  | op :: rest =>
      match op with
      | pdcp_stop => enables_known rest ∅
      | pdcp_add_user r => enables_known rest ({[r]} ∪ live)
      | pdcp_rem_user r => enables_known rest (live ∖ {[r]})
      | pdcp_enable_integrity r _ | pdcp_enable_encryption r _ =>
          bool_decide (r ∈ live) && enables_known rest live
      | _ => enables_known rest live
      end
  end.

(** Every entry carries its own rnti in its three interfaces and points
    to an entity. *)
Definition users_well_formed (us : gmap Z user_interface) : Prop :=
  forall r ui, us !! r = Some ui ->
    rlc_itf_rnti ui = r /\ gtpu_itf_rnti ui = r /\ rrc_itf_rnti ui = r /\
    has_entity ui = true.

(** What holds between the table and the events, after any calls. *)
Definition consistent (p : pdcp_t) : Prop :=
  lifetimes (calls p) ∅ = Some (dom (users p)) /\ users_well_formed (users p).

(** A sample: two users, one of them removed and written to afterwards. *)
Definition sample_ops : list pdcp_op_t :=
  [pdcp_add_user 70; pdcp_add_user 71; pdcp_add_bearer 70 3 0;
   pdcp_enable_integrity 70 1; pdcp_rem_user 70;
   pdcp_write_sdu 71 3 [1; 2]; pdcp_write_pdu 70 1 [9]; pdcp_add_user 71].

Definition sample_after : pdcp_t :=
  {| users := {[ 71 := {| rlc_itf_rnti := 71; gtpu_itf_rnti := 71;
                          rrc_itf_rnti := 71; has_entity := true |} ]};
     calls := [entity_new 70; entity_new 71;
               entity_call 70 (entity_add_bearer 3 0);
               entity_call 70 (entity_enable_integrity 1);
               entity_stop 70; entity_delete 70;
               entity_call 71 (entity_write_sdu 3 [1; 2])] |}.

End Pdcp.

(* ------------------------------------------------------------------ *)
(** * Properties *)
(* ------------------------------------------------------------------ *)

Lemma u32_small x : 0 <= x < 2 ^ 32 -> u32 x = x.
Proof. intros H. unfold u32, wrap. apply Z.mod_small. exact H. Qed.

Lemma u16_small x : 0 <= x < 2 ^ 16 -> u16 x = x.
Proof. intros H. unfold u16, wrap. apply Z.mod_small. exact H. Qed.

Lemma u8_small x : 0 <= x < 2 ^ 8 -> u8 x = x.
Proof. intros H. unfold u8, wrap. apply Z.mod_small. exact H. Qed.

Lemma u32_range x : 0 <= u32 x < 2 ^ 32.
Proof. unfold u32, wrap. apply Z.mod_pos_bound. lia. Qed.

Lemma u16_u16_add a b : u16 (u16 a + b) = u16 (a + b).
Proof. unfold u16, wrap. apply Zplus_mod_idemp_l. Qed.

Module PucchFacts.
Import Pucch.

Lemma max_users_cases cell :
  max_users cell = 36 \/ max_users cell = 18 \/ max_users cell = 12 \/
  max_users cell = 24 \/ max_users cell = 8.
Proof.
  destruct cell as [[] [] n]; vm_compute; auto 6.
Qed.

Lemma max_users_bounds cell : 8 <= max_users cell <= 36.
Proof. destruct (max_users_cases cell) as [H|[H|[H|[H|H]]]]; lia. Qed.

Lemma grid_set_same g i j v : grid_set g i j v i j = v.
Proof. unfold grid_set. case_decide; [done|]. tauto. Qed.

Lemma grid_set_other g i j v i' j' :
  (i', j') <> (i, j) -> grid_set g i j v i' j' = g i' j'.
Proof.
  intros Hne. unfold grid_set. case_decide as H; [|done].
  destruct H as [-> ->]. congruence.
Qed.

Lemma least_inv_step g nsf i m acc :
  (forall i' j', g i' j' <= UINT32_MAX) ->
  (m < nsf)%nat ->
  least_inv g nsf i m acc ->
  least_inv g nsf i (S m) (least_step g acc i m).
Proof.
  intros Hmax Hm. destruct acc as [[im jm] mu]. simpl.
  intros [Hle Hsel].
  destruct (Z.ltb_spec (g i m) mu) as [Hlt|Hge].
  - split.
    + intros i' j' [[? ?]|[-> Hj]].
      * specialize (Hle i' j'). unfold seen in Hle. lia.
      * destruct (decide (j' = m)) as [->|Hne]; [lia|].
        specialize (Hle i j'). unfold seen in Hle. lia.
    + right. split; [done|]. split; [right; lia|].
      intros i' j' Hb Hs.
      assert (seen nsf i m i' j') as Hs'.
      { destruct Hs as [?|[-> ?]]; [by left|].
        destruct Hb as [?|[_ ?]]; [lia|]. right. lia. }
      specialize (Hle _ _ Hs'). lia.
  - split.
    + intros i' j' [[? ?]|[-> Hj]].
      * apply Hle. left. lia.
      * destruct (decide (j' = m)) as [->|Hne]; [lia|].
        apply Hle. right. lia.
    + destruct Hsel as [Heq|(Hmu & Hs & Hfirst)]; [by left|].
      right. split; [done|]. split.
      { destruct Hs as [?|[? ?]]; [by left|right; lia]. }
      intros i' j' Hb [[? ?]|[-> Hj]].
      * apply Hfirst; [done|]. left. lia.
      * destruct (decide (j' = m)) as [->|Hne].
        -- (* the slot just visited lies after the selected one *)
           exfalso. destruct Hs as [[? ?]|[? ?]]; destruct Hb as [?|[? ?]]; lia.
        -- apply Hfirst; [done|]. right. lia.
Qed.

Lemma least_inv_cols g nsf i m acc :
  (forall i' j', g i' j' <= UINT32_MAX) ->
  (m <= nsf)%nat ->
  least_inv g nsf i 0 acc ->
  least_inv g nsf i m
    (fold_left (fun a j => least_step g a i j) (seq 0 m) acc).
Proof.
  intros Hmax. induction m as [|m IH]; intros Hm Hinv; [done|].
  rewrite seq_S, fold_left_app. simpl.
  apply least_inv_step; [done|lia|]. apply IH; [lia|done].
Qed.

Lemma least_inv_next_row g nsf i acc :
  least_inv g nsf i nsf acc -> least_inv g nsf (S i) 0 acc.
Proof.
  assert (forall i' j', seen nsf (S i) 0 i' j' <-> seen nsf i nsf i' j') as Hs.
  { intros i' j'. unfold seen. lia. }
  destruct acc as [[im jm] mu]. intros [Hle Hsel]. split.
  - intros i' j' H. apply Hle, Hs, H.
  - destruct Hsel as [?|(? & ? & Hf)]; [by left|right].
    split; [done|]. split; [by apply Hs|].
    intros i' j' Hb Hsn. apply Hf; [done|]. by apply Hs.
Qed.

Lemma least_inv_rows g nsf n acc :
  (forall i' j', g i' j' <= UINT32_MAX) ->
  least_inv g nsf 0 0 acc ->
  least_inv g nsf n 0 (fold_left (least_row g nsf) (seq 0 n) acc).
Proof.
  intros Hmax Hinv. induction n as [|n IH]; [done|].
  rewrite seq_S, fold_left_app. simpl.
  apply least_inv_next_row. unfold least_row.
  apply least_inv_cols; [done|lia|exact IH].
Qed.

Lemma find_least_users_inv g cfg :
  (forall i' j', g i' j' <= UINT32_MAX) ->
  least_inv g (nof_subframes cfg) (nof_prb cfg) 0 (find_least_users g cfg).
Proof.
  intros Hmax. unfold find_least_users. apply least_inv_rows; [done|].
  split; [|by left]. intros i' j'. unfold seen. lia.
Qed.

(** The slot the search ends on holds the fewest users of the configured
    grid, is the first such slot in loop order, and lies inside the grid
    when the grid is not empty. *)
Lemma least_slot_spec g cfg i j :
  (forall i' j', 0 <= g i' j' <= UINT32_MAX) ->
  least_slot g cfg = (i, j) ->
  (forall i' j', (i' < nof_prb cfg)%nat -> (j' < nof_subframes cfg)%nat ->
                 g i j <= g i' j') /\
  (forall i' j', (i' < nof_prb cfg)%nat -> (j' < nof_subframes cfg)%nat ->
                 before i' j' i j -> g i j < g i' j') /\
  ((i, j) = (0%nat, 0%nat) \/
   (i < nof_prb cfg)%nat /\ (j < nof_subframes cfg)%nat).
Proof.
  intros Hrange Hslot.
  assert (forall i' j', g i' j' <= UINT32_MAX) as Hmax by (intros; apply Hrange).
  pose proof (find_least_users_inv g cfg Hmax) as Hinv.
  unfold least_slot in Hslot.
  destruct (find_least_users g cfg) as [[im jm] mu]. simpl in Hslot.
  injection Hslot as -> ->. destruct Hinv as [Hle Hsel].
  assert (forall i' j', (i' < nof_prb cfg)%nat -> (j' < nof_subframes cfg)%nat ->
                        seen (nof_subframes cfg) (nof_prb cfg) 0 i' j') as Hseen.
  { intros. by left. }
  destruct Hsel as [Heq|(Hmu & Hs & Hfirst)].
  - injection Heq as -> -> ->. split; [|split].
    + intros i' j' Hi Hj. specialize (Hle _ _ (Hseen _ _ Hi Hj)).
      specialize (Hmax 0%nat 0%nat). lia.
    + intros i' j' _ _ Hb. unfold before in Hb. lia.
    + by left.
  - subst mu. split; [|split].
    + intros i' j' Hi Hj. apply Hle. by apply Hseen.
    + intros i' j' Hi Hj Hb. apply Hfirst; [done|]. by apply Hseen.
    + right. unfold seen in Hs. lia.
Qed.

Lemma find_least_users_slot g cfg :
  exists mu, find_least_users g cfg = (least_slot g cfg, mu).
Proof.
  unfold least_slot. destruct (find_least_users g cfg) as [p mu]. by exists mu.
Qed.

Lemma sr_period_valid period :
  In period [5; 10; 20; 40; 80] -> sr_period_invalid period = false.
Proof.
  simpl. intros [<-|[<-|[<-|[<-|[<-|[]]]]]]; reflexivity.
Qed.

Lemma n_pucch_of_exact cell g i j :
  0 <= g i j ->
  0 <= ncs_an cell ->
  Z.of_nat i * max_users cell + g i j + ncs_an cell < 2 ^ 16 ->
  n_pucch_of cell g i j = Z.of_nat i * max_users cell + g i j + ncs_an cell.
Proof.
  intros Hg Hn Hlt. pose proof (max_users_bounds cell) as Hm.
  unfold n_pucch_of.
  assert (0 <= Z.of_nat i * max_users cell) by nia.
  rewrite (u32_small (_ + g i j)) by lia.
  destruct (Z.eqb_spec (ncs_an cell) 0) as [E|E].
  - rewrite E in *. rewrite u16_small by lia. lia.
  - rewrite u16_u16_add. rewrite u16_small by lia. lia.
Qed.

(** C1, as amended: a call of rrc::ue::sr_allocate with a period in
    {5,10,20,40,80} ends its search on the first slot, in loop order, that
    holds the fewest users of the configured grid.  The call returns an error, changing neither
    the grid nor the handle, when that slot holds more than [max_users]
    users or when its subframe offset is not below the period.  When the
    slot holds fewer than [max_users] users and its offset is below the
    period, the call returns [I_sr = period - 5 + sf_mapping[sf_slot]] and
    [n_pucch = prb_slot * max_users + users[slot] + ncs_an], adds one to the
    counter of that slot only, and records the slot in the handle. *)
Theorem sr_allocate_amended cell cfg g u period :
  In period [5; 10; 20; 40; 80] ->
  (forall i j, 0 <= g i j <= UINT32_MAX) ->
  (forall j, 0 <= sf_mapping cfg j) ->
  0 <= ncs_an cell ->
  (Z.of_nat (nof_prb cfg) + 1) * max_users cell + ncs_an cell < 2 ^ 16 ->
  let i := fst (least_slot g cfg) in
  let j := snd (least_slot g cfg) in
  let I_sr := period - 5 + sf_mapping cfg j in
  let n_pucch := Z.of_nat i * max_users cell + g i j + ncs_an cell in
  (forall i' j', (i' < nof_prb cfg)%nat -> (j' < nof_subframes cfg)%nat ->
                 g i j <= g i' j') /\
  (forall i' j', (i' < nof_prb cfg)%nat -> (j' < nof_subframes cfg)%nat ->
                 before i' j' i j -> g i j < g i' j') /\
  ((0 < nof_prb cfg)%nat -> (0 < nof_subframes cfg)%nat ->
   (i < nof_prb cfg)%nat /\ (j < nof_subframes cfg)%nat) /\
  (max_users cell < g i j \/ period <= sf_mapping cfg j ->
   exists log, sr_allocate cell cfg g u period = (ret_error, g, u, log)) /\
  (g i j < max_users cell -> sf_mapping cfg j < period ->
   sr_allocate cell cfg g u period =
     (ret_ok I_sr n_pucch,
      grid_set g i j (g i j + 1),
      {| allocated := true; sched_prb_idx := i; sched_sf_idx := j;
         res_idx := I_sr; res_pucch := n_pucch |},
      [info_allocated i j n_pucch I_sr])).
Proof.
  intros Hper Hg Hsf Hncs Hfit i j I_sr n_pucch.
  destruct (least_slot_spec g cfg i j Hg) as (Hmin & Hfirst & Hin).
  { subst i j. by destruct (least_slot g cfg). }
  split; [exact Hmin|]. split; [exact Hfirst|].
  split.
  { intros Hp Hs. destruct Hin as [Hz|Hin]; [|exact Hin].
    injection Hz as Hi Hj. lia. }
  destruct (find_least_users_slot g cfg) as [mu Hmu].
  assert (least_slot g cfg = (i, j)) as Hij
    by (subst i j; by destruct (least_slot g cfg)).
  rewrite Hij in Hmu.
  pose proof (max_users_bounds cell) as Hm.
  unfold sr_allocate. rewrite Hmu, (sr_period_valid _ Hper).
  split.
  - intros [Hfull|Hoff].
    + destruct (Z.ltb_spec (max_users cell) (g i j)); [|lia]. eauto.
    + destruct (Z.ltb_spec (max_users cell) (g i j)); [eauto|].
      destruct (Z.ltb_spec (sf_mapping cfg j) period); [lia|]. eauto.
  - intros Hfree Hoff.
    destruct (Z.ltb_spec (max_users cell) (g i j)); [lia|].
    destruct (Z.ltb_spec (sf_mapping cfg j) period); [|lia].
    assert (5 <= period <= 80) as Hp.
    { simpl in Hper. lia. }
    specialize (Hsf j). specialize (Hg i j). unfold UINT32_MAX in Hg.
    assert (u8 (u32 (period - 5 + sf_mapping cfg j)) = I_sr) as ->.
    { subst I_sr. rewrite u32_small by lia. apply u8_small. lia. }
    assert (n_pucch_of cell g i j = n_pucch) as ->.
    { apply n_pucch_of_exact; [lia|done|].
      assert (Z.of_nat i <= Z.of_nat (nof_prb cfg)) as Hi.
      { destruct Hin as [Hz|[? ?]]; [injection Hz as -> ->|]; lia. }
      nia. }
    rewrite (u32_small (g i j + 1)) by lia. reflexivity.
Qed.

Lemma sr_allocate_amended_witness :
  sr_allocate cell_norm (cfg_1x1 0) empty_grid no_handle 20 =
    (ret_ok 15 0, grid_set empty_grid 0 0 1,
     {| allocated := true; sched_prb_idx := 0; sched_sf_idx := 0;
        res_idx := 15; res_pucch := 0 |},
     [info_allocated 0 0 0 15]).
Proof.
  refine (proj2 (proj2 (proj2 (proj2
    (sr_allocate_amended cell_norm (cfg_1x1 0) empty_grid no_handle 20
       _ _ _ _ _)))) _ _).
  - simpl. tauto.
  - intros i j. unfold empty_grid, UINT32_MAX. lia.
  - intros j. simpl. lia.
  - simpl. lia.
  - vm_compute. reflexivity.
  - vm_compute. reflexivity.
  - vm_compute. reflexivity.
Defined.

(** C1, as first described, fails: with period 5, one free slot whose
    subframe offset is 7, the allocator returns an error although the slot
    holds no user at all. *)
Lemma sr_described_fails :
  ~ sr_described cell_norm (cfg_1x1 7) empty_grid no_handle 5.
Proof.
  unfold sr_described.
  change (sr_allocate cell_norm (cfg_1x1 7) empty_grid no_handle 5)
    with (ret_error, empty_grid, no_handle, [err_invalid_sf_idx 7 5]).
  intros (_ & [Hfull _] & _).
  specialize (Hfull eq_refl 0%nat 0%nat).
  simpl in Hfull. specialize (Hfull ltac:(lia) ltac:(lia)).
  vm_compute in Hfull. apply Hfull. reflexivity.
Qed.

Lemma sr_allocate_ok_shape cell cfg g u period idx n g' u' log :
  sr_allocate cell cfg g u period = (ret_ok idx n, g', u', log) ->
  exists i j,
    g i j <= max_users cell /\
    g' = grid_set g i j (u32 (g i j + 1)) /\
    allocated u' = true /\ sched_prb_idx u' = i /\ sched_sf_idx u' = j.
Proof.
  unfold sr_allocate. destruct (find_least_users g cfg) as [[i j] mu].
  destruct (Z.ltb_spec (max_users cell) (g i j)); [discriminate|].
  destruct (sr_period_invalid period); [discriminate|].
  destruct (sf_mapping cfg j <? period); [|discriminate].
  intros [= <- <- <- <- <-]. exists i, j. auto.
Qed.

Lemma cqi_allocate_ok_shape cell cfg g u period idx n g' u' log :
  cqi_allocate cell cfg g u period = (ret_ok idx n, g', u', log) ->
  exists i j,
    g i j <= max_users cell /\
    g' = grid_set g i j (u32 (g i j + 1)) /\
    allocated u' = true /\ sched_prb_idx u' = i /\ sched_sf_idx u' = j.
Proof.
  unfold cqi_allocate. destruct (find_least_users g cfg) as [[i j] mu].
  destruct (Z.ltb_spec (max_users cell) (g i j)); [discriminate|].
  destruct (cqi_period_invalid period); [discriminate|].
  destruct (sf_mapping cfg j <? period); [|discriminate].
  intros [= <- <- <- <- <-]. exists i, j. auto.
Qed.

(** What one call of the free function does to each counter. *)
Lemma res_free_counter g u i j :
  grid_valid g ->
  fst (res_free g u) i j =
    if allocated u && bool_decide (i = sched_prb_idx u /\ j = sched_sf_idx u)
    then Z.max 0 (g i j - 1) else g i j.
Proof.
  intros Hg. unfold res_free. destruct (allocated u); simpl; [|done].
  specialize (Hg (sched_prb_idx u) (sched_sf_idx u)). unfold UINT32_MAX in Hg.
  destruct (Z.ltb_spec 0 (g (sched_prb_idx u) (sched_sf_idx u))) as [Hpos|Hz];
    simpl; case_bool_decide as Hd.
  - destruct Hd as [-> ->]. rewrite grid_set_same, u32_small by lia. lia.
  - apply grid_set_other. intros [= -> ->]. tauto.
  - destruct Hd as [-> ->]. lia.
  - done.
Qed.

Lemma res_free_valid g u : grid_valid g -> grid_valid (fst (res_free g u)).
Proof.
  intros Hg i j. rewrite res_free_counter by done.
  specialize (Hg i j). destruct (_ && _); lia.
Qed.

Lemma free_n_valid n g u : grid_valid g -> grid_valid (free_n n g u).
Proof.
  intros Hg. induction n as [|n IH]; [done|].
  unfold free_n in *. simpl. by apply res_free_valid.
Qed.

Lemma free_n_slot n g u :
  grid_valid g -> allocated u = true ->
  slot_users (free_n n g u) u = Z.max 0 (slot_users g u - Z.of_nat n).
Proof.
  intros Hg Ha. induction n as [|n IH].
  - unfold free_n, slot_users. simpl. specialize (Hg (sched_prb_idx u) (sched_sf_idx u)). lia.
  - unfold slot_users in *. unfold free_n in *. simpl.
    rewrite res_free_counter by (by apply (free_n_valid n)).
    rewrite Ha, bool_decide_eq_true_2 by done. simpl. rewrite IH. lia.
Qed.

Lemma grid_set_valid g i j v :
  grid_valid g -> 0 <= v <= UINT32_MAX -> grid_valid (grid_set g i j v).
Proof.
  intros Hg Hv i' j'. unfold grid_set. case_decide; [done|apply Hg].
Qed.

Lemma u32_le_max x : 0 <= u32 x <= UINT32_MAX.
Proof. pose proof (u32_range x). unfold UINT32_MAX. lia. Qed.

Lemma sr_allocate_valid cell cfg g u period :
  grid_valid g -> grid_valid (sr_allocate cell cfg g u period).1.1.2.
Proof.
  intros Hg. unfold sr_allocate. destruct (find_least_users g cfg) as [[i j] mu].
  repeat case_match; simpl; try done.
  apply grid_set_valid; [done|apply u32_le_max].
Qed.

Lemma cqi_allocate_valid cell cfg g u period :
  grid_valid g -> grid_valid (cqi_allocate cell cfg g u period).1.1.2.
Proof.
  intros Hg. unfold cqi_allocate. destruct (find_least_users g cfg) as [[i j] mu].
  repeat case_match; simpl; try done.
  apply grid_set_valid; [done|apply u32_le_max].
Qed.

Lemma step_valid cfg st op :
  counters_valid st -> counters_valid (step cfg st op).
Proof.
  intros [Hsr Hcqi]. destruct op as [r|r p|r p|r|r|r]; simpl;
    destruct (users st !! r) as [ue|]; try (by split).
  - pose proof (sr_allocate_valid (cell cfg) (sr_cfg cfg) _ (sr ue) p Hsr) as H.
    destruct (sr_allocate _ _ _ _ _) as [[[? ?] ?] ?]. by split.
  - pose proof (cqi_allocate_valid (cell cfg) (cqi_cfg cfg) _ (cqi ue) p Hcqi) as H.
    destruct (cqi_allocate _ _ _ _ _) as [[[? ?] ?] ?]. by split.
  - split; [by apply res_free_valid|done].
  - split; [done|by apply res_free_valid].
  - split; by apply res_free_valid.
Qed.

Lemma run_valid cfg ops : forall st,
  counters_valid st -> counters_valid (run cfg st ops).
Proof.
  unfold run. induction ops as [|op ops IH]; intros st Hst; [done|].
  simpl. apply IH. by apply step_valid.
Qed.

(** C4, as amended: a user holding an SR (or a CQI) handle that frees it
    once after the allocation puts every counter of the grid back to its
    value before the allocation; the free function does not clear the
    allocated flag, so each further call takes one more user off the slot
    until its counter is zero. *)
Theorem free_after_allocate cell cfg g u period idx n g' u' log k :
  grid_valid g ->
  (sr_allocate cell cfg g u period = (ret_ok idx n, g', u', log) ->
   (forall i j, fst (sr_free g' u') i j = g i j) /\
   slot_users (free_n k g' u') u' =
     Z.max 0 (slot_users g u' + 1 - Z.of_nat k)) /\
  (cqi_allocate cell cfg g u period = (ret_ok idx n, g', u', log) ->
   (forall i j, fst (cqi_free g' u') i j = g i j) /\
   slot_users (free_n k g' u') u' =
     Z.max 0 (slot_users g u' + 1 - Z.of_nat k)).
Proof.
  intros Hg.
  assert (forall i j,
    g i j <= max_users cell ->
    g' = grid_set g i j (u32 (g i j + 1)) ->
    allocated u' = true -> sched_prb_idx u' = i -> sched_sf_idx u' = j ->
    (forall i0 j0, fst (res_free g' u') i0 j0 = g i0 j0) /\
    slot_users (free_n k g' u') u' =
      Z.max 0 (slot_users g u' + 1 - Z.of_nat k)) as Hboth.
  { intros i j Hle -> Ha Hi Hj.
    pose proof (max_users_bounds cell) as Hm.
    pose proof (Hg i j) as Hij. unfold UINT32_MAX in Hij.
    assert (grid_valid (grid_set g i j (u32 (g i j + 1)))) as Hg'
      by (apply grid_set_valid; [done|apply u32_le_max]).
    split.
    - intros i0 j0. rewrite res_free_counter by done.
      rewrite Ha, Hi, Hj. simpl. case_bool_decide as Hd.
      + destruct Hd as [-> ->]. rewrite grid_set_same, u32_small by lia. lia.
      + apply grid_set_other. intros [= -> ->]. tauto.
    - rewrite free_n_slot by done. unfold slot_users. rewrite Hi, Hj.
      rewrite grid_set_same, u32_small by lia. lia. }
  split; intros Hok.
  - apply sr_allocate_ok_shape in Hok as (i & j & ? & ? & ? & ? & ?). eauto.
  - apply cqi_allocate_ok_shape in Hok as (i & j & ? & ? & ? & ? & ?). eauto.
Qed.

Lemma free_after_allocate_witness :
  slot_users
    (free_n 2 (grid_set empty_grid 0 0 1)
       {| allocated := true; sched_prb_idx := 0; sched_sf_idx := 0;
          res_idx := 15; res_pucch := 0 |})
    {| allocated := true; sched_prb_idx := 0; sched_sf_idx := 0;
       res_idx := 15; res_pucch := 0 |} = 0.
Proof.
  refine (proj2 (proj1
    (free_after_allocate cell_norm (cfg_1x1 0) empty_grid no_handle 20
       15 0 (grid_set empty_grid 0 0 1)
       {| allocated := true; sched_prb_idx := 0; sched_sf_idx := 0;
          res_idx := 15; res_pucch := 0 |}
       [info_allocated 0 0 0 15] 2 _) _)).
  - intros i j. unfold empty_grid, UINT32_MAX. lia.
  - vm_compute. reflexivity.
Defined.

(** C4, as first described, fails: with two users counted in one slot, a
    second free through the first user's handle takes the counter from 1 to
    0 instead of leaving it at 1. *)
Lemma free_not_idempotent :
  ~ free_idempotent (fst two_users_one_slot) (snd two_users_one_slot).
Proof.
  unfold free_idempotent. vm_compute. discriminate.
Qed.

(** C8: every operation on the SR and CQI grids keeps every counter a
    non-negative 32-bit value; a free on a slot whose counter is zero warns
    and leaves the grid as it is, and a free on a positive counter yields
    that counter minus one, without wrapping below zero. *)
Theorem counters_never_negative cfg st ops g u :
  counters_valid st ->
  grid_valid g ->
  counters_valid (run cfg st ops) /\
  (allocated u = true -> slot_users g u = 0 ->
   sr_free g u =
     (g, [warn_no_users (sched_prb_idx u) (sched_sf_idx u);
          info_deallocated (sched_prb_idx u) (sched_sf_idx u)]) /\
   cqi_free g u =
     (g, [warn_no_users (sched_prb_idx u) (sched_sf_idx u);
          info_deallocated (sched_prb_idx u) (sched_sf_idx u)])) /\
  (allocated u = true -> 0 < slot_users g u ->
   slot_users (fst (sr_free g u)) u = slot_users g u - 1 /\
   slot_users (fst (cqi_free g u)) u = slot_users g u - 1) /\
  (forall i j, 0 <= fst (sr_free g u) i j <= g i j /\
               0 <= fst (cqi_free g u) i j <= g i j).
Proof.
  intros Hst Hg. split; [by apply run_valid|]. split; [|split].
  - intros Ha Hz. unfold sr_free, cqi_free, res_free, slot_users in *.
    rewrite Ha, Hz. simpl. done.
  - intros Ha Hpos. unfold sr_free, cqi_free, slot_users in *.
    rewrite res_free_counter by done.
    rewrite Ha, bool_decide_eq_true_2 by done. simpl. lia.
  - intros i j. unfold sr_free, cqi_free. rewrite res_free_counter by done.
    specialize (Hg i j). destruct (_ && _); lia.
Qed.

Lemma counters_never_negative_witness :
  counters_valid
    (run cfg_small rrc_init
       [op_add_user 70; op_sr_allocate 70 20; op_cqi_allocate 70 40;
        op_sr_free 70; op_sr_free 70; op_rem_user 70]).
Proof.
  refine (proj1 (counters_never_negative cfg_small rrc_init _ empty_grid
                   no_handle _ _)).
  - split; intros i j; simpl; unfold UINT32_MAX; lia.
  - intros i j. unfold empty_grid, UINT32_MAX. lia.
Defined.

(** Scenario: period 20, normal cyclic prefix, delta-shift 1, one slot with
    subframe offset 3.  The first user gets [I_sr = 20 - 5 + 3] and
    [n_pucch = ncs_an = 0]; the second user, on the same slot, gets
    [n_pucch = 1]. *)
Example sr_allocate_two_users :
  let '(r1, g1, _, _) :=
    sr_allocate cell_norm (cfg_1x1 3) empty_grid no_handle 20 in
  let '(r2, g2, _, _) := sr_allocate cell_norm (cfg_1x1 3) g1 no_handle 20 in
  r1 = ret_ok 18 0 /\ r2 = ret_ok 18 1 /\ g2 0%nat 0%nat = 2.
Proof. vm_compute. repeat split. Qed.

(** The capacity test is [nof_users > max_users]: a slot that holds
    exactly [max_users = 36] users still takes one more. *)
Example sr_allocate_at_capacity :
  let '(r, g', _, _) :=
    sr_allocate cell_norm (cfg_1x1 0) full_grid no_handle 20 in
  max_users cell_norm = 36 /\ r = ret_ok 15 36 /\ g' 0%nat 0%nat = 37.
Proof. vm_compute. repeat split. Qed.

End PucchFacts.

Module SecurityFacts.
Import Security.

Lemma cipher_case_acceptable v item c :
  snd (fst (cipher_case v item c)) = eea_acceptable v item /\
  fst (fst (cipher_case v item c)) = if eea_acceptable v item then item else c.
Proof.
  destruct item; simpl; unfold get; try done;
    destruct (Z.testbit _ _); done.
Qed.

Lemma cipher_loop_find v items : forall c,
  fst (fst (cipher_loop v items c)) = default c (find (eea_acceptable v) items) /\
  snd (fst (cipher_loop v items c)) =
    bool_decide (is_Some (find (eea_acceptable v) items)).
Proof.
  induction items as [|item rest IH]; intros c; simpl.
  - done.
  - destruct (cipher_case_acceptable v item c) as [Hf Ha].
    destruct (cipher_case v item c) as [[algo found] log]. simpl in *.
    subst found. destruct (eea_acceptable v item); subst algo; simpl.
    + done.
    + destruct (IH c) as [IH1 IH2].
      destruct (cipher_loop v rest c) as [[algo' found'] log']. done.
Qed.

Lemma integ_case_acceptable v item c :
  snd (fst (integ_case v item c)) = eia_acceptable v item /\
  fst (fst (integ_case v item c)) = if eia_acceptable v item then item else c.
Proof.
  destruct item; simpl; unfold get; try done;
    destruct (Z.testbit _ _); done.
Qed.

Lemma integ_loop_find v items : forall c,
  fst (fst (integ_loop v items c)) = default c (find (eia_acceptable v) items) /\
  snd (fst (integ_loop v items c)) =
    bool_decide (is_Some (find (eia_acceptable v) items)).
Proof.
  induction items as [|item rest IH]; intros c; simpl.
  - done.
  - destruct (integ_case_acceptable v item c) as [Hf Ha].
    destruct (integ_case v item c) as [[algo found] log]. simpl in *.
    subst found. destruct (eia_acceptable v item); subst algo; simpl.
    + done.
    + destruct (IH c) as [IH1 IH2].
      destruct (integ_loop v rest c) as [[algo' found'] log']. done.
Qed.

(** C5: select_security_algorithms stores the first entry of
    [eea_preference_list] that is EEA0 or has its bit set in the reported
    encryption bit string, stores the first entry of [eia_preference_list]
    that is not EIA0 and has its bit set in the reported integrity bit
    string, and returns false exactly when one of the two searches finds
    nothing; a member for which nothing is found keeps its old value. *)
Theorem select_security_algorithms_spec cfg caps u :
  let enc := find (eea_acceptable (encryption_algorithms caps))
                  (eea_preference_list cfg) in
  let int := find (eia_acceptable (integrity_protection_algorithms caps))
                  (eia_preference_list cfg) in
  let ok := fst (fst (select_security_algorithms cfg caps u)) in
  let u' := snd (fst (select_security_algorithms cfg caps u)) in
  cipher_algo u' = default (cipher_algo u) enc /\
  integ_algo u' = default (integ_algo u) int /\
  (ok = false <-> enc = None \/ int = None) /\
  (forall c, enc = Some c ->
     In c (eea_preference_list cfg) /\
     (c = CIPHERING_ALGORITHM_ID_EEA0 \/
      get (encryption_algorithms caps)
          (length (encryption_algorithms caps) - cipher_id c) = true)) /\
  (forall i, int = Some i ->
     In i (eia_preference_list cfg) /\
     i <> INTEGRITY_ALGORITHM_ID_EIA0 /\
     get (integrity_protection_algorithms caps)
         (length (integrity_protection_algorithms caps) - integ_id i) = true).
Proof.
  intros enc int ok u'. subst ok u'. unfold select_security_algorithms.
  destruct (cipher_loop_find (encryption_algorithms caps)
              (eea_preference_list cfg) (cipher_algo u)) as [Hc1 Hc2].
  destruct (integ_loop_find (integrity_protection_algorithms caps)
              (eia_preference_list cfg) (integ_algo u)) as [Hi1 Hi2].
  destruct (cipher_loop _ _ _) as [[c cf] log1].
  destruct (integ_loop _ _ _) as [[i intf] log2].
  simpl in Hc1, Hc2, Hi1, Hi2. fold enc in Hc1, Hc2. fold int in Hi1, Hi2.
  split; [|split; [|split; [|split]]].
  - by destruct intf, cf.
  - by destruct intf, cf.
  - subst cf intf. destruct enc as [e|], int as [k|]; simpl;
      repeat (rewrite bool_decide_eq_true_2 by eauto);
      repeat (rewrite bool_decide_eq_false_2 by (by intros [? ?]));
      simpl; split; intros H; try done; try tauto; destruct H; done.
  - intros e He. apply find_some in He as [Hin Hacc]. split; [done|].
    destruct e; simpl in Hacc; auto; discriminate.
  - intros k Hk. apply find_some in Hk as [Hin Hacc]. split; [done|].
    destruct k; simpl in Hacc; try discriminate; auto.
Qed.

End SecurityFacts.

Module TransactionIdFacts.
Import TransactionId.

Lemma wrap_mod4 w x : 2 <= w -> wrap w x mod 4 = x mod 4.
Proof.
  intros Hw. unfold wrap.
  replace (2 ^ w) with (4 * 2 ^ (w - 2)).
  - rewrite Z.mul_comm. symmetry.
    rewrite (Z.mod_eq x (2 ^ (w - 2) * 4)) by lia.
    replace (x - 2 ^ (w - 2) * 4 * (x / (2 ^ (w - 2) * 4)))
      with (x + (- (2 ^ (w - 2) * (x / (2 ^ (w - 2) * 4)))) * 4) by lia.
    rewrite Z.mod_add by lia. reflexivity.
  - change 4 with (2 ^ 2). rewrite <- Z.pow_add_r by lia. f_equal. lia.
Qed.

Lemma ids_from_cons first n :
  ids_from first (S n) = first mod 4 :: ids_from (first + 1) n.
Proof.
  unfold ids_from. simpl. f_equal; [f_equal; lia|].
  rewrite <- seq_shift, map_map. apply map_ext. intros k. f_equal. lia.
Qed.

Lemma ids_from_mod4 a b n : a mod 4 = b mod 4 -> ids_from a n = ids_from b n.
Proof.
  intros Hab. unfold ids_from. apply map_ext. intros k.
  rewrite (Zplus_mod a), (Zplus_mod b), Hab. reflexivity.
Qed.

Lemma ids_at_shift first ks :
  ids_at first (map S ks) = ids_at (first + 1) ks.
Proof.
  unfold ids_at. rewrite map_map. apply map_ext. intros k. f_equal. lia.
Qed.

Lemma ids_at_mod4 a b ks : a mod 4 = b mod 4 -> ids_at a ks = ids_at b ks.
Proof.
  intros Hab. unfold ids_at. apply map_ext. intros k.
  rewrite (Zplus_mod a), (Zplus_mod b), Hab. reflexivity.
Qed.

Lemma ids_at_seq first n : ids_at first (seq 0 n) = ids_from first n.
Proof. reflexivity. Qed.

Lemma filter_map_S (f : nat -> bool) l :
  List.filter f (map S l) = map S (List.filter (fun k => f (S k)) l).
Proof.
  induction l as [|k l IH]; [done|]. cbn [map List.filter].
  destruct (f (S k)); cbn [map]; by rewrite IH.
Qed.

Lemma sent_positions_cons r runs :
  sent_positions (r :: runs) =
  (if goes_out (snd r) then [0%nat] else []) ++ map S (sent_positions runs).
Proof.
  unfold sent_positions. cbn [List.length seq List.filter nth_error].
  rewrite <- seq_shift, filter_map_S. cbn [nth_error].
  by destruct (goes_out (snd r)).
Qed.

Lemma sent_positions_all runs :
  Forall (fun r => goes_out (snd r) = true) runs ->
  sent_positions runs = seq 0 (List.length runs).
Proof.
  induction runs as [|r runs IH]; intros H; [done|].
  apply Forall_cons in H as [Hr H].
  rewrite sent_positions_cons, Hr, IH by done.
  cbn [List.length seq app]. by rewrite seq_shift.
Qed.

Lemma sent_ids_runs w runs : forall tid,
  2 <= w ->
  sent_ids w (sender_runs runs) tid = ids_at tid (sent_positions runs).
Proof.
  induction runs as [|[m e] runs IH]; intros tid Hw; [done|].
  rewrite sent_positions_cons. unfold sent_ids in *.
  cbn [sender_runs map run send next_transaction_id fst snd].
  specialize (IH (wrap w (tid + 1)) Hw).
  fold (sender_runs runs).
  destruct (run w (sender_runs runs) (wrap w (tid + 1))) as [outs t'] eqn:E.
  cbn [fst snd] in IH.
  assert (Hrest : map snd outs = ids_at tid (map S (sent_positions runs))).
  { rewrite IH, ids_at_shift. apply ids_at_mod4. by apply wrap_mod4. }
  destruct (goes_out e); cbn [fst snd map app]; [|exact Hrest].
  rewrite Hrest. unfold ids_at at 2. cbn [map]. f_equal.
  rewrite Z.add_0_r. apply u8_small.
  pose proof (Z.mod_pos_bound tid 4). lia.
Qed.

Lemma run_app w evs1 : forall evs2 tid,
  run w (evs1 ++ evs2) tid =
    (fst (run w evs1 tid) ++ fst (run w evs2 (snd (run w evs1 tid))),
     snd (run w evs2 (snd (run w evs1 tid)))).
Proof.
  induction evs1 as [|[m e|b] evs1 IH]; intros evs2 tid; simpl.
  - by destruct (run w evs2 tid).
  - rewrite IH. destruct (run w evs1 _). by destruct (goes_out e).
  - apply IH.
Qed.

Lemma ids_from_consecutive n : forall first,
  consecutive_mod4 (ids_from first n).
Proof.
  induction n as [|n IH]; intros first; [done|].
  rewrite ids_from_cons. destruct n as [|n]; [done|].
  specialize (IH (first + 1)). rewrite ids_from_cons in *.
  split; [|exact IH]. by rewrite Zplus_mod_idemp_l.
Qed.

(** C7, as amended: every run of a sender writes [transaction_id mod 4]
    and adds one to the member, whether or not its message goes out in the
    end, so among the runs between two received UL-DCCH messages the run
    number [k] uses the id [first + k] modulo 4 and the messages that go
    out carry the ids of their runs; they are consecutive modulo 4 when
    every run sends.  parse_ul_dcch sets the member back to 0 for each
    UL-DCCH message it unpacks, so the runs after it count again from
    0. *)
Theorem transaction_ids_amended w evs runs tid :
  2 <= w ->
  sent_ids w (sender_runs runs) tid = ids_at tid (sent_positions runs) /\
  (Forall (fun r => goes_out (snd r) = true) runs ->
   sent_ids w (sender_runs runs) tid = ids_from tid (List.length runs) /\
   consecutive_mod4 (sent_ids w (sender_runs runs) tid)) /\
  sent_ids w (evs ++ ev_parse_ul_dcch true :: sender_runs runs) tid =
    sent_ids w evs tid ++ ids_at 0 (sent_positions runs).
Proof.
  intros Hw. split; [by apply sent_ids_runs|]. split.
  - intros Hall. rewrite sent_ids_runs, sent_positions_all, ids_at_seq by done.
    split; [done|]. apply ids_from_consecutive.
  - unfold sent_ids at 1. rewrite run_app. simpl. rewrite map_app.
    f_equal. change (parse_ul_dcch true _) with 0.
    by apply (sent_ids_runs w runs 0).
Qed.

Lemma transaction_ids_amended_witness :
  sent_ids 8 (sender_runs [(rrc_conn_setup, handed_over);
                           (security_mode_cmd, no_buffer);
                           (rrc_conn_recfg, no_drb_config);
                           (ue_cap_enquiry, handed_over);
                           (rrc_conn_release, handed_over)]) 0
  = [0; 3; 0].
Proof.
  refine (proj1 (transaction_ids_amended 8 []
    [(rrc_conn_setup, handed_over); (security_mode_cmd, no_buffer);
     (rrc_conn_recfg, no_drb_config); (ue_cap_enquiry, handed_over);
     (rrc_conn_release, handed_over)] 0 _)).
  lia.
Defined.

(** C7, as first described, fails: the connection setup is sent with id 0,
    the setup-complete arrives on UL-DCCH, and the security mode command
    that follows carries id 0 again instead of 1. *)
Lemma transaction_ids_not_consecutive :
  ~ consecutive_mod4
      (sent_ids 8 [ev_send rrc_conn_setup handed_over; ev_parse_ul_dcch true;
                   ev_send security_mode_cmd handed_over] 0).
Proof.
  vm_compute. intros [H _]. discriminate H.
Qed.

(** Nor does the first message sent after a received UL-DCCH message
    always carry id 0: a reconfiguration that stops at get_drbid_config
    has used id 0, and the release sent next carries id 1. *)
Lemma first_sent_id_after_ul_dcch :
  sent_ids 8 [ev_parse_ul_dcch true; ev_send rrc_conn_recfg no_drb_config;
              ev_send rrc_conn_release handed_over] 0 = [1].
Proof. reflexivity. Qed.

End TransactionIdFacts.

Module MacUeFacts.
Import MacUe.

(** ** Soft buffers *)

Lemma get_softbuffer_cases buffers nof cc index :
  0 <= cc -> 0 <= nof ->
  let r := fst (get_softbuffer buffers nof cc index) in
  (Z.of_nat (List.length buffers) <= cc -> r = returns None) /\
  (forall p, r = returns (Some p) ->
     p = (Z.to_nat cc, Z.to_nat (index mod nof)) /\
     cc < Z.of_nat (List.length buffers) /\
     0 <= index mod nof < nof /\
     is_Some (deref buffers p)) /\
  r <> throws_out_of_range /\
  (r = undefined_rem_by_zero -> nof = 0).
Proof.
  intros Hcc Hnof r. subst r. unfold get_softbuffer.
  destruct (Z.leb_spec (Z.of_nat (List.length buffers)) cc) as [Hge|Hlt]; simpl.
  { repeat split; try done; lia. }
  destruct (buffers !! Z.to_nat cc) as [row|] eqn:Hrow.
  2: { apply lookup_ge_None in Hrow. lia. }
  destruct (Z.ltb_spec (Z.of_nat (List.length row)) nof) as [Hshort|Hlong]; simpl.
  { repeat split; try done; lia. }
  destruct (Z.eqb_spec nof 0) as [Hz|Hnz]; simpl.
  { repeat split; try done; lia. }
  assert (0 <= index mod nof < nof) as Hk by (apply Z.mod_pos_bound; lia).
  destruct (row !! Z.to_nat (index mod nof)) as [b|] eqn:Hb; simpl.
  - split; [lia|]. split; [|by split].
    intros p [= <-]. split; [done|]. split; [lia|]. split; [lia|].
    unfold deref. simpl. rewrite Hrow. simpl. eauto.
  - apply lookup_ge_None in Hb. lia.
Qed.

Lemma get_softbuffer_allocated buffers nof cc index :
  0 <= cc < Z.of_nat (List.length buffers) -> 0 < nof ->
  Forall (fun row => Z.of_nat (List.length row) = Z.max 0 nof) buffers ->
  fst (get_softbuffer buffers nof cc index) =
    returns (Some (Z.to_nat cc, Z.to_nat (index mod nof))).
Proof.
  intros Hcc Hnof Hall. unfold get_softbuffer.
  destruct (Z.leb_spec (Z.of_nat (List.length buffers)) cc); [lia|].
  destruct (buffers !! Z.to_nat cc) as [row|] eqn:Hrow.
  2: { apply lookup_ge_None in Hrow. lia. }
  rewrite Forall_lookup in Hall. specialize (Hall _ _ Hrow). simpl in Hall.
  destruct (Z.ltb_spec (Z.of_nat (List.length row)) nof); [lia|].
  destruct (Z.eqb_spec nof 0); [lia|].
  assert (0 <= index mod nof < nof) as Hk by (apply Z.mod_pos_bound; lia).
  destruct (row !! Z.to_nat (index mod nof)) as [b|] eqn:Hb; [done|].
  apply lookup_ge_None in Hb. lia.
Qed.

Lemma allocate_cc_buffers_allocated num_cc : forall u,
  buffers_allocated u -> buffers_allocated (allocate_cc_buffers u num_cc).
Proof.
  induction num_cc as [|n IH]; intros u [Hrx Htx]; [done|].
  simpl. apply IH. split; simpl; apply Forall_app; split; try done;
    apply Forall_singleton; rewrite length_replicate; lia.
Qed.

Lemma ue_new_allocated r p nrx ntx : buffers_allocated (ue_new r p nrx ntx).
Proof.
  unfold ue_new. apply allocate_cc_buffers_allocated. by split.
Qed.

(** C10: get_rx_softbuffer and get_tx_softbuffer return a null pointer for
    a carrier index that is not below the number of carrier buffer rows;
    whatever non-null pointer they return is the buffer of that carrier at
    the index reduced modulo the number of HARQ processes, and it refers to
    an allocated buffer; [at] never throws; and on a user whose rows were
    built by allocate_cc_buffers, with at least one HARQ process, every
    in-range carrier index gets such a pointer. *)
Theorem softbuffer_getters_safe max_tb u ue_cc_idx tti harq_process tb_idx :
  0 <= ue_cc_idx -> 0 <= nof_rx_harq_proc u -> 0 <= nof_tx_harq_proc u ->
  let rx := fst (get_rx_softbuffer u ue_cc_idx tti) in
  let tx := fst (get_tx_softbuffer max_tb u ue_cc_idx harq_process tb_idx) in
  let rx_index := tti mod nof_rx_harq_proc u in
  let tx_index :=
    u32 (harq_process * max_tb + tb_idx) mod nof_tx_harq_proc u in
  (Z.of_nat (List.length (softbuffer_rx u)) <= ue_cc_idx -> rx = returns None) /\
  (Z.of_nat (List.length (softbuffer_tx u)) <= ue_cc_idx -> tx = returns None) /\
  (forall p, rx = returns (Some p) ->
     p = (Z.to_nat ue_cc_idx, Z.to_nat rx_index) /\
     0 <= rx_index < nof_rx_harq_proc u /\
     is_Some (deref (softbuffer_rx u) p)) /\
  (forall p, tx = returns (Some p) ->
     p = (Z.to_nat ue_cc_idx, Z.to_nat tx_index) /\
     0 <= tx_index < nof_tx_harq_proc u /\
     is_Some (deref (softbuffer_tx u) p)) /\
  rx <> throws_out_of_range /\ tx <> throws_out_of_range /\
  (buffers_allocated u ->
   (ue_cc_idx < Z.of_nat (List.length (softbuffer_rx u)) ->
    0 < nof_rx_harq_proc u ->
    rx = returns (Some (Z.to_nat ue_cc_idx, Z.to_nat rx_index))) /\
   (ue_cc_idx < Z.of_nat (List.length (softbuffer_tx u)) ->
    0 < nof_tx_harq_proc u ->
    tx = returns (Some (Z.to_nat ue_cc_idx, Z.to_nat tx_index)))).
Proof.
  intros Hcc Hrx Htx rx tx rx_index tx_index.
  destruct (get_softbuffer_cases (softbuffer_rx u) (nof_rx_harq_proc u)
              ue_cc_idx tti Hcc Hrx) as (R1 & R2 & R3 & _).
  destruct (get_softbuffer_cases (softbuffer_tx u) (nof_tx_harq_proc u)
              ue_cc_idx (u32 (harq_process * max_tb + tb_idx)) Hcc Htx)
    as (T1 & T2 & T3 & _).
  split; [exact R1|]. split; [exact T1|]. split; [|split].
  - intros p Hp. destruct (R2 p Hp) as (? & ? & ? & ?). done.
  - intros p Hp. destruct (T2 p Hp) as (? & ? & ? & ?). done.
  - split; [exact R3|]. split; [exact T3|].
    intros [Arx Atx]. split; intros Hin Hpos.
    + by apply get_softbuffer_allocated.
    + by apply get_softbuffer_allocated.
Qed.

Lemma softbuffer_getters_safe_witness :
  fst (get_rx_softbuffer (ue_new 70 25 8 16) 0 10243) = returns (Some (0%nat, 3%nat)) /\
  fst (get_rx_softbuffer (ue_new 70 25 8 16) 1 10243) = returns None.
Proof.
  destruct (softbuffer_getters_safe 2 (ue_new 70 25 8 16) 0 10243 5 1)
    as (_ & _ & _ & _ & _ & _ & Hall); [lia|simpl; lia|simpl; lia|].
  destruct (softbuffer_getters_safe 2 (ue_new 70 25 8 16) 1 10243 5 1)
    as (Hnull & _); [lia|simpl; lia|simpl; lia|].
  destruct (Hall (ue_new_allocated 70 25 8 16)) as [Hrx _].
  split.
  - apply Hrx; simpl; lia.
  - apply Hnull. simpl. lia.
Defined.

(** ** Control elements *)

(** C9: a C-RNTI control element whose old RNTI the scheduler no longer
    knows leaves the MAC user as it was and only logs an error; process_ce
    changes the user's rnti, or calls rrc->upd_user, for no control element
    other than a C-RNTI one whose old RNTI the scheduler knows, in which
    case it does both. *)
Theorem crnti_ce_released_user ue_exists u tr ce :
  let ret := fst (fst (process_ce ue_exists u tr ce)) in
  let u' := snd (fst (process_ce ue_exists u tr ce)) in
  let tr' := snd (process_ce ue_exists u tr ce) in
  (ul_sch_ce_type ce = CRNTI -> ue_exists tr (get_c_rnti ce) = false ->
   ret = false /\ u' = u /\
   tr' = tr ++ [log (err_crnti_released (get_c_rnti ce))]) /\
  (ul_sch_ce_type ce = CRNTI -> ue_exists tr (get_c_rnti ce) = true ->
   rnti u' = get_c_rnti ce /\
   tr' = tr ++ [rrc_upd_user (rnti u) (get_c_rnti ce)]) /\
  (rnti u' <> rnti u \/ upd_users tr' <> upd_users tr ->
   ul_sch_ce_type ce = CRNTI /\ ue_exists tr (get_c_rnti ce) = true).
Proof.
  intros ret u' tr'. subst ret u' tr'. unfold process_ce.
  split; [|split].
  - intros -> ->. done.
  - intros -> ->. done.
  - intros Hch.
    destruct (ul_sch_ce_type ce) eqn:Hty;
      try destruct (ue_exists tr (get_c_rnti ce)) eqn:Hex;
      try destruct (get_bsr ce =? -1);
      simpl in Hch; try done;
      exfalso; (destruct Hch as [Hch|Hch]; [by apply Hch|]); apply Hch;
      unfold upd_users; rewrite ?omap_app; simpl; by rewrite ?app_nil_r.
Qed.

(** ** Uplink PDUs *)

Lemma byte_range b : 0 <= Z.of_N (Byte.to_N b) <= 255.
Proof. pose proof (Byte.to_N_bounded b). lia. Qed.

Lemma checksum_fold x : forall s,
  0 <= s -> s + 255 * Z.of_nat (List.length x) < 2 ^ 32 ->
  let r := fold_left (fun sum b => u32 (sum + Z.of_N (Byte.to_N b))) x s in
  (r =? 0) = (s =? 0) && all_zero x.
Proof.
  induction x as [|b x IH]; intros s Hs Hlen; simpl.
  - by rewrite andb_true_r.
  - pose proof (byte_range b) as Hb.
    change (List.length (b :: x)) with (S (List.length x)) in Hlen.
    rewrite u32_small by lia. rewrite IH by lia.
    rewrite andb_assoc. f_equal.
    destruct (Z.eqb_spec s 0), (Z.eqb_spec (Z.of_N (Byte.to_N b)) 0),
      (Z.eqb_spec (s + Z.of_N (Byte.to_N b)) 0); simpl; lia.
Qed.

Lemma checksum_all_zero x :
  255 * Z.of_nat (List.length x) < 2 ^ 32 ->
  (checksum x =? 0) = all_zero x.
Proof.
  intros H. unfold checksum. rewrite checksum_fold by lia. done.
Qed.

Lemma copy_conres_spec c x :
  (6 <= List.length c)%nat -> (6 <= List.length x)%nat ->
  copy_conres c x = rev (take 6 x) ++ drop 6 c.
Proof.
  intros Hc Hx.
  do 6 (destruct c as [|? c]; [simpl in Hc; lia|]).
  do 6 (destruct x as [|? x]; [simpl in Hx; lia|]).
  reflexivity.
Qed.

Lemma copy_conres_length c x :
  List.length (copy_conres c x) = List.length c.
Proof.
  unfold copy_conres. generalize (seq 0 (Z.to_nat MAC_CE_CONTRES_LEN)).
  intros l. revert c. induction l as [|i l IH]; intros c; [done|].
  simpl. rewrite IH. apply length_insert.
Qed.

Lemma rlc_writes_app t1 t2 : rlc_writes (t1 ++ t2) = rlc_writes t1 ++ rlc_writes t2.
Proof. apply omap_app. Qed.

Lemma buffer_adds_app t1 t2 :
  buffer_adds (t1 ++ t2) = buffer_adds t1 ++ buffer_adds t2.
Proof. apply omap_app. Qed.

(** What one pass of the first loop does for an SDU subheader. *)
Lemma sdu_step_sdu nof_bytes st lcid x :
  Z.of_nat (List.length x) < 2 ^ 31 ->
  let st' := sdu_step nof_bytes st (subh_sdu lcid x) in
  let u := loop_ue st in
  let routed := negb ((lcid =? 0) && (checksum x =? 0)) in
  rlc_writes (loop_trace st') =
    rlc_writes (loop_trace st) ++
    (if routed then [(rnti u, lcid, x)] else []) /\
  buffer_adds (loop_trace st') = buffer_adds (loop_trace st) /\
  loop_ue st' =
    (if routed && (lcid =? 0) && (6 <=? Z.of_nat (List.length x))
     then set_conres_id u (copy_conres (conres_id u) x) else u) /\
  (most_data st', lcid_most_data st') =
    (if most_data st <? Z.of_nat (List.length x)
     then (Z.of_nat (List.length x), lcid)
     else (most_data st, lcid_most_data st)).
Proof.
  intros Hlen st' u routed. subst st' u routed. unfold sdu_step.
  rewrite u32_small by lia.
  assert (int32_of_u32 (Z.of_nat (List.length x)) = Z.of_nat (List.length x))
    as -> by (unfold int32_of_u32; destruct (Z.ltb_spec (Z.of_nat (List.length x)) (2 ^ 31)); lia).
  unfold MAC_CE_CONTRES_LEN.
  destruct (lcid =? 0), (checksum x =? 0),
    (64 <? Z.of_nat (List.length x)), (6 <=? Z.of_nat (List.length x)),
    (most_data st <? Z.of_nat (List.length x)); simpl;
    rewrite ?rlc_writes_app, ?buffer_adds_app; simpl;
    rewrite ?app_nil_r; done.
Qed.

Lemma process_ce_effects ue_exists u tr ce :
  let r := process_ce ue_exists u tr ce in
  fst (fst r) = accepted_bsr ce /\
  conres_id (snd (fst r)) = conres_id u /\
  rlc_writes (snd r) = rlc_writes tr /\
  buffer_adds (snd r) = buffer_adds tr.
Proof.
  intros r. subst r. unfold process_ce, accepted_bsr.
  destruct (ul_sch_ce_type ce);
    try destruct (ue_exists tr (get_c_rnti ce));
    try destruct (get_bsr ce =? -1); simpl;
    rewrite ?rlc_writes_app, ?buffer_adds_app; simpl;
    rewrite ?app_nil_r; done.
Qed.

Lemma ce_loop_effects ue_exists pdu : forall b u tr,
  let r := fold_left (ce_step ue_exists) pdu (b, u, tr) in
  fst (fst r) = b || existsb accepted_bsr (ces pdu) /\
  conres_id (snd (fst r)) = conres_id u /\
  rlc_writes (snd r) = rlc_writes tr /\
  buffer_adds (snd r) = buffer_adds tr.
Proof.
  induction pdu as [|[lcid x|ce] pdu IH]; intros b u tr; simpl.
  - by rewrite orb_false_r.
  - apply IH.
  - destruct (process_ce_effects ue_exists u tr ce) as (E1 & E2 & E3 & E4).
    destruct (process_ce ue_exists u tr ce) as [[is_bsr u1] tr1].
    simpl in *. subst is_bsr.
    destruct (IH (b || accepted_bsr ce) u1 tr1) as (I1 & I2 & I3 & I4).
    rewrite I1, I2, I3, I4, E2, E3, E4, orb_assoc. done.
Qed.

Lemma sdus_cons_sdu lcid x pdu :
  sdus (subh_sdu lcid x :: pdu) = (lcid, x) :: sdus pdu.
Proof. reflexivity. Qed.

Lemma sdu_sizes_below_cons bound s pdu :
  sdu_sizes_below bound (s :: pdu) -> sdu_sizes_below bound pdu.
Proof.
  intros H lcid x Hin. apply (H lcid x).
  destruct s; [right|]; exact Hin.
Qed.

(** The first loop: what reaches RLC and what ends up in [conres_id]. *)
Lemma sdu_loop_delivery nof_bytes pdu : forall st,
  sdu_sizes_below (2 ^ 24) pdu ->
  (6 <= List.length (conres_id (loop_ue st)))%nat ->
  let f := fold_left (sdu_step nof_bytes) pdu st in
  rlc_writes (loop_trace f) =
    rlc_writes (loop_trace st) ++
    map (fun s => (rnti (loop_ue st), fst s, snd s))
        (List.filter delivered (sdus pdu)) /\
  rnti (loop_ue f) = rnti (loop_ue st) /\
  conres_id (loop_ue f) =
    match last (List.filter carries_conres (sdus pdu)) with
    | None => conres_id (loop_ue st)
    | Some s => rev (take 6 (snd s)) ++ drop 6 (conres_id (loop_ue st))
    end.
Proof.
  induction pdu as [|[lcid x|ce] pdu IH]; intros st Hsz Hc; cbn [fold_left].
  - simpl. by rewrite app_nil_r.
  - rewrite sdus_cons_sdu. cbn [List.filter].
    assert (Z.of_nat (List.length x) < 2 ^ 24) as Hx
      by (apply (Hsz lcid x); by left).
    destruct (sdu_step_sdu nof_bytes st lcid x ltac:(lia)) as (W & _ & U & _).
    rewrite checksum_all_zero in W, U by lia.
    set (st1 := sdu_step nof_bytes st (subh_sdu lcid x)) in *.
    change (negb ((lcid =? 0) && all_zero x)) with (delivered (lcid, x)) in W, U.
    change (delivered (lcid, x) && (lcid =? 0) &&
            (6 <=? Z.of_nat (List.length x)))
      with (carries_conres (lcid, x)) in U.
    assert (rnti (loop_ue st1) = rnti (loop_ue st)) as Hr
      by (rewrite U; by destruct (carries_conres (lcid, x))).
    assert (6 <= List.length (conres_id (loop_ue st1)))%nat as Hc1.
    { rewrite U. destruct (carries_conres (lcid, x)); [|done].
      simpl. by rewrite copy_conres_length. }
    destruct (IH st1 (sdu_sizes_below_cons _ _ _ Hsz) Hc1) as (I1 & I2 & I3).
    rewrite I1, I2, I3, W, Hr. split; [|split; [done|]].
    + rewrite <- app_assoc. f_equal.
      destruct (delivered (lcid, x)); done.
    + destruct (carries_conres (lcid, x)) eqn:Hcc.
      * rewrite last_cons. rewrite U. simpl.
        assert (6 <= List.length x)%nat as Hx6.
        { unfold carries_conres in Hcc. simpl in Hcc.
          destruct (Z.leb_spec 6 (Z.of_nat (List.length x))); [lia|].
          by rewrite andb_false_r in Hcc. }
        rewrite copy_conres_spec by done.
        rewrite drop_app_length'
          by (rewrite length_rev, length_take; lia).
        by destruct (last _).
      * by rewrite U.
  - by apply IH.
Qed.

(** The first loop: the LCID that carried the most data. *)
Lemma sdu_loop_most nof_bytes pdu : forall st,
  sdu_sizes_below (2 ^ 31) pdu ->
  let f := fold_left (sdu_step nof_bytes) pdu st in
  buffer_adds (loop_trace f) = buffer_adds (loop_trace st) /\
  ((most_data f = most_data st /\ lcid_most_data f = lcid_most_data st /\
    forall s, In s (sdus pdu) -> Z.of_nat (List.length (snd s)) <= most_data st)
   \/
   exists l1 x l2,
     sdus pdu = l1 ++ (lcid_most_data f, x) :: l2 /\
     most_data f = Z.of_nat (List.length x) /\
     most_data st < Z.of_nat (List.length x) /\
     (forall s, In s l1 -> Z.of_nat (List.length (snd s)) <
                           Z.of_nat (List.length x)) /\
     (forall s, In s l2 -> Z.of_nat (List.length (snd s)) <=
                           Z.of_nat (List.length x))).
Proof.
  induction pdu as [|[lcid x|ce] pdu IH]; intros st Hsz; cbn [fold_left].
  - split; [done|]. left. by repeat split.
  - rewrite sdus_cons_sdu.
    assert (Z.of_nat (List.length x) < 2 ^ 31) as Hx
      by (apply (Hsz lcid x); by left).
    destruct (sdu_step_sdu nof_bytes st lcid x Hx) as (_ & B & _ & M).
    set (st1 := sdu_step nof_bytes st (subh_sdu lcid x)) in *.
    destruct (IH st1 (sdu_sizes_below_cons _ _ _ Hsz)) as (I1 & I2).
    rewrite I1, B. split; [done|].
    destruct (Z.ltb_spec (most_data st) (Z.of_nat (List.length x)))
      as [Hmore|Hless]; injection M as M1 M2.
    + right. destruct I2 as [(E1 & E2 & Hall)|(l1 & y & l2 & E & E1 & E2 & H1 & H2)].
      * exists [], x, (sdus pdu). simpl. rewrite E2, M2, E1, M1.
        repeat split; try done. intros s Hs. specialize (Hall s Hs). lia.
      * exists ((lcid, x) :: l1), y, l2. rewrite E. repeat split; try done; try lia.
        intros s [<-|Hs]; [simpl; lia|by apply H1].
    + destruct I2 as [(E1 & E2 & Hall)|(l1 & y & l2 & E & E1 & E2 & H1 & H2)].
      * left. rewrite E1, E2, M1, M2. repeat split; try done.
        intros s [<-|Hs]; [simpl; lia|]. specialize (Hall s Hs). lia.
      * right. exists ((lcid, x) :: l1), y, l2. rewrite E.
        repeat split; try done; try lia.
        intros s [<-|Hs]; [simpl; lia|by apply H1].
  - by apply IH.
Qed.

(** C6: every SDU subheader of the PDU is written to RLC, in order and
    under the user's rnti, except those on LCID 0 whose bytes are all zero;
    and [conres_id] ends up holding, lowest address first, the first six
    bytes in reverse of the last delivered LCID-0 SDU of at least six
    bytes (its remaining bytes, and all of it when there is no such SDU,
    are left as they were). *)
Theorem sdu_delivery ue_exists u tr pdu nof_bytes :
  sdu_sizes_below (2 ^ 24) pdu ->
  (6 <= List.length (conres_id u))%nat ->
  let r := process_pdu ue_exists u tr pdu nof_bytes in
  rlc_writes (snd r) =
    rlc_writes tr ++
    map (fun s => (rnti u, fst s, snd s)) (List.filter delivered (sdus pdu)) /\
  conres_id (fst r) =
    match last (List.filter carries_conres (sdus pdu)) with
    | None => conres_id u
    | Some s => rev (take 6 (snd s)) ++ drop 6 (conres_id u)
    end.
Proof.
  intros Hsz Hc r. subst r. unfold process_pdu.
  set (st0 := {| lcid_most_data := 0; most_data := -99;
                 loop_ue := u; loop_trace := tr |}).
  destruct (sdu_loop_delivery nof_bytes pdu st0 Hsz Hc) as (W & _ & C).
  set (st := fold_left (sdu_step nof_bytes) pdu st0) in *.
  destruct (ce_loop_effects ue_exists pdu false (loop_ue st) (loop_trace st))
    as (_ & E2 & E3 & _).
  destruct (fold_left (ce_step ue_exists) pdu _) as [[b u'] tr'].
  simpl in E2, E3.
  destruct (negb b && (2 <? lcid_most_data st)); simpl;
    rewrite rlc_writes_app, E3, E2, W, C; simpl; by rewrite app_nil_r.
Qed.

(** C3, as amended: process_pdu adds a synthetic BSR of 256 bytes exactly
    when no control element of the PDU was taken as a buffer status report
    and the LCID of the first SDU with the largest payload is above 2; the
    bytes are added for that LCID.  In all other cases nothing is added.
    The size of the payload plays no part. *)
Theorem synthetic_bsr_amended ue_exists u tr pdu nof_bytes :
  sdu_sizes_below (2 ^ 31) pdu ->
  let r := process_pdu ue_exists u tr pdu nof_bytes in
  exists lcid_most,
    ((sdus pdu = [] /\ lcid_most = 0) \/
     exists l1 x l2,
       sdus pdu = l1 ++ (lcid_most, x) :: l2 /\
       (forall s, In s l1 -> (List.length (snd s) < List.length x)%nat) /\
       (forall s, In s l2 -> (List.length (snd s) <= List.length x)%nat)) /\
    buffer_adds (snd r) =
      buffer_adds tr ++
      (if negb (existsb accepted_bsr (ces pdu)) && (2 <? lcid_most)
       then [(rnti (fst r), lcid_most, 256)] else []).
Proof.
  intros Hsz r. subst r. unfold process_pdu.
  set (st0 := {| lcid_most_data := 0; most_data := -99;
                 loop_ue := u; loop_trace := tr |}).
  destruct (sdu_loop_most nof_bytes pdu st0 Hsz) as (B & M).
  set (st := fold_left (sdu_step nof_bytes) pdu st0) in *.
  exists (lcid_most_data st). split.
  - destruct M as [(_ & E & Hall)|(l1 & x & l2 & E & _ & _ & H1 & H2)].
    + left. split; [|exact E].
      destruct (sdus pdu) as [|s l]; [done|].
      specialize (Hall s (or_introl eq_refl)). simpl in Hall. lia.
    + right. exists l1, x, l2. split; [done|].
      split; intros s Hs; [specialize (H1 s Hs)|specialize (H2 s Hs)]; lia.
  - destruct (ce_loop_effects ue_exists pdu false (loop_ue st) (loop_trace st))
      as (E1 & _ & _ & E4).
    destruct (fold_left (ce_step ue_exists) pdu _) as [[b u'] tr'].
    simpl in E1, E4. subst b.
    destruct (negb _ && _); simpl;
      rewrite buffer_adds_app, E4, B; simpl; done.
Qed.

Lemma sdu_delivery_witness :
  rlc_writes (snd (process_pdu sched_knows_none ue_70 [] pdu_msg3 20)) =
    [(70, 0, [Byte.x11; Byte.x22; Byte.x33; Byte.x44; Byte.x55; Byte.x66;
              Byte.x77]);
     (70, 3, [Byte.x01])] /\
  conres_id (fst (process_pdu sched_knows_none ue_70 [] pdu_msg3 20)) =
    [Byte.x66; Byte.x55; Byte.x44; Byte.x33; Byte.x22; Byte.x11;
     Byte.x00; Byte.x00].
Proof.
  refine (sdu_delivery sched_knows_none ue_70 [] pdu_msg3 20 _ _).
  - intros lcid x Hin. simpl in Hin.
    repeat (destruct Hin as [Hin|Hin];
            [injection Hin as <- <-; vm_compute; reflexivity|]).
    destruct Hin.
  - simpl. lia.
Defined.

Lemma synthetic_bsr_amended_witness :
  sdu_sizes_below (2 ^ 31) pdu_msg3 /\
  exists lcid_most,
    ((sdus pdu_msg3 = [] /\ lcid_most = 0) \/
     exists l1 x l2,
       sdus pdu_msg3 = l1 ++ (lcid_most, x) :: l2 /\
       (forall s, In s l1 -> (List.length (snd s) < List.length x)%nat) /\
       (forall s, In s l2 -> (List.length (snd s) <= List.length x)%nat)) /\
    buffer_adds (snd (process_pdu sched_knows_none ue_70 [] pdu_msg3 20)) =
      if negb (existsb accepted_bsr (ces pdu_msg3)) && (2 <? lcid_most)
      then [(70, lcid_most, 256)] else [].
Proof.
  assert (sdu_sizes_below (2 ^ 31) pdu_msg3) as Hsz.
  { intros lcid x Hin. simpl in Hin.
    repeat (destruct Hin as [Hin|Hin];
            [injection Hin as <- <-; vm_compute; reflexivity|]).
    destruct Hin. }
  split; [exact Hsz|].
  exact (synthetic_bsr_amended sched_knows_none ue_70 [] pdu_msg3 20 Hsz).
Defined.

(** C3, as first described, fails: a PDU without any BSR whose only SDU is
    a single byte on LCID 3 still gets 256 bytes added for LCID 3. *)
Lemma synthetic_bsr_described_fails :
  ~ synthetic_bsr_described sched_knows_none ue_70 pdu_one_byte_drb 4.
Proof.
  unfold synthetic_bsr_described.
  change (process_pdu sched_knows_none ue_70 [] pdu_one_byte_drb 4)
    with (ue_70,
          [rlc_write_pdu 70 3 [Byte.x01]; sched_ul_buffer_add 70 3 256;
           log dbg_bsr_not_received; log dbg_pdu_processed]).
  intros H. destruct (H 3) as [Hadd _].
  destruct Hadd as (_ & _ & x & Hin & Hlen); [by left|].
  simpl in Hin. destruct Hin as [[= <-]|[]]. simpl in Hlen. lia.
Qed.

(** With no HARQ process configured the index computation has no defined
    result. *)
Example get_rx_softbuffer_no_harq :
  fst (get_rx_softbuffer (ue_new 70 25 0 0) 0 5) = undefined_rem_by_zero.
Proof. reflexivity. Qed.

End MacUeFacts.

Module MeasCfgFacts.
Import MeasCfg.

Section KeyedFacts.

Context {V D : Type}.
Variable changed : V -> V -> option D.
Variable fresh : V -> D.
Variable patch : D -> option V -> V.

Hypothesis changed_same : forall s, changed s s = None.
Hypothesis changed_none : forall s t, changed s t = None -> s = t.
Hypothesis patch_changed :
  forall s t d, changed s t = Some d -> patch d (Some s) = t.
Hypothesis patch_fresh : forall t, patch (fresh t) None = t.

Lemma lookup_apply_rem (rem : list Z) : forall (m : gmap Z V) k,
  apply_rem rem m !! k = if decide (k ∈ rem) then None else m !! k.
Proof.
  induction rem as [|a rem IH]; intros m k; unfold apply_rem in *;
    cbn [foldl].
  - destruct (decide (k ∈ [])) as [Hin|_]; [by apply elem_of_nil in Hin|done].
  - rewrite IH.
    destruct (decide (k = a)) as [->|Hne].
    + rewrite lookup_delete_eq.
      destruct (decide (a ∈ rem)) as [Hr|Hr],
        (decide (a ∈ a :: rem)) as [Hc|Hc]; try done;
        exfalso; apply Hc; by left.
    + rewrite lookup_delete_ne by done.
      destruct (decide (k ∈ rem)) as [Hr|Hr],
        (decide (k ∈ a :: rem)) as [Hc|Hc]; try done; exfalso.
      * apply Hc. by right.
      * apply elem_of_cons in Hc as [?|?]; done.
Qed.

Lemma elem_of_to_rem (s t : gmap Z V) k :
  k ∈ to_rem s t <-> is_Some (s !! k) /\ t !! k = None.
Proof.
  unfold to_rem. rewrite merge_sort_Permutation, list_elem_of_fmap. split.
  - intros [[k' []] [-> Hin]]. simpl.
    apply elem_of_map_to_list in Hin. rewrite lookup_merge in Hin.
    destruct (s !! k'), (t !! k'); simpl in Hin; try done; split; eauto.
  - intros [[v Hs] Ht]. exists (k, tt). split; [done|].
    apply elem_of_map_to_list. rewrite lookup_merge, Hs, Ht. done.
Qed.

Lemma elem_of_to_add_mod (s t : gmap Z V) k d :
  (k, d) ∈ to_add_mod changed fresh s t <->
  add_mod_of changed fresh (s !! k) (t !! k) = Some d.
Proof.
  unfold to_add_mod.
  rewrite merge_sort_Permutation, elem_of_map_to_list, lookup_merge.
  by destruct (s !! k), (t !! k).
Qed.

Lemma lookup_apply_add_mod (l : list (Z * D)) : forall (m : gmap Z V) k,
  NoDup (l.*1) ->
  (forall d, (k, d) ∈ l ->
             apply_add_mod patch l m !! k = Some (patch d (m !! k))) /\
  (k ∉ l.*1 -> apply_add_mod patch l m !! k = m !! k).
Proof.
  induction l as [|[a da] l IH]; intros m k Hnd.
  - split; [|done]. intros d Hd. by apply elem_of_nil in Hd.
  - rewrite fmap_cons in Hnd. apply NoDup_cons in Hnd as [Ha Hnd].
    unfold apply_add_mod in *. cbn [foldl fst snd].
    destruct (IH (<[a := patch da (m !! a)]> m) k Hnd) as [IH1 IH2].
    split.
    + intros d Hd. apply elem_of_cons in Hd as [[= -> ->]|Hd].
      * rewrite IH2 by done. by rewrite lookup_insert_eq.
      * assert (k <> a) as Hne.
        { intros ->. apply Ha. apply list_elem_of_fmap. by exists (a, d). }
        rewrite (IH1 d Hd). by rewrite lookup_insert_ne.
    + intros Hk. rewrite fmap_cons in Hk. apply not_elem_of_cons in Hk as [Hne Hk].
      rewrite IH2 by done. by rewrite lookup_insert_ne.
Qed.

(** A receiver that applies the two lists of a diff to the source holds
    the target. *)
Lemma apply_lists_diff (s t : gmap Z V) :
  apply_lists patch (to_add_mod changed fresh s t) (to_rem s t) s = t.
Proof.
  apply map_eq. intros k. unfold apply_lists.
  destruct (lookup_apply_add_mod (to_add_mod changed fresh s t)
              (apply_rem (to_rem s t) s) k) as [H1 H2].
  { unfold to_add_mod. rewrite merge_sort_Permutation.
    apply NoDup_fst_map_to_list. }
  assert (forall d, (k, d) ∈ to_add_mod changed fresh s t ->
                    add_mod_of changed fresh (s !! k) (t !! k) = Some d) as Hin
    by (intros d; apply elem_of_to_add_mod).
  assert (forall d, add_mod_of changed fresh (s !! k) (t !! k) = Some d ->
                    (k, d) ∈ to_add_mod changed fresh s t) as Hout
    by (intros d; apply elem_of_to_add_mod).
  assert (apply_rem (to_rem s t) s !! k =
          match t !! k with Some _ => s !! k | None => None end) as Hrem.
  { rewrite lookup_apply_rem. case_decide as Hr.
    - apply elem_of_to_rem in Hr as [_ ->]. done.
    - destruct (t !! k) eqn:Ht; [done|].
      destruct (s !! k) eqn:Hs; [|done].
      exfalso. apply Hr, elem_of_to_rem. by rewrite Hs, Ht; eauto. }
  destruct (t !! k) as [tv|] eqn:Ht; destruct (s !! k) as [sv|] eqn:Hs;
    simpl in *.
  - destruct (changed sv tv) as [d|] eqn:Hch.
    + rewrite (H1 d (Hout d eq_refl)), Hrem. f_equal. by apply patch_changed.
    + rewrite H2, Hrem. { f_equal. by apply changed_none. }
      intros Hk. apply list_elem_of_fmap in Hk as [[k' d] [Hk Hd]].
      simpl in Hk. subst k'. specialize (Hin d Hd). congruence.
  - rewrite (H1 (fresh tv) (Hout _ eq_refl)), Hrem. f_equal. apply patch_fresh.
  - rewrite H2, Hrem; [done|].
    intros Hk. apply list_elem_of_fmap in Hk as [[k' d] [Hk Hd]].
    simpl in Hk. subst k'. specialize (Hin d Hd). done.
  - rewrite H2, Hrem; [done|].
    intros Hk. apply list_elem_of_fmap in Hk as [[k' d] [Hk Hd]].
    simpl in Hk. subst k'. specialize (Hin d Hd). done.
Qed.

(** Equal sides: nothing to add, modify or remove. *)
Lemma diff_same (s : gmap Z V) :
  to_add_mod changed fresh s s = [] /\ to_rem s s = [].
Proof.
  unfold to_add_mod, to_rem. split.
  - assert (merge (add_mod_of changed fresh) s s = (∅ : gmap Z D)) as ->.
    { apply map_empty. intros i. rewrite lookup_merge.
      destruct (s !! i); simpl; [|done]. apply changed_same. }
    by rewrite map_to_list_empty.
  - assert (merge rem_of s s = (∅ : gmap Z unit)) as ->.
    { apply map_empty. intros i. rewrite lookup_merge. by destruct (s !! i). }
    by rewrite map_to_list_empty.
Qed.

(** The lists of a diff are in increasing order of id. *)
Lemma diff_sorted (s t : gmap Z V) :
  Sorted key_le (to_add_mod changed fresh s t) /\ Sorted Z.le (to_rem s t).
Proof.
  split; apply Sorted_merge_sort.
  - intros a b. unfold key_le. lia.
  - intros a b. lia.
Qed.

End KeyedFacts.

Lemma replaced_same {V} `{EqDecision V} (s : V) : replaced s s = None.
Proof. unfold replaced. by case_decide. Qed.

Lemma replaced_none {V} `{EqDecision V} (s t : V) : replaced s t = None -> s = t.
Proof. unfold replaced. by case_decide. Qed.

Lemma overwrite_replaced {V} `{EqDecision V} (s t d : V) :
  replaced s t = Some d -> overwrite d (Some s) = t.
Proof. unfold replaced, overwrite. case_decide; congruence. Qed.

Lemma apply_whole_diff {V} `{EqDecision V} (s t : gmap Z V) :
  apply_lists overwrite (to_add_mod replaced whole s t) (to_rem s t) s = t.
Proof.
  apply apply_lists_diff.
  - apply replaced_none.
  - apply overwrite_replaced.
  - done.
Qed.

Lemma meas_obj_patch_delta (s : gmap Z cell_t) (old : option meas_obj_t) t :
  match old with Some o => cells o | None => ∅ end = s ->
  meas_obj_patch (meas_obj_delta s (cells t) (earfcn t)) old = t.
Proof.
  intros Hs. unfold meas_obj_patch, meas_obj_delta. simpl. rewrite Hs.
  rewrite apply_whole_diff. by destruct t.
Qed.

Lemma apply_meas_objs_diff (s t : gmap Z meas_obj_t) :
  apply_lists meas_obj_patch
    (to_add_mod meas_obj_changed meas_obj_fresh s t) (to_rem s t) s = t.
Proof.
  apply apply_lists_diff.
  - intros a b. unfold meas_obj_changed. by case_decide.
  - intros a b d. unfold meas_obj_changed. case_decide; [done|].
    intros [= <-]. by apply meas_obj_patch_delta.
  - intros b. by apply meas_obj_patch_delta.
Qed.

(** C2: applying to the source the delta that the diff of a source and a
    target produces yields the target, and the diff of a configuration
    with itself is an empty delta: every list is empty and no presence
    flag is set. *)
Theorem diff_then_apply (src target_cfg : var_meas_cfg_t) :
  apply_meas_cfg (compute_diff_meas_cfg src target_cfg) src = target_cfg /\
  empty_delta (compute_diff_meas_cfg src src).
Proof.
  split.
  - unfold apply_meas_cfg, compute_diff_meas_cfg. simpl.
    rewrite apply_meas_objs_diff, !apply_whole_diff. by destruct target_cfg.
  - unfold empty_delta, compute_diff_meas_cfg. simpl.
    destruct (diff_same meas_obj_changed meas_obj_fresh
                (fun a => ltac:(unfold meas_obj_changed; by case_decide))
                (meas_objs src)) as [-> ->].
    destruct (diff_same replaced whole replaced_same (report_cfgs src))
      as [-> ->].
    destruct (diff_same replaced whole replaced_same (meas_ids src))
      as [-> ->].
    repeat split.
Qed.

(** The four steps of test_correct_meascfg_calculation, on the model. *)
Example meascfg_test1 :
  let d := compute_diff_meas_cfg var_empty var_test1 in
  meas_obj_to_add_mod_list d =
    [(1, {| carrier_freq := 3400;
            cells_to_add_mod_list := [(1, cell1); (2, cell2)];
            cells_to_add_mod_list_present := true;
            cells_to_rem_list := [];
            cells_to_rem_list_present := false |})] /\
  meas_obj_to_rem_list_present d = false /\
  report_cfg_to_add_mod_list d = [(1, rep1); (2, rep2)] /\
  report_cfg_to_rem_list_present d = false /\
  meas_id_to_add_mod_list d =
    [(1, {| meas_obj_id := 1; report_cfg_id := 1 |});
     (2, {| meas_obj_id := 1; report_cfg_id := 2 |})] /\
  meas_id_to_rem_list_present d = false.
Proof. vm_compute. repeat split. Qed.

Example meascfg_test3 :
  let d := compute_diff_meas_cfg var_test1 var_test3 in
  meas_obj_to_add_mod_list d =
    [(1, {| carrier_freq := 3400;
            cells_to_add_mod_list := [(1, cell1_pci3)];
            cells_to_add_mod_list_present := true;
            cells_to_rem_list := [];
            cells_to_rem_list_present := false |})] /\
  report_cfg_to_add_mod_list_present d = false /\
  meas_id_to_add_mod_list_present d = false.
Proof. vm_compute. repeat split. Qed.

Example meascfg_test4 :
  let d := compute_diff_meas_cfg var_test3 var_test4 in
  meas_obj_to_add_mod_list d =
    [(1, {| carrier_freq := 3400;
            cells_to_add_mod_list := [];
            cells_to_add_mod_list_present := false;
            cells_to_rem_list := [1];
            cells_to_rem_list_present := true |})] /\
  report_cfg_to_add_mod_list d = [(2, rep3)] /\
  report_cfg_to_rem_list_present d = false /\
  meas_id_to_rem_list d = [1; 2].
Proof. vm_compute. repeat split. Qed.

End MeasCfgFacts.

Module TimingAdvanceFacts.
Import TimingAdvance.

Lemma ta_value_of_cases ta :
  (ta <= -31 /\ ta_value_of ta = -31) \/
  (32 <= ta /\ ta_value_of ta = 32) \/
  (-31 < ta < 32 /\ ta_value_of ta = ta).
Proof.
  unfold ta_value_of, SRSLTE_MAX, SRSLTE_MIN. repeat case_match; lia.
Qed.

Lemma set_ta_loop_spec ta :
  Forall (fun c => 0 <= c <= 63) (set_ta_loop ta) /\
  sum_ta (set_ta_loop ta) = ta /\
  Z.of_nat (List.length (set_ta_loop ta)) =
    1 + (if 0 <=? ta then ta / 32 else (- ta) / 31) /\
  (exists sat c, set_ta_loop ta = sat ++ [c] /\ 0 < c < 63 /\
                 Forall (fun s => s = 0 \/ s = 63) sat).
Proof.
  funelim (set_ta_loop ta).
  - destruct H as (Hr & Hs & Hl & sat & c & Hsat & Hc & Hall).
    change (List.length (?x :: ?l)) with (S (List.length l)).
    rewrite Nat2Z.inj_succ, Hl.
    destruct (ta_value_of_cases ta) as [[Hta Hv]|[[Hta Hv]|[Hta Hv]]];
      rewrite Hv in *; try lia.
    + change (u32 (-31 + 31)) with 0.
      replace (ta - -31) with (ta + 31) in * by lia.
      split; [constructor; [lia|done]|]. split.
      { unfold sum_ta in *. simpl. rewrite Hs. unfold ta_of_cmd. lia. }
      split.
      { destruct (Z.leb_spec 0 ta); [lia|].
        replace (- ta) with (- (ta + 31) + 1 * 31) by lia.
        rewrite Z.div_add by lia.
        destruct (Z.leb_spec 0 (ta + 31)).
        - assert (ta + 31 = 0) as -> by lia. reflexivity.
        - lia. }
      exists (0 :: sat), c. rewrite Hsat. split; [done|]. split; [done|].
      constructor; [by left|done].
    + change (u32 (32 + 31)) with 63.
      split; [constructor; [lia|done]|]. split.
      { unfold sum_ta in *. simpl. rewrite Hs. unfold ta_of_cmd. lia. }
      split.
      { destruct (Z.leb_spec 0 ta); [|lia].
        destruct (Z.leb_spec 0 (ta - 32)); [|lia].
        replace ta with (ta - 32 + 1 * 32) at 2 by lia.
        rewrite Z.div_add by lia. lia. }
      exists (63 :: sat), c. rewrite Hsat. split; [done|]. split; [done|].
      constructor; [by right|done].
  - destruct (ta_value_of_cases ta) as [[Hta Hv]|[[Hta Hv]|[Hta Hv]]];
      rewrite Hv in *; try lia.
    rewrite u32_small by lia.
    split; [constructor; [lia|done]|]. split.
    { unfold sum_ta, ta_of_cmd. simpl. lia. }
    split.
    { simpl. destruct (Z.leb_spec 0 ta).
      - rewrite Z.div_small by lia. lia.
      - rewrite Z.div_small by lia. lia. }
    exists [], (ta + 31). split; [done|]. split; [lia|done].
Qed.

(** set_ta splits a timing advance into commands the scheduler can send:
    every command lies in 0..63, the advances they stand for add up to the
    requested one, all commands but the last are saturated (0 or 63) and
    the last is not, and the count returned is the number of commands
    pushed, one more than [ta / 32] for an advance and than [-ta / 31] for
    a delay. *)
Theorem set_ta_commands ta_ :
  - 2 ^ 31 <= ta_ < 2 ^ 31 ->
  let nof_cmd := fst (set_ta ta_) in
  let cmds := snd (set_ta ta_) in
  Forall (fun c => 0 <= c <= 63) cmds /\
  sum_ta cmds = ta_ /\
  nof_cmd = Z.of_nat (List.length cmds) /\
  nof_cmd = 1 + (if 0 <=? ta_ then ta_ / 32 else (- ta_) / 31) /\
  (exists sat c, cmds = sat ++ [c] /\ 0 < c < 63 /\
                 Forall (fun s => s = 0 \/ s = 63) sat).
Proof.
  intros Hta nof_cmd cmds. subst nof_cmd cmds. unfold set_ta. simpl.
  destruct (set_ta_loop_spec ta_) as (Hr & Hs & Hl & Hlast).
  assert (0 <= (if 0 <=? ta_ then ta_ / 32 else - ta_ / 31) < 2 ^ 31) as Hb.
  { destruct (Z.leb_spec 0 ta_).
    - split; [apply Z.div_pos; lia|].
      apply Z.div_lt_upper_bound; lia.
    - split; [apply Z.div_pos; lia|].
      apply Z.div_lt_upper_bound; lia. }
  rewrite u32_small by lia.
  repeat split; try done; lia.
Qed.

Lemma set_ta_commands_witness :
  snd (set_ta 100) = [63; 63; 63; 35] /\ sum_ta (snd (set_ta 100)) = 100 /\
  fst (set_ta 100) = 4.
Proof.
  destruct (set_ta_commands 100 ltac:(lia)) as (_ & Hs & Hn & Hc & _).
  split; [reflexivity|]. split; [exact Hs|]. rewrite Hc. reflexivity.
Defined.

End TimingAdvanceFacts.

Module PucchMoreFacts.
Import Pucch PucchFacts.

Lemma cqi_period_valid period :
  In period [2; 5; 10; 20; 40; 80; 160; 32; 64; 128] ->
  cqi_period_invalid period = false.
Proof.
  simpl. intros H.
  repeat (destruct H as [<-|H]; [reflexivity|]). destruct H.
Qed.

Lemma cqi_period_invalid_false period :
  cqi_period_invalid period = false ->
  In period [2; 5; 10; 20; 40; 80; 160; 32; 64; 128].
Proof.
  unfold cqi_period_invalid. intros H. apply negb_false_iff in H.
  repeat (apply orb_true_iff in H as [H|H]);
    apply Z.eqb_eq in H; subst; simpl; tauto.
Qed.

Lemma sr_period_invalid_false period :
  sr_period_invalid period = false -> In period [5; 10; 20; 40; 80].
Proof.
  unfold sr_period_invalid. intros H. apply negb_false_iff in H.
  repeat (apply orb_true_iff in H as [H|H]);
    apply Z.eqb_eq in H; subst; simpl; tauto.
Qed.

(** The index of a valid CQI period and offset, by band. *)
Lemma pmi_idx_of_bands period sf :
  In period [2; 5; 10; 20; 40; 80; 160; 32; 64; 128] ->
  0 <= sf < period ->
  pmi_idx_of period sf =
    (if period =? 2 then sf
     else if period =? 32 then 318 + sf
     else if period =? 64 then 350 + sf
     else if period =? 128 then 414 + sf
     else period - 3 + sf).
Proof.
  intros Hp Hsf. unfold pmi_idx_of. simpl in Hp.
  repeat (destruct Hp as [<-|Hp]; [simpl; rewrite ?u32_small by lia;
                                   apply u16_small; lia|]).
  destruct Hp.
Qed.

(** cqi_allocate, as the code behaves: with a valid period the call fails
    exactly when the least-loaded slot holds more than [max_users] users
    or its subframe offset is not below the period, and then changes
    nothing; otherwise it returns the index of the band of the period plus
    the offset, and [n_pucch = prb_slot * max_users + users + ncs_an], and
    counts the user in that slot.  The index tells period and offset
    apart: two valid pairs with the same index are equal. *)
Theorem cqi_allocate_spec cell cfg g u period :
  In period [2; 5; 10; 20; 40; 80; 160; 32; 64; 128] ->
  grid_valid g ->
  (forall j, 0 <= sf_mapping cfg j) ->
  0 <= ncs_an cell ->
  (Z.of_nat (nof_prb cfg) + 1) * max_users cell + ncs_an cell < 2 ^ 16 ->
  let i := fst (least_slot g cfg) in
  let j := snd (least_slot g cfg) in
  let sf := sf_mapping cfg j in
  let pmi_idx :=
    if period =? 2 then sf
    else if period =? 32 then 318 + sf
    else if period =? 64 then 350 + sf
    else if period =? 128 then 414 + sf
    else period - 3 + sf in
  let n_pucch := Z.of_nat i * max_users cell + g i j + ncs_an cell in
  (max_users cell < g i j \/ period <= sf ->
   exists log, cqi_allocate cell cfg g u period = (ret_error, g, u, log)) /\
  (g i j <= max_users cell -> sf < period ->
   cqi_allocate cell cfg g u period =
     (ret_ok pmi_idx n_pucch,
      grid_set g i j (g i j + 1),
      {| allocated := true; sched_prb_idx := i; sched_sf_idx := j;
         res_idx := pmi_idx; res_pucch := n_pucch |},
      [info_allocated i j n_pucch pmi_idx])) /\
  (forall period' sf',
     In period' [2; 5; 10; 20; 40; 80; 160; 32; 64; 128] ->
     0 <= sf' < period' -> sf < period ->
     pmi_idx_of period' sf' = pmi_idx_of period sf ->
     period' = period /\ sf' = sf).
Proof.
  intros Hper Hg Hsf Hncs Hfit i j sf pmi_idx n_pucch.
  destruct (least_slot_spec g cfg i j Hg) as (Hmin & Hfirst & Hin).
  { subst i j. by destruct (least_slot g cfg). }
  destruct (find_least_users_slot g cfg) as [mu Hmu].
  assert (least_slot g cfg = (i, j)) as Hij
    by (subst i j; by destruct (least_slot g cfg)).
  rewrite Hij in Hmu.
  pose proof (max_users_bounds cell) as Hm.
  pose proof (Hsf j) as Hsfj. fold sf in Hsfj.
  split; [|split].
  - unfold cqi_allocate. rewrite Hmu, (cqi_period_valid _ Hper).
    fold sf. intros [Hfull|Hoff].
    + destruct (Z.ltb_spec (max_users cell) (g i j)); [|lia]. eauto.
    + destruct (Z.ltb_spec (max_users cell) (g i j)); [eauto|].
      destruct (Z.ltb_spec sf period); [lia|]. eauto.
  - unfold cqi_allocate. rewrite Hmu, (cqi_period_valid _ Hper).
    fold sf. intros Hfree Hoff.
    destruct (Z.ltb_spec (max_users cell) (g i j)); [lia|].
    destruct (Z.ltb_spec sf period); [|lia].
    specialize (Hg i j). unfold UINT32_MAX in Hg.
    rewrite (pmi_idx_of_bands period sf Hper) by lia. fold pmi_idx.
    assert (n_pucch_of cell g i j = n_pucch) as ->.
    { apply n_pucch_of_exact; [lia|done|].
      assert (Z.of_nat i <= Z.of_nat (nof_prb cfg)) as Hi.
      { destruct Hin as [Hz|[? ?]]; [injection Hz as Hi0 Hj0|]; lia. }
      subst n_pucch. nia. }
    rewrite (u32_small (g i j + 1)) by lia. reflexivity.
  - intros period' sf' Hper' Hsf' Hoff.
    rewrite (pmi_idx_of_bands period' sf' Hper') by lia.
    rewrite (pmi_idx_of_bands period sf Hper) by lia.
    simpl in Hper, Hper'.
    repeat (destruct Hper as [<-|Hper]);
      repeat (destruct Hper' as [<-|Hper']); simpl; try lia;
      try (destruct Hper); try (destruct Hper').
Qed.

Lemma cqi_allocate_spec_witness :
  cqi_allocate cell_norm (cfg_1x1 3) full_grid no_handle 40 =
    (ret_ok 40 36, grid_set full_grid 0 0 37,
     {| allocated := true; sched_prb_idx := 0; sched_sf_idx := 0;
        res_idx := 40; res_pucch := 36 |},
     [info_allocated 0 0 36 40]).
Proof.
  refine (proj1 (proj2
    (cqi_allocate_spec cell_norm (cfg_1x1 3) full_grid no_handle 40
       _ _ _ _ _)) _ _).
  - simpl. tauto.
  - intros i j. unfold full_grid, UINT32_MAX. lia.
  - intros j. simpl. lia.
  - simpl. lia.
  - vm_compute. reflexivity.
  - vm_compute. discriminate.
  - vm_compute. reflexivity.
Defined.

Lemma sr_allocate_outcome cell cfg g u period :
  alloc_outcome cell cfg g u (sr_allocate cell cfg g u period).
Proof.
  unfold alloc_outcome, sr_allocate, least_slot.
  destruct (find_least_users g cfg) as [[i j] mu]. simpl.
  destruct (Z.ltb_spec (max_users cell) (g i j)); [by left|].
  destruct (sr_period_invalid period); [by left|].
  destruct (sf_mapping cfg j <? period); [|by left].
  right. simpl. repeat split; done.
Qed.

Lemma cqi_allocate_outcome cell cfg g u period :
  alloc_outcome cell cfg g u (cqi_allocate cell cfg g u period).
Proof.
  unfold alloc_outcome, cqi_allocate, least_slot.
  destruct (find_least_users g cfg) as [[i j] mu]. simpl.
  destruct (Z.ltb_spec (max_users cell) (g i j)); [by left|].
  destruct (cqi_period_invalid period); [by left|].
  destruct (sf_mapping cfg j <? period); [|by left].
  right. simpl. repeat split; done.
Qed.

Lemma alloc_outcome_balanced cell cfg g u r :
  grid_valid g -> alloc_outcome cell cfg g u r ->
  balanced cfg g -> balanced cfg r.1.1.2.
Proof.
  intros Hg [(_ & -> & _)|(_ & Hle & -> & _)] Hbal; [done|].
  pose proof (max_users_bounds cell) as Hm.
  destruct (least_slot g cfg) as [i j] eqn:Hij. simpl in *.
  destruct (least_slot_spec g cfg i j Hg Hij) as (Hmin & _ & Hin).
  pose proof (Hg i j) as Hgij. unfold UINT32_MAX in Hgij.
  rewrite u32_small by lia.
  intros a b a' b' Ha Hb Ha' Hb'.
  unfold grid_set. repeat case_decide; try lia.
  - specialize (Hmin a' b' Ha' Hb'). lia.
  - specialize (Hbal a b i j Ha Hb). 
    destruct Hin as [[= -> ->]|[? ?]].
    + destruct H0 as [-> ->]. specialize (Hbal Ha' Hb'). lia.
    + specialize (Hbal ltac:(lia) ltac:(lia)). destruct H0 as [-> ->]. lia.
  - specialize (Hbal a b a' b' Ha Hb Ha' Hb'). lia.
Qed.

Lemma alloc_outcome_valid cell cfg g u r :
  grid_valid g -> alloc_outcome cell cfg g u r -> grid_valid r.1.1.2.
Proof.
  intros Hg [(_ & -> & _)|(_ & _ & -> & _)]; [done|].
  apply grid_set_valid; [done|apply u32_le_max].
Qed.

(** One call of free after an allocator call gives back the grid the
    allocator started from, whatever the allocator did, provided the
    handle was not allocated before. *)
Lemma alloc_outcome_free cell cfg g u r :
  grid_valid g -> allocated u = false -> alloc_outcome cell cfg g u r ->
  forall i j, fst (res_free r.1.1.2 r.1.2) i j = g i j.
Proof.
  intros Hg Hu [(_ & -> & ->)|(_ & Hle & -> & Ha & Hi & Hj)] i j.
  - unfold res_free. by rewrite Hu.
  - pose proof (max_users_bounds cell) as Hm.
    set (i0 := (least_slot g cfg).1) in *. set (j0 := (least_slot g cfg).2) in *.
    pose proof (Hg i0 j0) as Hgij. unfold UINT32_MAX in Hgij.
    rewrite res_free_counter
      by (apply grid_set_valid; [done|apply u32_le_max]).
    rewrite Ha, Hi, Hj. simpl. case_bool_decide as Hd.
    + destruct Hd as [-> ->]. rewrite grid_set_same, u32_small by lia. lia.
    + apply grid_set_other. intros [= -> ->]. tauto.
Qed.

(** While users are only admitted and allocated, never released, the
    allocators keep each grid balanced: within the configured grid no
    counter exceeds another by more than one. *)
Theorem allocations_stay_balanced cfg st ops :
  forallb admits_only ops = true ->
  counters_valid st ->
  balanced (sr_cfg cfg) (sr_sched st) ->
  balanced (cqi_cfg cfg) (cqi_sched st) ->
  balanced (sr_cfg cfg) (sr_sched (run cfg st ops)) /\
  balanced (cqi_cfg cfg) (cqi_sched (run cfg st ops)).
Proof.
  unfold run. revert st.
  induction ops as [|op ops IH]; intros st Hops Hv Hsr Hcqi; [done|].
  simpl in Hops. apply andb_true_iff in Hops as [Hop Hops].
  simpl. apply IH; try done.
  - by apply step_valid.
  - destruct op as [r|r p|r p|r|r|r]; try discriminate; simpl;
      destruct (users st !! r) as [ue|]; try done.
    + pose proof (sr_allocate_outcome (cell cfg) (sr_cfg cfg) (sr_sched st)
                    (sr ue) p) as Ho.
      pose proof (alloc_outcome_balanced _ _ _ _ _ (proj1 Hv) Ho Hsr) as Hb.
      by destruct (sr_allocate _ _ _ _ _) as [[[? ?] ?] ?].
    + by destruct (cqi_allocate _ _ _ _ _) as [[[? ?] ?] ?].
  - destruct op as [r|r p|r p|r|r|r]; try discriminate; simpl;
      destruct (users st !! r) as [ue|]; try done.
    + by destruct (sr_allocate _ _ _ _ _) as [[[? ?] ?] ?].
    + pose proof (cqi_allocate_outcome (cell cfg) (cqi_cfg cfg) (cqi_sched st)
                    (cqi ue) p) as Ho.
      pose proof (alloc_outcome_balanced _ _ _ _ _ (proj2 Hv) Ho Hcqi) as Hb.
      by destruct (cqi_allocate _ _ _ _ _) as [[[? ?] ?] ?].
Qed.

Lemma allocations_stay_balanced_witness :
  balanced cfg_2x2
    (sr_sched (run cfg_two_grids rrc_init
       [op_add_user 70; op_sr_allocate 70 20; op_add_user 71;
        op_sr_allocate 71 20; op_add_user 72; op_sr_allocate 72 20])).
Proof.
  refine (proj1 (allocations_stay_balanced cfg_two_grids rrc_init
    [op_add_user 70; op_sr_allocate 70 20; op_add_user 71;
     op_sr_allocate 71 20; op_add_user 72; op_sr_allocate 72 20] _ _ _ _)).
  - reflexivity.
  - split; intros i j; simpl; unfold UINT32_MAX; lia.
  - intros i j i' j' _ _ _ _. simpl. lia.
  - intros i j i' j' _ _ _ _. simpl. lia.
Defined.

Lemma step_add_user_new cfg st r :
  users st !! r = None ->
  step cfg st (op_add_user r) =
    {| sr_sched := sr_sched st; cqi_sched := cqi_sched st;
       users := <[r := {| sr := no_handle; cqi := no_handle |}]> (users st) |}.
Proof. intros H. simpl. by rewrite H. Qed.

Lemma step_sr_allocate_user cfg st r p ue :
  users st !! r = Some ue ->
  step cfg st (op_sr_allocate r p) =
    let res := sr_allocate (cell cfg) (sr_cfg cfg) (sr_sched st) (sr ue) p in
    {| sr_sched := res.1.1.2; cqi_sched := cqi_sched st;
       users := <[r := {| sr := res.1.2; cqi := cqi ue |}]> (users st) |}.
Proof.
  intros H. simpl. rewrite H. by destruct (sr_allocate _ _ _ _ _) as [[[? ?] ?] ?].
Qed.

Lemma step_cqi_allocate_user cfg st r p ue :
  users st !! r = Some ue ->
  step cfg st (op_cqi_allocate r p) =
    let res := cqi_allocate (cell cfg) (cqi_cfg cfg) (cqi_sched st) (cqi ue) p in
    {| sr_sched := sr_sched st; cqi_sched := res.1.1.2;
       users := <[r := {| sr := sr ue; cqi := res.1.2 |}]> (users st) |}.
Proof.
  intros H. simpl. rewrite H. by destruct (cqi_allocate _ _ _ _ _) as [[[? ?] ?] ?].
Qed.

Lemma step_rem_user_found cfg st r ue :
  users st !! r = Some ue ->
  step cfg st (op_rem_user r) =
    {| sr_sched := fst (sr_free (sr_sched st) (sr ue));
       cqi_sched := fst (cqi_free (cqi_sched st) (cqi ue));
       users := delete r (users st) |}.
Proof. intros H. simpl. by rewrite H. Qed.

(** A user that is admitted, allocates its SR and CQI resources (whether
    or not the allocations succeed) and is removed leaves both grids and
    the table of users exactly as they were before its admission. *)
Theorem user_life_restores cfg st rnti sr_period cqi_period :
  counters_valid st ->
  users st !! rnti = None ->
  let st' := run cfg st (user_life rnti sr_period cqi_period) in
  (forall i j, sr_sched st' i j = sr_sched st i j) /\
  (forall i j, cqi_sched st' i j = cqi_sched st i j) /\
  users st' = users st.
Proof.
  intros [Hsr Hcqi] Hnew st'. subst st'. unfold run, user_life.
  cbn [fold_left].
  rewrite (step_add_user_new cfg st rnti Hnew).
  rewrite (step_sr_allocate_user cfg _ rnti sr_period
             {| sr := no_handle; cqi := no_handle |})
    by (cbn [users]; apply lookup_insert_eq).
  cbn [users sr_sched cqi_sched sr cqi]. cbv zeta.
  pose proof (sr_allocate_outcome (cell cfg) (sr_cfg cfg) (sr_sched st)
                no_handle sr_period) as Hs.
  pose proof (alloc_outcome_free _ _ _ no_handle _ Hsr eq_refl Hs) as Hsfree.
  set (rs := sr_allocate _ _ _ _ _) in *.
  rewrite (step_cqi_allocate_user cfg _ rnti cqi_period
             {| sr := rs.1.2; cqi := no_handle |})
    by (cbn [users]; apply lookup_insert_eq).
  cbn [users sr_sched cqi_sched sr cqi]. cbv zeta.
  pose proof (cqi_allocate_outcome (cell cfg) (cqi_cfg cfg) (cqi_sched st)
                no_handle cqi_period) as Hc.
  pose proof (alloc_outcome_free _ _ _ no_handle _ Hcqi eq_refl Hc) as Hcfree.
  set (rc := cqi_allocate _ _ _ _ _) in *.
  rewrite (step_rem_user_found cfg _ rnti
             {| sr := rs.1.2; cqi := rc.1.2 |})
    by (cbn [users]; apply lookup_insert_eq).
  cbn [users sr_sched cqi_sched sr cqi].
  split; [exact Hsfree|]. split; [exact Hcfree|].
  rewrite !insert_insert_eq, delete_insert_eq. by apply delete_id.
Qed.

Lemma user_life_restores_witness :
  sr_sched (run cfg_small rrc_init (user_life 70 20 40)) 0%nat 0%nat = 0 /\
  users (run cfg_small rrc_init (user_life 70 20 40)) = users rrc_init.
Proof.
  destruct (user_life_restores cfg_small rrc_init 70 20 40)
    as (Hsr & _ & Hu).
  - split; intros i j; simpl; unfold UINT32_MAX; lia.
  - reflexivity.
  - split; [apply Hsr|exact Hu].
Defined.

(** The SR configuration index tells period and offset apart: two
    successful calls of sr_allocate that return the same [I_sr] were made
    with the same period and chose slots with the same subframe offset;
    the index is [period - 5 + offset] and lies in 0..154. *)
Theorem sr_index_decodes cell1 cfg1 g1 u1 p1 cell2 cfg2 g2 u2 p2
    I n1 n2 g1' g2' u1' u2' l1 l2 :
  (forall j, 0 <= sf_mapping cfg1 j) ->
  (forall j, 0 <= sf_mapping cfg2 j) ->
  sr_allocate cell1 cfg1 g1 u1 p1 = (ret_ok I n1, g1', u1', l1) ->
  sr_allocate cell2 cfg2 g2 u2 p2 = (ret_ok I n2, g2', u2', l2) ->
  p1 = p2 /\
  sf_mapping cfg1 (sched_sf_idx u1') = sf_mapping cfg2 (sched_sf_idx u2') /\
  I = p1 - 5 + sf_mapping cfg1 (sched_sf_idx u1') /\
  0 <= I <= 154.
Proof.
  intros Hsf1 Hsf2.
  assert (forall cell cfg g u p n g' u' l,
    (forall j, 0 <= sf_mapping cfg j) ->
    sr_allocate cell cfg g u p = (ret_ok I n, g', u', l) ->
    In p [5; 10; 20; 40; 80] /\
    0 <= sf_mapping cfg (sched_sf_idx u') < p /\
    I = p - 5 + sf_mapping cfg (sched_sf_idx u')) as Hinv.
  { intros cell cfg g u p n g' u' l Hsf. unfold sr_allocate.
    destruct (find_least_users g cfg) as [[i j] mu].
    destruct (max_users cell <? g i j); [discriminate|].
    destruct (sr_period_invalid p) eqn:Hp; [discriminate|].
    apply sr_period_invalid_false in Hp.
    destruct (Z.ltb_spec (sf_mapping cfg j) p) as [Hlt|]; [|discriminate].
    intros [= HI _ _ Hu _]. subst u'. simpl. specialize (Hsf j).
    assert (5 <= p <= 80) by (simpl in Hp; lia).
    rewrite u32_small in HI by lia. rewrite u8_small in HI by lia.
    repeat split; try done; lia. }
  intros H1 H2.
  destruct (Hinv _ _ _ _ _ _ _ _ _ Hsf1 H1) as (Hp1 & Hr1 & HI1).
  destruct (Hinv _ _ _ _ _ _ _ _ _ Hsf2 H2) as (Hp2 & Hr2 & HI2).
  simpl in Hp1, Hp2.
  assert (p1 = p2) as <- by lia.
  repeat split; try lia.
Qed.

Lemma sr_index_decodes_witness :
  20 = 20 /\ sf_mapping (cfg_1x1 3) 0%nat = sf_mapping (cfg_1x1 3) 0%nat /\
  18 = 20 - 5 + sf_mapping (cfg_1x1 3) 0%nat /\ 0 <= 18 <= 154.
Proof.
  refine (sr_index_decodes cell_norm (cfg_1x1 3) empty_grid no_handle 20
    cell_norm (cfg_1x1 3) full_grid no_handle 20 18 0 36
    (grid_set empty_grid 0 0 1) (grid_set full_grid 0 0 37)
    {| allocated := true; sched_prb_idx := 0; sched_sf_idx := 0;
       res_idx := 18; res_pucch := 0 |}
    {| allocated := true; sched_prb_idx := 0; sched_sf_idx := 0;
       res_idx := 18; res_pucch := 36 |}
    [info_allocated 0 0 0 18] [info_allocated 0 0 36 18] _ _ _ _).
  - intros j. simpl. lia.
  - intros j. simpl. lia.
  - vm_compute. reflexivity.
  - vm_compute. reflexivity.
Defined.

End PucchMoreFacts.

Module MacUeMoreFacts.
Import MacUe MacUeFacts.

Lemma activities_app t1 t2 : activities (t1 ++ t2) = activities t1 ++ activities t2.
Proof. apply omap_app. Qed.

Lemma bsr_reports_app t1 t2 :
  bsr_reports (t1 ++ t2) = bsr_reports t1 ++ bsr_reports t2.
Proof. apply omap_app. Qed.

Lemma phr_reports_app t1 t2 :
  phr_reports (t1 ++ t2) = phr_reports t1 ++ phr_reports t2.
Proof. apply omap_app. Qed.

Lemma upd_users_app t1 t2 : upd_users (t1 ++ t2) = upd_users t1 ++ upd_users t2.
Proof. apply omap_app. Qed.

Lemma control_calls_app t1 t2 :
  control_calls (t1 ++ t2) = control_calls t1 ++ control_calls t2.
Proof. apply List.filter_app. Qed.

(** One pass of the first loop only appends, and what it appends holds no
    control call; the activity indication depends on the payload size
    alone. *)
Lemma sdu_step_trace nof_bytes st subh :
  exists t,
    loop_trace (sdu_step nof_bytes st subh) = loop_trace st ++ t /\
    control_calls t = [] /\
    rnti (loop_ue (sdu_step nof_bytes st subh)) = rnti (loop_ue st) /\
    activities t =
      match subh with
      | subh_sdu _ x =>
          if 64 <? u32 (Z.of_nat (List.length x))
          then [rnti (loop_ue st)] else []
      | subh_ce _ => []
      end.
Proof.
  destruct subh as [lcid x|ce]; [|exists []; by rewrite app_nil_r].
  unfold sdu_step.
  destruct (lcid =? 0), (checksum x =? 0),
    (64 <? u32 (Z.of_nat (List.length x))),
    (MAC_CE_CONTRES_LEN <=? u32 (Z.of_nat (List.length x)));
    cbn [andb negb loop_trace loop_ue rnti set_conres_id];
    rewrite <- ?app_assoc; eexists; (split; [reflexivity|]); done.
Qed.

Lemma sdu_loop_trace nof_bytes pdu : forall st,
  exists t,
    loop_trace (fold_left (sdu_step nof_bytes) pdu st) = loop_trace st ++ t /\
    control_calls t = [] /\
    rnti (loop_ue (fold_left (sdu_step nof_bytes) pdu st)) = rnti (loop_ue st) /\
    activities t =
      map (fun _ => rnti (loop_ue st))
          (List.filter (fun s => 64 <? u32 (Z.of_nat (List.length (snd s))))
                       (sdus pdu)).
Proof.
  induction pdu as [|subh pdu IH]; intros st; cbn [fold_left].
  - exists []. by rewrite app_nil_r.
  - destruct (sdu_step_trace nof_bytes st subh) as (t1 & E1 & C1 & R1 & A1).
    destruct (IH (sdu_step nof_bytes st subh)) as (t2 & E2 & C2 & R2 & A2).
    exists (t1 ++ t2). rewrite E2, E1, <- app_assoc. split; [done|].
    rewrite control_calls_app, C1, C2, R2, R1, activities_app, A1, A2, R1.
    repeat split; try done.
    destruct subh as [lcid x|ce]; [|done].
    rewrite sdus_cons_sdu. cbn [List.filter snd].
    by destruct (64 <? u32 (Z.of_nat (List.length x))).
Qed.

(** A control element only appends, and what it appends is neither an RLC
    delivery nor an activity indication. *)
Lemma process_ce_trace ue_exists u tr ce :
  exists t,
    snd (process_ce ue_exists u tr ce) = tr ++ t /\
    rlc_writes t = [] /\ activities t = [] /\ buffer_adds t = [].
Proof.
  unfold process_ce.
  destruct (ul_sch_ce_type ce);
    try destruct (ue_exists tr (get_c_rnti ce));
    try destruct (get_bsr ce =? -1); cbn [snd];
    try (eexists; split; [reflexivity|]; unfold MAX_LC_GROUP; done).
  all: exists []; by rewrite app_nil_r.
Qed.

Lemma ce_loop_trace ue_exists pdu : forall b u tr,
  exists t,
    snd (fold_left (ce_step ue_exists) pdu (b, u, tr)) = tr ++ t /\
    rlc_writes t = [] /\ activities t = [] /\ buffer_adds t = [].
Proof.
  induction pdu as [|[lcid x|ce] pdu IH]; intros b u tr; cbn [fold_left].
  - exists []. by rewrite app_nil_r.
  - apply IH.
  - cbn [ce_step].
    destruct (process_ce_trace ue_exists u tr ce) as (t1 & E1 & W1 & A1 & B1).
    destruct (process_ce ue_exists u tr ce) as [[is_bsr u1] tr1].
    cbn [snd] in E1. subst tr1.
    destruct (IH (b || is_bsr) u1 (tr ++ t1)) as (t2 & E2 & W2 & A2 & B2).
    exists (t1 ++ t2). rewrite E2, <- app_assoc.
    rewrite rlc_writes_app, activities_app, buffer_adds_app, W1, W2, A1, A2, B1, B2.
    done.
Qed.

(** process_pdu handles control elements after all SDUs: its trace is what
    was there before, then a part from the SDUs that holds no call on the
    scheduler and no rnti update, then a part from the control elements
    and the synthetic BSR that holds no RLC delivery and no activity
    indication.  RRC is told of activity once per SDU of more than 64
    bytes, under the rnti the PDU arrived on, whether or not the SDU was
    handed to RLC. *)
Theorem process_pdu_sdus_before_ces ue_exists u tr pdu nof_bytes :
  exists t_sdu t_ce,
    snd (process_pdu ue_exists u tr pdu nof_bytes) = tr ++ t_sdu ++ t_ce /\
    control_calls t_sdu = [] /\
    rlc_writes t_ce = [] /\ activities t_ce = [] /\
    activities t_sdu =
      map (fun _ => rnti u)
          (List.filter (fun s => 64 <? u32 (Z.of_nat (List.length (snd s))))
                       (sdus pdu)).
Proof.
  unfold process_pdu.
  set (st0 := {| lcid_most_data := 0; most_data := -99;
                 loop_ue := u; loop_trace := tr |}).
  destruct (sdu_loop_trace nof_bytes pdu st0) as (t1 & E1 & C1 & _ & A1).
  set (st := fold_left (sdu_step nof_bytes) pdu st0) in *.
  destruct (ce_loop_trace ue_exists pdu false (loop_ue st) (loop_trace st))
    as (t2 & E2 & W2 & A2 & _).
  destruct (fold_left (ce_step ue_exists) pdu _) as [[b u'] tr'].
  cbn [snd] in E2. subst tr'. rewrite E1. cbn [loop_trace st0].
  destruct (negb b && (2 <? lcid_most_data st)); cbn [snd];
    eexists t1, (t2 ++ _); rewrite <- !app_assoc;
    (split; [reflexivity|]);
    rewrite rlc_writes_app, activities_app, W2, A2; done.
Qed.


Lemma control_calls_nil t :
  control_calls t = [] ->
  bsr_reports t = [] /\ phr_reports t = [] /\ upd_users t = [] /\
  buffer_adds t = [].
Proof.
  induction t as [|e t IH]; [done|].
  destruct e; cbn; try done; apply IH.
Qed.

Lemma sdu_loop_phr nof_bytes pdu : forall st,
  phr_samples (loop_ue (fold_left (sdu_step nof_bytes) pdu st)) =
  phr_samples (loop_ue st).
Proof.
  induction pdu as [|[lcid x|ce] pdu IH]; intros st; cbn [fold_left];
    [done| |apply IH].
  rewrite IH. unfold sdu_step.
  by destruct (lcid =? 0), (checksum x =? 0),
    (MAC_CE_CONTRES_LEN <=? u32 (Z.of_nat (List.length x))).
Qed.

Lemma process_ce_reports ue_exists u tr ce :
  (ul_sch_ce_type ce = CRNTI ->
   forall t, ue_exists t (get_c_rnti ce) = false) ->
  let r := process_ce ue_exists u tr ce in
  rnti (snd (fst r)) = rnti u /\
  upd_users (snd r) = upd_users tr /\
  phr_samples (snd (fst r)) =
    phr_samples u ++ (if is_phr_ce ce then [get_phr ce] else []) /\
  phr_reports (snd r) =
    phr_reports tr ++ (if is_phr_ce ce then [(rnti u, get_phr ce)] else []) /\
  bsr_reports (snd r) = bsr_reports tr ++ bsr_reports_of (rnti u) ce.
Proof.
  intros Hk r. subst r. unfold process_ce, is_phr_ce, bsr_reports_of.
  destruct (ul_sch_ce_type ce) eqn:E;
    try (rewrite (Hk eq_refl tr));
    try destruct (get_bsr ce =? -1); cbn [fst snd rnti metrics_phr phr_samples];
    rewrite ?upd_users_app, ?phr_reports_app, ?bsr_reports_app, ?app_nil_r;
    unfold MAX_LC_GROUP; cbn; rewrite ?app_nil_r; done.
Qed.

Lemma ce_loop_reports ue_exists pdu : forall b u tr,
  crnti_unknown ue_exists pdu ->
  let r := fold_left (ce_step ue_exists) pdu (b, u, tr) in
  rnti (snd (fst r)) = rnti u /\
  upd_users (snd r) = upd_users tr /\
  phr_samples (snd (fst r)) =
    phr_samples u ++ map get_phr (List.filter is_phr_ce (ces pdu)) /\
  phr_reports (snd r) =
    phr_reports tr ++
    map (fun ce => (rnti u, get_phr ce)) (List.filter is_phr_ce (ces pdu)) /\
  bsr_reports (snd r) =
    bsr_reports tr ++ flat_map (bsr_reports_of (rnti u)) (ces pdu).
Proof.
  induction pdu as [|[lcid x|ce] pdu IH]; intros b u tr Hk; cbn [fold_left].
  - cbn. by rewrite !app_nil_r.
  - apply IH. intros ce Hin. apply Hk. exact Hin.
  - cbn [ce_step].
    assert (Hce : ul_sch_ce_type ce = CRNTI ->
                  forall t, ue_exists t (get_c_rnti ce) = false).
    { apply Hk. cbn. by left. }
    assert (Hk' : crnti_unknown ue_exists pdu).
    { intros c Hin. apply Hk. cbn. by right. }
    destruct (process_ce_reports ue_exists u tr ce Hce)
      as (R1 & U1 & S1 & P1 & B1).
    destruct (process_ce ue_exists u tr ce) as [[is_bsr u1] tr1].
    cbn [fst snd] in R1, U1, S1, P1, B1.
    destruct (IH (b || is_bsr) u1 tr1 Hk') as (R2 & U2 & S2 & P2 & B2).
    rewrite R2, U2, S2, P2, B2, R1, U1, S1, P1, B1, <- !app_assoc.
    change (ces (subh_ce ce :: pdu)) with (ce :: ces pdu).
    cbn [List.filter flat_map]. destruct (is_phr_ce ce); done.
Qed.

(** When no C-RNTI control element of the PDU names an rnti the scheduler
    knows, the user keeps its rnti and RRC gets no rnti update; the
    scheduler gets one power headroom report per PHR element and the
    buffer status of every BSR element (one group for a short or truncated
    BSR with a valid group, all four for a long one), in the order of the
    PDU and all under the user's rnti; and each power headroom is added to
    the user's metrics. *)
Theorem process_pdu_reports ue_exists u tr pdu nof_bytes :
  crnti_unknown ue_exists pdu ->
  let r := process_pdu ue_exists u tr pdu nof_bytes in
  rnti (fst r) = rnti u /\
  upd_users (snd r) = upd_users tr /\
  phr_samples (fst r) =
    phr_samples u ++ map get_phr (List.filter is_phr_ce (ces pdu)) /\
  phr_reports (snd r) =
    phr_reports tr ++
    map (fun ce => (rnti u, get_phr ce)) (List.filter is_phr_ce (ces pdu)) /\
  bsr_reports (snd r) =
    bsr_reports tr ++ flat_map (bsr_reports_of (rnti u)) (ces pdu).
Proof.
  intros Hk r. subst r. unfold process_pdu.
  set (st0 := {| lcid_most_data := 0; most_data := -99;
                 loop_ue := u; loop_trace := tr |}).
  destruct (sdu_loop_trace nof_bytes pdu st0) as (t1 & E1 & C1 & R1 & _).
  pose proof (sdu_loop_phr nof_bytes pdu st0) as S1.
  apply control_calls_nil in C1. destruct C1 as (B1 & P1 & U1 & _).
  set (st := fold_left (sdu_step nof_bytes) pdu st0) in *.
  destruct (ce_loop_reports ue_exists pdu false (loop_ue st) (loop_trace st) Hk)
    as (R2 & U2 & S2 & P2 & B2).
  destruct (fold_left (ce_step ue_exists) pdu _) as [[b u'] tr'].
  cbn [fst snd] in R2, U2, S2, P2, B2.
  rewrite E1, ?upd_users_app, ?phr_reports_app, ?bsr_reports_app,
    ?B1, ?P1, ?U1, ?app_nil_r in U2, P2, B2.
  cbn [st0 loop_ue loop_trace] in *. rewrite R1 in P2, B2, R2. rewrite S1 in S2.
  destruct (negb b && (2 <? lcid_most_data st)); cbn [fst snd];
    rewrite upd_users_app, phr_reports_app, bsr_reports_app; cbn;
    rewrite !app_nil_r.
  all: rewrite upd_users_app, U1 in U2;
    rewrite phr_reports_app, P1 in P2;
    rewrite bsr_reports_app, B1 in B2;
    rewrite app_nil_r in U2, P2, B2; done.
Qed.

Lemma process_pdu_reports_witness :
  let r := process_pdu sched_knows_none ue_70 [] pdu_bsr_phr 120 in
  rnti (fst r) = 70 /\
  upd_users (snd r) = [] /\
  phr_samples (fst r) = [17] /\
  phr_reports (snd r) = [(70, 17)] /\
  bsr_reports (snd r) = [(70, 0, 10); (70, 1, 0); (70, 2, 300); (70, 3, 0)].
Proof.
  apply (process_pdu_reports sched_knows_none ue_70 [] pdu_bsr_phr 120).
  intros ce _ _ t. reflexivity.
Defined.

Lemma last_cons_default {A} (l : list A) : forall a d,
  List.last (a :: l) d = List.last l a.
Proof.
  induction l as [|x l IH]; intros a d; [done|].
  change (List.last (a :: x :: l) d) with (List.last (x :: l) d).
  by rewrite !IH.
Qed.

Lemma process_ce_switch known ue_exists u tr ce :
  (forall t r, ue_exists t r = known r) ->
  let r := process_ce ue_exists u tr ce in
  rnti (snd (fst r)) =
    (if switches_rnti known ce then get_c_rnti ce else rnti u) /\
  upd_users (snd r) =
    upd_users tr ++
    (if switches_rnti known ce then [(rnti u, get_c_rnti ce)] else []).
Proof.
  intros Hk r. subst r. unfold process_ce, switches_rnti. rewrite Hk.
  destruct (ul_sch_ce_type ce); try destruct (known (get_c_rnti ce));
    try destruct (get_bsr ce =? -1); cbn [fst snd rnti metrics_phr set_rnti];
    rewrite ?upd_users_app, ?app_nil_r; unfold MAX_LC_GROUP; cbn;
    rewrite ?app_nil_r; done.
Qed.

Lemma ce_loop_switch known ue_exists pdu :
  (forall t r, ue_exists t r = known r) ->
  forall b u tr,
  let r := fold_left (ce_step ue_exists) pdu (b, u, tr) in
  let olds := map get_c_rnti (List.filter (switches_rnti known) (ces pdu)) in
  rnti (snd (fst r)) = List.last olds (rnti u) /\
  upd_users (snd r) = upd_users tr ++ combine (rnti u :: olds) olds.
Proof.
  intros Hk.
  induction pdu as [|[lcid x|ce] pdu IH]; intros b u tr; cbn [fold_left].
  - cbn. by rewrite app_nil_r.
  - apply IH.
  - cbn [ce_step]. change (ces (subh_ce ce :: pdu)) with (ce :: ces pdu).
    cbn [List.filter].
    destruct (process_ce_switch known ue_exists u tr ce Hk) as (R1 & U1).
    destruct (process_ce ue_exists u tr ce) as [[is_bsr u1] tr1].
    cbn [fst snd] in R1, U1.
    destruct (IH (b || is_bsr) u1 tr1) as (R2 & U2).
    cbn zeta in R2, U2 |- *. rewrite R2, U2, R1, U1, <- app_assoc.
    destruct (switches_rnti known ce); cbn [map combine app]; [|done].
    split; [|done].
    apply eq_sym, last_cons_default.
Qed.

(** With a scheduler whose answer stays the same while the PDU is
    processed, the user ends on the rnti named by the last C-RNTI control
    element that the scheduler knows (its own when there is none), and RRC
    is told of each switch in turn, from the rnti held at that point to
    the one taken over. *)
Theorem process_pdu_rnti_switch known ue_exists u tr pdu nof_bytes :
  (forall t r, ue_exists t r = known r) ->
  let r := process_pdu ue_exists u tr pdu nof_bytes in
  let olds := map get_c_rnti (List.filter (switches_rnti known) (ces pdu)) in
  rnti (fst r) = List.last olds (rnti u) /\
  upd_users (snd r) = upd_users tr ++ combine (rnti u :: olds) olds.
Proof.
  intros Hk r olds. subst r olds. unfold process_pdu.
  set (st0 := {| lcid_most_data := 0; most_data := -99;
                 loop_ue := u; loop_trace := tr |}).
  destruct (sdu_loop_trace nof_bytes pdu st0) as (t1 & E1 & C1 & R1 & _).
  apply control_calls_nil in C1. destruct C1 as (_ & _ & U1 & _).
  set (st := fold_left (sdu_step nof_bytes) pdu st0) in *.
  destruct (ce_loop_switch known ue_exists pdu Hk false (loop_ue st) (loop_trace st))
    as (R2 & U2).
  destruct (fold_left (ce_step ue_exists) pdu _) as [[b u'] tr'].
  cbn [fst snd] in R2, U2.
  rewrite E1, upd_users_app, U1, app_nil_r, R1 in U2. rewrite R1 in R2.
  cbn [st0 loop_ue loop_trace] in *.
  destruct (negb b && (2 <? lcid_most_data st)); cbn [fst snd];
    rewrite upd_users_app; cbn; rewrite !app_nil_r; done.
Qed.

Lemma process_pdu_rnti_switch_witness :
  let r := process_pdu (fun _ r => r =? 0x46) ue_70 [] pdu_crnti_bsr 20 in
  let olds := map get_c_rnti
                (List.filter (switches_rnti (fun r => r =? 0x46))
                             (ces pdu_crnti_bsr)) in
  rnti (fst r) = List.last olds 70 /\
  upd_users (snd r) = [] ++ combine (70 :: olds) olds.
Proof.
  apply (process_pdu_rnti_switch (fun r => r =? 0x46) (fun _ r => r =? 0x46)
           ue_70 [] pdu_crnti_bsr 20).
  intros t r. reflexivity.
Defined.


(** ** Carrier buffers *)

Lemma allocate_cc_buffers_rows num_cc : forall u,
  let u' := allocate_cc_buffers u num_cc in
  softbuffer_rx u' =
    softbuffer_rx u ++
    replicate num_cc (replicate (Z.to_nat (nof_rx_harq_proc u))
                                {| sb_nof_prb := nof_prb u |}) /\
  softbuffer_tx u' =
    softbuffer_tx u ++
    replicate num_cc (replicate (Z.to_nat (nof_tx_harq_proc u))
                                {| sb_nof_prb := nof_prb u |}) /\
  nof_rx_harq_proc u' = nof_rx_harq_proc u /\
  nof_tx_harq_proc u' = nof_tx_harq_proc u /\
  nof_prb u' = nof_prb u /\ rnti u' = rnti u.
Proof.
  induction num_cc as [|n IH]; intros u; cbn [allocate_cc_buffers].
  - cbn. by rewrite !app_nil_r.
  - destruct (IH (set_softbuffers u
        (softbuffer_rx u ++ [replicate (Z.to_nat (nof_rx_harq_proc u))
                                       {| sb_nof_prb := nof_prb u |}])
        (softbuffer_tx u ++ [replicate (Z.to_nat (nof_tx_harq_proc u))
                                       {| sb_nof_prb := nof_prb u |}])))
      as (Hrx & Htx & H1 & H2 & H3 & H4).
    cbn zeta. rewrite Hrx, Htx, H1, H2, H3, H4. cbn.
    by rewrite <- !app_assoc.
Qed.

Lemma deref_app buffers more p b :
  deref buffers p = Some b -> deref (buffers ++ more) p = Some b.
Proof.
  unfold deref. destruct (buffers !! p.1) as [row|] eqn:E; [|done].
  by rewrite (lookup_app_l_Some _ _ _ _ E).
Qed.

(** Adding carriers appends one row of buffers per carrier to both tables
    and touches no existing row: a pointer handed out before still refers
    to the same buffer.  On a user whose rows were built by
    allocate_cc_buffers, with at least one RX HARQ process, every carrier
    index below the new number of rows then gets a non-null RX buffer,
    which on an added carrier is initialised for the user's number of
    resource blocks; the index one past the last row still gets null. *)
Theorem allocate_cc_buffers_grows u num_cc cc tti :
  buffers_allocated u -> 0 < nof_rx_harq_proc u ->
  0 <= cc < Z.of_nat (List.length (softbuffer_rx u) + num_cc) ->
  let u' := allocate_cc_buffers u num_cc in
  let p := (Z.to_nat cc, Z.to_nat (tti mod nof_rx_harq_proc u)) in
  List.length (softbuffer_rx u') = (List.length (softbuffer_rx u) + num_cc)%nat /\
  List.length (softbuffer_tx u') = (List.length (softbuffer_tx u) + num_cc)%nat /\
  (forall q b, deref (softbuffer_rx u) q = Some b ->
               deref (softbuffer_rx u') q = Some b) /\
  (forall q b, deref (softbuffer_tx u) q = Some b ->
               deref (softbuffer_tx u') q = Some b) /\
  fst (get_rx_softbuffer u' cc tti) = returns (Some p) /\
  (Z.of_nat (List.length (softbuffer_rx u)) <= cc ->
   deref (softbuffer_rx u') p = Some {| sb_nof_prb := nof_prb u |}) /\
  fst (get_rx_softbuffer u'
         (Z.of_nat (List.length (softbuffer_rx u) + num_cc)) tti) =
    returns None.
Proof.
  intros Hall Hnof Hcc u' p.
  destruct (allocate_cc_buffers_rows num_cc u) as (Hrx & Htx & N1 & _ & _ & _).
  fold u' in Hrx, Htx, N1.
  assert (Hall' : buffers_allocated u')
    by by apply allocate_cc_buffers_allocated.
  assert (Lrx : List.length (softbuffer_rx u') =
                (List.length (softbuffer_rx u) + num_cc)%nat).
  { by rewrite Hrx, length_app, length_replicate. }
  assert (Hmod : 0 <= tti mod nof_rx_harq_proc u < nof_rx_harq_proc u)
    by (apply Z.mod_pos_bound; lia).
  split; [done|]. split.
  { by rewrite Htx, length_app, length_replicate. }
  split. { intros q b Hq. rewrite Hrx. by apply deref_app. }
  split. { intros q b Hq. rewrite Htx. by apply deref_app. }
  split.
  { unfold get_rx_softbuffer. rewrite N1.
    apply get_softbuffer_allocated; [lia|done|].
    destruct Hall' as [H _]. by rewrite N1 in H. }
  split.
  { intros Hnew. unfold deref, p. cbn [fst snd]. rewrite Hrx.
    rewrite lookup_app_r by lia.
    rewrite lookup_replicate_2 by lia. cbn.
    apply lookup_replicate_2. lia. }
  unfold get_rx_softbuffer, get_softbuffer. rewrite Lrx.
  by rewrite (proj2 (Z.leb_le _ _)) by lia.
Qed.

Lemma allocate_cc_buffers_grows_witness :
  let u' := allocate_cc_buffers ue_70 2 in
  List.length (softbuffer_rx u') = 3%nat /\
  fst (get_rx_softbuffer u' 2 13) = returns (Some (2%nat, 5%nat)) /\
  fst (get_rx_softbuffer u' 3 13) = returns None.
Proof.
  destruct (allocate_cc_buffers_grows ue_70 2 2 13) as (L & _ & _ & _ & G & _ & N).
  - apply ue_new_allocated.
  - reflexivity.
  - vm_compute. split; [discriminate|reflexivity].
  - split; [exact L|]. split; [exact G|exact N].
Defined.

End MacUeMoreFacts.

Module PagingFacts.
Import Paging.

(** ** The paging configuration *)

Lemma pcch_cfg_cases T Nb :
  pcch_cfg_valid T Nb ->
  1 <= N_of T Nb <= T /\ T <= 256 /\
  (T / N_of T Nb) * N_of T Nb = T /\
  (Ns_of T Nb = 1 \/
   N_of T Nb = T /\ (Ns_of T Nb = 2 \/ Ns_of T Nb = 4)).
Proof.
  intros [HT HNb]. cbn in HT.
  repeat (destruct HT as [<-|HT]; [
    cbn in HNb;
    repeat (destruct HNb as [<-|HNb]; [vm_compute; intuition congruence|]);
    destruct HNb|]).
  destruct HT.
Qed.

Lemma frame_value_small T Nb ueid :
  pcch_cfg_valid T Nb -> 0 <= ueid ->
  0 <= (T / N_of T Nb) * (ueid mod N_of T Nb) < T /\
  u32 ((T / N_of T Nb) * (ueid mod N_of T Nb)) =
    (T / N_of T Nb) * (ueid mod N_of T Nb).
Proof.
  intros Hcfg Hu.
  destruct (pcch_cfg_cases T Nb Hcfg) as ((HN1 & HN2) & HT & Hdiv & _).
  set (N := N_of T Nb) in *.
  assert (0 <= ueid mod N < N) as Hm by (apply Z.mod_pos_bound; lia).
  assert (1 <= T / N) as Hq by (apply Z.div_le_lower_bound; lia).
  assert (0 <= T / N * (ueid mod N) < T) as Hb by nia.
  split; [done|]. apply u32_small. lia.
Qed.

Lemma sf_idx_valid T Nb ueid :
  pcch_cfg_valid T Nb -> 0 <= ueid ->
  In (sf_idx_of T Nb ueid) [0; 4; 5; 9].
Proof.
  intros Hcfg Hu.
  destruct (pcch_cfg_cases T Nb Hcfg) as ((HN1 & HN2) & HT & Hdiv & HNs).
  unfold sf_idx_of, i_s_of.
  assert (0 <= ueid / N_of T Nb) as Hq by (apply Z.div_pos; lia).
  generalize dependent (ueid / N_of T Nb). intros q Hq.
  destruct HNs as [->|[_ [-> | ->]]].
  - rewrite Z.mod_1_r. vm_compute. tauto.
  - assert (0 <= q mod 2 < 2) as Hr by (apply Z.mod_pos_bound; lia).
    assert (q mod 2 = 0 \/ q mod 2 = 1) as [-> | ->] by lia;
      vm_compute; tauto.
  - assert (0 <= q mod 4 < 4) as Hr by (apply Z.mod_pos_bound; lia).
    assert (q mod 4 = 0 \/ q mod 4 = 1 \/ q mod 4 = 2 \/ q mod 4 = 3)
      as [-> | [-> | [-> | ->]]] by lia; vm_compute; tauto.
Qed.

Lemma is_due_iff T Nb tti ueid :
  pcch_cfg_valid T Nb -> 0 <= ueid ->
  is_due T Nb tti ueid = true <->
  (tti / 10) mod T = (T / N_of T Nb) * (ueid mod N_of T Nb) /\
  tti mod 10 = sf_idx_of T Nb ueid.
Proof.
  intros Hcfg Hu. unfold is_due, in_paging_frame.
  destruct (frame_value_small T Nb ueid Hcfg Hu) as (_ & ->).
  pose proof (sf_idx_valid T Nb ueid Hcfg Hu) as Hsf.
  set (sf := sf_idx_of T Nb ueid) in *. cbn [In] in Hsf.
  rewrite !andb_true_iff, negb_true_iff, Z.eqb_eq, Z.eqb_eq, Z.ltb_ge.
  intuition lia.
Qed.

(** Every identity has one paging occasion per paging cycle: with a cycle
    and an [nB] of SIB2, the tests of is_paging_opportunity select [ueid]
    at [tti] exactly when [tti], counted from the start of its cycle of
    [T] frames, is the subframe [paging_occasion]; that subframe is 0, 4,
    5 or 9 of its frame. *)
Theorem paging_cycle T Nb ueid tti :
  pcch_cfg_valid T Nb -> 0 <= ueid -> 0 <= tti ->
  0 <= paging_occasion T Nb ueid < 10 * T /\
  In (paging_occasion T Nb ueid mod 10) [0; 4; 5; 9] /\
  (is_due T Nb tti ueid = true <->
   tti mod (10 * T) = paging_occasion T Nb ueid).
Proof.
  intros Hcfg Hu Htti.
  destruct (pcch_cfg_cases T Nb Hcfg) as ((HN1 & HN2) & HT & _).
  destruct (frame_value_small T Nb ueid Hcfg Hu) as (Hx & _).
  pose proof (sf_idx_valid T Nb ueid Hcfg Hu) as Hsf.
  rewrite (is_due_iff T Nb tti ueid Hcfg Hu).
  unfold paging_occasion.
  set (x := T / N_of T Nb * (ueid mod N_of T Nb)) in *.
  set (sf := sf_idx_of T Nb ueid) in *.
  assert (0 <= sf < 10) as Hsf' by (cbn [In] in Hsf; lia).
  split; [lia|]. split.
  { replace (10 * x + sf) with (sf + x * 10) by lia.
    rewrite Z.mod_add by lia. by rewrite Z.mod_small by lia. }
  rewrite Z.rem_mul_r by lia.
  assert (0 <= tti mod 10 < 10) by (apply Z.mod_pos_bound; lia).
  lia.
Qed.

Lemma paging_cycle_witness :
  is_due 128 32 (10 * 128 * 3 + 10 * 20 + 9) 5 = true.
Proof.
  apply (paging_cycle 128 32 5 (10 * 128 * 3 + 10 * 20 + 9)).
  - split; cbn; tauto.
  - lia.
  - lia.
  - reflexivity.
Defined.

(** ** Paging records *)

Lemma big_endian_snoc pre b : big_endian (pre ++ [b]) = 256 * big_endian pre + b.
Proof. unfold big_endian. by rewrite fold_left_app. Qed.

Lemma big_endian_bounds octets :
  Forall (fun b => 0 <= b < 256) octets ->
  0 <= big_endian octets < 256 ^ Z.of_nat (List.length octets).
Proof.
  induction octets as [|b octets IH] using rev_ind; intros Hall.
  { cbn. lia. }
  apply Forall_app in Hall as [Hpre Hb]. rewrite Forall_singleton in Hb.
  specialize (IH Hpre).
  rewrite big_endian_snoc, length_app, Nat2Z.inj_add. cbn [List.length].
  rewrite Z.pow_add_r by lia. change (256 ^ Z.of_nat 1) with 256.
  set (P := 256 ^ _) in *. clearbody P. lia.
Qed.

Lemma lor_shifted_octet hi b k :
  0 <= hi -> 0 <= b < 256 -> 0 <= k ->
  Z.lor (hi * 2 ^ (k + 8)) (b * 2 ^ k) = (256 * hi + b) * 2 ^ k.
Proof.
  intros Hhi Hb Hk.
  rewrite <- Z.lxor_lor, <- Z.add_nocarry_lxor.
  - rewrite Z.pow_add_r by lia. change (2 ^ 8) with 256. lia.
  - apply Z.bits_inj'. intros i Hi. rewrite Z.land_spec, Z.bits_0.
    rewrite !Z.mul_pow2_bits by lia.
    destruct (Z.lt_ge_cases i (k + 8)).
    + rewrite (Z.testbit_neg_r hi) by lia. done.
    + rewrite (Z.bits_above_log2 b (i - k)); [by rewrite andb_false_r|lia|].
      destruct (Z.eq_dec b 0) as [->|]; [cbn; lia|].
      apply Z.log2_lt_pow2; [lia|]. change (2 ^ 8) with 256 in *.
      assert (2 ^ 8 <= 2 ^ (i - k)) by (apply Z.pow_le_mono_r; lia).
      change (2 ^ 8) with 256 in *. lia.
  - apply Z.bits_inj'. intros i Hi. rewrite Z.land_spec, Z.bits_0.
    rewrite !Z.mul_pow2_bits by lia.
    destruct (Z.lt_ge_cases i (k + 8)).
    + rewrite (Z.testbit_neg_r hi) by lia. done.
    + rewrite (Z.bits_above_log2 b (i - k)); [by rewrite andb_false_r|lia|].
      destruct (Z.eq_dec b 0) as [->|]; [cbn; lia|].
      apply Z.log2_lt_pow2; [lia|].
      assert (2 ^ 8 <= 2 ^ (i - k)) by (apply Z.pow_le_mono_r; lia).
      change (2 ^ 8) with 256 in *. lia.
Qed.

(** The loop of shifts and ors, from any position: with at most four
    octets in all it assembles them first octet most significant. *)
Lemma m_tmsi_loop_spec rest : forall pre,
  (List.length (pre ++ rest) <= 4)%nat ->
  Forall (fun b => 0 <= b < 256) (pre ++ rest) ->
  m_tmsi_loop (Z.of_nat (List.length (pre ++ rest)))
              (Z.of_nat (List.length pre)) rest
              (big_endian pre * 2 ^ (8 * Z.of_nat (List.length rest))) =
    Some (big_endian (pre ++ rest)).
Proof.
  induction rest as [|b rest IH]; intros pre Hlen Hall.
  { cbn. rewrite app_nil_r. f_equal. lia. }
  cbn [m_tmsi_loop].
  assert (Hb : 0 <= b < 256).
  { apply Forall_app in Hall as [_ Hr]. by inversion Hr. }
  assert (Hpre : 0 <= big_endian pre).
  { apply Forall_app in Hall as [Hp _]. by apply big_endian_bounds. }
  rewrite length_app in *. cbn [List.length] in *.
  replace (Z.of_nat (List.length pre + S (List.length rest)) -
           Z.of_nat (List.length pre))
    with (Z.of_nat (List.length rest) + 1) by lia.
  rewrite (u32_small (_ + 1)) by lia.
  replace (Z.of_nat (List.length rest) + 1 - 1)
    with (Z.of_nat (List.length rest)) by lia.
  rewrite (u32_small (Z.of_nat _)) by lia.
  rewrite (u32_small (8 * _)) by lia.
  destruct (Z.leb_spec 32 (8 * Z.of_nat (List.length rest))); [lia|].
  rewrite Z.shiftl_mul_pow2 by lia.
  assert (2 ^ (8 * Z.of_nat (List.length rest)) <= 2 ^ 24)
    by (apply Z.pow_le_mono_r; lia).
  assert (0 < 2 ^ (8 * Z.of_nat (List.length rest)))
    by (apply Z.pow_pos_nonneg; lia).
  rewrite u32_small by (change (2 ^ 24) with 16777216 in *; nia).
  replace (8 * Z.of_nat (S (List.length rest)))
    with (8 * Z.of_nat (List.length rest) + 8) by lia.
  rewrite lor_shifted_octet by lia.
  rewrite <- big_endian_snoc.
  replace (Z.of_nat (List.length pre) + 1)
    with (Z.of_nat (List.length (pre ++ [b])))
    by (rewrite length_app; cbn; lia).
  replace (Z.of_nat (List.length pre + S (List.length rest)))
    with (Z.of_nat (List.length ((pre ++ [b]) ++ rest)))
    by (rewrite !length_app; cbn; lia).
  rewrite IH.
  - by rewrite <- app_assoc.
  - rewrite !length_app. cbn. lia.
  - by rewrite <- app_assoc.
Qed.

Lemma m_tmsi_loop_defined rest : forall nof i acc,
  0 <= i -> nof = i + Z.of_nat (List.length rest) -> nof <= 4 ->
  is_Some (m_tmsi_loop nof i rest acc).
Proof.
  induction rest as [|b rest IH]; intros nof i acc Hi Hn H4; [done|].
  cbn [m_tmsi_loop]. cbn [List.length] in Hn.
  rewrite (u32_small (nof - i)) by lia.
  rewrite (u32_small (nof - i - 1)) by lia.
  rewrite (u32_small (8 * _)) by lia.
  destruct (Z.leb_spec 32 (8 * (nof - i - 1))); [lia|].
  apply IH; lia.
Qed.

Lemma paging_elem_defined u :
  id_well_formed u -> is_Some (paging_elem_of u).
Proof.
  destruct u as [octets|mmec octets]; [done|]. intros [Hm Ho].
  unfold paging_elem_of. destruct mmec as [|m0 mmec]; [cbn in Hm; lia|].
  cbn [lookup list_lookup mbind option_bind].
  destruct (m_tmsi_loop_defined octets (Z.of_nat (List.length octets)) 0 0)
    as [v ->]; try lia. done.
Qed.

(** The record assembled for an S-TMSI carries the first octet of the
    MMEC and the M-TMSI as the number its octets stand for, first octet
    most significant, when the M-TMSI has at most four octets; with more
    (and no more than [2 ^ 29], where the shift count wraps) the first
    shift is by 32 bits or more, which is undefined. *)
Theorem s_tmsi_record mmec0 mmec octets :
  Forall (fun b => 0 <= b < 256) octets ->
  ((List.length octets <= 4)%nat ->
   paging_elem_of (s_tmsi (mmec0 :: mmec) octets) =
     Some ({| ue_id := rec_s_tmsi mmec0 (big_endian octets);
              cn_domain := ps |}, [])) /\
  (4 < Z.of_nat (List.length octets) <= 2 ^ 29 ->
   paging_elem_of (s_tmsi (mmec0 :: mmec) octets) = None).
Proof.
  intros Hall. split; intros Hlen; unfold paging_elem_of;
    cbn [lookup list_lookup mbind option_bind].
  - pose proof (m_tmsi_loop_spec octets [] Hlen Hall) as H.
    cbn [app List.length] in H. change (big_endian []) with 0 in H.
    rewrite Z.mul_0_l in H. change (Z.of_nat 0) with 0 in H.
    by rewrite H.
  - destruct octets as [|b rest]; [cbn in Hlen; lia|].
    cbn [m_tmsi_loop List.length].
    cbn [List.length] in Hlen.
    rewrite (u32_small (_ - 0)) by lia.
    rewrite (u32_small (_ - 0 - 1)) by lia.
    rewrite (u32_small (8 * _)) by lia.
    destruct (Z.leb_spec 32 (8 * (Z.of_nat (S (List.length rest)) - 0 - 1)));
      [done|lia].
Qed.

Lemma s_tmsi_record_witness :
  paging_elem_of (s_tmsi [0x1a] [0x12; 0x34; 0x56; 0x78]) =
    Some ({| ue_id := rec_s_tmsi 0x1a 0x12345678; cn_domain := ps |}, []).
Proof.
  apply (s_tmsi_record 0x1a [] [0x12; 0x34; 0x56; 0x78]).
  - repeat constructor; lia.
  - cbn. lia.
Defined.

(** ** The loop over the pending identities *)

Section ContainerFacts.

Variable MAX_PAGE_REC : Z.
Variable items_of : gmap Z ue_paging_id_c -> list (Z * ue_paging_id_c).
Hypothesis items_of_entries : forall m, items_of m ≡ₚ map_to_list m.

Lemma ueid_of_nonneg key : 0 <= ueid_of key < 1024.
Proof. unfold ueid_of. apply Z.mod_pos_bound. lia. Qed.

Lemma ueid_of_small key : 0 <= key < 1024 -> ueid_of key = key.
Proof.
  intros H. unfold ueid_of. rewrite u32_small by lia.
  apply Z.mod_small. lia.
Qed.

Lemma page_loop_spec T Nb tti items : forall st,
  pcch_cfg_valid T Nb ->
  Forall (fun it => id_well_formed (snd it)) items ->
  let pg := take (Z.to_nat (MAX_PAGE_REC - n st))
                 (List.filter (fun it => is_due T Nb tti (ueid_of (fst it)))
                              items) in
  exists st' recs,
    page_loop MAX_PAGE_REC T Nb tti items st = Some st' /\
    n st' = n st + Z.of_nat (List.length pg) /\
    ue_to_remove st' = ue_to_remove st ++ map (fun it => ueid_of (fst it)) pg /\
    paging_record_list st' = paging_record_list st ++ recs /\
    Forall2 (fun it r => record_of (snd it) = Some r) pg recs /\
    existsb is_sf_error (page_log st') = existsb is_sf_error (page_log st).
Proof.
  induction items as [|[key u] items IH]; intros st Hcfg Hwf pg.
  { exists st, []. subst pg. cbn [List.filter]. rewrite take_nil. cbn.
    rewrite !app_nil_r. repeat split; try done; try lia; try constructor. }
  apply Forall_cons in Hwf as [Hu Hwf]. cbn [snd] in Hu.
  cbn [page_loop].
  destruct (Z.leb_spec MAX_PAGE_REC (n st)) as [Hfull|Hroom].
  { exists st, []. subst pg.
    replace (Z.to_nat (MAX_PAGE_REC - n st)) with 0%nat by lia.
    rewrite firstn_O. cbn. rewrite !app_nil_r. repeat split; try done; try lia; try constructor. }
  destruct (pcch_cfg_cases T Nb Hcfg) as ((HN1 & _) & _).
  destruct (Z.eqb_spec (N_of T Nb) 0) as [|_]; [lia|].
  pose proof (ueid_of_nonneg key) as Hid.
  pose proof (sf_idx_valid T Nb (ueid_of key) Hcfg (proj1 Hid)) as Hsf.
  subst pg. cbn [List.filter fst].
  destruct (is_due T Nb tti (ueid_of key)) eqn:Hdue; unfold is_due in Hdue.
  2: { destruct (in_paging_frame T Nb (ueid_of key) tti); cbn [negb andb];
         [|exact (IH st Hcfg Hwf)].
       destruct (Z.ltb_spec (sf_idx_of T Nb (ueid_of key)) 0) as [Hneg|_].
       { exfalso. set (sf := sf_idx_of _ _ _) in *. cbn [In] in Hsf. lia. }
       cbn [negb andb] in Hdue. rewrite Hdue. exact (IH st Hcfg Hwf). }
  apply andb_true_iff in Hdue as [Hdue Heq].
  apply andb_true_iff in Hdue as [Hframe Hpos].
  rewrite Hframe. cbn [negb]. apply negb_true_iff in Hpos. rewrite Hpos, Heq.
  destruct (paging_elem_defined u Hu) as [[elem printed] He]. rewrite He.
  set (st1 := {| n := n st + 1;
                 paging_record_list := paging_record_list st ++ [elem];
                 ue_to_remove := ue_to_remove st ++ [ueid_of key];
                 page_log := page_log st ++ printed ++
                             [info_assembled_paging (ueid_of key) tti] |}).
  destruct (IH st1 Hcfg Hwf) as (st' & recs & E & Hn & Hr & Hl & Hf & Hlog).
  exists st', (elem :: recs).
  replace (Z.to_nat (MAX_PAGE_REC - n st))
    with (S (Z.to_nat (MAX_PAGE_REC - n st1))) by (cbn [st1 n]; lia).
  rewrite firstn_cons. cbn [List.length map fst].
  split; [done|]. split; [rewrite Hn; cbn [st1 n]; lia|].
  split; [rewrite Hr; cbn [st1 ue_to_remove]; by rewrite <- app_assoc|].
  split; [rewrite Hl; cbn [st1 paging_record_list]; by rewrite <- app_assoc|].
  split.
  { constructor; [|done]. unfold record_of. cbn [snd]. by rewrite He. }
  rewrite Hlog. cbn [st1 page_log]. rewrite !existsb_app. cbn.
  rewrite !orb_false_r.
  destruct u as [octets|mmec octets].
  - cbn in He. injection He as <- <-. cbn. by rewrite orb_false_r.
  - unfold paging_elem_of in He.
    destruct (mmec !! 0%nat); [|done]. cbn in He.
    destruct (m_tmsi_loop _ _ _ _); [|done]. cbn in He.
    injection He as <- <-. cbn. by rewrite orb_false_r.
Qed.

Lemma fold_delete_lookup (ks : list Z) : forall (m : gmap Z ue_paging_id_c) k,
  fold_left (fun m i => delete i m) ks m !! k =
    if decide (k ∈ ks) then None else m !! k.
Proof.
  induction ks as [|k0 ks IH]; intros m k; cbn [fold_left].
  { rewrite decide_False; [done|]. apply not_elem_of_nil. }
  rewrite IH. destruct (decide (k ∈ ks)) as [Hin|Hnin].
  - rewrite decide_True; [done|]. by right.
  - destruct (decide (k = k0)) as [->|Hne].
    + rewrite decide_True by left. apply lookup_delete_eq.
    + rewrite decide_False.
      * by apply lookup_delete_ne.
      * intros [?|?]%elem_of_cons; done.
Qed.

Lemma paged_items_elem T Nb tti items it :
  it ∈ paged_items MAX_PAGE_REC T Nb tti items ->
  it ∈ items /\ is_due T Nb tti (ueid_of (fst it)) = true.
Proof.
  unfold paged_items. intros (i & Hi & _)%elem_of_take.
  apply list_elem_of_lookup_2, list_elem_of_In, filter_In in Hi as [Hin Hd].
  split; [by apply list_elem_of_In|done].
Qed.

Lemma items_of_lookup m k u : (k, u) ∈ items_of m <-> m !! k = Some u.
Proof. rewrite (items_of_entries m). apply elem_of_map_to_list. Qed.

Lemma items_of_empty : items_of ∅ = [].
Proof.
  apply Permutation_nil_r. rewrite (items_of_entries ∅).
  by rewrite map_to_list_empty.
Qed.

Lemma record_of_ps u r : record_of u = Some r -> cn_domain r = ps.
Proof.
  unfold record_of, paging_elem_of. destruct u as [octets|mmec octets].
  - cbn. by intros [= <-].
  - destruct (mmec !! 0%nat); [|done]. cbn.
    destruct (m_tmsi_loop _ _ _ _); [|done]. cbn. by intros [= <-].
Qed.

(** What one call of is_paging_opportunity does, in terms of the entries
    it visits. *)
Lemma is_paging_opportunity_spec T Nb pending tti :
  pcch_cfg_valid T Nb -> ids_well_formed pending -> 0 <= MAX_PAGE_REC ->
  let pg := paged_items MAX_PAGE_REC T Nb tti (items_of pending) in
  exists r,
    is_paging_opportunity MAX_PAGE_REC items_of T Nb pending tti = Some r /\
    Forall2 (fun it rec => record_of (snd it) = Some rec) pg (pcch_records r) /\
    ret r = negb (Nat.eqb (List.length pg) 0) /\
    (forall k, pending_after r !! k =
               if decide (k ∈ map (fun it => ueid_of (fst it)) pg)
               then None else pending !! k) /\
    existsb is_sf_error (result_log r) = false.
Proof.
  intros Hcfg Hwf Hmax pg. unfold is_paging_opportunity.
  destruct (decide (pending = ∅)) as [->|Hne].
  { eexists. split; [reflexivity|]. subst pg. rewrite items_of_empty.
    unfold paged_items. cbn [List.filter]. rewrite take_nil. cbn.
    repeat split; try done; try constructor. }
  destruct (pcch_cfg_cases T Nb Hcfg) as ((HN1 & HN2) & _).
  destruct (Z.eqb_spec T 0) as [|_]; [lia|].
  set (st0 := {| n := 0; paging_record_list := [];
                 ue_to_remove := []; page_log := [] |}).
  destruct (page_loop_spec T Nb tti (items_of pending) st0 Hcfg)
    as (st' & recs & E & Hn & Hr & Hl & Hf & Hlog).
  { apply Forall_forall. intros [k u] Hin. cbn.
    apply items_of_lookup in Hin. by apply (Hwf k u). }
  cbn [st0 n ue_to_remove paging_record_list page_log app] in *.
  rewrite Z.sub_0_r in *. fold (paged_items MAX_PAGE_REC T Nb tti (items_of pending)) in *.
  fold pg in Hn, Hr, Hf.
  rewrite E. cbn [mbind option_bind]. rewrite Hl, Hr.
  pose proof (Forall2_length _ _ _ Hf) as Hlen.
  destruct recs as [|rec recs].
  - destruct pg; [|done]. cbn. eexists. split; [reflexivity|].
    cbn. repeat split; try done; try constructor.
  - destruct pg as [|it pg']; [done|]. cbn [List.length Nat.ltb Nat.leb].
    eexists. split; [reflexivity|].
    cbn [pcch_records ret pending_after result_log].
    split; [done|]. split; [done|]. split.
    + intros k. apply fold_delete_lookup.
    + rewrite existsb_app, Hlog. done.
Qed.

(** With a paging cycle and an [nB] of SIB2 and well-formed identities,
    is_paging_opportunity is defined and assembles a record for each of
    the first [MAX_PAGE_REC] pending identities, in the order visited,
    that are due at [tti], and for no other; every record is for the
    packet-switched domain.  It returns true exactly when a pending
    identity is due (given room for at least one record), which happens
    only in subframes 0, 4, 5 and 9, and it never reports a subframe
    pattern as not applicable. *)
Theorem paging_records T Nb pending tti :
  pcch_cfg_valid T Nb -> ids_well_formed pending -> 1 <= MAX_PAGE_REC ->
  exists r,
    is_paging_opportunity MAX_PAGE_REC items_of T Nb pending tti = Some r /\
    Forall2 (fun it rec => record_of (snd it) = Some rec)
            (paged_items MAX_PAGE_REC T Nb tti (items_of pending))
            (pcch_records r) /\
    Z.of_nat (List.length (pcch_records r)) <= MAX_PAGE_REC /\
    Forall (fun rec => cn_domain rec = ps) (pcch_records r) /\
    (ret r = true <->
     exists k u, pending !! k = Some u /\
                 is_due T Nb tti (ueid_of k) = true) /\
    (ret r = true -> In (tti mod 10) [0; 4; 5; 9]) /\
    existsb is_sf_error (result_log r) = false.
Proof.
  intros Hcfg Hwf Hmax.
  destruct (is_paging_opportunity_spec T Nb pending tti Hcfg Hwf)
    as (r & E & Hf & Hret & _ & Hlog); [lia|].
  set (pg := paged_items MAX_PAGE_REC T Nb tti (items_of pending)) in *.
  assert (Hdue : ret r = true <->
            exists k u, pending !! k = Some u /\
                        is_due T Nb tti (ueid_of k) = true).
  { rewrite Hret. split.
    - destruct pg as [|[k u] pg'] eqn:Epg; [done|]. intros _.
      assert ((k, u) ∈ pg) as Hin by (rewrite Epg; left).
      apply paged_items_elem in Hin as [Hin Hd].
      exists k, u. split; [by apply items_of_lookup|done].
    - intros (k & u & Hk & Hd). apply items_of_lookup in Hk.
      assert (In (k, u) (List.filter
                (fun it => is_due T Nb tti (ueid_of (fst it)))
                (items_of pending))) as Hin.
      { apply filter_In. split; [by apply list_elem_of_In|done]. }
      subst pg. unfold paged_items.
      destruct (List.filter _ _) as [|it l]; [destruct Hin|].
      replace (Z.to_nat MAX_PAGE_REC)
        with (S (Z.to_nat (MAX_PAGE_REC - 1))) by lia.
      done. }
  exists r. split; [done|]. split; [done|]. split.
  { rewrite <- (Forall2_length _ _ _ Hf). subst pg. unfold paged_items.
    pose proof (firstn_le_length (Z.to_nat MAX_PAGE_REC)
      (List.filter (fun it => is_due T Nb tti (ueid_of (fst it)))
                   (items_of pending))). lia. }
  split.
  { clear -Hf. induction Hf as [|it rec pg' recs H _ IH]; constructor; [|done].
    by apply (record_of_ps (snd it)). }
  split; [done|]. split; [|done].
  intros (k & u & _ & Hd)%Hdue.
  pose proof (ueid_of_nonneg k) as Hk.
  apply (is_due_iff T Nb tti (ueid_of k) Hcfg (proj1 Hk)) in Hd as [_ ->].
  apply sf_idx_valid; [done|lia].
Qed.

(** When every pending identity is kept under its UE identity index value
    (a key below 1024), the identities paged are exactly those removed
    from the pending ones: each was pending and due at [tti], and all
    others stay as they were.  If no more than [MAX_PAGE_REC] identities
    are due, then after the call an identity is pending if and only if it
    was pending and not due. *)
Theorem paging_removes_paged T Nb pending tti :
  pcch_cfg_valid T Nb -> ids_well_formed pending -> keys_small pending ->
  0 <= MAX_PAGE_REC ->
  let paged := map fst (paged_items MAX_PAGE_REC T Nb tti (items_of pending)) in
  exists r,
    is_paging_opportunity MAX_PAGE_REC items_of T Nb pending tti = Some r /\
    (forall k, pending_after r !! k =
               if decide (k ∈ paged) then None else pending !! k) /\
    (forall k, k ∈ paged ->
               is_Some (pending !! k) /\ is_due T Nb tti k = true) /\
    (Z.of_nat (List.length
       (List.filter (fun it => is_due T Nb tti (ueid_of (fst it)))
                    (items_of pending))) <= MAX_PAGE_REC ->
     forall k, pending_after r !! k =
               if is_due T Nb tti k then None else pending !! k).
Proof.
  intros Hcfg Hwf Hkeys Hmax paged.
  destruct (is_paging_opportunity_spec T Nb pending tti Hcfg Hwf Hmax)
    as (r & E & _ & _ & Hafter & _).
  set (pg := paged_items MAX_PAGE_REC T Nb tti (items_of pending)) in *.
  assert (Hsame : map (fun it => ueid_of (fst it)) pg = paged).
  { subst paged. apply map_ext_in. intros [k u] Hin.
    apply list_elem_of_In, paged_items_elem in Hin as [Hin _].
    apply items_of_lookup, Hkeys in Hin. by apply ueid_of_small. }
  rewrite Hsame in Hafter.
  assert (Hpaged : forall k, k ∈ paged ->
            is_Some (pending !! k) /\ is_due T Nb tti k = true).
  { intros k ([k' u] & -> & Hin)%list_elem_of_fmap.
    apply paged_items_elem in Hin as [Hin Hd]. cbn [fst] in *.
    apply items_of_lookup in Hin.
    rewrite (ueid_of_small k') in Hd by by apply (Hkeys k' u).
    split; [by exists u|done]. }
  exists r. split; [done|]. split; [done|]. split; [done|].
  intros Hall k. rewrite Hafter.
  destruct (decide (k ∈ paged)) as [Hin|Hnin].
  { by rewrite (proj2 (Hpaged k Hin)). }
  destruct (is_due T Nb tti k) eqn:Hd; [|done].
  destruct (pending !! k) as [u|] eqn:Hk; [|done].
  exfalso. apply Hnin. subst paged pg. unfold paged_items.
  rewrite take_ge by lia.
  apply list_elem_of_fmap. exists (k, u). split; [done|].
  apply list_elem_of_In, filter_In. split.
  - by apply list_elem_of_In, items_of_lookup.
  - cbn [fst]. rewrite ueid_of_small; [done|]. by apply (Hkeys k u).
Qed.

(** An identity kept under a key of 1024 or more is never removed by
    is_paging_opportunity, paged or not: what is erased is the key
    reduced modulo 1024. *)
Theorem paging_large_key_stays T Nb pending tti k :
  pcch_cfg_valid T Nb -> ids_well_formed pending -> 0 <= MAX_PAGE_REC ->
  1024 <= k ->
  exists r,
    is_paging_opportunity MAX_PAGE_REC items_of T Nb pending tti = Some r /\
    pending_after r !! k = pending !! k.
Proof.
  intros Hcfg Hwf Hmax Hk.
  destruct (is_paging_opportunity_spec T Nb pending tti Hcfg Hwf Hmax)
    as (r & E & _ & _ & Hafter & _).
  exists r. split; [done|]. rewrite Hafter.
  rewrite decide_False; [done|].
  intros ([k' u] & -> & _)%list_elem_of_fmap.
  pose proof (ueid_of_nonneg k'). cbn [fst] in Hk. lia.
Qed.

(** A paging request is delivered at the identity's paging occasion and
    then forgotten.  After add_paging_id for an index value that is not
    pending, while at most [MAX_PAGE_REC] identities are pending in all:
    a call of is_paging_opportunity at a [tti] where the identity is due
    returns true with the record of that identity in the message and the
    identity no longer pending; a call at any other [tti] leaves it
    pending. *)
Theorem paging_delivered T Nb pending tti ueid id :
  pcch_cfg_valid T Nb -> ids_well_formed pending -> keys_small pending ->
  id_well_formed id -> 0 <= ueid < 1024 -> pending !! ueid = None ->
  Z.of_nat (size pending) < MAX_PAGE_REC ->
  let added := fst (add_paging_id pending ueid id) in
  exists r,
    is_paging_opportunity MAX_PAGE_REC items_of T Nb added tti = Some r /\
    (is_due T Nb tti ueid = true ->
     ret r = true /\ pending_after r !! ueid = None /\
     exists rec, record_of id = Some rec /\ rec ∈ pcch_records r) /\
    (is_due T Nb tti ueid = false -> pending_after r !! ueid = Some id).
Proof.
  intros Hcfg Hwf Hkeys Hid Hu Hnew Hsize added.
  assert (Eadded : added = <[ueid := id]> pending).
  { subst added. unfold add_paging_id. by rewrite Hnew. }
  assert (Hwf' : ids_well_formed added).
  { rewrite Eadded. intros k u [[-> ->]|[_ Hk]]%lookup_insert_Some; [done|].
    by apply (Hwf k u). }
  destruct (is_paging_opportunity_spec T Nb added tti Hcfg Hwf')
    as (r & E & Hf & Hret & Hafter & _); [lia|].
  set (pg := paged_items MAX_PAGE_REC T Nb tti (items_of added)) in *.
  assert (Hlook : added !! ueid = Some id).
  { rewrite Eadded. apply lookup_insert_eq. }
  assert (Hall : pg = List.filter
            (fun it => is_due T Nb tti (ueid_of (fst it))) (items_of added)).
  { subst pg. unfold paged_items. apply take_ge.
    pose proof (filter_length_le
      (fun it => is_due T Nb tti (ueid_of (fst it))) (items_of added)) as Hle.
    assert (List.length (items_of added) = S (size pending)) as Hlen.
    { rewrite (items_of_entries added), length_map_to_list, Eadded.
      by apply map_size_insert_None. }
    lia. }
  exists r. split; [done|]. split.
  - intros Hd.
    assert (Hin : (ueid, id) ∈ pg).
    { rewrite Hall. apply list_elem_of_In, filter_In. split.
      - by apply list_elem_of_In, items_of_lookup.
      - cbn [fst]. by rewrite ueid_of_small. }
    split.
    { rewrite Hret. destruct pg; [by apply elem_of_nil in Hin|done]. }
    split.
    { rewrite Hafter, decide_True; [done|].
      apply list_elem_of_fmap. exists (ueid, id). split; [|done].
      cbn [fst]. by rewrite ueid_of_small. }
    clear -Hf Hin. induction Hf as [|it rec pg' recs H Hf' IH].
    { by apply elem_of_nil in Hin. }
    apply elem_of_cons in Hin as [<-|Hin].
    + exists rec. split; [done|left].
    + destruct (IH Hin) as (rec' & H1 & H2). exists rec'. split; [done|by right].
  - intros Hd. rewrite Hafter, decide_False; [done|].
    intros ([k u] & Hk & Hin)%list_elem_of_fmap. cbn [fst] in Hk.
    apply paged_items_elem in Hin as [Hin Hdk]. cbn [fst] in Hdk.
    rewrite <- Hk in Hdk. congruence.
Qed.

End ContainerFacts.

(** ** Instances: a cycle of 128 frames with [nB = T/4], identities 5 and
    37 pending, both due in subframe 9 of frame 20 *)

Lemma pending_two_well_formed : ids_well_formed pending_two.
Proof.
  intros k u. unfold pending_two.
  intros [[_ <-]|[_ [[_ <-]|[_ H]]%lookup_insert_Some]]%lookup_insert_Some;
    [cbn; lia|done|done].
Qed.

Lemma pending_two_keys_small : keys_small pending_two.
Proof.
  intros k u. unfold pending_two.
  intros [[<- _]|[_ [[<- _]|[_ H]]%lookup_insert_Some]]%lookup_insert_Some;
    [lia|lia|done].
Qed.

Lemma cfg_128_32_valid : pcch_cfg_valid 128 32.
Proof. split; cbn; tauto. Qed.

Lemma paging_records_witness :
  exists r,
    is_paging_opportunity 16 map_to_list 128 32 pending_two 209 = Some r /\
    Z.of_nat (List.length (pcch_records r)) <= 16 /\
    existsb is_sf_error (result_log r) = false.
Proof.
  destruct (paging_records 16 map_to_list (fun m => reflexivity _)
              128 32 pending_two 209)
    as (r & E & _ & Hlen & _ & _ & _ & Hlog).
  - exact cfg_128_32_valid.
  - exact pending_two_well_formed.
  - lia.
  - exists r. split; [exact E|]. split; [exact Hlen|exact Hlog].
Defined.

Lemma paging_removes_paged_witness :
  exists r,
    is_paging_opportunity 16 map_to_list 128 32 pending_two 209 = Some r /\
    forall k, pending_after r !! k =
      if decide (k ∈ map fst (paged_items 16 128 32 209
                                (map_to_list pending_two)))
      then None else pending_two !! k.
Proof.
  destruct (paging_removes_paged 16 map_to_list (fun m => reflexivity _)
              128 32 pending_two 209)
    as (r & E & Hafter & _).
  - exact cfg_128_32_valid.
  - exact pending_two_well_formed.
  - exact pending_two_keys_small.
  - lia.
  - exists r. split; [exact E|exact Hafter].
Defined.

Lemma paging_large_key_stays_witness :
  exists r,
    is_paging_opportunity 16 map_to_list 128 32
      (<[1029 := imsi [0; 1]]> pending_two) 209 = Some r /\
    pending_after r !! 1029 = (<[1029 := imsi [0; 1]]> pending_two) !! 1029.
Proof.
  apply (paging_large_key_stays 16 map_to_list (fun m => reflexivity _)
           128 32 (<[1029 := imsi [0; 1]]> pending_two) 209 1029).
  - exact cfg_128_32_valid.
  - intros k u [[_ <-]|[_ H]]%lookup_insert_Some; [done|].
    by apply (pending_two_well_formed k u).
  - lia.
  - lia.
Defined.

Lemma paging_delivered_witness :
  exists r,
    is_paging_opportunity 16 map_to_list 128 32
      (fst (add_paging_id pending_two 70 (imsi [7]))) 249 = Some r /\
    (is_due 128 32 249 70 = true ->
     ret r = true /\ pending_after r !! 70 = None /\
     exists rec, record_of (imsi [7]) = Some rec /\ rec ∈ pcch_records r) /\
    (is_due 128 32 249 70 = false -> pending_after r !! 70 = Some (imsi [7])).
Proof.
  apply (paging_delivered 16 map_to_list (fun m => reflexivity _)
           128 32 pending_two 249 70 (imsi [7])).
  - exact cfg_128_32_valid.
  - exact pending_two_well_formed.
  - exact pending_two_keys_small.
  - exact I.
  - lia.
  - reflexivity.
  - vm_compute. reflexivity.
Defined.

End PagingFacts.

Module RrcUeFacts.
Import RrcUe.

Lemma sent_dcch_app t1 t2 : sent_dcch (t1 ++ t2) = sent_dcch t1 ++ sent_dcch t2.
Proof. apply omap_app. Qed.

Lemma sent_ccch_app t1 t2 : sent_ccch (t1 ++ t2) = sent_ccch t1 ++ sent_ccch t2.
Proof. apply omap_app. Qed.

Lemma gtpu_bearers_app t1 t2 :
  gtpu_bearers (t1 ++ t2) = gtpu_bearers t1 ++ gtpu_bearers t2.
Proof. apply omap_app. Qed.

Lemma erab_setup_responses_app t1 t2 :
  erab_setup_responses (t1 ++ t2) =
  erab_setup_responses t1 ++ erab_setup_responses t2.
Proof. apply omap_app. Qed.

Lemma radio_bearers_app t1 t2 :
  radio_bearers (t1 ++ t2) = radio_bearers t1 ++ radio_bearers t2.
Proof. apply List.filter_app. Qed.

Lemma timer_sets_app t1 t2 : timer_sets (t1 ++ t2) = timer_sets t1 ++ timer_sets t2.
Proof. apply omap_app. Qed.

Lemma last_cons_change {A} (l : list A) : forall a d,
  List.last (a :: l) d = List.last l a.
Proof.
  induction l as [|x l IH]; intros a d; [done|].
  change (List.last (a :: x :: l) d) with (List.last (x :: l) d).
  by rewrite !IH.
Qed.

Lemma set_erabs_same u : set_erabs u (erabs u) = u.
Proof. by destruct u. Qed.

Section ParentFacts.

Variable w : Z.
Variable erab_key : Z -> Z.
Variable default_erab : erab_t.
Variable MAX_NOF_QCI : Z.
Variable pool_empty : list ue_event_t -> bool.
Variable pack_fails : dl_dcch_msg_s -> bool.
Variable has_bearer : list ue_event_t -> Z -> Z -> bool.
Variable s1ap_user_exists : list ue_event_t -> Z -> bool.
Variable cfg : ue_cfg_t.

(** The key type of [erabs] holds every 8-bit id. *)
Hypothesis erab_key_small : forall k, 0 <= k < 256 -> erab_key k = k.

(** ** Setting up E-RABs *)

Lemma setup_erabs_loop_ok e : forall u tr,
  Forall item_accepted e ->
  exists u' t,
    setup_erabs_loop erab_key e u tr true = (true, u', tr ++ t) /\
    rnti u' = rnti u /\ state u' = state u /\
    transaction_id u' = transaction_id u /\
    erabs u' =
      fold_left (fun es it => <[item_erab_id it := erab_of_item it]> es)
                e (erabs u) /\
    nas_pending u' = (match e with [] => nas_pending u | _ => true end) /\
    erab_info u' = List.last (map item_nas_pdu e) (erab_info u) /\
    gtpu_bearers t = map (gtpu_bearer_of_item (rnti u)) e /\
    sent_dcch t = [] /\ radio_bearers t = [] /\ erab_setup_responses t = [].
Proof.
  induction e as [|it e IH]; intros u tr Hok.
  { exists u, []. cbn. by rewrite app_nil_r. }
  apply Forall_cons in Hok as [(Hid & Hlen) Hok].
  cbn [setup_erabs_loop].
  destruct (Z.ltb_spec 32 (item_address_length it)) as [|_]; [lia|].
  cbn [orb]. unfold setup_erab.
  destruct (Z.ltb_spec 32 (item_address_length it)) as [|_]; [lia|].
  rewrite (u8_small (item_erab_id it)) by lia.
  rewrite (u8_small (item_erab_id it - 2)) by lia.
  rewrite erab_key_small by lia.
  match goal with
  | |- context [setup_erabs_loop _ e ?u1 ?tr1 true] =>
      destruct (IH u1 tr1 Hok)
        as (u' & t & E & Hr & Hs & Ht & He & Hn & Hi & Hg & Hd & Hb & Hp)
  end.
  rewrite E. cbn [rnti state transaction_id erabs nas_pending erab_info
                  set_nas set_erabs] in *.
  eexists u', _. split.
  { rewrite <- !app_assoc. reflexivity. }
  split; [done|]. split; [done|]. split; [done|]. split.
  { rewrite He. reflexivity. }
  split.
  { rewrite Hn. by destruct e. }
  split.
  { rewrite Hi. cbn [map]. symmetry. apply last_cons_change. }
  rewrite !gtpu_bearers_app, !sent_dcch_app, !radio_bearers_app,
    !erab_setup_responses_app, Hg, Hd, Hb, Hp.
  destruct (item_ext it), (item_ie_exts_present it); cbn; done.
Qed.

Lemma get_drbid_config_at u tr id en :
  2 <= id < 256 -> erabs u !! id = Some en ->
  get_drbid_config erab_key default_erab MAX_NOF_QCI cfg u tr (id - 4) =
    let qci := u32 (erab_qci en) in
    if MAX_NOF_QCI <=? qci then
      (None, u, tr ++ [ue_log (err_invalid_qci qci id (id - 4))])
    else if negb (configured (qci_cfg cfg qci)) then
      (None, u, tr ++ [ue_log (err_qci_not_configured qci)])
    else
      (Some {| drb_id := u8 (id - 4); lc_ch_id := id - 2;
               eps_bearer_id := id; drb_qci := qci |}, u, tr).
Proof.
  intros Hid Hen. unfold get_drbid_config, erabs_at.
  replace (id - 4 + 2) with (id - 2) by lia.
  rewrite (u32_small (id - 2)) by lia.
  replace (id - 2 + 2) with id by lia.
  rewrite (u32_small id) by lia.
  rewrite erab_key_small, Hen by lia. rewrite set_erabs_same.
  rewrite (u8_small (id - 2)), (u8_small id) by lia. done.
Qed.

Lemma new_bearer_loop_ok e rest : forall st,
  Forall (item_ok MAX_NOF_QCI cfg) e ->
  (forall it, In it e ->
     exists en, erabs (loop_ue st) !! item_erab_id it = Some en /\
                erab_qci en = item_qci it) ->
  exists t,
    new_bearer_loop erab_key default_erab MAX_NOF_QCI cfg (e ++ rest) st =
    new_bearer_loop erab_key default_erab MAX_NOF_QCI cfg rest
      {| loop_ue := loop_ue st;
         loop_trace := loop_trace st ++ t;
         loop_drbs := loop_drbs st ++ map drb_of_item e;
         loop_nas := loop_nas st ++
           (if nas_pending (loop_ue st)
            then replicate (List.length e) (erab_info (loop_ue st))
            else []) |} /\
    radio_bearers t = flat_map (radio_bearers_of_item (rnti (loop_ue st))) e /\
    gtpu_bearers t = [] /\ sent_dcch t = [] /\ erab_setup_responses t = [].
Proof.
  induction e as [|it e IH]; intros st Hok Hen.
  { exists []. cbn. destruct (nas_pending _); rewrite !app_nil_r; by destruct st. }
  apply Forall_cons in Hok as [((Hid & Hlen) & Hq & Hc) Hok].
  unfold qci_usable in Hc. apply andb_true_iff in Hc as [Hmax Hc].
  apply Z.ltb_lt in Hmax.
  destruct (Hen it (or_introl eq_refl)) as (en & Hlook & Hqci).
  cbn [new_bearer_loop app].
  rewrite (u8_small (item_erab_id it)) by lia.
  rewrite (u8_small (item_erab_id it - 2)) by lia.
  replace (item_erab_id it - 2 - 2) with (item_erab_id it - 4) by lia.
  rewrite (get_drbid_config_at _ _ _ en Hid Hlook). cbv zeta.
  rewrite Hqci, (u32_small (item_qci it)) by lia.
  destruct (Z.leb_spec MAX_NOF_QCI (item_qci it)) as [|_]; [lia|].
  rewrite Hc. cbn [negb drb_id drb_qci].
  match goal with
  | |- context [new_bearer_loop _ _ _ _ (e ++ rest) ?st1] =>
      destruct (IH st1 Hok) as (t & E & Hb & Hg & Hd & Hp)
  end.
  { intros it' Hin. apply Hen. by right. }
  cbn [loop_ue loop_trace loop_drbs loop_nas] in E, Hb.
  rewrite E.
  exists (radio_bearers_of_item (rnti (loop_ue st)) it ++
          (if nas_pending (loop_ue st) then [ue_log info_nas_added] else [])
          ++ t).
  split.
  { unfold radio_bearers_of_item.
    destruct (nas_pending (loop_ue st)); rewrite <- !app_assoc;
      cbn [map List.length replicate app]; rewrite ?app_nil_r; reflexivity. }
  rewrite !radio_bearers_app, !gtpu_bearers_app, !sent_dcch_app,
    !erab_setup_responses_app, Hb, Hg, Hd, Hp.
  by destruct (nas_pending (loop_ue st)).
Qed.

Lemma fold_insert_lookup e : forall (es : gmap Z erab_t) it,
  NoDup (map item_erab_id e) -> In it e ->
  fold_left (fun es it => <[item_erab_id it := erab_of_item it]> es) e es
    !! item_erab_id it = Some (erab_of_item it).
Proof.
  induction e as [|it0 e IH]; intros es it Hnd Hin; [destruct Hin|].
  cbn [map] in Hnd. apply NoDup_cons in Hnd as [Hnotin Hnd].
  cbn [fold_left]. destruct Hin as [->|Hin]; [|by apply IH].
  clear IH. revert es. induction e as [|it1 e IH]; intros es.
  { cbn. apply lookup_insert_eq. }
  cbn [fold_left]. cbn [map] in Hnotin, Hnd.
  apply not_elem_of_cons in Hnotin as [Hne Hnotin].
  apply NoDup_cons in Hnd as [_ Hnd].
  rewrite insert_insert_ne by done. by apply IH.
Qed.

Lemma notify_keeps_erabs e : forall (es : gmap Z erab_t),
  (forall it, In it e ->
     2 <= item_erab_id it < 256 /\ is_Some (es !! item_erab_id it)) ->
  fold_left (fun es it => snd (erabs_at erab_key default_erab es
                                        (u8 (item_erab_id it)))) e es = es.
Proof.
  induction e as [|it e IH]; intros es H; [done|].
  cbn [fold_left]. destruct (H it (or_introl eq_refl)) as [Hid [en Hen]].
  unfold erabs_at at 2. rewrite u8_small, erab_key_small, Hen by lia.
  cbn [snd]. apply IH. intros it' Hin. apply H. by right.
Qed.

(** A bearer setup request whose items have ids from 2 up, all
    different, addresses of at most 32 bits and configured QCIs is
    carried out for every item, in the order of the request: the E-RAB is
    recorded, a GTPU bearer is added on logical channel [id - 2], S1AP is
    told the ids, and MAC, RLC and PDCP get a bearer on that same logical
    channel.  The reconfiguration, whose DRB items name logical channel
    [id - 2], EPS bearer [id] and DRB identity [id - 4], carries the
    transaction id of the member, which is then incremented, and one NAS
    PDU per item, each a copy of the NAS PDU of the last item of the
    request.  It is sent exactly when a buffer can be had, either right
    after S1AP was told or when the message is to be sent, and the
    message can be encoded; otherwise an error is logged and nothing is
    sent, while setup_erabs still returns true and all the rest stays
    done. *)
Theorem bearer_setup_configures u tr e :
  Forall (item_ok MAX_NOF_QCI cfg) e ->
  NoDup (map item_erab_id e) ->
  let recfg :=
    rrc_conn_recfg_msg (u8 (transaction_id u mod 4)) []
      (map drb_of_item e)
      (replicate (List.length e)
                 (List.last (map item_nas_pdu e) (erab_info u))) in
  exists u' t1 t2 t3 lcid,
    let told :=
      tr ++ t1 ++ [s1ap_ue_erab_setup_complete (rnti u)
                     (map item_erab_id e)] in
    let has_buffer :=
      negb (pool_empty told) || negb (pool_empty (told ++ t2)) in
    let t := t1 ++ [s1ap_ue_erab_setup_complete (rnti u)
                      (map item_erab_id e)] ++ t2 ++ t3 in
    setup_erabs_bearer w erab_key default_erab MAX_NOF_QCI
      pool_empty pack_fails has_bearer cfg u tr e = (true, u', tr ++ t) /\
    state u' = state u /\
    transaction_id u' = wrap w (transaction_id u + 1) /\
    (forall it, In it e ->
       erabs u' !! item_erab_id it = Some (erab_of_item it)) /\
    gtpu_bearers t = map (gtpu_bearer_of_item (rnti u)) e /\
    erab_setup_responses t = [(rnti u, map item_erab_id e)] /\
    radio_bearers t = flat_map (radio_bearers_of_item (rnti u)) e /\
    sent_dcch t =
      (if has_buffer && negb (pack_fails recfg)
       then [(rnti u, lcid, recfg)] else []) /\
    erab_setup_responses t1 = [] /\
    t3 =
      (if has_buffer then
         if pack_fails recfg then [ue_log err_encode_dl_dcch]
         else [ue_log (log_tx_dcch lcid recfg);
               pdcp_write_sdu (rnti u) lcid recfg]
       else [ue_log err_allocating_pdu]) /\
    (lcid = RB_ID_SRB1 \/ lcid = RB_ID_SRB2).
Proof.
  intros Hok Hnd recfg. unfold setup_erabs_bearer.
  pose proof (proj1 (List.Forall_forall _ _) Hok) as Hok'.
  assert (Hacc : Forall item_accepted e).
  { apply List.Forall_forall. intros it Hin. apply (Hok' it Hin). }
  destruct (setup_erabs_loop_ok e u tr Hacc)
    as (u1 & t1 & E1 & Hr1 & Hs1 & Ht1 & He1 & Hn1 & Hi1 & Hg1 & Hd1 & Hb1 & Hp1).
  rewrite E1. unfold notify_s1ap_ue_erab_setup_response.
  assert (Hlook : forall it, In it e ->
            erabs u1 !! item_erab_id it = Some (erab_of_item it)).
  { intros it Hin. rewrite He1. by apply fold_insert_lookup. }
  assert (Hids : map (fun it => u8 (item_erab_id it)) e = map item_erab_id e).
  { apply map_ext_in. intros it Hin.
    destruct (Hok' it Hin) as ((Hid & _) & _). apply u8_small. lia. }
  rewrite notify_keeps_erabs, set_erabs_same, Hids.
  2: { intros it Hin.
       destruct (Hok' it Hin) as ((Hid & _) & _). split; [done|].
       rewrite (Hlook it Hin). by eexists. }
  unfold send_connection_reconf_new_bearer, TransactionId.next_transaction_id.
  set (u0 := set_transaction_id u1 (wrap w (transaction_id u1 + 1))).
  set (tr2 := (tr ++ t1) ++ [s1ap_ue_erab_setup_complete (rnti u1)
                               (map item_erab_id e)]).
  destruct (new_bearer_loop_ok e []
              {| loop_ue := u0; loop_trace := tr2;
                 loop_drbs := []; loop_nas := [] |} Hok)
    as (t2 & E2 & Hb2 & Hg2 & Hd2 & Hp2).
  { intros it Hin. exists (erab_of_item it). split; [|done].
    cbn [loop_ue u0 erabs set_transaction_id]. by apply Hlook. }
  rewrite app_nil_r in E2.
  cbn [loop_ue loop_trace loop_drbs loop_nas app new_bearer_loop] in E2, Hb2.
  rewrite E2. cbn [loop_drbs loop_nas].
  assert (Hnas : (if nas_pending u0
                  then replicate (List.length e) (erab_info u0) else []) =
                 replicate (List.length e)
                   (List.last (map item_nas_pdu e) (erab_info u))).
  { cbn [u0 nas_pending erab_info set_transaction_id]. rewrite Hn1, Hi1.
    destruct e as [|it0 e0]; [|done]. cbn. by destruct (nas_pending u). }
  rewrite Hnas, Ht1. fold recfg.
  assert (Etr2 : tr2 = tr ++ t1 ++ [s1ap_ue_erab_setup_complete (rnti u)
                                      (map item_erab_id e)]).
  { subst tr2. by rewrite Hr1, <- app_assoc. }
  set (lcid := if has_bearer (tr2 ++ t2) (rnti u0) RB_ID_SRB2 &&
                  rrc_state_eqb (state u0) RRC_STATE_REGISTERED
               then RB_ID_SRB2 else RB_ID_SRB1).
  exists u0, t1, t2,
    (if negb (pool_empty tr2) || negb (pool_empty (tr2 ++ t2)) then
       if pack_fails recfg then [ue_log err_encode_dl_dcch]
       else [ue_log (log_tx_dcch lcid recfg);
             pdcp_write_sdu (rnti u) lcid recfg]
     else [ue_log err_allocating_pdu]), lcid.
  cbv zeta. rewrite <- Etr2.
  assert (Esend :
    send_dl_dcch pool_empty pack_fails has_bearer u0 (tr2 ++ t2) recfg
                 (negb (pool_empty tr2)) =
    tr ++ t1 ++ [s1ap_ue_erab_setup_complete (rnti u) (map item_erab_id e)] ++
    t2 ++
    (if negb (pool_empty tr2) || negb (pool_empty (tr2 ++ t2)) then
       if pack_fails recfg then [ue_log err_encode_dl_dcch]
       else [ue_log (log_tx_dcch lcid recfg);
             pdcp_write_sdu (rnti u) lcid recfg]
     else [ue_log err_allocating_pdu])).
  { unfold send_dl_dcch. fold lcid.
    replace (rnti u0) with (rnti u) by (cbn [u0 rnti set_transaction_id]; done).
    rewrite Etr2, <- !app_assoc.
    destruct (negb (pool_empty _) || negb (pool_empty _));
      [destruct (pack_fails recfg)|]; reflexivity. }
  rewrite Esend. split; [reflexivity|].
  cbn [u0 state transaction_id set_transaction_id erabs rnti].
  rewrite Hs1, ?Ht1, ?Hr1 in *.
  split; [done|]. split; [done|]. split; [done|].
  rewrite !gtpu_bearers_app, !erab_setup_responses_app, !radio_bearers_app,
    !sent_dcch_app, Hg1, Hd1, Hb1, Hp1, Hg2, Hd2, Hb2, Hp2.
  assert (Hl : lcid = RB_ID_SRB1 \/ lcid = RB_ID_SRB2).
  { subst lcid. destruct (_ && _); [by right|by left]. }
  clearbody lcid.
  destruct (negb (pool_empty tr2) || negb (pool_empty (tr2 ++ t2)));
    [destruct (pack_fails recfg)|]; cbn; rewrite ?app_nil_r, ?Hr1; done.
Qed.

(** When the QCI of an item of a bearer setup request is out of range or
    not configured, no reconfiguration is sent, yet setup_erabs returns
    true and everything done before the check stays: every E-RAB of the
    request is recorded and has its GTPU bearer, S1AP has been told that
    all of them are set up, MAC, RLC and PDCP have the bearers of the
    items before the failing one, and a transaction id is used up. *)
Theorem bearer_setup_unusable_qci u tr e1 bad e2 :
  Forall item_accepted (e1 ++ bad :: e2) ->
  NoDup (map item_erab_id (e1 ++ bad :: e2)) ->
  Forall (fun it => 0 <= item_qci it < 2 ^ 32) (e1 ++ bad :: e2) ->
  Forall (fun it => qci_usable MAX_NOF_QCI cfg it = true) e1 ->
  qci_usable MAX_NOF_QCI cfg bad = false ->
  exists u' t,
    setup_erabs_bearer w erab_key default_erab MAX_NOF_QCI
      pool_empty pack_fails has_bearer cfg u tr (e1 ++ bad :: e2) =
      (true, u', tr ++ t) /\
    sent_dcch t = [] /\
    transaction_id u' = wrap w (transaction_id u + 1) /\
    (forall it, In it (e1 ++ bad :: e2) ->
       erabs u' !! item_erab_id it = Some (erab_of_item it)) /\
    gtpu_bearers t = map (gtpu_bearer_of_item (rnti u)) (e1 ++ bad :: e2) /\
    erab_setup_responses t =
      [(rnti u, map item_erab_id (e1 ++ bad :: e2))] /\
    radio_bearers t = flat_map (radio_bearers_of_item (rnti u)) e1.
Proof.
  intros Hacc Hnd Hq Hus Hbad. unfold setup_erabs_bearer.
  set (e := e1 ++ bad :: e2) in *.
  pose proof (proj1 (List.Forall_forall _ _) Hacc) as Hacc'.
  pose proof (proj1 (List.Forall_forall _ _) Hq) as Hq'.
  pose proof (proj1 (List.Forall_forall _ _) Hus) as Hus'.
  destruct (setup_erabs_loop_ok e u tr Hacc)
    as (u1 & t1 & E1 & Hr1 & Hs1 & Ht1 & He1 & Hn1 & Hi1 & Hg1 & Hd1 & Hb1 & Hp1).
  rewrite E1. unfold notify_s1ap_ue_erab_setup_response.
  assert (Hlook : forall it, In it e ->
            erabs u1 !! item_erab_id it = Some (erab_of_item it)).
  { intros it Hin. rewrite He1. by apply fold_insert_lookup. }
  assert (Hids : map (fun it => u8 (item_erab_id it)) e = map item_erab_id e).
  { apply map_ext_in. intros it Hin.
    destruct (Hacc' it Hin) as (Hid & _). apply u8_small. lia. }
  rewrite notify_keeps_erabs, set_erabs_same, Hids.
  2: { intros it Hin. destruct (Hacc' it Hin) as (Hid & _). split; [done|].
       rewrite (Hlook it Hin). by eexists. }
  unfold send_connection_reconf_new_bearer, TransactionId.next_transaction_id.
  set (u0 := set_transaction_id u1 (wrap w (transaction_id u1 + 1))).
  set (tr2 := (tr ++ t1) ++ [s1ap_ue_erab_setup_complete (rnti u1)
                               (map item_erab_id e)]).
  assert (Hin1 : forall it, In it e1 -> In it e).
  { intros it Hin. subst e. apply in_or_app. by left. }
  assert (Hinb : In bad e).
  { subst e. apply in_or_app. right. by left. }
  destruct (new_bearer_loop_ok e1 (bad :: e2)
              {| loop_ue := u0; loop_trace := tr2;
                 loop_drbs := []; loop_nas := [] |})
    as (t2 & E2 & Hb2 & Hg2 & Hd2 & Hp2).
  { apply List.Forall_forall. intros it Hin.
    split; [by apply Hacc', Hin1|]. split; [by apply Hq', Hin1|by apply Hus']. }
  { intros it Hin. exists (erab_of_item it). split; [|done].
    cbn [loop_ue u0 erabs set_transaction_id]. by apply Hlook, Hin1. }
  fold e in E2. rewrite E2. clear E2.
  cbn [new_bearer_loop loop_ue loop_trace].
  destruct (Hacc' bad Hinb) as (Hid & _).
  rewrite (u8_small (item_erab_id bad)) by lia.
  rewrite (u8_small (item_erab_id bad - 2)) by lia.
  replace (item_erab_id bad - 2 - 2) with (item_erab_id bad - 4) by lia.
  rewrite (get_drbid_config_at u0 _ _ (erab_of_item bad) Hid)
    by (cbn [u0 erabs set_transaction_id]; by apply Hlook).
  cbv zeta. cbn [erab_qci erab_of_item].
  rewrite (u32_small (item_qci bad)) by by apply Hq'.
  assert (Hnone : exists l,
    (if MAX_NOF_QCI <=? item_qci bad
     then (None, u0, (tr2 ++ t2) ++
             [ue_log (err_invalid_qci (item_qci bad) (item_erab_id bad)
                                      (item_erab_id bad - 4))])
     else if negb (configured (qci_cfg cfg (item_qci bad)))
          then (None, u0, (tr2 ++ t2) ++
                  [ue_log (err_qci_not_configured (item_qci bad))])
          else (Some {| drb_id := u8 (item_erab_id bad - 4);
                        lc_ch_id := item_erab_id bad - 2;
                        eps_bearer_id := item_erab_id bad;
                        drb_qci := item_qci bad |}, u0, tr2 ++ t2)) =
    (None, u0, (tr2 ++ t2) ++ [ue_log l])).
  { unfold qci_usable in Hbad.
    destruct (Z.leb_spec MAX_NOF_QCI (item_qci bad)) as [|Hlt];
      [by eexists|].
    apply Z.ltb_lt in Hlt. rewrite Hlt in Hbad. cbn in Hbad. rewrite Hbad.
    by eexists. }
  destruct Hnone as (l & ->).
  unfold erabs_at. rewrite erab_key_small by lia.
  cbn [u0 erabs set_transaction_id]. rewrite (Hlook bad Hinb).
  fold u0. change (erabs u1) with (erabs u0). rewrite set_erabs_same.
  subst tr2. rewrite <- !app_assoc.
  eexists u0, _. split; [reflexivity|].
  cbn [u0 transaction_id set_transaction_id erabs rnti].
  rewrite Ht1, ?Hr1.
  rewrite !gtpu_bearers_app, !erab_setup_responses_app, !radio_bearers_app,
    !sent_dcch_app, Hg1, Hd1, Hb1, Hp1, Hg2, Hd2, Hb2, Hp2. cbn.
  rewrite ?app_nil_r, ?Hr1. done.
Qed.

Lemma setup_erabs_loop_app e1 e2 always : forall u tr,
  setup_erabs_loop erab_key (e1 ++ e2) u tr always =
  match setup_erabs_loop erab_key e1 u tr always with
  | (true, u1, tr1) => setup_erabs_loop erab_key e2 u1 tr1 always
  | r => r
  end.
Proof.
  induction e1 as [|it e1 IH]; intros u tr; [done|].
  cbn [app setup_erabs_loop].
  destruct (32 <? item_address_length it); [done|].
  destruct (setup_erab _ _ _ _ _ _ _ _ _) as [u1 tr1]. apply IH.
Qed.

(** A bearer setup request is handled up to its first item with a
    transport layer address of more than 32 bits, and no further:
    setup_erabs returns false, the E-RABs before that item stay recorded
    with their GTPU bearers, and neither S1AP nor MAC, RLC, PDCP or the
    UE hear of them. *)
Theorem bearer_setup_stops_at_long_address u tr e1 bad e2 :
  Forall item_accepted e1 ->
  NoDup (map item_erab_id e1) ->
  32 < item_address_length bad ->
  exists u' t,
    setup_erabs_bearer w erab_key default_erab MAX_NOF_QCI
      pool_empty pack_fails has_bearer cfg u tr (e1 ++ bad :: e2) =
      (false, u', tr ++ t) /\
    state u' = state u /\
    transaction_id u' = transaction_id u /\
    (forall it, In it e1 ->
       erabs u' !! item_erab_id it = Some (erab_of_item it)) /\
    erabs u' !! item_erab_id bad =
      fold_left (fun es it => <[item_erab_id it := erab_of_item it]> es)
                e1 (erabs u) !! item_erab_id bad /\
    gtpu_bearers t = map (gtpu_bearer_of_item (rnti u)) e1 /\
    erab_setup_responses t = [] /\
    radio_bearers t = [] /\
    sent_dcch t = [].
Proof.
  intros Hacc Hnd Hlen. unfold setup_erabs_bearer.
  rewrite setup_erabs_loop_app.
  destruct (setup_erabs_loop_ok e1 u tr Hacc)
    as (u1 & t1 & E1 & Hr1 & Hs1 & Ht1 & He1 & Hn1 & Hi1 & Hg1 & Hd1 & Hb1 & Hp1).
  rewrite E1. cbn [setup_erabs_loop].
  destruct (Z.ltb_spec 32 (item_address_length bad)) as [_|]; [|lia].
  rewrite <- !app_assoc.
  eexists u1, _. split; [reflexivity|].
  split; [done|]. split; [done|]. split.
  { intros it Hin. rewrite He1. by apply fold_insert_lookup. }
  split; [by rewrite He1|].
  rewrite !gtpu_bearers_app, !erab_setup_responses_app, !radio_bearers_app,
    !sent_dcch_app, Hg1, Hd1, Hb1, Hp1.
  destruct (item_ext bad), (item_ie_exts_present bad); cbn;
    by rewrite ?app_nil_r.
Qed.

(** ** Security *)

Lemma fold_insert_length (f : nat -> Z) (l : list nat) : forall k : list Z,
  List.length (fold_left (fun k i => <[i := f i]> k) l k) = List.length k.
Proof.
  induction l as [|i l IH]; intros k; [done|].
  cbn. rewrite IH. apply length_insert.
Qed.

Lemma fold_insert_nth (f : nat -> Z) n : forall (k : list Z) j d,
  nth j (fold_left (fun k i => <[i := f i]> k) (seq 0 n) k) d =
    if decide (j < n /\ j < List.length k)%nat then f j else nth j k d.
Proof.
  induction n as [|n IH]; intros k j d.
  { cbn. rewrite decide_False; [done|lia]. }
  rewrite seq_S, fold_left_app. cbn [fold_left Nat.add].
  pose proof (fold_insert_length f (seq 0 n) k) as Hlen.
  set (k' := fold_left _ (seq 0 n) k) in *.
  destruct (decide (j = n)) as [->|Hne].
  - destruct (decide (n < List.length k)%nat) as [Hlt|Hge].
    + rewrite decide_True by lia.
      apply nth_lookup_Some. apply list_lookup_insert_eq. lia.
    + rewrite decide_False by lia.
      rewrite list_insert_ge by lia. subst k'. rewrite IH.
      rewrite decide_False; [done|lia].
  - rewrite !(nth_lookup _ _ d), list_lookup_insert_ne by done.
    rewrite <- !(nth_lookup _ _ d). subst k'. rewrite IH.
    destruct (decide (j < n /\ j < List.length k)%nat);
      [rewrite decide_True by lia|rewrite decide_False by lia]; done.
Qed.

Lemma reverse_key_rev k key :
  List.length k = List.length key -> reverse_key k key = rev key.
Proof.
  intros Hlen. unfold reverse_key.
  apply (nth_ext _ _ 0 0).
  { by rewrite fold_insert_length, length_rev. }
  intros j Hj. rewrite fold_insert_length in Hj.
  rewrite (fold_insert_nth (fun i => nth (List.length key - 1 - i) key 0)).
  rewrite decide_True by lia.
  rewrite rev_nth by lia. f_equal. lia.
Qed.

Lemma security_log_readings (lg : list Security.security_log_t) :
  sent_dcch (map (fun l => ue_log (log_security l)) lg) = [] /\
  security_configs (map (fun l => ue_log (log_security l)) lg) = [] /\
  integrity_enabled (map (fun l => ue_log (log_security l)) lg) = [].
Proof. induction lg; cbn; done. Qed.

Lemma security_configs_app t1 t2 :
  security_configs (t1 ++ t2) = security_configs t1 ++ security_configs t2.
Proof. apply omap_app. Qed.

Lemma integrity_enabled_app t1 t2 :
  integrity_enabled (t1 ++ t2) = integrity_enabled t1 ++ integrity_enabled t2.
Proof. apply omap_app. Qed.

Lemma set_security_key_spec u tr key :
  List.length key = List.length (k_enb u) ->
  let c := default (cipher_algo u)
             (find (Security.eea_acceptable
                      (Security.encryption_algorithms (security_capabilities u)))
                   (Security.eea_preference_list (security_cfg cfg))) in
  let i := default (integ_algo u)
             (find (Security.eia_acceptable
                      (Security.integrity_protection_algorithms
                         (security_capabilities u)))
                   (Security.eia_preference_list (security_cfg cfg))) in
  exists t,
    set_security_key cfg u tr key = (set_security u (rev key) c i, tr ++ t) /\
    sent_dcch t = [] /\
    security_configs t =
      [(rnti u, RB_ID_SRB1, Security.cipher_id c, Security.integ_id i)] /\
    integrity_enabled t = [(rnti u, RB_ID_SRB1)].
Proof.
  intros Hlen c i. subst c i.
  unfold set_security_key, Security.select_security_algorithms.
  destruct (SecurityFacts.cipher_loop_find
              (Security.encryption_algorithms (security_capabilities u))
              (Security.eea_preference_list (security_cfg cfg))
              (cipher_algo u)) as [Hc1 _].
  destruct (SecurityFacts.integ_loop_find
              (Security.integrity_protection_algorithms
                 (security_capabilities u))
              (Security.eia_preference_list (security_cfg cfg))
              (integ_algo u)) as [Hi1 _].
  cbn [Security.cipher_algo Security.integ_algo] in Hc1, Hi1.
  destruct (Security.cipher_loop _ _ _) as [[c cfound] log1].
  destruct (Security.integ_loop _ _ _) as [[i ifound] log2].
  cbn [fst snd] in Hc1, Hi1. rewrite <- Hc1, <- Hi1.
  destruct (negb ifound || negb cfound); cbv beta iota zeta;
    cbn [Security.cipher_algo Security.integ_algo cipher_algo integ_algo
         set_security];
    rewrite reverse_key_rev by done;
    (eexists; split; [reflexivity|]);
    rewrite !sent_dcch_app, !security_configs_app, !integrity_enabled_app;
    match goal with
    | |- context [map _ ?lg] =>
        destruct (security_log_readings lg) as (L1 & L2 & L3)
    end;
    rewrite L1, L2, L3; cbn; done.
Qed.

(** set_security_key does not look at what select_security_algorithms
    returns: PDCP is configured on SRB1 with the first acceptable entry of
    each preference list, and for a list with no acceptable entry with
    the algorithm the user already had, and integrity is enabled there,
    whether or not the selection succeeded.  The key is stored with its
    octets reversed.  The Security Mode Command that follows names those
    same algorithms; it is sent exactly when a buffer can be had and the
    message can be encoded, and otherwise nothing is sent.  So on a user
    that still has EIA0, as constructed, and whose capabilities match no
    configured integrity algorithm, PDCP is configured with EIA0 and the
    command, when sent, names EIA0. *)
Theorem security_mode_command_algorithms u tr key :
  List.length key = List.length (k_enb u) ->
  let enc := find (Security.eea_acceptable
                     (Security.encryption_algorithms (security_capabilities u)))
                  (Security.eea_preference_list (security_cfg cfg)) in
  let int := find (Security.eia_acceptable
                     (Security.integrity_protection_algorithms
                        (security_capabilities u)))
                  (Security.eia_preference_list (security_cfg cfg)) in
  let eea := Security.cipher_id (default (cipher_algo u) enc) in
  let eia := Security.integ_id (default (integ_algo u) int) in
  let cmd := security_mode_cmd_msg (u8 (transaction_id u mod 4)) eea eia in
  let r1 := set_security_key cfg u tr key in
  let r2 := send_security_mode_command w pool_empty pack_fails has_bearer
              (fst r1) (snd r1) in
  exists t lcid,
    snd r2 = tr ++ t /\
    sent_dcch t =
      (if negb (pool_empty (snd r1)) && negb (pack_fails cmd)
       then [(rnti u, lcid, cmd)] else []) /\
    security_configs t = [(rnti u, RB_ID_SRB1, eea, eia)] /\
    integrity_enabled t = [(rnti u, RB_ID_SRB1)] /\
    k_enb (fst r2) = rev key /\
    transaction_id (fst r2) = wrap w (transaction_id u + 1) /\
    (int = None ->
     integ_algo u = Security.INTEGRITY_ALGORITHM_ID_EIA0 -> eia = 0).
Proof.
  intros Hlen enc int eea eia cmd r1 r2. subst r2 r1 cmd.
  destruct (set_security_key_spec u tr key Hlen) as (t1 & E1 & Hd1 & Hs1 & Hi1).
  rewrite E1. cbn [fst snd].
  unfold send_security_mode_command, TransactionId.next_transaction_id.
  unfold send_dl_dcch. cbn [orb fst snd].
  cbn [set_security set_transaction_id rnti k_enb cipher_algo integ_algo
       transaction_id].
  fold enc int. fold eea eia.
  destruct (pool_empty (tr ++ t1)); cbn [negb andb];
    [|destruct (pack_fails _)]; cbn [negb andb];
    rewrite <- app_assoc;
    eexists _, (if has_bearer (tr ++ t1) (rnti u) RB_ID_SRB2 &&
                   rrc_state_eqb (state u) RRC_STATE_REGISTERED
                then RB_ID_SRB2 else RB_ID_SRB1);
    (split; [reflexivity|]);
    rewrite sent_dcch_app, security_configs_app, integrity_enabled_app,
      Hd1, Hs1, Hi1; cbn;
    (repeat split; try done);
    intros Hnone Hu; subst eia; by rewrite Hnone, Hu.
Qed.

(** ** The reply to a security mode complete *)

(** On a security mode complete the user always goes on to wait for a
    reconfiguration complete, with the transaction id back at 0 and then
    used once.  MAC, RLC and PDCP get SRB2 and DRB1 exactly when the
    E-RAB with id 5 (the default entry if none was set up) has a QCI in
    range and configured.  The reconfiguration, with transaction id 0,
    SRB2 and DRB1 on logical channel 3 for EPS bearer 5, is sent exactly
    when that QCI is usable and the message can be encoded: when the
    encoding fails the bearers stay configured and nothing is sent. *)
Theorem security_mode_complete_reply u tr :
  let r := parse_ul_dcch w erab_key default_erab MAX_NOF_QCI pool_empty
             pack_fails has_bearer cfg u tr ul_security_mode_complete in
  let qci := u32 (erab_qci (default default_erab (erabs u !! 5))) in
  let usable := (qci <? MAX_NOF_QCI) && configured (qci_cfg cfg qci) in
  let recfg :=
    rrc_conn_recfg_msg 0 [2]
      [{| drb_id := 1; lc_ch_id := 3; eps_bearer_id := 5; drb_qci := qci |}]
      (if nas_pending u then [erab_info u] else []) in
  state (fst r) = RRC_STATE_WAIT_FOR_CON_RECONF_COMPLETE /\
  transaction_id (fst r) = wrap w 1 /\
  exists t lcid,
    snd r = tr ++ t /\
    (lcid = RB_ID_SRB1 \/ lcid = RB_ID_SRB2) /\
    sent_dcch t =
      (if usable && negb (pack_fails recfg)
       then [(rnti u, lcid, recfg)] else []) /\
    radio_bearers t =
      (if usable then
         [mac_bearer_ue_cfg (rnti u) 2; mac_bearer_ue_cfg (rnti u) 3;
          rlc_add_bearer (rnti u) 2; pdcp_add_bearer (rnti u) 2 2 false;
          rlc_add_bearer (rnti u) 3;
          pdcp_add_bearer (rnti u) 3 1 (pdcp_sn_len7 (qci_cfg cfg qci))]
       else []).
Proof.
  intros r qci usable recfg. subst r recfg.
  unfold parse_ul_dcch, notify_s1ap_ue_ctxt_setup_complete,
    send_connection_reconf, TransactionId.next_transaction_id,
    get_drbid_config, set_activity.
  change (u32 (1 + 2)) with 3. change (u32 (3 + 2)) with 5.
  unfold erabs_at. rewrite (erab_key_small 5) by lia.
  cbn [erabs set_transaction_id].
  assert (Hq : qci = u32 (erab_qci (default default_erab (erabs u !! 5))))
    by done.
  assert (Hus : usable = (qci <? MAX_NOF_QCI) && configured (qci_cfg cfg qci))
    by done.
  clearbody usable. clearbody qci. rewrite Hus. clear Hus.
  destruct (erabs u !! 5) as [e5|] eqn:E5;
    unfold default, from_option, id in Hq;
    rewrite <- Hq; clear Hq;
    destruct (Z.leb_spec MAX_NOF_QCI qci) as [Hge|Hlt].
  all: try (rewrite (proj2 (Z.ltb_ge _ _)) by lia).
  all: try (rewrite (proj2 (Z.ltb_lt _ _)) by lia).
  all: cbn [andb]; try destruct (configured (qci_cfg cfg qci)); cbn [negb andb].
  all: do 2 (cbn [erabs set_erabs set_transaction_id];
             rewrite ?E5, ?lookup_insert_eq).
  all: unfold send_dl_dcch; cbn [orb fst snd].
  all: cbn [state transaction_id set_state set_transaction_id set_erabs rnti
            nas_pending erab_info drb_qci cipher_algo integ_algo].
  all: change (u8 (0 mod 4)) with 0; change (u8 1) with 1;
       change (u8 3) with 3; change (u8 5) with 5.
  all: try match goal with
           | |- context [if pack_fails ?m then _ else _] =>
               destruct (pack_fails m)
           end; cbn [negb andb].
  all: (split; [done|]); (split; [done|]).
  all: rewrite <- ?app_assoc.
  all: destruct (nas_pending u).
  all: first
    [ by (eexists _, RB_ID_SRB1; split; [reflexivity|]; split; [by left|])
    | eexists _, (if has_bearer _ (rnti u) RB_ID_SRB2 &&
                     rrc_state_eqb (state u) RRC_STATE_REGISTERED
                  then RB_ID_SRB2 else RB_ID_SRB1);
      (split; [reflexivity|]);
      (split; [destruct (_ && _); [by right|by left]|]);
      cbn; done ].
Qed.

(** ** State and activity timer *)

Variable pucch_cfg : Pucch.rrc_cfg_t.
Variable sr_period cqi_period : Z.
Variable cqi_mode_aperiodic : bool.
Variable is_mme_connected : list ue_event_t -> bool.

Lemma timer_kept_matches u u' :
  timer_kept u u' -> timer_matches_state cfg u -> timer_matches_state cfg u'.
Proof.
  intros [Hd Hs] (H1 & H2 & H3). unfold timer_matches_state. rewrite Hd.
  destruct Hs as [->|[Hn1 Hn2]]; [done|].
  split; [done|]. split; done.
Qed.

Lemma timer_kept_refl u : timer_kept u u.
Proof. split; [done|by left]. Qed.

Lemma timer_kept_same u u' :
  activity_timer_duration u' = activity_timer_duration u ->
  state u' = state u -> timer_kept u u'.
Proof. intros Hd Hs. split; [done|by left]. Qed.

Lemma get_drbid_config_keeps u tr d :
  let r := get_drbid_config erab_key default_erab MAX_NOF_QCI cfg u tr d in
  state (snd (fst r)) = state u /\
  activity_timer_duration (snd (fst r)) = activity_timer_duration u.
Proof.
  unfold get_drbid_config, erabs_at.
  destruct (erabs u !! _); cbn;
    destruct (MAX_NOF_QCI <=? _); cbn; try done;
    destruct (configured _); cbn; done.
Qed.

Lemma setup_erab_keeps u tr id qci al an teid nas :
  let r := setup_erab erab_key u tr id qci al an teid nas in
  state (fst r) = state u /\
  activity_timer_duration (fst r) = activity_timer_duration u.
Proof.
  unfold setup_erab. destruct (32 <? al); [done|]. by destruct nas.
Qed.

Lemma setup_erabs_loop_keeps e always : forall u tr,
  let r := setup_erabs_loop erab_key e u tr always in
  state (snd (fst r)) = state u /\
  activity_timer_duration (snd (fst r)) = activity_timer_duration u.
Proof.
  induction e as [|it e IH]; intros u tr; [done|].
  cbn [setup_erabs_loop]. destruct (32 <? item_address_length it); [done|].
  match goal with
  | |- context [setup_erab _ ?u0 ?t0 ?a ?b ?c ?d ?e0 ?n] =>
      pose proof (setup_erab_keeps u0 t0 a b c d e0 n) as [Hs Hd];
      destruct (setup_erab erab_key u0 t0 a b c d e0 n) as [u1 tr1]
  end.
  cbn [fst] in Hs, Hd. cbv zeta in IH |- *.
  destruct (IH u1 tr1) as [Hs' Hd']. rewrite Hs', Hd'. done.
Qed.

Lemma new_bearer_loop_keeps e : forall st,
  let r := new_bearer_loop erab_key default_erab MAX_NOF_QCI cfg e st in
  state (snd (fst r)) = state (loop_ue st) /\
  activity_timer_duration (snd (fst r)) =
    activity_timer_duration (loop_ue st).
Proof.
  induction e as [|it e IH]; intros st; [done|].
  cbn [new_bearer_loop].
  match goal with
  | |- context [get_drbid_config _ _ _ _ ?u0 ?t0 ?d] =>
      pose proof (get_drbid_config_keeps u0 t0 d) as [Hs Hd];
      destruct (get_drbid_config erab_key default_erab MAX_NOF_QCI cfg u0 t0 d)
        as [[[drb|] u1] tr1]
  end; cbn [fst snd] in Hs, Hd.
  - cbv zeta in IH |- *.
    match goal with
    | |- context [new_bearer_loop _ _ _ _ e ?st1] =>
        destruct (IH st1) as [Hs' Hd']
    end.
    cbn [loop_ue] in Hs', Hd'. rewrite Hs', Hd'. done.
  - cbv zeta. unfold erabs_at. destruct (erabs u1 !! _); cbn; done.
Qed.

Lemma send_connection_reconf_new_bearer_keeps u tr e :
  let r := send_connection_reconf_new_bearer w erab_key default_erab
             MAX_NOF_QCI pool_empty pack_fails has_bearer cfg u tr e in
  state (fst r) = state u /\
  activity_timer_duration (fst r) = activity_timer_duration u.
Proof.
  unfold send_connection_reconf_new_bearer, TransactionId.next_transaction_id.
  match goal with
  | |- context [new_bearer_loop _ _ _ _ e ?st0] =>
      pose proof (new_bearer_loop_keeps e st0) as [Hs Hd];
      destruct (new_bearer_loop erab_key default_erab MAX_NOF_QCI cfg e st0)
        as [[[st|] u1] tr1]
  end; cbn [fst snd loop_ue] in Hs, Hd; cbn; done.
Qed.

Lemma setup_erabs_bearer_keeps u tr e :
  let r := setup_erabs_bearer w erab_key default_erab MAX_NOF_QCI
             pool_empty pack_fails has_bearer cfg u tr e in
  state (snd (fst r)) = state u /\
  activity_timer_duration (snd (fst r)) = activity_timer_duration u.
Proof.
  unfold setup_erabs_bearer.
  pose proof (setup_erabs_loop_keeps e true u tr) as [Hs Hd].
  destruct (setup_erabs_loop erab_key e u tr true) as [[[|] u1] tr1];
    cbn [fst snd] in Hs, Hd; [|done].
  unfold notify_s1ap_ue_erab_setup_response.
  match goal with
  | |- context [send_connection_reconf_new_bearer _ _ _ _ _ _ _ _ ?u2 ?t2 e] =>
      pose proof (send_connection_reconf_new_bearer_keeps u2 t2 e) as [Hs' Hd'];
      destruct (send_connection_reconf_new_bearer w erab_key default_erab
                  MAX_NOF_QCI pool_empty pack_fails has_bearer cfg u2 t2 e)
        as [u3 tr3]
  end.
  cbn [fst snd state activity_timer_duration set_erabs] in *.
  rewrite Hs', Hd'. done.
Qed.

Lemma send_connection_reconf_kept u tr :
  let r := send_connection_reconf w erab_key default_erab MAX_NOF_QCI
             pool_empty pack_fails has_bearer cfg u tr in
  timer_kept u (fst r).
Proof.
  unfold send_connection_reconf, TransactionId.next_transaction_id.
  match goal with
  | |- context [get_drbid_config _ _ _ _ ?u0 ?t0 ?d] =>
      pose proof (get_drbid_config_keeps u0 t0 d) as [Hs Hd];
      destruct (get_drbid_config erab_key default_erab MAX_NOF_QCI cfg u0 t0 d)
        as [[[drb|] u1] tr1]
  end; cbn [fst snd state activity_timer_duration set_transaction_id] in Hs, Hd.
  - cbv zeta. cbn [fst state activity_timer_duration set_state].
    split; [done|]. right. done.
  - cbv zeta. unfold erabs_at. destruct (erabs u1 !! _);
      cbn [fst state activity_timer_duration set_erabs];
      by apply timer_kept_same.
Qed.

Lemma handle_ue_cap_info_loop_keeps rats first : forall u tr,
  let r := handle_ue_cap_info_loop rats first u tr in
  state (snd (fst r)) = state u /\
  activity_timer_duration (snd (fst r)) = activity_timer_duration u.
Proof.
  induction rats as [|is_eutra rats IH]; intros u tr; [done|].
  cbn [handle_ue_cap_info_loop].
  destruct is_eutra; cbn [negb]; [|apply IH].
  destruct first; cbn [negb]; [|done].
  cbv zeta in IH |- *.
  destruct (IH (set_eutra_capabilities_unpacked u)
               (tr ++ [ue_log info_ue_category])) as [Hs Hd].
  rewrite Hs, Hd. done.
Qed.

Lemma set_activity_timeout_spec u tr type :
  let r := set_activity_timeout cfg u tr type in
  state (fst r) = state u /\
  activity_timer_duration (fst r) =
    match type with
    | MSG3_RX_TIMEOUT => u32 ((max_harq_msg3_tx cfg + 1) * 16)
    | UE_RESPONSE_RX_TIMEOUT => 1000
    | UE_INACTIVITY_TIMEOUT => inactivity_timeout_ms cfg
    | timeout_nulltype => 0
    end /\
  exists t,
    snd r = tr ++ t /\
    timer_sets t = [activity_timer_duration (fst r)].
Proof.
  unfold set_activity_timeout, set_activity.
  destruct type; cbn [fst snd state activity_timer_duration set_timer_duration].
  - split; [done|]. split; [lia|].
    eexists. rewrite <- !app_assoc. split; [reflexivity|]. done.
  - split; [done|]. split; [done|].
    eexists. rewrite <- !app_assoc. split; [reflexivity|]. done.
  - pose proof (Z.div_mod (inactivity_timeout_ms cfg) 1000).
    split; [done|]. split; [lia|].
    eexists. rewrite <- !app_assoc. split; [reflexivity|]. done.
  - split; [done|]. split; [done|].
    eexists. rewrite <- !app_assoc. split; [reflexivity|]. done.
Qed.

Lemma parse_ul_dcch_kept u tr m :
  m <> ul_rrc_conn_recfg_complete ->
  timer_kept u (fst (parse_ul_dcch w erab_key default_erab MAX_NOF_QCI
                       pool_empty pack_fails has_bearer cfg u tr m)).
Proof.
  intros Hm. unfold parse_ul_dcch.
  destruct m as [|nas|nas| | | |rats first| |]; try done.
  - apply timer_kept_refl.
  - unfold handle_rrc_con_setup_complete. cbn [fst].
    split; [done|]. by right.
  - by apply timer_kept_same.
  - unfold notify_s1ap_ue_ctxt_setup_complete.
    match goal with
    | |- context [send_connection_reconf _ _ _ _ _ _ _ _ ?u0 ?t0] =>
        pose proof (send_connection_reconf_kept u0 t0) as [Hd _];
        destruct (send_connection_reconf w erab_key default_erab MAX_NOF_QCI
                    pool_empty pack_fails has_bearer cfg u0 t0) as [u1 tr1]
    end.
    cbn [fst] in Hd |- *. split; [done|]. by right.
  - by apply timer_kept_same.
  - unfold handle_ue_cap_info.
    match goal with
    | |- context [handle_ue_cap_info_loop rats first ?u0 ?t0] =>
        pose proof (handle_ue_cap_info_loop_keeps rats first u0 t0) as [Hs Hd];
        destruct (handle_ue_cap_info_loop rats first u0 t0) as [[[|] u1] tr1]
    end; cbn [fst snd] in Hs, Hd.
    + pose proof (send_connection_reconf_kept u1 tr1) as [Hd' _].
      destruct (send_connection_reconf w erab_key default_erab MAX_NOF_QCI
                  pool_empty pack_fails has_bearer cfg u1 tr1) as [u2 tr2].
      cbn [fst] in Hd' |- *. split; [|by right]. cbn. by rewrite Hd', Hd.
    + cbn [fst]. split; [|by right]. cbn. by rewrite Hd.
  - by apply timer_kept_same.
  - by apply timer_kept_same.
Qed.

Lemma parse_ul_dcch_registers u tr :
  let r := parse_ul_dcch w erab_key default_erab MAX_NOF_QCI pool_empty
             pack_fails has_bearer cfg u tr ul_rrc_conn_recfg_complete in
  state (fst r) = RRC_STATE_REGISTERED /\
  activity_timer_duration (fst r) = inactivity_timeout_ms cfg /\
  transaction_id (fst r) = 0.
Proof.
  unfold parse_ul_dcch.
  match goal with
  | |- context [set_activity_timeout _ ?u0 ?t0 ?ty] =>
      destruct (set_activity_timeout_spec u0 t0 ty) as (Hs & Hd & _)
  end.
  cbv zeta. rewrite Hs, Hd. split; [done|]. split; [done|].
  unfold set_activity_timeout. done.
Qed.

Lemma parse_ul_dcch_timer u tr m :
  let r := parse_ul_dcch w erab_key default_erab MAX_NOF_QCI pool_empty
             pack_fails has_bearer cfg u tr m in
  timer_matches_state cfg u -> timer_matches_state cfg (fst r).
Proof.
  intros r Hinv. subst r.
  assert (m = ul_rrc_conn_recfg_complete \/ m <> ul_rrc_conn_recfg_complete)
    as [->|Hm] by (destruct m; (by left) || (by right)).
  - destruct (parse_ul_dcch_registers u tr) as (Hs & Hd & _).
    unfold timer_matches_state. rewrite Hs, Hd.
    split; [done|]. split; [done|]. by right; right.
  - apply (timer_kept_matches u); [by apply parse_ul_dcch_kept|done].
Qed.

Lemma send_connection_setup_keeps c tr is_setup :
  let r := send_connection_setup w pool_empty pucch_cfg sr_period cqi_period
             cqi_mode_aperiodic c tr is_setup in
  state (conn_ue (fst r)) = state (conn_ue c) /\
  activity_timer_duration (conn_ue (fst r)) =
    activity_timer_duration (conn_ue c).
Proof.
  unfold send_connection_setup, TransactionId.next_transaction_id.
  destruct is_setup; [|done].
  destruct (Pucch.sr_allocate _ _ _ _ _) as [[[[I n|] g] h] l]; [|done].
  destruct cqi_mode_aperiodic; [done|].
  by destruct (Pucch.cqi_allocate _ _ _ _ _) as [[[[I2 n2|] g2] h2] l2].
Qed.

Lemma ue_step_timer st op :
  timer_matches_state cfg (conn_ue (fst st)) ->
  timer_matches_state cfg
    (conn_ue (fst (ue_step w erab_key default_erab MAX_NOF_QCI pool_empty
                     pack_fails has_bearer s1ap_user_exists cfg pucch_cfg
                     sr_period cqi_period cqi_mode_aperiodic
                     is_mme_connected st op))).
Proof.
  destruct st as [c tr]. cbn [fst]. intros Hinv.
  destruct op as [s_tmsi|m| | | |key| |e|e|]; cbn [ue_step].
  - unfold handle_rrc_con_req.
    match goal with
    | |- context [send_connection_setup _ _ _ _ _ _ ?c0 ?t0 true] =>
        pose proof (send_connection_setup_keeps c0 t0 true) as [Hs Hd];
        destruct (send_connection_setup w pool_empty pucch_cfg sr_period
                    cqi_period cqi_mode_aperiodic c0 t0 true) as [c2 tr2]
    end.
    match goal with
    | |- context [set_activity_timeout _ ?u0 ?t0 ?ty] =>
        destruct (set_activity_timeout_spec u0 t0 ty) as (Hs' & Hd' & _);
        destruct (set_activity_timeout cfg u0 t0 ty) as [u3 tr3]
    end.
    cbn [fst conn_ue state set_state] in *.
    unfold timer_matches_state. rewrite Hs', Hd'.
    split; [done|]. split; [done|]. right. by left.
  - pose proof (parse_ul_dcch_timer (conn_ue c) tr m Hinv) as H.
    destruct (parse_ul_dcch _ _ _ _ _ _ _ _ _ _ _) as [u' tr']. done.
  - done.
  - unfold activity_timer_expired. cbn [fst conn_ue with_ue].
    apply (timer_kept_matches (conn_ue c)); [|done]. split; [done|]. by right.
  - cbn [fst conn_ue with_ue]. apply (timer_kept_matches (conn_ue c)); [|done].
    by apply timer_kept_same.
  - unfold set_security_key.
    destruct (Security.select_security_algorithms _ _ _) as [[b sec] slog].
    cbn [fst conn_ue with_ue]. apply (timer_kept_matches (conn_ue c)); [|done].
    by apply timer_kept_same.
  - unfold send_security_mode_command, TransactionId.next_transaction_id.
    cbn [fst conn_ue with_ue]. apply (timer_kept_matches (conn_ue c)); [|done].
    by apply timer_kept_same.
  - unfold setup_erabs_ctxt.
    pose proof (setup_erabs_loop_keeps e false (conn_ue c) tr) as [Hs Hd].
    destruct (setup_erabs_loop erab_key e (conn_ue c) tr false)
      as [[b u'] tr'].
    cbn [fst snd conn_ue with_ue] in *.
    apply (timer_kept_matches (conn_ue c)); [|done]. by apply timer_kept_same.
  - pose proof (setup_erabs_bearer_keeps (conn_ue c) tr e) as [Hs Hd].
    destruct (setup_erabs_bearer _ _ _ _ _ _ _ _ _ _ _) as [[b u'] tr'].
    cbn [fst snd conn_ue with_ue] in *.
    apply (timer_kept_matches (conn_ue c)); [|done]. by apply timer_kept_same.
  - unfold send_connection_release, TransactionId.next_transaction_id.
    cbn [fst conn_ue with_ue]. apply (timer_kept_matches (conn_ue c)); [|done].
    by apply timer_kept_same.
Qed.

Lemma ue_step_registered st op :
  state (conn_ue (fst (ue_step w erab_key default_erab MAX_NOF_QCI pool_empty
                         pack_fails has_bearer s1ap_user_exists cfg pucch_cfg
                         sr_period cqi_period cqi_mode_aperiodic
                         is_mme_connected st op))) = RRC_STATE_REGISTERED ->
  state (conn_ue (fst st)) = RRC_STATE_REGISTERED \/
  op = op_parse_ul_dcch ul_rrc_conn_recfg_complete.
Proof.
  destruct st as [c tr]. cbn [fst].
  destruct op as [s_tmsi|m| | | |key| |e|e|]; cbn [ue_step].
  - unfold handle_rrc_con_req.
    destruct (send_connection_setup _ _ _ _ _ _ _ _ _) as [c2 tr2].
    match goal with
    | |- context [set_activity_timeout _ ?u0 ?t0 ?ty] =>
        destruct (set_activity_timeout_spec u0 t0 ty) as (Hs' & _);
        destruct (set_activity_timeout cfg u0 t0 ty) as [u3 tr3]
    end.
    cbn [fst conn_ue state set_state] in *. rewrite Hs'. done.
  - assert (m = ul_rrc_conn_recfg_complete \/ m <> ul_rrc_conn_recfg_complete)
      as [->|Hm] by (destruct m; (by left) || (by right)); [by right|].
    pose proof (parse_ul_dcch_kept (conn_ue c) tr m Hm) as [_ Hs].
    destruct (parse_ul_dcch _ _ _ _ _ _ _ _ _ _ _) as [u' tr'].
    cbn [fst conn_ue with_ue] in *. intros H. left.
    destruct Hs as [<-|[_ Hn]]; done.
  - by left.
  - unfold activity_timer_expired. cbn [fst conn_ue with_ue]. done.
  - cbn [fst conn_ue with_ue]. by left.
  - unfold set_security_key.
    destruct (Security.select_security_algorithms _ _ _) as [[b sec] slog].
    cbn [fst conn_ue with_ue]. by left.
  - unfold send_security_mode_command, TransactionId.next_transaction_id.
    cbn [fst conn_ue with_ue]. by left.
  - unfold setup_erabs_ctxt.
    pose proof (setup_erabs_loop_keeps e false (conn_ue c) tr) as [Hs Hd].
    destruct (setup_erabs_loop erab_key e (conn_ue c) tr false)
      as [[b u'] tr'].
    cbn [fst snd conn_ue with_ue] in *. rewrite Hs. by left.
  - pose proof (setup_erabs_bearer_keeps (conn_ue c) tr e) as [Hs Hd].
    destruct (setup_erabs_bearer _ _ _ _ _ _ _ _ _ _ _) as [[b u'] tr'].
    cbn [fst snd conn_ue with_ue] in *. rewrite Hs. by left.
  - unfold send_connection_release, TransactionId.next_transaction_id.
    cbn [fst conn_ue with_ue]. by left.
Qed.

(** Whatever is called on a user after its construction, and in whatever
    order: while it waits for the connection setup to complete its
    activity timer is set to one second; while it is registered the timer
    is set to the configured inactivity time, and it is registered only
    if a reconfiguration complete was received; and the timer is never
    set to anything but the Msg3 time [(max_harq_msg3_tx + 1) * 16], one
    second, or the inactivity time. *)
Theorem timer_follows_state rnti_ caps sr_sched cqi_sched ops :
  let st := ue_run w erab_key default_erab MAX_NOF_QCI pool_empty
              pack_fails has_bearer s1ap_user_exists cfg pucch_cfg
              sr_period cqi_period cqi_mode_aperiodic is_mme_connected
              (new_conn cfg rnti_ caps sr_sched cqi_sched) ops in
  timer_matches_state cfg (conn_ue (fst st)) /\
  (state (conn_ue (fst st)) = RRC_STATE_REGISTERED ->
   In (op_parse_ul_dcch ul_rrc_conn_recfg_complete) ops).
Proof.
  induction ops as [|op ops IH] using rev_ind; intros st; subst st.
  - cbn [ue_run fold_left]. unfold new_conn, ue_ctor.
    match goal with
    | |- context [set_activity_timeout _ ?u0 ?t0 ?ty] =>
        destruct (set_activity_timeout_spec u0 t0 ty) as (Hs & Hd & _);
        destruct (set_activity_timeout cfg u0 t0 ty) as [u1 tr1]
    end.
    cbn [fst conn_ue state] in *. unfold timer_matches_state.
    rewrite Hs, Hd. split; [|done]. split; [done|]. split; [done|]. by left.
  - unfold ue_run in *. rewrite fold_left_app. cbn [fold_left].
    cbv zeta in IH. destruct IH as [Hinv Hreg]. split.
    + by apply ue_step_timer.
    + intros H. apply in_or_app.
      apply ue_step_registered in H as [H| ->]; [left; by apply Hreg|].
      right. by left.
Qed.

(** ** Connection request *)

Lemma pucch_logs_sent l : sent_ccch (pucch_logs l) = [].
Proof. induction l; cbn; done. Qed.

Lemma set_activity_timeout_trace u tr type :
  let r := set_activity_timeout cfg u tr type in
  transaction_id (fst r) = transaction_id u /\
  exists t, snd r = tr ++ t /\ sent_ccch t = [].
Proof.
  unfold set_activity_timeout, set_activity.
  destruct type; cbn [fst snd transaction_id set_timer_duration];
    (split; [done|]); eexists; rewrite <- !app_assoc;
    (split; [reflexivity|]); done.
Qed.

Lemma send_dl_ccch_spec u tr m :
  send_dl_ccch pool_empty u tr m =
  tr ++ (if pool_empty tr then [ue_log err_allocating_pdu]
         else [ue_log (log_tx_ccch m); rlc_write_sdu (rnti u) RB_ID_SRB0 m]).
Proof. unfold send_dl_ccch. by destruct (pool_empty tr). Qed.

Lemma send_connection_setup_spec c tr :
  let sr := Pucch.sr_allocate (Pucch.cell pucch_cfg) (Pucch.sr_cfg pucch_cfg)
              (conn_sr_sched c) (conn_sr c) sr_period in
  let cq := Pucch.cqi_allocate (Pucch.cell pucch_cfg)
              (Pucch.cqi_cfg pucch_cfg) (conn_cqi_sched c) (conn_cqi c)
              cqi_period in
  let id := u8 (transaction_id (conn_ue c) mod 4) in
  let setup :=
    match fst (fst (fst sr)) with
    | Pucch.ret_error => None
    | Pucch.ret_ok I_sr N_pucch_sr =>
        if cqi_mode_aperiodic
        then Some (rrc_conn_setup_msg id I_sr N_pucch_sr None)
        else
          match fst (fst (fst cq)) with
          | Pucch.ret_error => None
          | Pucch.ret_ok pmi_idx n_pucch =>
              Some (rrc_conn_setup_msg id I_sr N_pucch_sr
                                       (Some (pmi_idx, n_pucch)))
          end
    end in
  let r := send_connection_setup w pool_empty pucch_cfg sr_period cqi_period
             cqi_mode_aperiodic c tr true in
  conn_ue (fst r) =
    set_transaction_id (conn_ue c) (wrap w (transaction_id (conn_ue c) + 1)) /\
  conn_sr_sched (fst r) = snd (fst (fst sr)) /\
  conn_sr (fst r) = snd (fst sr) /\
  exists t1,
    sent_ccch t1 = [] /\
    snd r = tr ++ t1 ++
      match setup with
      | None => []
      | Some m =>
          if pool_empty (tr ++ t1) then [ue_log err_allocating_pdu]
          else [ue_log (log_tx_ccch m);
                rlc_write_sdu (rnti (conn_ue c)) RB_ID_SRB0 m]
      end.
Proof.
  intros sr cq id setup r. subst r setup id.
  unfold send_connection_setup, TransactionId.next_transaction_id,
    connection_setup_tail.
  fold sr. fold cq.
  destruct sr as [[[[I n|] g] h] l];
    [destruct cqi_mode_aperiodic;
       [|destruct cq as [[[[I2 n2|] g2] h2] l2]]|];
    cbn [fst snd conn_ue conn_sr conn_cqi conn_sr_sched conn_cqi_sched];
    rewrite ?send_dl_ccch_spec;
    (split; [done|]); (split; [done|]); (split; [done|]).
  - exists (pucch_logs l ++
      [mac_ue_cfg (rnti (conn_ue c)) (Pucch.res_idx h) (Pucch.res_pucch h)
                  (Pucch.res_idx (conn_cqi c)) (Pucch.res_pucch (conn_cqi c));
       rlc_add_bearer (rnti (conn_ue c)) 1;
       pdcp_add_bearer (rnti (conn_ue c)) 1 1 false;
       phy_set_config_dedicated (rnti (conn_ue c));
       mac_set_dl_ant_info (rnti (conn_ue c));
       mac_phy_config_enabled (rnti (conn_ue c)) false]).
    rewrite !sent_ccch_app, pucch_logs_sent.
    split; [done|]. cbn [rnti set_transaction_id conn_ue].
    by rewrite <- !app_assoc.
  - exists (pucch_logs l ++ pucch_logs l2 ++
      [mac_ue_cfg (rnti (conn_ue c)) (Pucch.res_idx h) (Pucch.res_pucch h)
                  (Pucch.res_idx h2) (Pucch.res_pucch h2);
       rlc_add_bearer (rnti (conn_ue c)) 1;
       pdcp_add_bearer (rnti (conn_ue c)) 1 1 false;
       phy_set_config_dedicated (rnti (conn_ue c));
       mac_set_dl_ant_info (rnti (conn_ue c));
       mac_phy_config_enabled (rnti (conn_ue c)) false]).
    rewrite !sent_ccch_app, !pucch_logs_sent.
    split; [done|]. cbn [rnti set_transaction_id conn_ue].
    by rewrite <- !app_assoc.
  - eexists (pucch_logs l ++ pucch_logs l2 ++ [ue_log err_allocating_cqi]).
    rewrite !sent_ccch_app, !pucch_logs_sent.
    split; [done|]. by rewrite <- !app_assoc, app_nil_r.
  - eexists (pucch_logs l ++ [ue_log err_allocating_sr]).
    rewrite !sent_ccch_app, !pucch_logs_sent.
    split; [done|]. by rewrite <- !app_assoc, app_nil_r.
Qed.

(** A connection request always leaves the user waiting for the setup to
    complete, with the activity timer at one second and a transaction id
    used up.  When the MME is not connected a connection reject is sent,
    if a buffer can be had, and the setup goes on all the same.  The
    connection setup is sent exactly when the SR allocation succeeds,
    with periodic CQI the CQI allocation succeeds as well, and a buffer
    can be had when the message is to be sent; it carries the indices and
    PUCCH resources the allocators returned.  The SR grid is left as the
    SR allocator left it: when the CQI allocation fails no setup is sent
    but the user stays counted in its SR slot. *)
Theorem connection_request_outcome c tr s_tmsi :
  let sr := Pucch.sr_allocate (Pucch.cell pucch_cfg) (Pucch.sr_cfg pucch_cfg)
              (conn_sr_sched c) (conn_sr c) sr_period in
  let cq := Pucch.cqi_allocate (Pucch.cell pucch_cfg)
              (Pucch.cqi_cfg pucch_cfg) (conn_cqi_sched c) (conn_cqi c)
              cqi_period in
  let id := u8 (transaction_id (conn_ue c) mod 4) in
  let setup :=
    match fst (fst (fst sr)) with
    | Pucch.ret_error => None
    | Pucch.ret_ok I_sr N_pucch_sr =>
        if cqi_mode_aperiodic
        then Some (rrc_conn_setup_msg id I_sr N_pucch_sr None)
        else
          match fst (fst (fst cq)) with
          | Pucch.ret_error => None
          | Pucch.ret_ok pmi_idx n_pucch =>
              Some (rrc_conn_setup_msg id I_sr N_pucch_sr
                                       (Some (pmi_idx, n_pucch)))
          end
    end in
  let r := handle_rrc_con_req w pool_empty cfg pucch_cfg sr_period cqi_period
             cqi_mode_aperiodic is_mme_connected c tr s_tmsi in
  state (conn_ue (fst r)) = RRC_STATE_WAIT_FOR_CON_SETUP_COMPLETE /\
  activity_timer_duration (conn_ue (fst r)) = 1000 /\
  transaction_id (conn_ue (fst r)) = wrap w (transaction_id (conn_ue c) + 1) /\
  conn_sr_sched (fst r) = snd (fst (fst sr)) /\
  conn_sr (fst r) = snd (fst sr) /\
  exists t1 t2,
    snd r = tr ++ t1 ++ t2 ++
            [timer_set 1000;
             ue_log (dbg_setting_timer UE_RESPONSE_RX_TIMEOUT 1000);
             timer_run; ue_log (dbg_activity_registered 1000)] /\
    sent_ccch t1 =
      (if is_mme_connected tr ||
          pool_empty (tr ++ [ue_log err_mme_not_connected])
       then []
       else [(rnti (conn_ue c), RB_ID_SRB0, rrc_conn_reject_msg)]) /\
    t2 =
      match setup with
      | None => []
      | Some m =>
          if pool_empty (tr ++ t1) then [ue_log err_allocating_pdu]
          else [ue_log (log_tx_ccch m);
                rlc_write_sdu (rnti (conn_ue c)) RB_ID_SRB0 m]
      end.
Proof.
  intros sr cq id setup r. subst r.
  unfold handle_rrc_con_req, send_connection_reject.
  rewrite send_dl_ccch_spec.
  set (t0 := if is_mme_connected tr then []
             else ue_log err_mme_not_connected ::
                  (if pool_empty (tr ++ [ue_log err_mme_not_connected])
                   then [ue_log err_allocating_pdu]
                   else [ue_log (log_tx_ccch rrc_conn_reject_msg);
                         rlc_write_sdu (rnti (conn_ue c)) RB_ID_SRB0
                                       rrc_conn_reject_msg])).
  assert (Ht0 : (if is_mme_connected tr then tr
                 else (tr ++ [ue_log err_mme_not_connected]) ++
                      (if pool_empty (tr ++ [ue_log err_mme_not_connected])
                       then [ue_log err_allocating_pdu]
                       else [ue_log (log_tx_ccch rrc_conn_reject_msg);
                             rlc_write_sdu (rnti (conn_ue c)) RB_ID_SRB0
                                           rrc_conn_reject_msg])) = tr ++ t0).
  { subst t0. destruct (is_mme_connected tr); [by rewrite app_nil_r|].
    by rewrite <- app_assoc. }
  rewrite Ht0. clear Ht0.
  assert (Hs0 : sent_ccch t0 =
                if is_mme_connected tr ||
                   pool_empty (tr ++ [ue_log err_mme_not_connected])
                then []
                else [(rnti (conn_ue c), RB_ID_SRB0, rrc_conn_reject_msg)]).
  { subst t0. destruct (is_mme_connected tr); [done|].
    by destruct (pool_empty _). }
  clearbody t0.
  set (u1 := match s_tmsi with
             | Some (mmec_, m_tmsi_) =>
                 set_tmsi (conn_ue c) (u8 mmec_) (u32 m_tmsi_)
             | None => conn_ue c
             end).
  assert (Hu1 : rnti u1 = rnti (conn_ue c) /\
                transaction_id u1 = transaction_id (conn_ue c)).
  { subst u1. by destruct s_tmsi as [[a b]|]. }
  destruct Hu1 as [Hru Htu]. clearbody u1.
  match goal with
  | |- context [send_connection_setup _ _ _ _ _ _ ?c1 ?tr1 true] =>
      pose proof (send_connection_setup_spec c1 tr1) as Hsetup;
      destruct (send_connection_setup w pool_empty pucch_cfg sr_period
                  cqi_period cqi_mode_aperiodic c1 tr1 true) as [c2 tr2]
  end.
  cbn [fst snd conn_ue conn_sr conn_cqi conn_sr_sched conn_cqi_sched]
    in Hsetup.
  rewrite Htu, Hru in Hsetup. fold sr cq id setup in Hsetup.
  destruct Hsetup as (Hue & Hg & Hh & t1 & Hs1 & Etr2).
  unfold set_activity_timeout, set_activity.
  cbn [fst snd conn_ue conn_sr conn_cqi conn_sr_sched conn_cqi_sched
       state set_state set_timer_duration activity_timer_duration
       transaction_id].
  rewrite Hue. cbn [transaction_id set_transaction_id].
  change (1 * 1000 + 0) with 1000.
  split; [done|]. split; [done|]. split; [done|].
  split; [done|]. split; [done|].
  exists (t0 ++ t1), (match setup with
                      | None => []
                      | Some m =>
                          if pool_empty ((tr ++ t0) ++ t1)
                          then [ue_log err_allocating_pdu]
                          else [ue_log (log_tx_ccch m);
                                rlc_write_sdu (rnti (conn_ue c)) RB_ID_SRB0 m]
                      end).
  rewrite Etr2, sent_ccch_app, Hs0, Hs1, app_nil_r, <- !app_assoc.
  split; [reflexivity|]. split; [done|]. done.
Qed.

(** ** Senders and transaction ids *)

Lemma sent_transaction_ids_app t1 t2 :
  sent_transaction_ids (t1 ++ t2) =
  sent_transaction_ids t1 ++ sent_transaction_ids t2.
Proof. apply omap_app. Qed.

Lemma pucch_logs_ids l : sent_transaction_ids (pucch_logs l) = [].
Proof. induction l; cbn; done. Qed.

Lemma get_drbid_config_ids u tr d :
  let r := get_drbid_config erab_key default_erab MAX_NOF_QCI cfg u tr d in
  transaction_id (snd (fst r)) = transaction_id u /\
  exists t, snd r = tr ++ t /\ sent_transaction_ids t = [].
Proof.
  unfold get_drbid_config, erabs_at.
  destruct (erabs u !! _); cbn [fst snd];
    destruct (MAX_NOF_QCI <=? _); cbn [fst snd negb];
    try destruct (configured _); cbn [fst snd negb];
    (split; [done|]);
    first [ by (eexists; split; [reflexivity|])
          | by (exists []; rewrite app_nil_r) ].
Qed.

Lemma new_bearer_loop_ids e : forall st,
  let r := new_bearer_loop erab_key default_erab MAX_NOF_QCI cfg e st in
  transaction_id (snd (fst r)) = transaction_id (loop_ue st) /\
  exists t, snd r = loop_trace st ++ t /\ sent_transaction_ids t = [].
Proof.
  induction e as [|it e IH]; intros st.
  { cbn. split; [done|]. exists []. by rewrite app_nil_r. }
  cbn [new_bearer_loop].
  match goal with
  | |- context [get_drbid_config _ _ _ _ ?u0 ?t0 ?d] =>
      pose proof (get_drbid_config_ids u0 t0 d) as (Ht & t1 & E1 & H1);
      destruct (get_drbid_config erab_key default_erab MAX_NOF_QCI cfg u0 t0 d)
        as [[[drb|] u1] tr1]
  end; cbn [fst snd] in Ht, E1; subst tr1.
  - cbv zeta in IH |- *.
    match goal with
    | |- context [new_bearer_loop _ _ _ _ e ?st1] =>
        destruct (IH st1) as (Ht' & t2 & E2 & H2)
    end.
    cbn [loop_ue loop_trace] in Ht', E2. rewrite Ht', E2. split; [done|].
    destruct (nas_pending u1); rewrite <- !app_assoc;
      (eexists; split; [reflexivity|]);
      rewrite !sent_transaction_ids_app, H1, H2; done.
  - cbv zeta. unfold erabs_at.
    destruct (erabs u1 !! _); cbn [fst snd transaction_id set_erabs];
      (split; [done|]); rewrite <- !app_assoc;
      (eexists; split; [reflexivity|]);
      rewrite !sent_transaction_ids_app, H1; done.
Qed.

Lemma send_dl_dcch_ids u tr m pdu :
  exists t,
    send_dl_dcch pool_empty pack_fails has_bearer u tr m pdu = tr ++ t /\
    sent_transaction_ids t =
      if (pdu || negb (pool_empty tr)) && negb (pack_fails m)
      then [transaction_id_of m] else [].
Proof.
  unfold send_dl_dcch.
  destruct (pdu || negb (pool_empty tr)); [destruct (pack_fails m)|];
    eexists; (split; [reflexivity|]); done.
Qed.

Lemma send_dl_ccch_ids u tr m id :
  (exists a b o, m = rrc_conn_setup_msg id a b o) \/
  (exists a b o, m = rrc_conn_reest_msg id a b o) ->
  exists t,
    send_dl_ccch pool_empty u tr m = tr ++ t /\
    sent_transaction_ids t = if pool_empty tr then [] else [id].
Proof.
  intros Hm. rewrite send_dl_ccch_spec. eexists. split; [reflexivity|].
  destruct (pool_empty tr); [done|].
  by destruct Hm as [(a & b & o & ->)|(a & b & o & ->)].
Qed.

(** Each sender uses exactly one transaction id and sends at most one
    message, which carries that id: whatever the allocators, the QCI
    configuration, the buffer pool and the encoder do, a run of a sender
    is a run of [TransactionId.send] for one of its ends. *)
Theorem senders_use_one_id s c tr :
  let r := run_sender w erab_key default_erab MAX_NOF_QCI pool_empty
             pack_fails has_bearer cfg pucch_cfg sr_period cqi_period
             cqi_mode_aperiodic s c tr in
  exists e t out,
    snd r = tr ++ t /\
    TransactionId.send w (msg_of_sender s) e (transaction_id (conn_ue c)) =
      (out, transaction_id (conn_ue (fst r))) /\
    sent_transaction_ids t =
      match out with Some (_, id) => [id] | None => [] end.
Proof.
  intros r. subst r.
  assert (Hfin : forall (t : list ue_event_t) tid',
            tid' = wrap w (transaction_id (conn_ue c) + 1) ->
            sent_transaction_ids t = [] \/
            sent_transaction_ids t =
              [u8 (transaction_id (conn_ue c) mod 4)] ->
            exists e t' out,
              tr ++ t = tr ++ t' /\
              TransactionId.send w (msg_of_sender s) e
                (transaction_id (conn_ue c)) = (out, tid') /\
              sent_transaction_ids t' =
                match out with Some (_, id) => [id] | None => [] end).
  { intros t tid' -> [Ht|Ht].
    - exists TransactionId.no_buffer, t, None. by rewrite Ht.
    - exists TransactionId.handed_over, t. eexists.
      split; [done|]. split; [reflexivity|]. by rewrite Ht. }
  assert (Hccch : forall b : bool,
            (if b then [] else [u8 (transaction_id (conn_ue c) mod 4)]) = [] \/
            (if b then [] else [u8 (transaction_id (conn_ue c) mod 4)]) =
              [u8 (transaction_id (conn_ue c) mod 4)]).
  { intros [|]; [by left|by right]. }
  assert (Hdcch : forall (b : bool) m,
            transaction_id_of m = u8 (transaction_id (conn_ue c) mod 4) ->
            (if b then [transaction_id_of m] else []) = [] \/
            (if b then [transaction_id_of m] else []) =
              [u8 (transaction_id (conn_ue c) mod 4)]).
  { intros [|] m Hm; [right; by rewrite Hm|by left]. }
  destruct s; cbn [run_sender].
  - (* connection setup *)
    unfold send_connection_setup, TransactionId.next_transaction_id,
      connection_setup_tail.
    destruct (Pucch.sr_allocate _ _ _ _ _) as [[[[I n|] g] h] l];
      [destruct cqi_mode_aperiodic;
         [|destruct (Pucch.cqi_allocate _ _ _ _ _)
             as [[[[I2 n2|] g2] h2] l2]]|];
      cbn [fst snd conn_ue].
    + match goal with
      | |- context [send_dl_ccch _ ?u0 ?t0 ?m] =>
          destruct (send_dl_ccch_ids u0 t0 m
                      (u8 (transaction_id (conn_ue c) mod 4)))
            as (t & E & Ht); [left; by eexists _, _, _|]
      end.
      rewrite E, <- !app_assoc.
      eapply Hfin; [done|].
      rewrite !sent_transaction_ids_app, pucch_logs_ids, Ht.
      cbn [app sent_transaction_ids omap]. apply Hccch.
    + match goal with
      | |- context [send_dl_ccch _ ?u0 ?t0 ?m] =>
          destruct (send_dl_ccch_ids u0 t0 m
                      (u8 (transaction_id (conn_ue c) mod 4)))
            as (t & E & Ht); [left; by eexists _, _, _|]
      end.
      rewrite E, <- !app_assoc.
      eapply Hfin; [done|].
      rewrite !sent_transaction_ids_app, !pucch_logs_ids, Ht.
      cbn [app sent_transaction_ids omap]. apply Hccch.
    + rewrite <- !app_assoc. eapply Hfin; [done|]. left.
      by rewrite !sent_transaction_ids_app, !pucch_logs_ids.
    + eapply Hfin; [done|]. left.
      by rewrite !sent_transaction_ids_app, !pucch_logs_ids.
  - (* connection reestablishment *)
    unfold send_connection_setup, TransactionId.next_transaction_id,
      connection_setup_tail. cbn [fst snd conn_ue].
    match goal with
    | |- context [send_dl_ccch _ ?u0 ?t0 ?m] =>
        destruct (send_dl_ccch_ids u0 t0 m
                    (u8 (transaction_id (conn_ue c) mod 4)))
          as (t & E & Ht); [right; by eexists _, _, _|]
    end.
    rewrite E, <- !app_assoc.
    eapply Hfin; [done|].
    rewrite !sent_transaction_ids_app, Ht.
    cbn [app sent_transaction_ids omap]. apply Hccch.
  - (* release *)
    unfold send_connection_release, TransactionId.next_transaction_id.
    match goal with
    | |- context [send_dl_dcch _ _ _ ?u0 ?t0 ?m ?p] =>
        destruct (send_dl_dcch_ids u0 t0 m p) as (t & E & Ht)
    end.
    rewrite E. cbn [fst snd conn_ue with_ue].
    eapply Hfin; [done|]. rewrite Ht. by apply Hdcch.
  - (* reconfiguration *)
    unfold send_connection_reconf, TransactionId.next_transaction_id.
    match goal with
    | |- context [get_drbid_config _ _ _ _ ?u0 ?t0 ?d] =>
        pose proof (get_drbid_config_ids u0 t0 d) as (Htid & t1 & E1 & H1);
        destruct (get_drbid_config erab_key default_erab MAX_NOF_QCI cfg
                    u0 t0 d) as [[[drb|] u1] tr1]
    end; cbn [fst snd transaction_id set_transaction_id] in Htid, E1;
      subst tr1.
    + match goal with
      | |- context [send_dl_dcch _ _ _ ?u0 ?t0 ?m ?p] =>
          destruct (send_dl_dcch_ids u0 t0 m p) as (t & E & Ht)
      end.
      rewrite E. cbn [fst snd conn_ue with_ue transaction_id set_state].
      rewrite <- !app_assoc.
      eapply Hfin; [exact Htid|].
      rewrite !sent_transaction_ids_app, H1, Ht. cbn [app].
      rewrite ?app_nil_r. by apply Hdcch.
    + unfold erabs_at.
      destruct (erabs u1 !! _);
        cbn [fst snd conn_ue with_ue transaction_id set_erabs];
        rewrite <- !app_assoc;
        (eapply Hfin; [exact Htid|]); left;
        by rewrite !sent_transaction_ids_app, H1.
  - (* reconfiguration for new bearers *)
    unfold send_connection_reconf_new_bearer,
      TransactionId.next_transaction_id.
    match goal with
    | |- context [new_bearer_loop _ _ _ _ e ?st0] =>
        pose proof (new_bearer_loop_ids e st0) as (Htid & t1 & E1 & H1);
        destruct (new_bearer_loop erab_key default_erab MAX_NOF_QCI cfg
                    e st0) as [[[st|] u1] tr1]
    end; cbn [fst snd loop_ue loop_trace transaction_id set_transaction_id]
           in Htid, E1; subst tr1.
    + match goal with
      | |- context [send_dl_dcch _ _ _ ?u0 ?t0 ?m ?p] =>
          destruct (send_dl_dcch_ids u0 t0 m p) as (t & E & Ht)
      end.
      rewrite E. cbn [fst snd conn_ue with_ue].
      rewrite <- !app_assoc.
      eapply Hfin; [exact Htid|].
      rewrite !sent_transaction_ids_app, H1, Ht. cbn [app].
      by apply Hdcch.
    + cbn [fst snd conn_ue with_ue].
      eapply Hfin; [exact Htid|]. by left.
  - (* security mode command *)
    unfold send_security_mode_command, TransactionId.next_transaction_id.
    match goal with
    | |- context [send_dl_dcch _ _ _ ?u0 ?t0 ?m ?p] =>
        destruct (send_dl_dcch_ids u0 t0 m p) as (t & E & Ht)
    end.
    rewrite E. cbn [fst snd conn_ue with_ue].
    eapply Hfin; [done|]. rewrite Ht. by apply Hdcch.
  - (* capability enquiry *)
    unfold send_ue_cap_enquiry, TransactionId.next_transaction_id.
    match goal with
    | |- context [send_dl_dcch _ _ _ ?u0 ?t0 ?m ?p] =>
        destruct (send_dl_dcch_ids u0 t0 m p) as (t & E & Ht)
    end.
    rewrite E. cbn [fst snd conn_ue with_ue].
    eapply Hfin; [done|]. rewrite Ht. by apply Hdcch.
Qed.

(** ** Radio link failures *)

Variable s1ap_user_release_ok : list ue_event_t -> Z -> bool.

Lemma release_requests_app t1 t2 :
  release_requests (t1 ++ t2) = release_requests t1 ++ release_requests t2.
Proof. apply List.filter_app. Qed.

Lemma process_rl_failures_later n rnti_ : forall u tr,
  1 <= rlf_cnt u -> rlf_cnt u + Z.of_nat n < 2 ^ 32 ->
  exists u' t,
    process_rl_failures s1ap_user_exists s1ap_user_release_ok
      n rnti_ (Some u) tr = (Some u', tr ++ t) /\
    rlf_cnt u' = rlf_cnt u + Z.of_nat n /\
    release_requests t = [].
Proof.
  induction n as [|n IH]; intros u tr Hc Hn.
  { exists u, []. cbn. rewrite app_nil_r, Z.add_0_r. done. }
  cbn [process_rl_failures process_rl_failure rl_failure].
  rewrite (u32_small (rlf_cnt u + 1)) by lia.
  destruct (Z.eqb_spec (rlf_cnt u + 1) 1) as [|_]; [lia|].
  match goal with
  | |- context [process_rl_failures _ _ n rnti_ (Some ?u1) ?tr1] =>
      destruct (IH u1 tr1) as (u' & t & E & Hcnt & Hreq);
        [cbn; lia|cbn; lia|]
  end.
  rewrite E. cbn [rlf_cnt set_rlf_cnt] in Hcnt.
  eexists u', _. rewrite <- app_assoc. split; [reflexivity|].
  split; [lia|]. by rewrite release_requests_app, Hreq.
Qed.

(** Of the radio link failures of a user, only the first asks for its
    release: S1AP is asked to release it when it knows the user, else the
    user is queued for removal.  Every later failure, as long as the
    32-bit count does not wrap, is counted and logged and asks for
    nothing. *)
Theorem radio_link_failure_releases_once n rnti_ u tr :
  0 <= rlf_cnt u -> rlf_cnt u + Z.of_nat n < 2 ^ 32 ->
  exists u' t,
    process_rl_failures s1ap_user_exists s1ap_user_release_ok
      n rnti_ (Some u) tr = (Some u', tr ++ t) /\
    rlf_cnt u' = rlf_cnt u + Z.of_nat n /\
    release_requests t =
      if (rlf_cnt u =? 0) && negb (Nat.eqb n 0) then
        [if s1ap_user_exists (tr ++ [ue_log info_rl_failure_detected]) rnti_
         then s1ap_user_release rnti_ else rem_user_thread rnti_]
      else [].
Proof.
  intros Hc Hn. destruct (Z.eqb_spec (rlf_cnt u) 0) as [H0|Hne].
  2:{ destruct (process_rl_failures_later n rnti_ u tr) as (u' & t & E & ? & ?);
        [lia|lia|]. by exists u', t. }
  destruct n as [|n].
  { exists u, []. cbn. rewrite app_nil_r, Z.add_0_r. done. }
  cbn [process_rl_failures process_rl_failure rl_failure andb negb Nat.eqb].
  rewrite H0. change (u32 (0 + 1)) with 1. change (1 =? 1) with true.
  cbv iota.
  destruct (s1ap_user_exists _ rnti_);
    [destruct (s1ap_user_release_ok _ rnti_); cbn [negb]|];
    match goal with
    | |- context [process_rl_failures _ _ n rnti_ (Some ?u1) ?tr1] =>
        destruct (process_rl_failures_later n rnti_ u1 tr1)
          as (u' & t & E & Hcnt & Hreq);
          [cbn [rlf_cnt set_rlf_cnt]; lia|cbn [rlf_cnt set_rlf_cnt]; lia|]
    end;
    rewrite E; cbn [rlf_cnt set_rlf_cnt] in Hcnt;
    eexists u', _; rewrite <- !app_assoc;
    (split; [reflexivity|]); (split; [lia|]);
    rewrite !release_requests_app, Hreq; done.
Qed.

End ParentFacts.

(** ** Instances: an 8-bit transaction id, ten QCIs of which 7 and 9 are
    configured, a pool that never runs dry and messages that pack *)

Lemma bearer_setup_configures_witness :
  exists u' t lcid,
    setup_erabs_bearer 8 (fun k => k) default_erab_0 10
      (fun _ => false) (fun _ => false) (fun _ _ _ => false) ue_cfg_sample
      rrc_ue_70 [] [erab_item 5 9 [1; 2]; erab_item 6 7 [3]] =
      (true, u', [] ++ t) /\
    sent_dcch t =
      [(70, lcid,
        rrc_conn_recfg_msg 0 []
          [{| drb_id := 1; lc_ch_id := 3; eps_bearer_id := 5; drb_qci := 9 |};
           {| drb_id := 2; lc_ch_id := 4; eps_bearer_id := 6; drb_qci := 7 |}]
          [[3]; [3]])].
Proof.
  destruct (bearer_setup_configures 8 (fun k => k) default_erab_0 10
              (fun _ => false) (fun _ => false) (fun _ _ _ => false)
              ue_cfg_sample (fun k _ => eq_refl) rrc_ue_70 []
              [erab_item 5 9 [1; 2]; erab_item 6 7 [3]])
    as (u' & t1 & t2 & t3 & lcid & H).
  - repeat constructor; cbn; lia.
  - cbn. apply NoDup_cons_2; [|apply NoDup_singleton].
    intros H%list_elem_of_singleton. lia.
  - cbv zeta in H. destruct H as (E & _ & _ & _ & _ & _ & _ & Hsent & _).
    eexists u', _, lcid. split; [exact E|exact Hsent].
Defined.

Lemma bearer_setup_unusable_qci_witness :
  exists u' t,
    setup_erabs_bearer 8 (fun k => k) default_erab_0 10
      (fun _ => false) (fun _ => false) (fun _ _ _ => false) ue_cfg_sample
      rrc_ue_70 [] ([erab_item 5 9 [1]] ++ erab_item 6 8 [2] :: []) =
      (true, u', [] ++ t) /\
    sent_dcch t = [] /\
    erab_setup_responses t = [(70, [5; 6])].
Proof.
  destruct (bearer_setup_unusable_qci 8 (fun k => k) default_erab_0 10
              (fun _ => false) (fun _ => false) (fun _ _ _ => false)
              ue_cfg_sample (fun k _ => eq_refl) rrc_ue_70 []
              [erab_item 5 9 [1]] (erab_item 6 8 [2]) [])
    as (u' & t & E & Hsent & _ & _ & _ & Hresp & _).
  - repeat constructor; cbn; lia.
  - cbn. apply NoDup_cons_2; [|apply NoDup_singleton].
    intros H%list_elem_of_singleton. lia.
  - repeat constructor; cbn; lia.
  - repeat constructor.
  - reflexivity.
  - exists u', t. split; [exact E|]. split; [exact Hsent|exact Hresp].
Defined.

Lemma bearer_setup_stops_at_long_address_witness :
  exists u' t,
    setup_erabs_bearer 8 (fun k => k) default_erab_0 10
      (fun _ => false) (fun _ => false) (fun _ _ _ => false) ue_cfg_sample
      rrc_ue_70 [] ([erab_item 5 9 [1]] ++ erab_item_ipv6 6 9 [2] ::
                    [erab_item 7 9 [3]]) =
      (false, u', [] ++ t) /\
    erabs u' !! 5 = Some (erab_of_item (erab_item 5 9 [1])) /\
    gtpu_bearers t = [(70, 3, 0x7f000001, 105)] /\
    erab_setup_responses t = [] /\
    sent_dcch t = [].
Proof.
  destruct (bearer_setup_stops_at_long_address 8 (fun k => k) default_erab_0
              10 (fun _ => false) (fun _ => false) (fun _ _ _ => false)
              ue_cfg_sample (fun k _ => eq_refl) rrc_ue_70 []
              [erab_item 5 9 [1]] (erab_item_ipv6 6 9 [2])
              [erab_item 7 9 [3]])
    as (u' & t & E & _ & _ & Hin & _ & Hg & Hresp & _ & Hsent).
  - repeat constructor; cbn; lia.
  - cbn. apply NoDup_singleton.
  - cbn. lia.
  - exists u', t. split; [exact E|]. split.
    { apply (Hin (erab_item 5 9 [1])). by left. }
    split; [exact Hg|]. split; [exact Hresp|exact Hsent].
Defined.

Lemma radio_link_failure_releases_once_witness :
  exists u' t,
    process_rl_failures (fun _ _ => true) (fun _ _ => true) 3 70
      (Some rrc_ue_70) [] = (Some u', [] ++ t) /\
    rlf_cnt u' = 3 /\
    release_requests t = [s1ap_user_release 70].
Proof.
  destruct (radio_link_failure_releases_once (fun _ _ => true)
              (fun _ _ => true) 3 70 rrc_ue_70 [])
    as (u' & t & E & Hc & Hr).
  - cbn. lia.
  - cbn. lia.
  - exists u', t. split; [exact E|]. split; [exact Hc|exact Hr].
Defined.

Lemma security_mode_command_algorithms_witness :
  exists t lcid,
    snd (send_security_mode_command 8 (fun _ => false) (fun _ => false)
           (fun _ _ _ => false)
           (fst (set_security_key ue_cfg_sample rrc_ue_70 []
                   (map Z.of_nat (seq 0 32))))
           (snd (set_security_key ue_cfg_sample rrc_ue_70 []
                   (map Z.of_nat (seq 0 32))))) = [] ++ t /\
    sent_dcch t = [(70, lcid, security_mode_cmd_msg 0 0 0)].
Proof.
  destruct (security_mode_command_algorithms 8 (fun _ => false)
              (fun _ => false) (fun _ _ _ => false) ue_cfg_sample rrc_ue_70 []
              (map Z.of_nat (seq 0 32)))
    as (t & lcid & E & Hsent & _).
  - reflexivity.
  - exists t, lcid. split; [exact E|exact Hsent].
Defined.

Lemma security_mode_complete_reply_witness :
  state (fst (parse_ul_dcch 8 (fun k => k) default_erab_0 10
                (fun _ => false) (fun _ => false) (fun _ _ _ => false)
                ue_cfg_sample rrc_ue_70 [] ul_security_mode_complete)) =
    RRC_STATE_WAIT_FOR_CON_RECONF_COMPLETE /\
  exists t,
    snd (parse_ul_dcch 8 (fun k => k) default_erab_0 10
           (fun _ => false) (fun _ => false) (fun _ _ _ => false)
           ue_cfg_sample rrc_ue_70 [] ul_security_mode_complete) = [] ++ t /\
    sent_dcch t = [].
Proof.
  destruct (security_mode_complete_reply 8 (fun k => k) default_erab_0 10
              (fun _ => false) (fun _ => false) (fun _ _ _ => false)
              ue_cfg_sample (fun k _ => eq_refl) rrc_ue_70 [])
    as (Hs & _ & t & lcid & E & _ & Hsent & _).
  split; [exact Hs|]. exists t. split; [exact E|exact Hsent].
Defined.

Lemma connection_request_outcome_witness :
  state (conn_ue (fst (handle_rrc_con_req 8 (fun _ => false) ue_cfg_sample
                         Pucch.cfg_small 20 40 false (fun _ => false)
                         conn_70 [] None))) =
    RRC_STATE_WAIT_FOR_CON_SETUP_COMPLETE /\
  conn_sr_sched (fst (handle_rrc_con_req 8 (fun _ => false) ue_cfg_sample
                        Pucch.cfg_small 20 40 false (fun _ => false)
                        conn_70 [] None)) 0%nat 0%nat = 1 /\
  exists t1 t2,
    snd (handle_rrc_con_req 8 (fun _ => false) ue_cfg_sample
           Pucch.cfg_small 20 40 false (fun _ => false) conn_70 [] None) =
      [] ++ t1 ++ t2 ++
      [timer_set 1000;
       ue_log (dbg_setting_timer UE_RESPONSE_RX_TIMEOUT 1000);
       timer_run; ue_log (dbg_activity_registered 1000)] /\
    sent_ccch t1 = [(70, 0, rrc_conn_reject_msg)] /\
    t2 = [].
Proof.
  destruct (connection_request_outcome 8 (fun _ => false) ue_cfg_sample
              Pucch.cfg_small 20 40 false (fun _ => false) conn_70 [] None)
    as (Hs & _ & _ & Hg & _ & t1 & t2 & E & Hsent & Ht2).
  split; [exact Hs|]. split; [rewrite Hg; reflexivity|].
  exists t1, t2. split; [exact E|]. split; [exact Hsent|exact Ht2].
Defined.

End RrcUeFacts.

(** * The PDCP dispatcher keeps to the lifetimes of its entities *)

Module PdcpFacts.
Import Pdcp.

Section EntityFacts.

Variable bearer_state_answer : list pdcp_event_t -> Z -> Z -> bool.
Variable buffered_pdus_answer : list pdcp_event_t -> Z -> Z -> list (Z * list Z).

Lemma lifetimes_app tr1 tr2 live :
  lifetimes (tr1 ++ tr2) live =
  match lifetimes tr1 live with
  | Some live' => lifetimes tr2 live'
  | None => None
  end.
Proof.
  revert live; induction tr1 as [|e tr1 IH]; intros live; [done|].
  destruct e; cbn [app lifetimes]; destruct (decide _); by rewrite ?IH.
Qed.

Lemma lifetimes_clear ks live :
  NoDup ks -> (forall k, k ∈ ks -> k ∈ live) ->
  lifetimes (flat_map clear_user ks) live = Some (live ∖ list_to_set ks).
Proof.
  revert live; induction ks as [|k ks IH]; intros live Hnd Hin.
  - cbn. f_equal. by rewrite difference_empty_L.
  - apply NoDup_cons in Hnd as [Hk Hnd].
    cbn [flat_map clear_user app lifetimes].
    rewrite !decide_True by (apply Hin; left).
    rewrite IH; [f_equal; by rewrite difference_difference_l_L|done|].
    intros k' Hk'. apply elem_of_difference; split; [apply Hin; by right|].
    intros ->%elem_of_singleton. done.
Qed.

Lemma users_in_order_perm us : users_in_order us ≡ₚ map fst (map_to_list us).
Proof. apply merge_sort_Permutation. Qed.

Lemma users_in_order_elem us k : k ∈ users_in_order us <-> k ∈ dom us.
Proof.
  rewrite users_in_order_perm, elem_of_dom.
  change (map fst (map_to_list us)) with ((map_to_list us).*1).
  rewrite list_elem_of_fmap. split.
  - intros [[k' v] [-> H%elem_of_map_to_list]]. by exists v.
  - intros [v H]. exists (k, v). split; [done|]. by apply elem_of_map_to_list.
Qed.

Lemma users_in_order_NoDup us : NoDup (users_in_order us).
Proof.
  rewrite users_in_order_perm. apply NoDup_fst_map_to_list.
Qed.

Lemma known_dom (p : pdcp_t) r :
  bool_decide (is_Some (users p !! r)) = bool_decide (r ∈ dom (users p)).
Proof. apply bool_decide_ext. by rewrite elem_of_dom. Qed.

Lemma call_user_consistent p r c :
  consistent p -> r ∈ dom (users p) -> consistent (call_user p r c).
Proof.
  intros [Hl Hw] Hr. split; [|done]. cbn [call_user calls users].
  rewrite lifetimes_app, Hl. cbn. by rewrite decide_True.
Qed.

Lemma step_consistent p op p' ret :
  consistent p -> pdcp_step bearer_state_answer buffered_pdus_answer p op = Some (p', ret) -> consistent p'.
Proof.
  intros Hc Hs. pose proof Hc as [Hl Hw].
  destruct op; cbn [pdcp_step] in Hs; rewrite ?known_dom in Hs;
    try (case_bool_decide;
         [injection Hs as <- _; by apply call_user_consistent
         |first [by injection Hs as <- _ | done]]).
  - (* stop *)
    injection Hs as <- _. split; cbn [calls users].
    + rewrite lifetimes_app, Hl, lifetimes_clear.
      * f_equal. apply set_eq. intros k.
        rewrite elem_of_difference, elem_of_list_to_set, users_in_order_elem.
        rewrite dom_empty, elem_of_empty. tauto.
      * apply users_in_order_NoDup.
      * intros k. by rewrite users_in_order_elem.
    + intros r ui H. cbn [users] in H. by rewrite lookup_empty in H.
  - (* add_user *)
    case_bool_decide as Hk; injection Hs as <- _; [done|].
    split; cbn [calls users].
    + rewrite lifetimes_app, Hl. cbn. rewrite decide_False by done.
      f_equal. by rewrite dom_insert_L.
    + intros r ui. destruct (decide (r = rnti)) as [->|Hne].
      * rewrite lookup_insert_eq. by intros [= <-].
      * rewrite lookup_insert_ne by done. apply Hw.
  - (* rem_user *)
    case_bool_decide as Hk; injection Hs as <- _; [|done].
    split; cbn [calls users].
    + rewrite lifetimes_app, Hl. cbn. rewrite !decide_True by done.
      f_equal. by rewrite dom_delete_L.
    + intros r ui H. apply lookup_delete_Some in H as [_ H]. by apply Hw.
Qed.

Lemma run_consistent ops p p' :
  consistent p -> pdcp_run bearer_state_answer buffered_pdus_answer p ops = Some p' -> consistent p'.
Proof.
  revert p; induction ops as [|op ops IH]; intros p Hc Hr; cbn in Hr.
  - by injection Hr as <-.
  - destruct (pdcp_step bearer_state_answer buffered_pdus_answer p op) as [[p1 ret]|] eqn:Hs; [|done].
    eapply IH; [|done]. by eapply step_consistent.
Qed.

Lemma new_consistent : consistent pdcp_new.
Proof.
  split; [done|]. intros r ui H. cbn [pdcp_new users] in H.
  by rewrite lookup_empty in H.
Qed.

(** Entities are used only while they exist: after any calls of the
    public functions for which the dispatcher's behaviour is defined,
    every entity was created for an rnti that had none, every call,
    stop and delete went to an entity alive at that moment, the
    entities alive at the end are exactly those of the table, and each
    entry of the table carries its own rnti in its three interfaces. *)
Theorem entities_used_while_alive (ops : list pdcp_op_t) (p : pdcp_t) :
  pdcp_run bearer_state_answer buffered_pdus_answer pdcp_new ops = Some p ->
  lifetimes (calls p) ∅ = Some (dom (users p)) /\
  users_well_formed (users p).
Proof. intros Hr. exact (run_consistent _ _ _ new_consistent Hr). Qed.

Lemma step_dom p op p' ret :
  pdcp_step bearer_state_answer buffered_pdus_answer p op = Some (p', ret) ->
  dom (users p') =
  match op with
  | pdcp_stop => ∅
  | pdcp_add_user r => {[r]} ∪ dom (users p)
  | pdcp_rem_user r => dom (users p) ∖ {[r]}
  | _ => dom (users p)
  end.
Proof.
  intros Hs.
  destruct op; cbn [pdcp_step] in Hs; rewrite ?known_dom in Hs;
    try (case_bool_decide;
         first [by injection Hs as <- _ | done]).
  - injection Hs as <- _. cbn. by rewrite dom_empty_L.
  - case_bool_decide as Hk; injection Hs as <- _; cbn [users].
    + apply set_eq. intros k. rewrite elem_of_union, elem_of_singleton.
      split; [tauto|]. by intros [->|].
    + by rewrite dom_insert_L.
  - case_bool_decide as Hk; injection Hs as <- _; cbn [users].
    + by rewrite dom_delete_L.
    + apply set_eq. intros k. rewrite elem_of_difference, elem_of_singleton.
      split; [|tauto]. intros Hin. split; [done|]. by intros ->.
Qed.

Lemma run_defined_iff ops p :
  is_Some (pdcp_run bearer_state_answer buffered_pdus_answer p ops) <-> enables_known ops (dom (users p)) = true.
Proof.
  revert p; induction ops as [|op ops IH]; intros p; cbn [pdcp_run enables_known].
  - split; [done|by eexists].
  - destruct (pdcp_step bearer_state_answer buffered_pdus_answer p op) as [[p1 ret]|] eqn:Hs.
    + rewrite IH, (step_dom _ _ _ _ Hs).
      destruct op; try done;
        cbn [pdcp_step] in Hs; rewrite known_dom in Hs;
        case_bool_decide; try done; by rewrite andb_true_l.
    + destruct op; cbn [pdcp_step] in Hs; rewrite ?known_dom in Hs;
        try done; try (by case_bool_decide);
        by case_bool_decide.
Qed.

(** The dispatcher's behaviour on a sequence of calls is defined exactly
    when each enable_integrity and enable_encryption of the sequence
    names an rnti that was added and neither removed nor stopped since;
    every other function tolerates an unknown rnti. *)
Theorem enable_needs_known_user (ops : list pdcp_op_t) :
  is_Some (pdcp_run bearer_state_answer buffered_pdus_answer pdcp_new ops) <-> enables_known ops ∅ = true.
Proof. rewrite run_defined_iff. cbn. by rewrite dom_empty_L. Qed.

End EntityFacts.

Lemma entities_used_while_alive_witness :
  lifetimes (calls sample_after) ∅ = Some (dom (users sample_after)) /\
  users_well_formed (users sample_after).
Proof.
  apply (entities_used_while_alive (fun _ _ _ => false) (fun _ _ _ => [])
           sample_ops).
  vm_compute. reflexivity.
Defined.

End PdcpFacts.
